(** * trilbys-archive: caption acquisition and its progress ledger

    A shallow embedding of [scripts/grab-captions.ts] (the primary caption
    grab) and [scripts/transcribe-fallback.ts] (the speech-to-text re-run
    over the failed list), with the properties the specification states
    about them.

    Conventions of the embedding.
    - A JavaScript string is a [string] whose characters are read as code
      units below 256; arrays are lists; [number] covers the integers and
      [NaN], an integer standing for the double of that value, which is
      exact below 2^53.
    - [async] functions are embedded by their atomic segments: the code
      between two [await]s runs without interruption, so it is one state
      transformer; the order in which suspended units are resumed is an
      explicit schedule.
    - The outside world (captions API, downloader, transcription service,
      playlist lister, clock) is a record of oracles.  An oracle answers by
      the id it is asked about: the temporary files of an id are taken to
      be used by one unit at a time. *)

From Stdlib Require Import String Ascii List ZArith Lia Bool.
From stdpp Require Import base option list gmap strings.
Import ListNotations.

Local Open Scope Z_scope.

(** ** The JavaScript runtime functions the scripts call *)

Module Js.

(** *** Numbers *)

Inductive number : Type :=
| NaN
| Int (z : Z).

Definition add (a b : number) : number :=
  match a, b with Int x, Int y => Int (x + y) | _, _ => NaN end.
Definition sub (a b : number) : number :=
  match a, b with Int x, Int y => Int (x - y) | _, _ => NaN end.
Definition mul (a b : number) : number :=
  match a, b with Int x, Int y => Int (x * y) | _, _ => NaN end.

(** ToIntegerOrInfinity, as [Array.prototype.slice] applies it. *)
Definition to_integer (n : number) : Z :=
  match n with NaN => 0 | Int z => z end.

(** *** Characters *)

Definition LF : ascii := "010"%char.

Definition code (c : ascii) : nat := nat_of_ascii c.

(** WhiteSpace and LineTerminator below 256: TAB, LF, VT, FF, CR, SP, NBSP.
    This is the set of [\s] and of [String.prototype.trim]. *)
Definition is_space (c : ascii) : bool :=
  let n := code c in
  ((9 <=? n) && (n <=? 13) || (n =? 32) || (n =? 160))%nat.

(** [\d] *)
Definition is_digit (c : ascii) : bool :=
  let n := code c in ((48 <=? n) && (n <=? 57))%nat.

Definition digit_value (c : ascii) : Z := Z.of_nat (code c) - 48.

Definition is_char (a c : ascii) : bool := Ascii.eqb a c.

(** *** Strings *)

Definition nonempty (s : string) : bool :=
  match s with EmptyString => false | String _ _ => true end.

Fixpoint trimStart (s : string) : string :=
  match s with
  | EmptyString => EmptyString
  | String c t => if is_space c then trimStart t else s
  end.

Fixpoint trimEnd (s : string) : string :=
  match s with
  | EmptyString => EmptyString
  | String c t =>
      let t' := trimEnd t in
      if is_space c && negb (nonempty t') then EmptyString else String c t'
  end.

Definition trim (s : string) : string := trimEnd (trimStart s).

Fixpoint startsWith (p s : string) : bool :=
  match p, s with
  | EmptyString, _ => true
  | String a p', String b s' => is_char a b && startsWith p' s'
  | String _ _, EmptyString => false
  end.

(** [s.includes(sub)] *)
Fixpoint includes (sub s : string) : bool :=
  startsWith sub s ||
  match s with
  | EmptyString => false
  | String _ t => includes sub t
  end.

Definition cons_head (c : ascii) (l : list string) : list string :=
  match l with
  | [] => [String c EmptyString]
  | x :: xs => String c x :: xs
  end.

(** [s.split(sep)] for a one-character separator. *)
Fixpoint split (sep : ascii) (s : string) : list string :=
  match s with
  | EmptyString => [EmptyString]
  | String c t =>
      if is_char sep c then EmptyString :: split sep t
      else cons_head c (split sep t)
  end.

Definition starts_with_LF (s : string) : bool :=
  match s with String c _ => is_char LF c | EmptyString => false end.

(** [s.split(/\n\n+/)]: a separator is a maximal run of two or more line
    feeds.  [insep] tells that the previous character belongs to a
    separator already, so that a line feed met now extends it. *)
Fixpoint split_blank_from (insep : bool) (s : string) : list string :=
  match s with
  | EmptyString => [EmptyString]
  | String c t =>
      if is_char LF c then
        if insep then split_blank_from true t
        else if starts_with_LF t then EmptyString :: split_blank_from true t
        else cons_head c (split_blank_from false t)
      else cons_head c (split_blank_from false t)
  end.

Definition split_blank (s : string) : list string := split_blank_from false s.

(** [l.join(sep)] *)
Fixpoint join (sep : string) (l : list string) : string :=
  match l with
  | [] => EmptyString
  | [x] => x
  | x :: xs => x +:+ sep +:+ join sep xs
  end.

(** [<[^>]+>] matches at a ["<"] exactly when the text after it starts
    with a character other than [">"] and has a [">"] further on; it then
    extends to the first such [">"]. *)
Definition opens_tag (after : string) : bool :=
  match after with
  | EmptyString => false
  | String c t => negb (is_char ">" c) && includes ">" t
  end.

(** [s.replace(/<[^>]+>/g, empty)]; [intag] is set while the scan is inside a
    match. *)
Fixpoint strip_tags_from (intag : bool) (s : string) : string :=
  match s with
  | EmptyString => EmptyString
  | String c t =>
      if intag then strip_tags_from (negb (is_char ">" c)) t
      else if is_char "<" c && opens_tag t then strip_tags_from true t
      else String c (strip_tags_from false t)
  end.

Definition strip_tags (s : string) : string := strip_tags_from false s.

(** *** parseInt *)

Fixpoint digits_value (acc : Z) (s : string) : Z :=
  match s with
  | EmptyString => acc
  | String c t =>
      if is_digit c then digits_value (10 * acc + digit_value c) t else acc
  end.

Definition starts_with_digit (s : string) : bool :=
  match s with String c _ => is_digit c | EmptyString => false end.

Definition unsigned_int (s : string) : number :=
  if starts_with_digit s then Int (digits_value 0 s) else NaN.

(** [parseInt(s, 10)]: leading white space, an optional sign, then the
    longest run of decimal digits; [NaN] when there is none. *)
Definition parseInt (s : string) : number :=
  match trimStart s with
  | String "-" t => mul (Int (-1)) (unsigned_int t)
  | String "+" t => unsigned_int t
  | t => unsigned_int t
  end.

(** *** Arrays *)

(** [l.find(p)] is [List.find]. [l.indexOf(x)], with -1 for absence. *)
Fixpoint indexOf (x : string) (l : list string) : Z :=
  match l with
  | [] => -1
  | y :: ys =>
      if String.eqb x y then 0
      else let i := indexOf x ys in if i <? 0 then -1 else i + 1
  end.

(** A relative index clamped into [0, len]. *)
Definition clamp_index (len i : Z) : Z :=
  if i <? 0 then Z.max (len + i) 0 else Z.min i len.

(** [l.slice(start, end)] *)
Definition slice {A} (l : list A) (start stop : Z) : list A :=
  let len := Z.of_nat (length l) in
  let k := clamp_index len start in
  let f := clamp_index len stop in
  take (Z.to_nat (f - k)) (drop (Z.to_nat k) l).

(** [l.slice(start)] *)
Definition slice_from {A} (l : list A) (start : Z) : list A :=
  slice l start (Z.of_nat (length l)).

(** [l.includes(x)] on an array of strings. *)
Definition array_includes (x : string) (l : list string) : bool :=
  existsb (String.eqb x) l.

(** [x || fallback] on a string field that may be missing. *)
Definition or_string (x : option string) (fallback : string) : string :=
  match x with
  | Some (String c t) => String c t
  | _ => fallback
  end.

(** [x || fallback] on a number field that may be missing. *)
Definition or_number (x : option number) (fallback : number) : number :=
  match x with
  | Some (Int z) => if z =? 0 then fallback else Int z
  | _ => fallback
  end.

End Js.

(** ** Data model (the interfaces shared by the two scripts) *)

Record VideoInfo : Type := {
  id : string;
  title : string;
  url : string;
  duration : Js.number;
  playlistId : string;
  playlistTitle : string
}.

Record CaptionEntry : Type := {
  text : string;
  offset : Js.number;
  cduration : Js.number   (* the field [duration] of a caption entry *)
}.

Record VideoCaption : Type := {
  video : VideoInfo;
  captions : list CaptionEntry;
  fetchedAt : string
}.

Record FailedVideo : Type := {
  fid : string;           (* the field [id] of a failed entry *)
  error : string;
  lastAttempt : string
}.

Record Progress : Type := {
  processedVideos : list string;
  failedVideos : list FailedVideo;
  lastRun : string
}.

(** A rejected promise or a thrown exception carries a message. *)
Inductive Result (A : Type) : Type :=
| Ok (a : A)
| Err (message : string).
Arguments Ok {A} a.
Arguments Err {A} message.

(** ** The subtitle-file format ([parseVttFile]) *)

Module Vtt.
Import Js.

(** The eight groups of
    [(\d{2}):(\d{2}):(\d{2})\.(\d{3})\s*-->\s*(\d{2}):(\d{2}):(\d{2})\.(\d{3})]. *)
Record Groups : Type := {
  g1 : string; g2 : string; g3 : string; g4 : string;
  g5 : string; g6 : string; g7 : string; g8 : string
}.

(** [\d{n}]: the digits taken and the rest. *)
Fixpoint digits (n : nat) (s : string) : option (string * string) :=
  match n with
  | O => Some (EmptyString, s)
  | S n' =>
      match s with
      | String c t =>
          if is_digit c then
            match digits n' t with
            | Some (d, r) => Some (String c d, r)
            | None => None
            end
          else None
      | EmptyString => None
      end
  end.

(** A literal. *)
Fixpoint lit (p s : string) : option string :=
  match p, s with
  | EmptyString, _ => Some s
  | String a p', String b s' => if is_char a b then lit p' s' else None
  | String _ _, EmptyString => None
  end.

(** [(\d{2}):(\d{2}):(\d{2})\.(\d{3})] *)
Definition clock (s : string) : option (string * string * string * string * string) :=
  '(h, r) ← digits 2 s;
  r ← lit ":" r;
  '(m, r) ← digits 2 r;
  r ← lit ":" r;
  '(sec, r) ← digits 2 r;
  r ← lit "." r;
  '(ms, r) ← digits 3 r;
  Some (h, m, sec, ms, r).

(** The pattern anchored at the start of [s].  [\s*] is greedy; what
    follows it never starts with white space, so no shorter run can
    match where the longest one fails. *)
Definition match_here (s : string) : option Groups :=
  '(h1, m1, s1, ms1, r) ← clock s;
  r ← lit "-->" (trimStart r);
  '(h2, m2, s2, ms2, _) ← clock (trimStart r);
  Some {| g1 := h1; g2 := m1; g3 := s1; g4 := ms1;
          g5 := h2; g6 := m2; g7 := s2; g8 := ms2 |}.

(** [line.match(pattern)]: the leftmost position where the pattern matches. *)
Fixpoint match_line (s : string) : option Groups :=
  match match_here s with
  | Some g => Some g
  | None =>
      match s with
      | EmptyString => None
      | String _ t => match_line t
      end
  end.

Definition millis (h m s ms : string) : number :=
  add (add (add (mul (parseInt h) (Int 3600000))
                (mul (parseInt m) (Int 60000)))
           (mul (parseInt s) (Int 1000)))
      (parseInt ms).

(** The body of the loop over the blocks: the entry a block contributes,
    if any. *)
Definition parseBlock (block : string) : option CaptionEntry :=
  let lines := split LF (trim block) in
  match List.find (includes "-->") lines with
  | None => None
  | Some timestampLine =>
      match match_line timestampLine with
      | None => None
      | Some g =>
          let startMs := millis (g1 g) (g2 g) (g3 g) (g4 g) in
          let endMs := millis (g5 g) (g6 g) (g7 g) (g8 g) in
          let textStartIdx := indexOf timestampLine lines + 1 in
          let text := trim (strip_tags (join " " (slice_from lines textStartIdx))) in
          if nonempty text
          then Some {| text := text; offset := startMs; cduration := sub endMs startMs |}
          else None
      end
  end.

(** What [parseVttFile] does with the content of the file. *)
Definition parseVtt (content : string) : list CaptionEntry :=
  omap parseBlock (split_blank content).

(** [parseVttFile(vttPath)] over the files of the temporary directory. *)
Definition parseVttFile (files : gmap string string) (vttPath : string)
  : list CaptionEntry :=
  match files !! vttPath with
  | None => []
  | Some content => parseVtt content
  end.

Definition nl : string := String LF EmptyString.

(** The two-cue sample of the specification. *)
Definition sample : string :=
  "00:00:01.000 --> 00:00:02.500" +:+ nl +:+ "Hello <c>world</c>" +:+ nl +:+ nl +:+
  "00:00:03.000 --> 00:00:04.000" +:+ nl +:+ "Second line".

End Vtt.

(** ** The parsing contract of the specification

    The subtitle-file format as the specification words it, to compare
    [Vtt.parseVttFile] with: a file is a sequence of blocks separated by
    one or more blank lines; a block may hold a cue, whose timing line
    [HH:MM:SS.mmm --> HH:MM:SS.mmm] is followed by the lines of its text. *)

Module VttSpec.

Record Clock : Type := {
  hours : nat;
  minutes : nat;
  seconds : nat;
  millis : nat
}.

(** [H*3600000 + M*60000 + S*1000 + mmm] *)
Definition milliseconds (c : Clock) : Z :=
  Z.of_nat (hours c) * 3600000 + Z.of_nat (minutes c) * 60000 +
  Z.of_nat (seconds c) * 1000 + Z.of_nat (millis c).

Definition in_range (c : Clock) : Prop :=
  (hours c < 100 /\ minutes c < 100 /\ seconds c < 100 /\ millis c < 1000)%nat.

Definition digit (k : nat) : ascii := ascii_of_nat (48 + k).

(** Two decimal digits, then [rest]. *)
Definition two (n : nat) (rest : string) : string :=
  String (digit (n / 10)) (String (digit (n mod 10)) rest).

(** Three decimal digits, then [rest]. *)
Definition three (n : nat) (rest : string) : string :=
  String (digit (n / 100)) (two (n mod 100) rest).

(** [HH:MM:SS.mmm], then [rest]. *)
Definition clock_then (c : Clock) (rest : string) : string :=
  two (hours c)
    (String ":" (two (minutes c)
       (String ":" (two (seconds c)
          (String "." (three (millis c) rest)))))).

Definition timing_line (c1 c2 : Clock) : string :=
  clock_then c1 (" --> " +:+ clock_then c2 EmptyString).

(** A block: lines that are no timing line (a header, a note, a cue
    identifier), then possibly a cue: its start, its end, the lines of its
    text. *)
Record Block : Type := {
  before : list string;
  cue : option (Clock * Clock * list string)
}.

(** The lines after the timing line joined with a single space, the tags
    stripped, the result trimmed. *)
Definition cue_text (body : list string) : string :=
  Js.trim (Js.strip_tags (Js.join " " body)).

(** The segment of a block; none without a cue, or when the text is
    empty. *)
Definition entry_of (b : Block) : option CaptionEntry :=
  match cue b with
  | Some (c1, c2, body) =>
      if Js.nonempty (cue_text body)
      then Some {| text := cue_text body;
                   offset := Js.Int (milliseconds c1);
                   cduration := Js.Int (milliseconds c2 - milliseconds c1) |}
      else None
  | None => None
  end.

(** *** Reading a block

    A line matches the pattern when [HH:MM:SS.mmm], an arrow and
    [HH:MM:SS.mmm] stand somewhere in it, white space around the arrow
    being free; the first such place gives the two clocks. *)


(** What follows [p] at the start of [s]. *)
Fixpoint after (p s : string) : option string :=
  match p, s with
  | EmptyString, _ => Some s
  | String a p', String b s' => if Ascii.eqb a b then after p' s' else None
  | String _ _, EmptyString => None
  end.









End VttSpec.

(** The groups the pattern captures on the timing line of two clocks. *)
Definition groups_of (c1 c2 : VttSpec.Clock) : Vtt.Groups :=
  {| Vtt.g1 := VttSpec.two (VttSpec.hours c1) EmptyString;
     Vtt.g2 := VttSpec.two (VttSpec.minutes c1) EmptyString;
     Vtt.g3 := VttSpec.two (VttSpec.seconds c1) EmptyString;
     Vtt.g4 := VttSpec.three (VttSpec.millis c1) EmptyString;
     Vtt.g5 := VttSpec.two (VttSpec.hours c2) EmptyString;
     Vtt.g6 := VttSpec.two (VttSpec.minutes c2) EmptyString;
     Vtt.g7 := VttSpec.two (VttSpec.seconds c2) EmptyString;
     Vtt.g8 := VttSpec.three (VttSpec.millis c2) EmptyString |}.

(** ** The outside world *)

(** The three acquisition strategies. *)
Inductive Adapter : Type :=
| DirectCaption    (* YoutubeTranscript.fetchTranscript *)
| SubtitleFile     (* fetchCaptionsWithYtDlp *)
| SpeechToText.    (* transcribeWithGroq *)

(** What a run does to the outside, in the order it does it. *)
Inductive Event : Type :=
| Invoke (a : Adapter) (videoId : string)
| SweepTemp (videoId : string)      (* cleanupTempFiles *)
| SweepAudio (videoId : string)     (* cleanupAudio *)
| Retry (videoId : string).         (* processVideo entered *)

(** An item of the transcript the captions library returns. *)
Record TranscriptItem : Type := {
  t_text : string;
  t_offset : Js.number;
  t_duration : Js.number
}.

(** A line of the playlist dump, once read as JSON; a field that is
    missing, [null], [0] or empty is falsy. *)
Record YtDlpEntry : Type := {
  e_id : string;
  e_title : option string;
  e_duration : option Js.number
}.

(** The video description [getVideoInfo] reads. *)
Record VideoDump : Type := {
  d_title : option string;
  d_duration : option Js.number;
  d_playlist_id : option string;
  d_playlist_title : option string
}.

(** A segment of a transcription; its times are in seconds, of which the
    embedding has the whole numbers. *)
Record GroqSegment : Type := {
  s_start : Js.number;
  s_end : Js.number;
  s_text : string
}.

Record World : Type := {
  (** [YoutubeTranscript.fetchTranscript(id)]: throws, or returns a
      transcript, possibly none. *)
  fetchTranscript : string -> Result (option (list TranscriptItem));
  (** [mkdir -p] of the temporary directory. *)
  mkdirTemp : Result unit;
  (** The subtitle download for an id: throws, or leaves these files (path
      to content) in the temporary directory. *)
  ytdlpSubtitles : string -> Result (gmap string string);
  (** The playlist dump, line by line; [None] is a line that is empty or
      not JSON. *)
  ytdlpPlaylist : string -> Result (list (option YtDlpEntry));
  (** [yt-dlp --dump-json] of one video, read as JSON. *)
  ytdlpVideoInfo : string -> Result VideoDump;
  (** [mkdir -p] of the audio directory. *)
  mkdirAudio : Result unit;
  (** Whether the audio file of an id is there already. *)
  audioExists : string -> bool;
  (** The audio download for an id. *)
  ytdlpAudio : string -> Result unit;
  (** The transcription of an audio file under a prompt: throws, or
      returns segments, possibly none. *)
  groqTranscribe : string -> string -> Result (option (list GroqSegment))
}.

(** ** Durable storage *)

(** The progress file holds a ledger, or something that does not read as
    JSON. *)
Inductive ProgressFile : Type :=
| Ledger (p : Progress)
| Corrupt (content : string).

Record Disk : Type := {
  progressFile : option ProgressFile;
  (** The record files, by path. *)
  captionFiles : gmap string VideoCaption
}.

(** The calls of [Bun.write]. *)
Inductive Write : Type :=
| WroteKeep
| WroteCaption (path : string) (c : VideoCaption)
| WroteProgress (p : Progress).

Definition DATA_DIR : string := "./data".
Definition CAPTIONS_DIR : string := DATA_DIR +:+ "/captions".
Definition PROGRESS_FILE : string := DATA_DIR +:+ "/progress.json".

Definition caption_path (videoId : string) : string :=
  CAPTIONS_DIR +:+ "/" +:+ videoId +:+ ".json".

(** The ledger of a first run. *)
Definition fresh : Progress :=
  {| processedVideos := []; failedVideos := []; lastRun := EmptyString |}.

(** [loadProgress], declared alike in both scripts: [file.json()] rejects
    on a content that is not JSON, and nothing here catches that. *)
Definition loadProgress (d : Disk) : Result Progress :=
  match progressFile d with
  | Some (Ledger p) => Ok p
  | Some (Corrupt _) => Err "SyntaxError: JSON Parse error"
  | None => Ok fresh
  end.

Definition stamp (now : string) (p : Progress) : Progress :=
  {| processedVideos := processedVideos p;
     failedVideos := failedVideos p;
     lastRun := now |}.

(** [saveProgress]: the ledger object itself gets the new [lastRun], and
    that is what is written. *)
Definition saveProgress (now : string) (p : Progress) (d : Disk)
  : Progress * Disk :=
  let p' := stamp now p in
  (p', {| progressFile := Some (Ledger p'); captionFiles := captionFiles d |}).

(** [saveCaptions] *)
Definition saveCaptions (c : VideoCaption) (d : Disk) : Disk :=
  {| progressFile := progressFile d;
     captionFiles := <[caption_path (id (video c)) := c]> (captionFiles d) |}.

(** ** The ledger updates *)

(** [progress.processedVideos.push(id)] *)
Definition markDone (videoId : string) (p : Progress) : Progress :=
  {| processedVideos := processedVideos p ++ [videoId];
     failedVideos := failedVideos p;
     lastRun := lastRun p |}.

Definition has_id (videoId : string) (f : FailedVideo) : bool :=
  String.eqb (fid f) videoId.

Definition touch (now : string) (f : FailedVideo) : FailedVideo :=
  {| fid := fid f; error := error f; lastAttempt := now |}.

(** The first entry of the id gets the new [lastAttempt]: what the
    assignment to [existingFailure.lastAttempt] does to the array that
    holds the object. *)
Fixpoint touch_first (videoId now : string) (l : list FailedVideo)
  : list FailedVideo :=
  match l with
  | [] => []
  | f :: fs =>
      if has_id videoId f then touch now f :: fs
      else f :: touch_first videoId now fs
  end.

(** The [else] branch of a unit of the primary run. *)
Definition markFailed (videoId now : string) (p : Progress) : Progress :=
  {| processedVideos := processedVideos p;
     failedVideos :=
       match List.find (has_id videoId) (failedVideos p) with
       | Some _ => touch_first videoId now (failedVideos p)
       | None =>
           failedVideos p ++
           [{| fid := videoId; error := "No captions available"; lastAttempt := now |}]
       end;
     lastRun := lastRun p |}.

(** What [processVideo] does to the ledger on success. *)
Definition markTranscribed (videoId : string) (p : Progress) : Progress :=
  {| processedVideos := processedVideos p ++ [videoId];
     failedVideos := List.filter (fun f => negb (has_id videoId f)) (failedVideos p);
     lastRun := lastRun p |}.

(** ** A command: the statements of the module, then
    [main().catch(console.error)] *)

(** What [main] leaves behind when its promise settles. *)
Record Outcome : Type := {
  settled : Result unit;
  final : Disk;
  written : list Write;
  happened : list Event;
  stderr : list string
}.

(** How the process ends. *)
Record Exit : Type := {
  status : Z;
  errors : list string
}.

(** [p.catch(handler)]: the promise it returns is fulfilled with what the
    handler returns when [p] rejects; [console.error] returns after
    printing its argument on standard error. *)
Definition catch_console_error (p : Result unit) : Result unit * list string :=
  match p with
  | Ok _ => (Ok (), [])
  | Err e => (Ok (), [e])
  end.

(** The runtime ends the process with status 1 when a rejection is left
    without a handler, printing it on standard error, and with status 0
    when nothing is left to run. *)
Definition exit_of (p : Result unit) : Exit :=
  match p with
  | Ok _ => {| status := 0; errors := [] |}
  | Err e => {| status := 1; errors := [e] |}
  end.

(** The last line of both scripts. *)
Definition command (o : Outcome) : Exit :=
  let '(p, printed) := catch_console_error (settled o) in
  let e := exit_of p in
  {| status := status e; errors := stderr o ++ printed ++ errors e |}.

(** A script run from its first statement: how the process ends, and what
    [main] left behind if it was called. *)
Record Process : Type := {
  exit : Exit;
  ran : option Outcome
}.

(** The statements of the module run first.  An exception thrown by one
    of them is caught by nothing: the runtime prints it and ends the
    process with status 1, and the last line, the call of [main], is never
    reached. *)
Definition script (statements : Result unit) (o : Outcome) : Process :=
  match statements with
  | Ok _ => {| exit := command o; ran := Some o |}
  | Err e => {| exit := exit_of (Err e); ran := None |}
  end.

(** ** [scripts/grab-captions.ts] *)

Module GrabCaptions.

Definition PLAYLISTS : list (string * string) :=
  [("PLAbMhAYRuCUhawCEV2oXZGrienoKTN16X", "Zero Punctuation");
   ("PLUBKwq0XD0ueR3CXGUhGpsD1puLcYJPUp", "Second Wind")].

Definition CONCURRENCY_LIMIT : nat := 10.

Definition videoOfEntry (playlistId playlistName : string) (entry : YtDlpEntry)
  : VideoInfo :=
  {| id := e_id entry;
     title := Js.or_string (e_title entry) "Unknown";
     url := "https://youtu.be/" +:+ e_id entry;
     duration := Js.or_number (e_duration entry) (Js.Int 0);
     playlistId := playlistId;
     playlistTitle := playlistName |}.

(** A failure of the lister is thrown to the caller; an empty or
    malformed line is skipped. *)
Definition fetchPlaylistVideos (w : World) (playlistId playlistName : string)
  : Result (list VideoInfo) :=
  match ytdlpPlaylist w playlistId with
  | Err e => Err e
  | Ok lines => Ok (omap (fmap (videoOfEntry playlistId playlistName)) lines)
  end.

Definition tempDir : string := DATA_DIR +:+ "/temp".

Definition vttFiles (videoId : string) : list string :=
  let tempFile := tempDir +:+ "/" +:+ videoId in
  [tempFile +:+ ".en.vtt"; tempFile +:+ ".en-orig.vtt"; tempFile +:+ ".en-US.vtt"].

(** The loop over the candidate files: the first one with entries wins. *)
Fixpoint first_parsed (files : gmap string string) (paths : list string)
  : option (list CaptionEntry) :=
  match paths with
  | [] => None
  | vttPath :: rest =>
      match Vtt.parseVttFile files vttPath with
      | [] => first_parsed files rest
      | entries => Some entries
      end
  end.

(** The subtitle-file adapter.  Every path through it, the [catch]
    included, sweeps the temporary files of the id and then returns. *)
Definition fetchCaptionsWithYtDlp (w : World) (video : VideoInfo)
  : list Event * option (list CaptionEntry) :=
  let found :=
    match mkdirTemp w with
    | Err _ => None
    | Ok _ =>
        match ytdlpSubtitles w (id video) with
        | Err _ => None
        | Ok files => first_parsed files (vttFiles (id video))
        end
    end in
  ([Invoke SubtitleFile (id video); SweepTemp (id video)], found).

Definition entryOfItem (entry : TranscriptItem) : CaptionEntry :=
  {| text := t_text entry; offset := t_offset entry; cduration := t_duration entry |}.

(** The resolver. *)
Definition fetchCaptions (w : World) (video : VideoInfo)
  : list Event * option (list CaptionEntry) :=
  match fetchTranscript w (id video) with
  | Ok (Some (entry :: more)) =>
      ([Invoke DirectCaption (id video)], Some (map entryOfItem (entry :: more)))
  | _ =>
      let '(events, found) := fetchCaptionsWithYtDlp w video in
      (Invoke DirectCaption (id video) :: events, found)
  end.

(** *** The pool of units *)

(** Where a unit is suspended. *)
Inductive Phase : Type :=
| AwaitFetch          (* queued, or at [await fetchCaptions(video)] *)
| AwaitSaveCaptions   (* at [await saveCaptions(captionData)] *)
| AwaitSaveProgress   (* at [await saveProgress(progress)] *)
| Finished.

Definition is_finished (ph : Phase) : bool :=
  match ph with Finished => true | _ => false end.

(** What the units share: the variables of [main] they close over, the
    disk, and what has been done to the outside so far. *)
Record Run : Type := {
  progress : Progress;
  completed : nat;
  processed : nat;
  failed : nat;
  disk : Disk;
  writes : list Write;
  events : list Event;
  phases : list Phase
}.

(** [pLimit(CONCURRENCY_LIMIT)] starts the units in the order of
    submission, one more for each that has settled. *)
Definition started (i : nat) (st : Run) : bool :=
  (i <? CONCURRENCY_LIMIT + length (List.filter is_finished (phases st)))%nat.

Definition set_phase (i : nat) (ph : Phase) (st : Run) : Run :=
  {| progress := progress st; completed := completed st;
     processed := processed st; failed := failed st;
     disk := disk st; writes := writes st; events := events st;
     phases := <[i := ph]> (phases st) |}.

(** [if (completed % 50 === 0) await saveProgress(progress)], and the end
    of the unit. *)
Definition periodic (now : string) (i : nat) (st : Run) : Run :=
  if (completed st mod 50 =? 0)%nat then
    let '(p, d) := saveProgress now (progress st) (disk st) in
    {| progress := p; completed := completed st;
       processed := processed st; failed := failed st;
       disk := d; writes := writes st ++ [WroteProgress p];
       events := events st;
       phases := <[i := AwaitSaveProgress]> (phases st) |}
  else set_phase i Finished st.

(** From the return of [fetchCaptions] to the next [await]. *)
Definition after_fetch (w : World) (now : string) (i : nat) (video : VideoInfo)
    (st : Run) : Run :=
  let '(evs, found) := fetchCaptions w video in
  match found with
  | Some (entry :: more) =>
      let captionData :=
        {| video := video; captions := entry :: more; fetchedAt := now |} in
      {| progress := progress st; completed := S (completed st);
         processed := processed st; failed := failed st;
         disk := saveCaptions captionData (disk st);
         writes := writes st ++ [WroteCaption (caption_path (id video)) captionData];
         events := events st ++ evs;
         phases := <[i := AwaitSaveCaptions]> (phases st) |}
  | _ =>
      periodic now i
        {| progress := markFailed (id video) now (progress st);
           completed := S (completed st);
           processed := processed st; failed := S (failed st);
           disk := disk st; writes := writes st;
           events := events st ++ evs;
           phases := phases st |}
  end.

(** From the return of [saveCaptions] to the next [await]. *)
Definition after_save (now : string) (i : nat) (video : VideoInfo) (st : Run)
  : Run :=
  periodic now i
    {| progress := markDone (id video) (progress st);
       completed := completed st;
       processed := S (processed st); failed := failed st;
       disk := disk st; writes := writes st; events := events st;
       phases := phases st |}.

(** Unit [i] is resumed at time [now] and runs to its next [await]. *)
Definition resume (w : World) (pendingVideos : list VideoInfo)
    (st : Run) (ev : nat * string) : Run :=
  let '(i, now) := ev in
  match phases st !! i, pendingVideos !! i with
  | Some AwaitFetch, Some video =>
      if started i st then after_fetch w now i video st else st
  | Some AwaitSaveCaptions, Some video => after_save now i video st
  | Some AwaitSaveProgress, Some _ => set_phase i Finished st
  | _, _ => st
  end.

(** The same as a relation: what one resumption of unit [i] can make of
    the shared state. *)
Inductive Step (w : World) (pendingVideos : list VideoInfo) (i : nat)
    (now : string) (st : Run) : Run -> Prop :=
| step_idle :
    Step w pendingVideos i now st st
| step_captions (video : VideoInfo) :
    pendingVideos !! i = Some video ->
    phases st !! i = Some AwaitFetch ->
    started i st = true ->
    snd (fetchCaptions w video) <> None ->
    Step w pendingVideos i now st (after_fetch w now i video st)
| step_no_captions (video : VideoInfo) :
    pendingVideos !! i = Some video ->
    phases st !! i = Some AwaitFetch ->
    started i st = true ->
    snd (fetchCaptions w video) = None ->
    Step w pendingVideos i now st
      (periodic now i
         {| progress := markFailed (id video) now (progress st);
            completed := S (completed st);
            processed := processed st; failed := S (failed st);
            disk := disk st; writes := writes st;
            events := events st ++ fst (fetchCaptions w video);
            phases := phases st |})
| step_saved (video : VideoInfo) :
    pendingVideos !! i = Some video ->
    phases st !! i = Some AwaitSaveCaptions ->
    Step w pendingVideos i now st (after_save now i video st)
| step_flushed :
    phases st !! i = Some AwaitSaveProgress ->
    Step w pendingVideos i now st (set_phase i Finished st).

(** The resumptions in the order and at the times of a schedule. *)
Definition run_schedule (w : World) (pendingVideos : list VideoInfo)
    (schedule : list (nat * string)) (st : Run) : Run :=
  fold_left (resume w pendingVideos) schedule st.

(** Every unit settles: the adapters return and the writes complete.
    What a schedule leaves suspended is resumed in the order of
    submission. *)
Definition drain (w : World) (pendingVideos : list VideoInfo) (now : string)
    (st : Run) : Run :=
  fold_left
    (fun st i => resume w pendingVideos
                   (resume w pendingVideos
                      (resume w pendingVideos st (i, now)) (i, now)) (i, now))
    (seq 0 (length pendingVideos)) st.

(** [await Promise.all(tasks)] *)
Definition pool (w : World) (pendingVideos : list VideoInfo)
    (schedule : list (nat * string)) (now : string) (st : Run) : Run :=
  drain w pendingVideos now (run_schedule w pendingVideos schedule st).

(** *** [main] *)

(** The loop over the playlists: a lister that throws is reported on
    standard error and its playlist contributes nothing. *)
Fixpoint collect (w : World) (playlists : list (string * string))
  : list VideoInfo * list string :=
  match playlists with
  | [] => ([], [])
  | (playlistId, name) :: rest =>
      let '(more, errs) := collect w rest in
      match fetchPlaylistVideos w playlistId name with
      | Ok videos => (videos ++ more, errs)
      | Err e => (more, ("  Failed to fetch playlist " +:+ name +:+ ": " +:+ e) :: errs)
      end
  end.

Definition allVideos (w : World) : list VideoInfo := fst (collect w PLAYLISTS).

(** [allVideos.filter((v) => !progress.processedVideos.includes(v.id))] *)
Definition pendingVideos (p : Progress) (videos : list VideoInfo)
  : list VideoInfo :=
  List.filter (fun v => negb (Js.array_includes (id v) (processedVideos p))) videos.

Definition start (p : Progress) (d : Disk) (pending : list VideoInfo) : Run :=
  {| progress := p; completed := 0; processed := 0; failed := 0;
     disk := d; writes := [WroteKeep]; events := [];
     phases := replicate (length pending) AwaitFetch |}.

(** [main], under a schedule of the units; [now] is the time of what
    remains after the schedule. *)
Definition main (w : World) (d : Disk) (schedule : list (nat * string))
    (now : string) : Outcome :=
  match loadProgress d with
  | Err e =>
      {| settled := Err e; final := d; written := [WroteKeep];
         happened := []; stderr := [] |}
  | Ok p =>
      let '(videos, errs) := collect w PLAYLISTS in
      let pending := pendingVideos p videos in
      match pending with
      | [] =>
          {| settled := Ok (); final := d; written := [WroteKeep];
             happened := []; stderr := errs |}
      | _ :: _ =>
          let st := pool w pending schedule now (start p d pending) in
          let '(p', d') := saveProgress now (progress st) (disk st) in
          {| settled := Ok (); final := d';
             written := writes st ++ [WroteProgress p'];
             happened := events st; stderr := errs |}
      end
  end.

(** [bun run captions]: before its last line the module declares
    constants and functions only, and none of these statements throws. *)
Definition captions (w : World) (d : Disk) (schedule : list (nat * string))
    (now : string) : Process :=
  script (Ok ()) (main w d schedule now).

End GrabCaptions.

(** ** [scripts/transcribe-fallback.ts] *)

Module TranscribeFallback.

Definition TEMP_DIR : string := DATA_DIR +:+ "/temp-audio".
Definition CONCURRENCY_LIMIT : nat := 5.

(** The description of the video, or [null] after reporting the error. *)
Definition getVideoInfo (w : World) (videoId : string)
  : list string * option VideoInfo :=
  match ytdlpVideoInfo w videoId with
  | Ok data =>
      ([], Some {| id := videoId;
                   title := Js.or_string (d_title data) "Unknown";
                   url := "https://youtu.be/" +:+ videoId;
                   duration := Js.or_number (d_duration data) (Js.Int 0);
                   playlistId := Js.or_string (d_playlist_id data) "unknown";
                   playlistTitle := Js.or_string (d_playlist_title data) "Zero Punctuation" |})
  | Err e => (["Failed to get video info for " +:+ videoId +:+ ": " +:+ e], None)
  end.

(** The path of the audio file, or [null] after reporting the error. *)
Definition downloadAudio (w : World) (videoId : string)
  : list string * option string :=
  let outputPath := TEMP_DIR +:+ "/" +:+ videoId +:+ ".wav" in
  let report e := ["  Failed to download audio for " +:+ videoId +:+ ": " +:+ e] in
  match mkdirAudio w with
  | Err e => (report e, None)
  | Ok _ =>
      if audioExists w videoId then ([], Some outputPath)
      else
        match ytdlpAudio w videoId with
        | Err e => (report e, None)
        | Ok _ => ([], Some outputPath)
        end
  end.

Definition entryOfSegment (segment : GroqSegment) : CaptionEntry :=
  {| text := Js.trim (s_text segment);
     offset := s_start segment;
     cduration := Js.sub (s_end segment) (s_start segment) |}.

(** The speech-to-text adapter; what the service throws is thrown on. *)
Definition transcribeWithGroq (w : World) (audioPath videoTitle : string)
  : Result (list CaptionEntry) :=
  let prompt :=
    "Video game review: " +:+ videoTitle +:+ ". British accent, fast-paced commentary." in
  match groqTranscribe w audioPath prompt with
  | Err e => Err e
  | Ok None => Ok []
  | Ok (Some segments) => Ok (map entryOfSegment segments)
  end.

(** [processVideo] up to the call of [saveCaptions]: the record to save,
    or nothing on the paths that return [false]. *)
Definition attempt (w : World) (now videoId : string)
  : list Event * list string * option VideoCaption :=
  match getVideoInfo w videoId with
  | (errs, None) => ([Retry videoId], errs, None)
  | (errs, Some videoInfo) =>
      match downloadAudio w videoId with
      | (errs', None) => ([Retry videoId], errs ++ errs', None)
      | (errs', Some audioPath) =>
          match transcribeWithGroq w audioPath (title videoInfo) with
          | Err e =>
              ([Retry videoId; Invoke SpeechToText videoId; SweepAudio videoId],
               errs ++ errs' ++ ["  Transcription failed: " +:+ e], None)
          | Ok [] =>
              ([Retry videoId; Invoke SpeechToText videoId; SweepAudio videoId],
               errs ++ errs', None)
          | Ok (entry :: more) =>
              ([Retry videoId; Invoke SpeechToText videoId], errs ++ errs',
               Some {| video := videoInfo; captions := entry :: more; fetchedAt := now |})
          end
      end
  end.

(** One call of [processVideo] from its start to its return, nothing else
    running in between: the value returned, the ledger, the disk, and what
    was done to the outside. *)
Definition processVideo (w : World) (now videoId : string)
    (p : Progress) (d : Disk) : bool * Progress * Disk * list Event :=
  match attempt w now videoId with
  | (evs, _, None) => (false, p, d, evs)
  | (evs, _, Some captionData) =>
      (true, markTranscribed videoId p, saveCaptions captionData d,
       evs ++ [SweepAudio videoId])
  end.

(** *** The pool of units *)

Inductive Phase : Type :=
| AwaitTranscript     (* queued, or inside [processVideo] before [saveCaptions] *)
| AwaitSaveCaptions   (* at [await saveCaptions(captionData)] *)
| AwaitCleanup        (* at [await cleanupAudio(videoId)], ledger updated *)
| AwaitSaveProgress   (* at [await saveProgress(progress)] *)
| Finished.

Definition is_finished (ph : Phase) : bool :=
  match ph with Finished => true | _ => false end.

Record Run : Type := {
  progress : Progress;
  completed : nat;
  successCount : nat;
  failCount : nat;
  disk : Disk;
  writes : list Write;
  events : list Event;
  errs : list string;
  phases : list Phase
}.

Definition started (i : nat) (st : Run) : bool :=
  (i <? CONCURRENCY_LIMIT + length (List.filter is_finished (phases st)))%nat.

Definition set_phase (i : nat) (ph : Phase) (st : Run) : Run :=
  {| progress := progress st; completed := completed st;
     successCount := successCount st; failCount := failCount st;
     disk := disk st; writes := writes st; events := events st;
     errs := errs st;
     phases := <[i := ph]> (phases st) |}.

(** [completed++], the count of the outcome, and
    [if (completed % 5 === 0) await saveProgress(progress)]: no [await]
    separates the increment from the test. *)
Definition count_and_save (now : string) (i : nat) (success : bool) (st : Run)
  : Run :=
  let done := S (completed st) in
  let ok := if success then S (successCount st) else successCount st in
  let ko := if success then failCount st else S (failCount st) in
  if (done mod 5 =? 0)%nat then
    let '(p, d) := saveProgress now (progress st) (disk st) in
    {| progress := p; completed := done; successCount := ok; failCount := ko;
       disk := d; writes := writes st ++ [WroteProgress p];
       events := events st; errs := errs st;
       phases := <[i := AwaitSaveProgress]> (phases st) |}
  else
    {| progress := progress st; completed := done;
       successCount := ok; failCount := ko;
       disk := disk st; writes := writes st;
       events := events st; errs := errs st;
       phases := <[i := Finished]> (phases st) |}.

(** Unit [i], on the failed entry [entry], resumed at time [now]. *)
Definition resume (w : World) (toProcess : list FailedVideo)
    (st : Run) (ev : nat * string) : Run :=
  let '(i, now) := ev in
  match phases st !! i, toProcess !! i with
  | Some AwaitTranscript, Some entry =>
      if started i st then
        match attempt w now (fid entry) with
        | (evs, es, None) =>
            count_and_save now i false
              {| progress := progress st; completed := completed st;
                 successCount := successCount st; failCount := failCount st;
                 disk := disk st; writes := writes st;
                 events := events st ++ evs; errs := errs st ++ es;
                 phases := phases st |}
        | (evs, es, Some captionData) =>
            {| progress := progress st; completed := completed st;
               successCount := successCount st; failCount := failCount st;
               disk := saveCaptions captionData (disk st);
               writes := writes st ++
                         [WroteCaption (caption_path (id (video captionData))) captionData];
               events := events st ++ evs; errs := errs st ++ es;
               phases := <[i := AwaitSaveCaptions]> (phases st) |}
        end
      else st
  | Some AwaitSaveCaptions, Some entry =>
      {| progress := markTranscribed (fid entry) (progress st);
         completed := completed st;
         successCount := successCount st; failCount := failCount st;
         disk := disk st; writes := writes st;
         events := events st ++ [SweepAudio (fid entry)]; errs := errs st;
         phases := <[i := AwaitCleanup]> (phases st) |}
  | Some AwaitCleanup, Some _ => count_and_save now i true st
  | Some AwaitSaveProgress, Some _ => set_phase i Finished st
  | _, _ => st
  end.

Definition run_schedule (w : World) (toProcess : list FailedVideo)
    (schedule : list (nat * string)) (st : Run) : Run :=
  fold_left (resume w toProcess) schedule st.

(** Every unit settles; what a schedule leaves suspended is resumed in
    the order of submission. *)
Definition drain (w : World) (toProcess : list FailedVideo) (now : string)
    (st : Run) : Run :=
  fold_left
    (fun st i =>
       let r st := resume w toProcess st (i, now) in r (r (r (r st))))
    (seq 0 (length toProcess)) st.

Definition pool (w : World) (toProcess : list FailedVideo)
    (schedule : list (nat * string)) (now : string) (st : Run) : Run :=
  drain w toProcess now (run_schedule w toProcess schedule st).

(** *** [main] *)

(** The value of [limit] after the arguments are read. *)
Definition limitOf (args : list string) : Js.number :=
  let limitIdx := Js.indexOf "--limit" args in
  if negb (limitIdx =? -1) then
    match args !! Z.to_nat (limitIdx + 1) with
    | Some (String c t) => Js.parseInt (String c t)
    | _ => Js.Int 1
    end
  else Js.Int 1.

(** [failedVideos.slice(0, limit)] *)
Definition toProcess (args : list string) (p : Progress) : list FailedVideo :=
  Js.slice (failedVideos p) 0 (Js.to_integer (limitOf args)).

Definition start (p : Progress) (d : Disk) (entries : list FailedVideo) : Run :=
  {| progress := p; completed := 0; successCount := 0; failCount := 0;
     disk := d; writes := []; events := []; errs := [];
     phases := replicate (length entries) AwaitTranscript |}.

(** [main] on the arguments [args] ([process.argv.slice(2)]), under a
    schedule of the units. *)
Definition main (w : World) (d : Disk) (args : list string)
    (schedule : list (nat * string)) (now : string) : Outcome :=
  match loadProgress d with
  | Err e =>
      {| settled := Err e; final := d; written := [];
         happened := []; stderr := [] |}
  | Ok p =>
      match failedVideos p with
      | [] =>
          {| settled := Ok (); final := d; written := [];
             happened := []; stderr := [] |}
      | _ :: _ =>
          let entries := toProcess args p in
          let st := pool w entries schedule now (start p d entries) in
          let '(p', d') := saveProgress now (progress st) (disk st) in
          {| settled := Ok (); final := d';
             written := writes st ++ [WroteProgress p'];
             happened := events st; stderr := errs st |}
      end
  end.

(** [const groq = new Groq()], a statement of the module: the constructor
    takes the key from the variable [GROQ_API_KEY] of the environment and
    throws when the variable is not set. *)
Definition newGroq (GROQ_API_KEY : option string) : Result unit :=
  match GROQ_API_KEY with
  | Some _ => Ok ()
  | None => Err "GroqError: The GROQ_API_KEY environment variable is missing or empty"
  end.

(** [bun run transcribe], with what follows it on the command line. *)
Definition transcribe (GROQ_API_KEY : option string) (w : World) (d : Disk)
    (args : list string) (schedule : list (nat * string)) (now : string) : Process :=
  script (newGroq GROQ_API_KEY) (main w d args schedule now).

End TranscribeFallback.

(** ** The deployment script

    [set -euo pipefail]: a step that ends with a status other than 0
    ends the script with that status.  [bun run captions] is the primary
    script and [bun run transcribe --limit 100] the enrichment script, the
    latter run in the environment of the deployment, with its
    [GROQ_API_KEY]; the build and the publication are known by their
    status only. *)

Module Deploy.

Inductive Stage : Type :=
| Captions      (* bun run captions *)
| Transcribe    (* bun run transcribe --limit 100 *)
| Build         (* bun run build *)
| Publish.      (* bunx wrangler pages deploy dist/ *)

(** What the two acquisition steps and the two others are given and
    answer. *)
Record Setting : Type := {
  world : World;
  GROQ_API_KEY : option string;           (* unset, or its value *)
  captions_schedule : list (nat * string);
  captions_end : string;
  transcribe_schedule : list (nat * string);
  transcribe_end : string;
  build_status : Disk -> Z;
  publish_status : Z
}.

Record Deployment : Type := {
  exit_status : Z;
  stages : list Stage;                    (* the steps run, in order *)
  disk : Disk;
  captions_run : option Outcome;
  transcribe_run : option Outcome
}.

(** [-z "${GROQ_API_KEY:-}"] *)
Definition no_key (s : Setting) : bool :=
  match GROQ_API_KEY s with
  | Some (String _ _) => false
  | _ => true
  end.

Definition transcribe_args : list string := ["--limit"; "100"].

Definition deploy (s : Setting) (d : Disk) : Deployment :=
  let c1 := GrabCaptions.captions (world s) d (captions_schedule s) (captions_end s) in
  let e1 := status (exit c1) in
  let d1 := match ran c1 with Some o => final o | None => d end in
  if negb (e1 =? 0) then
    {| exit_status := e1; stages := [Captions]; disk := d1;
       captions_run := ran c1; transcribe_run := None |}
  else
    let after (done : list Stage) (d2 : Disk) (o2 : option Outcome) : Deployment :=
      let b := build_status s d2 in
      if negb (b =? 0) then
        {| exit_status := b; stages := done ++ [Build]; disk := d2;
           captions_run := ran c1; transcribe_run := o2 |}
      else
        {| exit_status := publish_status s; stages := done ++ [Build; Publish];
           disk := d2; captions_run := ran c1; transcribe_run := o2 |} in
    if no_key s then after [Captions] d1 None
    else
      let c2 := TranscribeFallback.transcribe (GROQ_API_KEY s) (world s) d1
                  transcribe_args (transcribe_schedule s) (transcribe_end s) in
      let e2 := status (exit c2) in
      let d2 := match ran c2 with Some o => final o | None => d1 end in
      if negb (e2 =? 0) then
        {| exit_status := e2; stages := [Captions; Transcribe]; disk := d2;
           captions_run := ran c1; transcribe_run := ran c2 |}
      else after [Captions; Transcribe] d2 (ran c2).

End Deploy.


(** ** What is observed of a run *)

(** The adapter invocations among the events, in order. *)
Definition invoked (evs : list Event) : list (Adapter * string) :=
  omap (fun e => match e with Invoke a x => Some (a, x) | _ => None end) evs.

(** The ids [processVideo] was entered with. *)
Definition retried (evs : list Event) : list string :=
  omap (fun e => match e with Retry x => Some x | _ => None end) evs.

(** The ledgers snapshotted, in order. *)
Definition snapshots (ws : list Write) : list Progress :=
  omap (fun x => match x with WroteProgress p => Some p | _ => None end) ws.

(** The record files written, in order. *)
Definition records (ws : list Write) : list string :=
  omap (fun x => match x with WroteCaption path _ => Some path | _ => None end) ws.

(** The ledger a disk holds. *)
Definition ledger_of (d : Disk) : option Progress :=
  match progressFile d with
  | Some (Ledger p) => Some p
  | _ => None
  end.

(** What the resolver returns for a video. *)
Definition resolve (w : World) (v : VideoInfo) : option (list CaptionEntry) :=
  snd (GrabCaptions.fetchCaptions w v).

(** What the subtitle-file adapter returns for a video. *)
Definition subtitles (w : World) (v : VideoInfo) : option (list CaptionEntry) :=
  snd (GrabCaptions.fetchCaptionsWithYtDlp w v).

Definition ids (l : list FailedVideo) : list string := map fid l.

(** The direct-caption adapter threw, or returned nothing to use. *)
Definition direct_fails (w : World) (v : VideoInfo) : Prop :=
  match fetchTranscript w (id v) with
  | Ok (Some (_ :: _)) => False
  | _ => True
  end.

(** Unit [i] of the primary pool has its answer from the resolver. *)
Definition grab_fetched (st : GrabCaptions.Run) (i : nat) : Prop :=
  match GrabCaptions.phases st !! i with
  | Some GrabCaptions.AwaitFetch | None => False
  | Some _ => True
  end.

(** Unit [i] of the primary pool is past its update of the ledger. *)
Definition grab_marked (st : GrabCaptions.Run) (i : nat) : Prop :=
  match GrabCaptions.phases st !! i with
  | Some GrabCaptions.AwaitSaveProgress | Some GrabCaptions.Finished => True
  | _ => False
  end.

(** The resumptions a unit of the primary pool still needs, at most. *)
Definition grab_rank (ph : GrabCaptions.Phase) : nat :=
  match ph with
  | GrabCaptions.AwaitFetch => 3
  | GrabCaptions.AwaitSaveCaptions => 2
  | GrabCaptions.AwaitSaveProgress => 1
  | GrabCaptions.Finished => 0
  end.

(** The pending videos of a primary run that loads the ledger [p]. *)
Definition grab_pending (w : World) (p : Progress) : list VideoInfo :=
  GrabCaptions.pendingVideos p (GrabCaptions.allVideos w).

(** The units of the enrichment pool that have counted their outcome. *)
Fixpoint transcribe_counted (phases : list TranscribeFallback.Phase) : nat :=
  match phases with
  | [] => 0
  | ph :: rest =>
      match ph with
      | TranscribeFallback.AwaitSaveProgress | TranscribeFallback.Finished =>
          S (transcribe_counted rest)
      | _ => transcribe_counted rest
      end
  end.

(** The ids of the units of the enrichment pool that have entered
    [processVideo], in the order of submission. *)
Fixpoint transcribe_entered (phases : list TranscribeFallback.Phase)
    (entries : list FailedVideo) : list string :=
  match phases, entries with
  | ph :: phs, e :: es =>
      match ph with
      | TranscribeFallback.AwaitTranscript => transcribe_entered phs es
      | _ => fid e :: transcribe_entered phs es
      end
  | _, _ => []
  end.

(** The resumptions a unit of the enrichment pool still needs, at most. *)
Definition transcribe_rank (ph : TranscribeFallback.Phase) : nat :=
  match ph with
  | TranscribeFallback.AwaitTranscript => 4
  | TranscribeFallback.AwaitSaveCaptions => 3
  | TranscribeFallback.AwaitCleanup => 2
  | TranscribeFallback.AwaitSaveProgress => 1
  | TranscribeFallback.Finished => 0
  end.

(** The entry the primary run makes for an id without captions. *)
Definition no_captions (videoId at_ : string) : FailedVideo :=
  {| fid := videoId; error := "No captions available"; lastAttempt := at_ |}.

(** How the failed list of a primary run relates to the one it loaded:
    the loaded entries are there under the same ids, followed by new
    entries, one for an id, none for a loaded id, each with the reason of
    the primary run. *)
Definition failed_shape (loaded current : list FailedVideo) : Prop :=
  exists old new,
    current = old ++ new /\
    ids old = ids loaded /\
    NoDup (ids new) /\
    (forall x, In x (ids new) -> ~ In x (ids loaded)) /\
    Forall (fun f => error f = "No captions available") new.

(** Whether the resolver has captions for a video. *)
Definition resolvable (w : World) (v : VideoInfo) : bool :=
  match resolve w v with Some _ => true | None => false end.

(** The ids the units of the primary pool have put on the done list, in
    the order of submission. *)
Fixpoint grab_done (w : World) (phases : list GrabCaptions.Phase)
    (pending : list VideoInfo) : list string :=
  match phases, pending with
  | ph :: phs, v :: vs =>
      match ph with
      | GrabCaptions.AwaitSaveProgress | GrabCaptions.Finished =>
          if resolvable w v then id v :: grab_done w phs vs else grab_done w phs vs
      | _ => grab_done w phs vs
      end
  | _, _ => []
  end.

(** Whether [processVideo] returns [true] on an id; the time of the call
    plays no part in that. *)
Definition transcribable (w : World) (videoId : string) : bool :=
  match TranscribeFallback.attempt w EmptyString videoId with
  | (_, _, Some _) => true
  | _ => false
  end.

(** The ids the units of the enrichment pool have moved from the failed
    list to the done list, in the order of submission. *)
Fixpoint transcribe_moved (w : World) (phases : list TranscribeFallback.Phase)
    (entries : list FailedVideo) : list string :=
  match phases, entries with
  | ph :: phs, e :: es =>
      match ph with
      | TranscribeFallback.AwaitTranscript | TranscribeFallback.AwaitSaveCaptions =>
          transcribe_moved w phs es
      | _ =>
          if transcribable w (fid e) then fid e :: transcribe_moved w phs es
          else transcribe_moved w phs es
      end
  | _, _ => []
  end.


(** Unit [j] of the enrichment pool has its answer from [processVideo]
    up to the call of [saveCaptions]. *)
Definition transcribe_entered_at (st : TranscribeFallback.Run) (j : nat) : Prop :=
  exists ph, TranscribeFallback.phases st !! j = Some ph
             /\ ph <> TranscribeFallback.AwaitTranscript.


(** The writes [ws] put records before the ledger: every snapshot among
    them lists as done only ids of [loaded] and ids whose record file was
    written before that snapshot. *)
Definition record_first (loaded : list string) (ws : list Write) : Prop :=
  forall pre p post, ws = pre ++ WroteProgress p :: post ->
    forall x, In x (processedVideos p) ->
      In x loaded \/ In (caption_path x) (records pre).

(** The writes [ws] take failed entries off the ledger after the record:
    every snapshot among them still holds each entry of [loaded], but those
    of an id whose record file was written before that snapshot. *)
Definition removed_after_record (loaded : list FailedVideo) (ws : list Write) : Prop :=
  forall pre p post, ws = pre ++ WroteProgress p :: post ->
    forall f, In f loaded ->
      In f (failedVideos p) \/ In (caption_path (fid f)) (records pre).


(** ** Worlds and disks to run the scripts on *)

Module Sample.

(** Nothing is reachable: every source throws. *)
Definition offline : World :=
  {| fetchTranscript := fun _ => Err "network";
     mkdirTemp := Ok ();
     ytdlpSubtitles := fun _ => Err "network";
     ytdlpPlaylist := fun _ => Err "network";
     ytdlpVideoInfo := fun _ => Err "network";
     mkdirAudio := Ok ();
     audioExists := fun _ => false;
     ytdlpAudio := fun _ => Err "network";
     groqTranscribe := fun _ _ => Err "network" |}.

Definition entry (videoId : string) : option YtDlpEntry :=
  Some {| e_id := videoId; e_title := Some "A review"; e_duration := Some (Js.Int 300) |}.

(** The first playlist lists [listed]; no video has captions of any
    kind, and nothing can be transcribed. *)
Definition silent (listed : list string) : World :=
  {| fetchTranscript := fun _ => Ok (Some []);
     mkdirTemp := Ok ();
     ytdlpSubtitles := fun _ => Ok ∅;
     ytdlpPlaylist := fun playlistId =>
       if String.eqb playlistId "PLAbMhAYRuCUhawCEV2oXZGrienoKTN16X"
       then Ok (map entry listed) else Ok [];
     ytdlpVideoInfo := fun _ => Err "Video unavailable";
     mkdirAudio := Ok ();
     audioExists := fun _ => false;
     ytdlpAudio := fun _ => Err "Video unavailable";
     groqTranscribe := fun _ _ => Ok None |}.

Definition hello : TranscriptItem :=
  {| t_text := "hello"; t_offset := Js.Int 0; t_duration := Js.Int 1200 |}.

(** The first playlist lists [listed]; every video has direct captions. *)
Definition captioned (listed : list string) : World :=
  {| fetchTranscript := fun _ => Ok (Some [hello]);
     mkdirTemp := Ok ();
     ytdlpSubtitles := fun _ => Ok ∅;
     ytdlpPlaylist := fun playlistId =>
       if String.eqb playlistId "PLAbMhAYRuCUhawCEV2oXZGrienoKTN16X"
       then Ok (map entry listed) else Ok [];
     ytdlpVideoInfo := fun _ => Err "Video unavailable";
     mkdirAudio := Ok ();
     audioExists := fun _ => false;
     ytdlpAudio := fun _ => Err "Video unavailable";
     groqTranscribe := fun _ _ => Ok None |}.

(** The direct captions are missing; the downloader leaves the two-cue
    sample as the auto-generated subtitle file. *)
Definition subtitled (listed : list string) : World :=
  {| fetchTranscript := fun _ => Err "Transcript is disabled";
     mkdirTemp := Ok ();
     ytdlpSubtitles := fun videoId =>
       Ok {[ GrabCaptions.tempDir +:+ "/" +:+ videoId +:+ ".en-orig.vtt" := Vtt.sample ]};
     ytdlpPlaylist := fun playlistId =>
       if String.eqb playlistId "PLAbMhAYRuCUhawCEV2oXZGrienoKTN16X"
       then Ok (map entry listed) else Ok [];
     ytdlpVideoInfo := fun _ => Err "Video unavailable";
     mkdirAudio := Ok ();
     audioExists := fun _ => false;
     ytdlpAudio := fun _ => Err "Video unavailable";
     groqTranscribe := fun _ _ => Ok None |}.

Definition empty_disk : Disk := {| progressFile := None; captionFiles := ∅ |}.

Definition corrupt_disk : Disk :=
  {| progressFile := Some (Corrupt "{ processedVideos: ["); captionFiles := ∅ |}.

Definition failure (videoId at_ : string) : FailedVideo :=
  {| fid := videoId; error := "No captions available"; lastAttempt := at_ |}.

(** A ledger with one failure of an earlier run. *)
Definition stale : Progress :=
  {| processedVideos := [];
     failedVideos := [failure "dQw4w9WgXcQ" "2025-01-01T00:00:00.000Z"];
     lastRun := "2025-01-01T00:10:00.000Z" |}.

(** A ledger with three failures of an earlier run. *)
Definition backlog : Progress :=
  {| processedVideos := [];
     failedVideos := [failure "dQw4w9WgXcQ" "2025-01-01T00:00:00.000Z";
                      failure "9bZkp7q19f0" "2025-01-01T00:00:01.000Z";
                      failure "kJQP7kiw5Fk" "2025-01-01T00:00:02.000Z"];
     lastRun := "2025-01-01T00:10:00.000Z" |}.

Definition disk_of (p : Progress) : Disk :=
  {| progressFile := Some (Ledger p); captionFiles := ∅ |}.

Definition video (videoId : string) : VideoInfo :=
  {| id := videoId; title := "A review"; url := "https://youtu.be/" +:+ videoId;
     duration := Js.Int 300;
     playlistId := "PLAbMhAYRuCUhawCEV2oXZGrienoKTN16X";
     playlistTitle := "Zero Punctuation" |}.

(** The listing of the first playlist fails; the second one lists
    [listed]; no video has captions of any kind. *)
Definition second_only (listed : list string) : World :=
  {| fetchTranscript := fun _ => Ok (Some []);
     mkdirTemp := Ok ();
     ytdlpSubtitles := fun _ => Ok ∅;
     ytdlpPlaylist := fun playlistId =>
       if String.eqb playlistId "PLUBKwq0XD0ueR3CXGUhGpsD1puLcYJPUp"
       then Ok (map entry listed) else Err "HTTP Error 429";
     ytdlpVideoInfo := fun _ => Err "Video unavailable";
     mkdirAudio := Ok ();
     audioExists := fun _ => false;
     ytdlpAudio := fun _ => Err "Video unavailable";
     groqTranscribe := fun _ _ => Ok None |}.


(** No video has captions; the audio of the ids in [spoken] can be
    downloaded, and the transcription service returns one segment for
    whatever it is given. *)
Definition heard (spoken : list string) : World :=
  {| fetchTranscript := fun _ => Err "Transcript is disabled";
     mkdirTemp := Ok ();
     ytdlpSubtitles := fun _ => Ok ∅;
     ytdlpPlaylist := fun _ => Ok [];
     ytdlpVideoInfo := fun _ =>
       Ok {| d_title := Some "A review"; d_duration := Some (Js.Int 300);
             d_playlist_id := None; d_playlist_title := None |};
     mkdirAudio := Ok ();
     audioExists := fun _ => false;
     ytdlpAudio := fun videoId =>
       if existsb (String.eqb videoId) spoken then Ok () else Err "Video unavailable";
     groqTranscribe := fun _ _ =>
       Ok (Some [{| s_start := Js.Int 0; s_end := Js.Int 2; s_text := " hello " |}]) |}.


(** The first playlist lists [listed]; no video has captions, and every
    video can be downloaded and transcribed. *)
Definition spoken (listed : list string) : World :=
  {| fetchTranscript := fun _ => Err "Transcript is disabled";
     mkdirTemp := Ok ();
     ytdlpSubtitles := fun _ => Ok ∅;
     ytdlpPlaylist := fun playlistId =>
       if String.eqb playlistId "PLAbMhAYRuCUhawCEV2oXZGrienoKTN16X"
       then Ok (map entry listed) else Ok [];
     ytdlpVideoInfo := fun _ =>
       Ok {| d_title := Some "A review"; d_duration := Some (Js.Int 300);
             d_playlist_id := None; d_playlist_title := None |};
     mkdirAudio := Ok ();
     audioExists := fun _ => false;
     ytdlpAudio := fun _ => Ok ();
     groqTranscribe := fun _ _ =>
       Ok (Some [{| s_start := Js.Int 0; s_end := Js.Int 2; s_text := " hello " |}]) |}.

(** A deployment over [w], the units of both runs completing in the
    order of submission, the build and the publication succeeding. *)
Definition deployment (w : World) (key : option string) : Deploy.Setting :=
  {| Deploy.world := w;
     Deploy.GROQ_API_KEY := key;
     Deploy.captions_schedule := [];
     Deploy.captions_end := "2025-03-03T00:00:00.000Z";
     Deploy.transcribe_schedule := [];
     Deploy.transcribe_end := "2025-03-03T00:10:00.000Z";
     Deploy.build_status := fun _ => 0;
     Deploy.publish_status := 0 |}.


End Sample.

(** The audio of an id is at hand: the directory could be made, and the
    file was there already or the download went through. *)
Definition audio_at_hand (w : World) (videoId : string) : Prop :=
  mkdirAudio w = Ok () /\ (audioExists w videoId = true \/ ytdlpAudio w videoId = Ok ()).


(** * Properties *)

(** ** The resolver *)

Lemma fetchCaptions_direct (w : World) (v : VideoInfo) (l : list TranscriptItem) :
  fetchTranscript w (id v) = Ok (Some l) -> l <> [] ->
  GrabCaptions.fetchCaptions w v =
    ([Invoke DirectCaption (id v)], Some (map GrabCaptions.entryOfItem l)).
Proof.
  intros Hd Hl. unfold GrabCaptions.fetchCaptions. rewrite Hd.
  destruct l; [contradiction | reflexivity].
Qed.

Lemma fetchCaptions_fallback (w : World) (v : VideoInfo) :
  direct_fails w v ->
  GrabCaptions.fetchCaptions w v =
    ([Invoke DirectCaption (id v); Invoke SubtitleFile (id v); SweepTemp (id v)],
     subtitles w v).
Proof.
  unfold direct_fails, GrabCaptions.fetchCaptions, subtitles.
  destruct (fetchTranscript w (id v)) as [[[|entry more]|]|e]; simpl; intros H;
    try contradiction; reflexivity.
Qed.

Lemma first_parsed_nonempty (files : gmap string string) (paths : list string) :
  GrabCaptions.first_parsed files paths <> Some [].
Proof.
  induction paths as [|p ps IH]; simpl; [discriminate |].
  destruct (Vtt.parseVttFile files p); [exact IH | discriminate].
Qed.

Lemma subtitles_nonempty (w : World) (v : VideoInfo) : subtitles w v <> Some [].
Proof.
  unfold subtitles, GrabCaptions.fetchCaptionsWithYtDlp; cbn [snd].
  destruct (mkdirTemp w); [| discriminate].
  destruct (ytdlpSubtitles w (id v)); [| discriminate].
  apply first_parsed_nonempty.
Qed.

Lemma resolve_nonempty (w : World) (v : VideoInfo) : resolve w v <> Some [].
Proof.
  unfold resolve, GrabCaptions.fetchCaptions.
  destruct (fetchTranscript w (id v)) as [[[|entry more]|]|e]; simpl;
    try apply subtitles_nonempty.
  discriminate.
Qed.

(** The resolver reads nothing of a video but its id. *)
Lemma fetchCaptions_by_id (w : World) (v v' : VideoInfo) :
  id v = id v' -> GrabCaptions.fetchCaptions w v = GrabCaptions.fetchCaptions w v'.
Proof.
  intros E. unfold GrabCaptions.fetchCaptions, GrabCaptions.fetchCaptionsWithYtDlp.
  rewrite E. reflexivity.
Qed.

Lemma fetchCaptions_invoked (w : World) (v : VideoInfo) :
  invoked (fst (GrabCaptions.fetchCaptions w v)) = [(DirectCaption, id v)] \/
  invoked (fst (GrabCaptions.fetchCaptions w v)) =
    [(DirectCaption, id v); (SubtitleFile, id v)].
Proof.
  unfold GrabCaptions.fetchCaptions.
  destruct (fetchTranscript w (id v)) as [[[|entry more]|]|e]; simpl; auto.
Qed.

(** ** The pool of the primary run *)

(** What holds at the start and is kept by every resumption holds when the
    pool has settled. *)
Lemma grab_pool_ind (P : GrabCaptions.Run -> Prop) (w : World)
    (pending : list VideoInfo) :
  (forall st ev, P st -> P (GrabCaptions.resume w pending st ev)) ->
  forall schedule now st, P st -> P (GrabCaptions.pool w pending schedule now st).
Proof.
  intros Hstep schedule now st H0.
  unfold GrabCaptions.pool, GrabCaptions.drain, GrabCaptions.run_schedule.
  assert (H1 : P (fold_left (GrabCaptions.resume w pending) schedule st)).
  { revert st H0.
    induction schedule as [|ev rest IH]; intros st H0; cbn [fold_left]; auto. }
  revert H1. generalize (fold_left (GrabCaptions.resume w pending) schedule st).
  generalize (seq 0 (length pending)).
  intros l. induction l as [|i rest IH]; intros st' H1; cbn [fold_left]; [exact H1 |].
  apply IH. do 3 apply Hstep. exact H1.
Qed.

(** The periodic snapshot touches nothing of the ledger but [lastRun], and
    no record. *)
Lemma grab_periodic_failed (now : string) (i : nat) (st : GrabCaptions.Run) :
  failedVideos (GrabCaptions.progress (GrabCaptions.periodic now i st)) =
  failedVideos (GrabCaptions.progress st).
Proof. unfold GrabCaptions.periodic. destruct (Nat.eqb _ 0); reflexivity. Qed.

Lemma grab_periodic_processed (now : string) (i : nat) (st : GrabCaptions.Run) :
  processedVideos (GrabCaptions.progress (GrabCaptions.periodic now i st)) =
  processedVideos (GrabCaptions.progress st).
Proof. unfold GrabCaptions.periodic. destruct (Nat.eqb _ 0); reflexivity. Qed.

Lemma grab_periodic_records (now : string) (i : nat) (st : GrabCaptions.Run) :
  captionFiles (GrabCaptions.disk (GrabCaptions.periodic now i st)) =
  captionFiles (GrabCaptions.disk st).
Proof. unfold GrabCaptions.periodic. destruct (Nat.eqb _ 0); reflexivity. Qed.

Lemma grab_periodic_events (now : string) (i : nat) (st : GrabCaptions.Run) :
  GrabCaptions.events (GrabCaptions.periodic now i st) = GrabCaptions.events st.
Proof. unfold GrabCaptions.periodic. destruct (Nat.eqb _ 0); reflexivity. Qed.

Lemma grab_periodic_completed (now : string) (i : nat) (st : GrabCaptions.Run) :
  GrabCaptions.completed (GrabCaptions.periodic now i st) = GrabCaptions.completed st.
Proof. unfold GrabCaptions.periodic. destruct (Nat.eqb _ 0); reflexivity. Qed.

Lemma grab_periodic_writes (now : string) (i : nat) (st : GrabCaptions.Run) :
  GrabCaptions.writes (GrabCaptions.periodic now i st) =
  GrabCaptions.writes st ++
  (if (GrabCaptions.completed st mod 50 =? 0)%nat
   then [WroteProgress (stamp now (GrabCaptions.progress st))] else []).
Proof.
  unfold GrabCaptions.periodic. destruct (Nat.eqb _ 0); cbn [GrabCaptions.writes saveProgress].
  - reflexivity.
  - unfold GrabCaptions.set_phase; cbn [GrabCaptions.writes]. symmetry; apply app_nil_r.
Qed.

Lemma grab_periodic_phases (now : string) (i : nat) (st : GrabCaptions.Run) :
  GrabCaptions.phases (GrabCaptions.periodic now i st) =
  <[i := if (GrabCaptions.completed st mod 50 =? 0)%nat
         then GrabCaptions.AwaitSaveProgress else GrabCaptions.Finished]>
    (GrabCaptions.phases st).
Proof. unfold GrabCaptions.periodic. destruct (Nat.eqb _ 0); reflexivity. Qed.

Lemma markFailed_processed (x now : string) (p : Progress) :
  processedVideos (markFailed x now p) = processedVideos p.
Proof. reflexivity. Qed.

Lemma markFailed_lastRun (x now : string) (p : Progress) :
  lastRun (markFailed x now p) = lastRun p.
Proof. reflexivity. Qed.

Create Rewrite HintDb grab.
#[local] Hint Rewrite grab_periodic_failed grab_periodic_processed
  grab_periodic_records grab_periodic_events grab_periodic_completed
  grab_periodic_writes grab_periodic_phases markFailed_processed
  markFailed_lastRun : grab.

Ltac grab_fields :=
  autorewrite with grab;
  cbn [GrabCaptions.progress GrabCaptions.completed GrabCaptions.processed
       GrabCaptions.failed GrabCaptions.disk GrabCaptions.writes
       GrabCaptions.events GrabCaptions.phases GrabCaptions.set_phase
       processedVideos failedVideos lastRun markDone
       captionFiles progressFile saveCaptions fst snd].

Lemma grab_resume_unfold (w : World) (pending : list VideoInfo)
    (st : GrabCaptions.Run) (i : nat) (now : string) :
  GrabCaptions.resume w pending st (i, now) =
  match GrabCaptions.phases st !! i, pending !! i with
  | Some GrabCaptions.AwaitFetch, Some video =>
      if GrabCaptions.started i st
      then GrabCaptions.after_fetch w now i video st else st
  | Some GrabCaptions.AwaitSaveCaptions, Some video =>
      GrabCaptions.after_save now i video st
  | Some GrabCaptions.AwaitSaveProgress, Some _ =>
      GrabCaptions.set_phase i GrabCaptions.Finished st
  | _, _ => st
  end.
Proof. reflexivity. Qed.

Lemma after_fetch_captions (w : World) (now : string) (i : nat) (video : VideoInfo)
    (st : GrabCaptions.Run) :
  snd (GrabCaptions.fetchCaptions w video) <> None ->
  exists entry more,
    snd (GrabCaptions.fetchCaptions w video) = Some (entry :: more) /\
    GrabCaptions.after_fetch w now i video st =
    {| GrabCaptions.progress := GrabCaptions.progress st;
       GrabCaptions.completed := S (GrabCaptions.completed st);
       GrabCaptions.processed := GrabCaptions.processed st;
       GrabCaptions.failed := GrabCaptions.failed st;
       GrabCaptions.disk :=
         saveCaptions {| video := video; captions := entry :: more; fetchedAt := now |}
                      (GrabCaptions.disk st);
       GrabCaptions.writes :=
         GrabCaptions.writes st ++
         [WroteCaption (caption_path (id video))
            {| video := video; captions := entry :: more; fetchedAt := now |}];
       GrabCaptions.events :=
         GrabCaptions.events st ++ fst (GrabCaptions.fetchCaptions w video);
       GrabCaptions.phases :=
         <[i := GrabCaptions.AwaitSaveCaptions]> (GrabCaptions.phases st) |}.
Proof.
  intros Hsome. pose proof (resolve_nonempty w video) as Hne. unfold resolve in Hne.
  unfold GrabCaptions.after_fetch.
  destruct (GrabCaptions.fetchCaptions w video) as [evs [[|entry more]|]];
    simpl in *; try congruence.
  exists entry, more. split; reflexivity.
Qed.

Lemma after_fetch_no_captions (w : World) (now : string) (i : nat)
    (video : VideoInfo) (st : GrabCaptions.Run) :
  snd (GrabCaptions.fetchCaptions w video) = None ->
  GrabCaptions.after_fetch w now i video st =
  GrabCaptions.periodic now i
    {| GrabCaptions.progress := markFailed (id video) now (GrabCaptions.progress st);
       GrabCaptions.completed := S (GrabCaptions.completed st);
       GrabCaptions.processed := GrabCaptions.processed st;
       GrabCaptions.failed := S (GrabCaptions.failed st);
       GrabCaptions.disk := GrabCaptions.disk st;
       GrabCaptions.writes := GrabCaptions.writes st;
       GrabCaptions.events :=
         GrabCaptions.events st ++ fst (GrabCaptions.fetchCaptions w video);
       GrabCaptions.phases := GrabCaptions.phases st |}.
Proof.
  intros Hnone. unfold GrabCaptions.after_fetch.
  destruct (GrabCaptions.fetchCaptions w video) as [evs [[|entry more]|]];
    simpl in *; try congruence; reflexivity.
Qed.

(** A resumption is a step. *)
Lemma grab_resume_step (w : World) (pending : list VideoInfo)
    (st : GrabCaptions.Run) (i : nat) (now : string) :
  GrabCaptions.Step w pending i now st (GrabCaptions.resume w pending st (i, now)).
Proof.
  rewrite grab_resume_unfold.
  destruct (GrabCaptions.phases st !! i) as [[]|] eqn:Hph;
    destruct (pending !! i) as [video|] eqn:Hv;
    try apply GrabCaptions.step_idle.
  - destruct (GrabCaptions.started i st) eqn:Hs; [| apply GrabCaptions.step_idle].
    destruct (snd (GrabCaptions.fetchCaptions w video)) eqn:Hf.
    + apply GrabCaptions.step_captions; auto. congruence.
    + rewrite after_fetch_no_captions by assumption.
      apply GrabCaptions.step_no_captions; auto.
  - apply GrabCaptions.step_saved; auto.
  - apply GrabCaptions.step_flushed; auto.
Qed.

(** Two lookups at one index give one item. *)
Ltac same_item :=
  match goal with
  | H1 : ?l !! ?i = Some ?a, H2 : ?l !! ?i = Some ?b |- _ =>
      assert (a = b) by congruence; subst a
  end.

Ltac grab_fields_all :=
  autorewrite with grab in *;
  cbn [GrabCaptions.progress GrabCaptions.completed GrabCaptions.processed
       GrabCaptions.failed GrabCaptions.disk GrabCaptions.writes
       GrabCaptions.events GrabCaptions.phases GrabCaptions.set_phase
       processedVideos failedVideos lastRun markDone
       captionFiles progressFile saveCaptions fst snd] in *.

(** The cases of a resumption, as goals on the fields of the new state. *)
Ltac grab_step_cases Hstep :=
  let video := fresh "video" in
  let Hv := fresh "Hv" in
  let Hph := fresh "Hph" in
  let Hst := fresh "Hstarted" in
  let Hf := fresh "Hfetch" in
  let entry := fresh "entry" in
  let more := fresh "more" in
  let Hc := fresh "Hcaptions" in
  let Heq := fresh "Hafter" in
  destruct Hstep as [|video Hv Hph Hst Hf|video Hv Hph Hst Hf|video Hv Hph|Hph];
  [ | match type of Hf with
      | snd (GrabCaptions.fetchCaptions ?w _) <> None =>
          match goal with
          | _ : context [GrabCaptions.after_fetch w ?now ?i video ?st] |- _ =>
              destruct (after_fetch_captions w now i video st Hf)
                as (entry & more & Hc & Heq);
              rewrite Heq in *; clear Heq
          | |- context [GrabCaptions.after_fetch w ?now ?i video ?st] =>
              destruct (after_fetch_captions w now i video st Hf)
                as (entry & more & Hc & Heq);
              rewrite Heq in *; clear Heq
          end
      end
    | | unfold GrabCaptions.after_save in * | ];
  grab_fields_all.

Ltac grab_resume_cases w pending st ev :=
  let H := fresh "Hstep" in
  let i := fresh "i" in
  let now := fresh "now" in
  lazymatch ev with
  | (?j, ?t) => pose proof (grab_resume_step w pending st j t) as H
  | _ => destruct ev as [i now]; pose proof (grab_resume_step w pending st i now) as H
  end;
  match type of H with
  | GrabCaptions.Step _ _ _ _ _ ?st' =>
      generalize dependent st'; intros ? H
  end;
  grab_step_cases H.

Lemma grab_resume_no_speech (w : World) (pending : list VideoInfo)
    (st : GrabCaptions.Run) (ev : nat * string) :
  Forall (fun c => fst c <> SpeechToText) (invoked (GrabCaptions.events st)) ->
  Forall (fun c => fst c <> SpeechToText)
         (invoked (GrabCaptions.events (GrabCaptions.resume w pending st ev))).
Proof.
  intros H.
  assert (Hnew : forall v,
    Forall (fun c => fst c <> SpeechToText)
           (invoked (GrabCaptions.events st ++ fst (GrabCaptions.fetchCaptions w v)))).
  { intros v. unfold invoked. rewrite omap_app. apply Forall_app. split; [exact H |].
    destruct (fetchCaptions_invoked w v) as [E|E]; unfold invoked in E; rewrite E;
      repeat constructor; simpl; discriminate. }
  grab_resume_cases w pending st ev; auto.
Qed.

Lemma grab_main_no_speech (w : World) (d : Disk) (schedule : list (nat * string))
    (now : string) :
  Forall (fun c => fst c <> SpeechToText)
         (invoked (happened (GrabCaptions.main w d schedule now))).
Proof.
  unfold GrabCaptions.main.
  destruct (loadProgress d) as [p|e]; [| constructor].
  destruct (GrabCaptions.collect w GrabCaptions.PLAYLISTS) as [videos errs].
  destruct (GrabCaptions.pendingVideos p videos) as [|v pending] eqn:E; [constructor |].
  cbn [saveProgress happened].
  apply (grab_pool_ind
           (fun st => Forall (fun c => fst c <> SpeechToText)
                             (invoked (GrabCaptions.events st)))).
  - intros st ev. apply grab_resume_no_speech.
  - constructor.
Qed.

(** C1. The resolver invokes the direct-caption adapter first; when that
    adapter returns a non-empty list, this list is the result, item by item
    with its text, its offset and its duration, and no other adapter is
    invoked; the subtitle-file adapter is invoked exactly when the
    direct one threw or returned nothing, and then its result is the
    resolver's, absent when it has no entries; the result is never an empty
    list; no adapter is invoked twice in one call, and the speech-to-text
    adapter is invoked neither by a call nor anywhere in a primary run. *)
Theorem C1_resolver_order (w : World) (v : VideoInfo) :
  let tried := invoked (fst (GrabCaptions.fetchCaptions w v)) in
  (exists rest, tried = (DirectCaption, id v) :: rest)
  /\ (forall l, fetchTranscript w (id v) = Ok (Some l) -> l <> [] ->
        tried = [(DirectCaption, id v)] /\
        resolve w v =
          Some (map (fun item => {| text := t_text item;
                                    offset := t_offset item;
                                    cduration := t_duration item |}) l))
  /\ (In (SubtitleFile, id v) tried <-> direct_fails w v)
  /\ (direct_fails w v ->
        tried = [(DirectCaption, id v); (SubtitleFile, id v)] /\
        resolve w v = subtitles w v)
  /\ (direct_fails w v -> subtitles w v = None -> resolve w v = None)
  /\ resolve w v <> Some []
  /\ NoDup tried
  /\ (forall x, ~ In (SpeechToText, x) tried)
  /\ (forall d schedule now x,
        ~ In (SpeechToText, x)
             (invoked (happened (GrabCaptions.main w d schedule now)))).
Proof.
  cbv zeta.
  assert (Hcases :
    (exists l, l <> [] /\ fetchTranscript w (id v) = Ok (Some l)) \/ direct_fails w v).
  { unfold direct_fails.
    destruct (fetchTranscript w (id v)) as [[[|entry more]|]|e]; auto.
    left. exists (entry :: more). split; [discriminate | reflexivity]. }
  assert (Hexcl : forall l, fetchTranscript w (id v) = Ok (Some l) -> l <> [] ->
                            ~ direct_fails w v).
  { intros l Hd Hl. unfold direct_fails. rewrite Hd. destruct l; auto. }
  repeat split.
  - destruct Hcases as [(l & Hl & Hd)|Hf].
    + rewrite (fetchCaptions_direct w v l Hd Hl). eexists; reflexivity.
    + rewrite (fetchCaptions_fallback w v Hf). eexists; reflexivity.
  - rewrite (fetchCaptions_direct w v l H H0). reflexivity.
  - unfold resolve. rewrite (fetchCaptions_direct w v l H H0). reflexivity.
  - destruct Hcases as [(l & Hl & Hd)|Hf]; [| auto].
    rewrite (fetchCaptions_direct w v l Hd Hl). simpl.
    intros [H|[]]. discriminate.
  - intros Hf. rewrite (fetchCaptions_fallback w v Hf). simpl. auto.
  - rewrite (fetchCaptions_fallback w v H). reflexivity.
  - unfold resolve. rewrite (fetchCaptions_fallback w v H). reflexivity.
  - intros Hf Hs. unfold resolve. rewrite (fetchCaptions_fallback w v Hf). exact Hs.
  - apply resolve_nonempty.
  - destruct (fetchCaptions_invoked w v) as [E|E]; rewrite E.
    + apply NoDup_cons. split; [apply not_elem_of_nil | apply NoDup_nil_2].
    + apply NoDup_cons. split.
      * rewrite list_elem_of_singleton. discriminate.
      * apply NoDup_cons. split; [apply not_elem_of_nil | apply NoDup_nil_2].
  - intros x. destruct (fetchCaptions_invoked w v) as [E|E]; rewrite E; simpl;
      intuition discriminate.
  - intros d schedule now x Hin.
    pose proof (grab_main_no_speech w d schedule now) as Hall.
    rewrite Forall_forall in Hall. rewrite <- list_elem_of_In in Hin.
    apply Hall in Hin. apply Hin. reflexivity.
Qed.

(** ** Loading the ledger *)

Lemma grab_main_load_error (w : World) (d : Disk) (schedule : list (nat * string))
    (now e : string) :
  loadProgress d = Err e ->
  GrabCaptions.main w d schedule now =
    {| settled := Err e; final := d; written := [WroteKeep];
       happened := []; stderr := [] |}.
Proof. intros H. unfold GrabCaptions.main. rewrite H. reflexivity. Qed.

Lemma transcribe_main_load_error (w : World) (d : Disk) (args : list string)
    (schedule : list (nat * string)) (now e : string) :
  loadProgress d = Err e ->
  TranscribeFallback.main w d args schedule now =
    {| settled := Err e; final := d; written := [];
       happened := []; stderr := [] |}.
Proof. intros H. unfold TranscribeFallback.main. rewrite H. reflexivity. Qed.

(** C2 as stated fails: a progress file that is there and does not read as
    JSON makes [loadProgress] reject, and [main] with it; the fresh ledger
    is not what comes back. *)
Lemma C2_corrupt_ledger_escalates :
  loadProgress Sample.corrupt_disk = Err "SyntaxError: JSON Parse error"
  /\ loadProgress Sample.corrupt_disk <> Ok fresh
  /\ settled (GrabCaptions.main Sample.offline Sample.corrupt_disk [] "2025-01-01T00:00:00.000Z")
     = Err "SyntaxError: JSON Parse error"
  /\ settled (TranscribeFallback.main Sample.offline Sample.corrupt_disk []
                [] "2025-01-01T00:00:00.000Z")
     = Err "SyntaxError: JSON Parse error".
Proof. repeat split; try reflexivity. discriminate. Qed.

(** C2, amended. Without a progress file [loadProgress] returns the fresh
    empty ledger; a ledger on disk is returned as it is; a progress file
    that does not read as JSON makes [loadProgress] reject, and the [main]
    of either script rejects with the same error.  By then the primary
    script has written its placeholder [.gitkeep] and nothing else, the
    enrichment script has written nothing; the progress file and the
    records are as they were, no snapshot is taken and no adapter is
    invoked. *)
Theorem C2_load_progress (w : World) (files : gmap string VideoCaption) :
  loadProgress {| progressFile := None; captionFiles := files |} = Ok fresh
  /\ fresh = {| processedVideos := []; failedVideos := []; lastRun := EmptyString |}
  /\ (forall p,
        loadProgress {| progressFile := Some (Ledger p); captionFiles := files |} = Ok p)
  /\ (forall content,
        let d := {| progressFile := Some (Corrupt content); captionFiles := files |} in
        exists e,
          loadProgress d = Err e
          /\ (forall schedule now,
                settled (GrabCaptions.main w d schedule now) = Err e
                /\ written (GrabCaptions.main w d schedule now) = [WroteKeep]
                /\ final (GrabCaptions.main w d schedule now) = d
                /\ snapshots (written (GrabCaptions.main w d schedule now)) = []
                /\ happened (GrabCaptions.main w d schedule now) = [])
          /\ (forall args schedule now,
                settled (TranscribeFallback.main w d args schedule now) = Err e
                /\ written (TranscribeFallback.main w d args schedule now) = []
                /\ final (TranscribeFallback.main w d args schedule now) = d
                /\ snapshots (written (TranscribeFallback.main w d args schedule now)) = []
                /\ happened (TranscribeFallback.main w d args schedule now) = [])).
Proof.
  repeat split.
  intros content d. exists "SyntaxError: JSON Parse error".
  assert (H : loadProgress d = Err "SyntaxError: JSON Parse error") by reflexivity.
  split; [exact H |]. split.
  - intros schedule now. rewrite (grab_main_load_error w d schedule now _ H).
    repeat split.
  - intros args schedule now.
    rewrite (transcribe_main_load_error w d args schedule now _ H). repeat split.
Qed.

(** ** How a command ends *)

Lemma grab_main_settled (w : World) (d : Disk) (schedule : list (nat * string))
    (now : string) :
  settled (GrabCaptions.main w d schedule now) =
  match loadProgress d with Ok _ => Ok () | Err e => Err e end.
Proof.
  unfold GrabCaptions.main. destruct (loadProgress d) as [p|e]; [| reflexivity].
  destruct (GrabCaptions.collect w GrabCaptions.PLAYLISTS) as [videos errs].
  destruct (GrabCaptions.pendingVideos p videos); reflexivity.
Qed.

Lemma transcribe_main_settled (w : World) (d : Disk) (args : list string)
    (schedule : list (nat * string)) (now : string) :
  settled (TranscribeFallback.main w d args schedule now) =
  match loadProgress d with Ok _ => Ok () | Err e => Err e end.
Proof.
  unfold TranscribeFallback.main. destruct (loadProgress d) as [p|e]; [| reflexivity].
  destruct (failedVideos p); reflexivity.
Qed.

Lemma command_status (o : Outcome) : status (command o) = 0.
Proof. unfold command. destruct (settled o); reflexivity. Qed.

Lemma command_errors (o : Outcome) :
  errors (command o) =
  stderr o ++ match settled o with Ok _ => [] | Err e => [e] end.
Proof. unfold command. destruct (settled o); simpl; rewrite ?app_nil_r; reflexivity. Qed.

(** C8 as stated fails: the error of a corrupt progress file escapes
    [main], is printed on standard error by the handler at the last line,
    and the command still ends with status 0; so for the primary script,
    and so for the enrichment script run with its key. *)
Lemma C8_rejected_main_exits_zero :
  let c1 := GrabCaptions.captions Sample.offline Sample.corrupt_disk []
              "2025-01-01T00:00:00.000Z" in
  let c2 := TranscribeFallback.transcribe (Some "gsk_key") Sample.offline
              Sample.corrupt_disk [] [] "2025-01-01T00:00:00.000Z" in
  settled (GrabCaptions.main Sample.offline Sample.corrupt_disk []
             "2025-01-01T00:00:00.000Z") = Err "SyntaxError: JSON Parse error"
  /\ exit c1 = {| status := 0; errors := ["SyntaxError: JSON Parse error"] |}
  /\ settled (TranscribeFallback.main Sample.offline Sample.corrupt_disk [] []
                "2025-01-01T00:00:00.000Z") = Err "SyntaxError: JSON Parse error"
  /\ exit c2 = {| status := 0; errors := ["SyntaxError: JSON Parse error"] |}.
Proof. repeat split. Qed.

(** C8, amended. Both commands end with status 0 whatever the items did:
    [main] is fulfilled whenever the ledger loads, whatever the world
    answers; when [main] rejects, the handler at the last line prints the
    error on standard error after what was reported before, and the status
    is 0 all the same.  This is all the primary script can do.  The
    enrichment script does so when its key is set and not empty; run
    without [GROQ_API_KEY], its statement [const groq = new Groq()] throws
    before [main] is called, nothing catches that, and the process ends
    with status 1, the error on standard error. *)
Theorem C8_exit_status (w : World) (d : Disk) (args : list string)
    (schedule : list (nat * string)) (now : string) :
  let primary := GrabCaptions.main w d schedule now in
  let enrichment := TranscribeFallback.main w d args schedule now in
  let rejection := match loadProgress d with Ok _ => [] | Err e => [e] end in
  settled primary = match loadProgress d with Ok _ => Ok () | Err e => Err e end
  /\ settled enrichment = match loadProgress d with Ok _ => Ok () | Err e => Err e end
  /\ GrabCaptions.captions w d schedule now =
       {| exit := {| status := 0; errors := stderr primary ++ rejection |};
          ran := Some primary |}
  /\ (forall c key,
        TranscribeFallback.transcribe (Some (String c key)) w d args schedule now =
          {| exit := {| status := 0; errors := stderr enrichment ++ rejection |};
             ran := Some enrichment |})
  /\ (exists e,
        TranscribeFallback.transcribe None w d args schedule now =
          {| exit := {| status := 1; errors := [e] |}; ran := None |}).
Proof.
  cbv zeta.
  assert (Hcommand : forall o,
            settled o = match loadProgress d with Ok _ => Ok () | Err e => Err e end ->
            command o =
            {| status := 0;
               errors := stderr o ++ match loadProgress d with Ok _ => [] | Err e => [e] end |}).
  { intros o Ho. unfold command. rewrite Ho.
    destruct (loadProgress d); simpl; rewrite ?app_nil_r; reflexivity. }
  split; [apply grab_main_settled |]. split; [apply transcribe_main_settled |].
  split; [| split].
  - unfold GrabCaptions.captions, script. f_equal.
    apply Hcommand, grab_main_settled.
  - intros c key. unfold TranscribeFallback.transcribe, TranscribeFallback.newGroq, script.
    f_equal. apply Hcommand, transcribe_main_settled.
  - eexists. reflexivity.
Qed.

(** ** The ledger updates *)

Lemma has_id_true (x : string) (f : FailedVideo) : has_id x f = true <-> fid f = x.
Proof. unfold has_id. apply String.eqb_eq. Qed.

Lemma has_id_false (x : string) (f : FailedVideo) : has_id x f = false <-> fid f <> x.
Proof. unfold has_id. apply String.eqb_neq. Qed.

Lemma find_has_id_none (x : string) (l : list FailedVideo) :
  List.find (has_id x) l = None <-> ~ In x (ids l).
Proof.
  induction l as [|f fs IH]; simpl; [tauto |].
  destruct (has_id x f) eqn:E.
  - apply has_id_true in E. split; [discriminate | intros H; exfalso; apply H; auto].
  - apply has_id_false in E. rewrite IH. tauto.
Qed.

Lemma touch_first_ids (x now : string) (l : list FailedVideo) :
  ids (touch_first x now l) = ids l.
Proof.
  induction l as [|f fs IH]; simpl; [reflexivity |].
  destruct (has_id x f); simpl; [reflexivity | f_equal; exact IH].
Qed.

Lemma touch_first_split (x now : string) (l : list FailedVideo) :
  In x (ids l) ->
  exists before f after,
    l = before ++ f :: after /\ fid f = x /\ ~ In x (ids before) /\
    touch_first x now l = before ++ touch now f :: after.
Proof.
  induction l as [|g gs IH]; simpl; [tauto |].
  intros Hin. destruct (has_id x g) eqn:E.
  - apply has_id_true in E. exists [], g, gs. simpl. auto.
  - apply has_id_false in E. destruct Hin as [Hin|Hin]; [contradiction |].
    destruct (IH Hin) as (before & f & after & -> & Hf & Hb & Ht).
    exists (g :: before), f, after. simpl. rewrite Ht.
    repeat split; auto. intros [H|H]; auto.
Qed.

Lemma markFailed_known (x now : string) (p : Progress) :
  In x (ids (failedVideos p)) ->
  failedVideos (markFailed x now p) = touch_first x now (failedVideos p).
Proof.
  intros Hin. unfold markFailed; simpl.
  destruct (List.find (has_id x) (failedVideos p)) eqn:E; [reflexivity |].
  apply find_has_id_none in E. contradiction.
Qed.

Lemma markFailed_new (x now : string) (p : Progress) :
  ~ In x (ids (failedVideos p)) ->
  failedVideos (markFailed x now p) =
  failedVideos p ++
  [{| fid := x; error := "No captions available"; lastAttempt := now |}].
Proof.
  intros Hin. unfold markFailed; simpl.
  apply find_has_id_none in Hin. rewrite Hin. reflexivity.
Qed.

Lemma markTranscribed_gone (x : string) (p : Progress) :
  ~ In x (ids (failedVideos (markTranscribed x p))).
Proof.
  unfold markTranscribed, ids; simpl. rewrite in_map_iff.
  intros (f & Hf & Hin). apply filter_In in Hin. destruct Hin as [_ Hn].
  apply negb_true_iff, has_id_false in Hn. contradiction.
Qed.

Lemma markTranscribed_others (x : string) (p : Progress) (f : FailedVideo) :
  fid f <> x -> (In f (failedVideos (markTranscribed x p)) <-> In f (failedVideos p)).
Proof.
  intros Hne. unfold markTranscribed; simpl. rewrite filter_In.
  apply has_id_false in Hne. rewrite Hne. simpl. tauto.
Qed.

(** ** [processVideo] *)

Lemma processVideo_failure (w : World) (now x : string) (p : Progress) (d : Disk) :
  snd (TranscribeFallback.attempt w now x) = None ->
  exists evs, TranscribeFallback.processVideo w now x p d = (false, p, d, evs).
Proof.
  unfold TranscribeFallback.processVideo.
  destruct (TranscribeFallback.attempt w now x) as [[evs es] [c|]]; simpl;
    [discriminate | eauto].
Qed.

Lemma processVideo_success (w : World) (now x : string) (p : Progress) (d : Disk)
    (c : VideoCaption) :
  snd (TranscribeFallback.attempt w now x) = Some c ->
  exists evs,
    TranscribeFallback.processVideo w now x p d =
    (true, markTranscribed x p, saveCaptions c d, evs).
Proof.
  unfold TranscribeFallback.processVideo.
  destruct (TranscribeFallback.attempt w now x) as [[evs es] [c'|]]; simpl;
    [| discriminate].
  intros [= ->]. eauto.
Qed.

(** The paths of [processVideo] that return [false]. *)
Lemma attempt_none (w : World) (now x : string) :
  snd (TranscribeFallback.attempt w now x) = None <->
  (snd (TranscribeFallback.getVideoInfo w x) = None
   \/ snd (TranscribeFallback.downloadAudio w x) = None
   \/ exists info audio,
        snd (TranscribeFallback.getVideoInfo w x) = Some info /\
        snd (TranscribeFallback.downloadAudio w x) = Some audio /\
        ((exists e, TranscribeFallback.transcribeWithGroq w audio (title info) = Err e)
         \/ TranscribeFallback.transcribeWithGroq w audio (title info) = Ok [])).
Proof.
  unfold TranscribeFallback.attempt.
  destruct (TranscribeFallback.getVideoInfo w x) as [errs [info|]]; simpl;
    [| intuition].
  destruct (TranscribeFallback.downloadAudio w x) as [errs' [audio|]]; simpl;
    [| intuition].
  destruct (TranscribeFallback.transcribeWithGroq w audio (title info))
    as [[|entry more]|e] eqn:E; simpl.
  - split; [| reflexivity]. intros _. right. right. exists info, audio. auto.
  - split; [discriminate |].
    intros [H|[H|(info' & audio' & [= <-] & [= <-] & [[e H]|H])]];
      try discriminate; rewrite E in H; discriminate.
  - split; [| reflexivity]. intros _. right. right. exists info, audio. eauto.
Qed.

(** C10. When [processVideo] succeeds for an id, the id is appended to
    [processedVideos] and every failed entry of the id is removed, the
    entries of other ids staying; on every path that returns [false] (no
    video description, no audio, a transcription that throws or is empty)
    the ledger and the disk are what they were. *)
Theorem C10_processVideo_ledger (w : World) (now x : string) (p : Progress)
    (d : Disk) :
  let '(ok, p', d', _) := TranscribeFallback.processVideo w now x p d in
  (ok = true ->
     processedVideos p' = processedVideos p ++ [x]
     /\ failedVideos p' = List.filter (fun f => negb (has_id x f)) (failedVideos p)
     /\ ~ In x (ids (failedVideos p'))
     /\ (forall f, fid f <> x -> (In f (failedVideos p') <-> In f (failedVideos p)))
     /\ lastRun p' = lastRun p)
  /\ (ok = false -> p' = p /\ d' = d)
  /\ (ok = false <->
        snd (TranscribeFallback.getVideoInfo w x) = None
        \/ snd (TranscribeFallback.downloadAudio w x) = None
        \/ exists info audio,
             snd (TranscribeFallback.getVideoInfo w x) = Some info /\
             snd (TranscribeFallback.downloadAudio w x) = Some audio /\
             ((exists e,
                 TranscribeFallback.transcribeWithGroq w audio (title info) = Err e)
              \/ TranscribeFallback.transcribeWithGroq w audio (title info) = Ok [])).
Proof.
  pose proof (attempt_none w now x) as Hn.
  destruct (snd (TranscribeFallback.attempt w now x)) as [c|] eqn:E.
  - destruct (processVideo_success w now x p d c E) as [evs ->].
    split; [| split; [discriminate | split; [discriminate |]]].
    + intros _. repeat split.
      * apply markTranscribed_gone.
      * apply markTranscribed_others; assumption.
      * apply markTranscribed_others; assumption.
    + intros H. apply Hn in H. discriminate.
  - destruct (processVideo_failure w now x p d E) as [evs ->].
    split; [discriminate |]. split; [auto |].
    split; [intros _; apply Hn; reflexivity | reflexivity].
Qed.

(** ** Invariants of the primary pool *)

Lemma grab_resume_length (w : World) (pending : list VideoInfo)
    (st : GrabCaptions.Run) (ev : nat * string) :
  length (GrabCaptions.phases (GrabCaptions.resume w pending st ev)) =
  length (GrabCaptions.phases st).
Proof.
  grab_resume_cases w pending st ev; rewrite ?length_insert; reflexivity.
Qed.

Lemma grab_resume_other (w : World) (pending : list VideoInfo)
    (st : GrabCaptions.Run) (i j : nat) (now : string) :
  i <> j ->
  GrabCaptions.phases (GrabCaptions.resume w pending st (i, now)) !! j =
  GrabCaptions.phases st !! j.
Proof.
  intros Hne.
  grab_resume_cases w pending st (i, now);
    rewrite ?list_lookup_insert_ne by assumption; reflexivity.
Qed.

Lemma markFailed_in (x now : string) (p : Progress) :
  In x (ids (failedVideos (markFailed x now p))).
Proof.
  unfold markFailed; simpl.
  destruct (List.find (has_id x) (failedVideos p)) eqn:E.
  - rewrite touch_first_ids. apply find_some in E. destruct E as [Hin Hid].
    apply has_id_true in Hid. subst x. unfold ids. apply in_map. exact Hin.
  - unfold ids. rewrite map_app. apply in_or_app. right. simpl. auto.
Qed.

Lemma markFailed_mono (x y now : string) (p : Progress) :
  In x (ids (failedVideos p)) -> In x (ids (failedVideos (markFailed y now p))).
Proof.
  intros Hin. unfold markFailed; simpl.
  destruct (List.find (has_id y) (failedVideos p)).
  - rewrite touch_first_ids. exact Hin.
  - unfold ids in *. rewrite map_app. apply in_or_app. auto.
Qed.

Lemma lookup_insert_same {A} (l : list A) (i : nat) (x y : A) :
  l !! i = Some y -> <[i := x]> l !! i = Some x.
Proof. intros H. apply list_lookup_insert_eq. eapply lookup_lt_Some; eauto. Qed.

Lemma touch_first_app (x now : string) (a b : list FailedVideo) :
  touch_first x now (a ++ b) =
  match List.find (has_id x) a with
  | Some _ => touch_first x now a ++ b
  | None => a ++ touch_first x now b
  end.
Proof.
  induction a as [|f fs IH]; simpl; [reflexivity |].
  destruct (has_id x f); simpl; [reflexivity |].
  rewrite IH. destruct (List.find (has_id x) fs); reflexivity.
Qed.

Lemma touch_first_errors (x now : string) (l : list FailedVideo) :
  Forall (fun f => error f = "No captions available") l ->
  Forall (fun f => error f = "No captions available") (touch_first x now l).
Proof.
  induction 1 as [|f fs Hf Hfs IH]; simpl; [constructor |].
  destruct (has_id x f); constructor; auto.
Qed.

Lemma markFailed_shape (loaded : list FailedVideo) (x now : string) (p : Progress) :
  failed_shape loaded (failedVideos p) ->
  failed_shape loaded (failedVideos (markFailed x now p)).
Proof.
  intros (old & new & E & Hold & Hnd & Hfresh & Hgen).
  destruct (in_dec string_dec x (ids (failedVideos p))) as [Hin|Hout].
  - rewrite (markFailed_known _ _ _ Hin), E, touch_first_app.
    destruct (List.find (has_id x) old).
    + exists (touch_first x now old), new. rewrite touch_first_ids. auto.
    + exists old, (touch_first x now new). rewrite touch_first_ids.
      repeat split; auto using touch_first_errors.
  - rewrite (markFailed_new _ _ _ Hout), E, <- app_assoc.
    exists old, (new ++ [no_captions x now]).
    rewrite E in Hout. unfold ids in Hout. rewrite map_app, in_app_iff in Hout.
    repeat split; auto.
    + unfold ids. rewrite map_app. simpl. apply NoDup_app. repeat split; auto.
      * intros y Hy [->|[]]%list_elem_of_In. apply Hout. right.
        apply list_elem_of_In. exact Hy.
      * apply NoDup_singleton.
    + intros y. unfold ids at 1. rewrite map_app, in_app_iff. simpl.
      intros [Hy|[<-|[]]]; [auto |]. rewrite <- Hold. unfold ids. tauto.
    + apply Forall_app. split; [exact Hgen |]. repeat constructor.
Qed.

(** ** Record paths *)

Lemma append_inj_l (p a b : string) : p +:+ a = p +:+ b -> a = b.
Proof. induction p as [|c p IH]; simpl; [auto |]. intros [= H]. auto. Qed.

Lemma append_length (a b : string) :
  String.length (a +:+ b) = (String.length a + String.length b)%nat.
Proof. induction a as [|c a IH]; simpl; [reflexivity | rewrite IH; reflexivity]. Qed.

Lemma append_inj_r (s a b : string) : a +:+ s = b +:+ s -> a = b.
Proof.
  revert b. induction a as [|c a IH]; intros [|c' b] H; simpl in *.
  - reflexivity.
  - apply (f_equal String.length) in H. simpl in H. rewrite !append_length in H.
    simpl in H. lia.
  - apply (f_equal String.length) in H. simpl in H. rewrite !append_length in H.
    simpl in H. lia.
  - injection H as -> H. f_equal. auto.
Qed.

(** Two ids with one record file are one id. *)
Lemma caption_path_inj (x y : string) : caption_path x = caption_path y -> x = y.
Proof.
  unfold caption_path. intros H.
  apply append_inj_l, append_inj_l in H. exact (append_inj_r _ _ _ H).
Qed.


Section GrabPool.

Variable w : World.
Variable pending : list VideoInfo.

(** A step moves the phase of its unit only, and forward. *)
Lemma grab_step_phases (i : nat) (now : string) (st st' : GrabCaptions.Run) :
  GrabCaptions.Step w pending i now st st' ->
  GrabCaptions.phases st' = GrabCaptions.phases st \/
  exists ph ph',
    GrabCaptions.phases st !! i = Some ph /\
    GrabCaptions.phases st' = <[i := ph']> (GrabCaptions.phases st) /\
    ph' <> GrabCaptions.AwaitFetch /\
    (ph = GrabCaptions.AwaitFetch \/
     ph' = GrabCaptions.AwaitSaveProgress \/ ph' = GrabCaptions.Finished).
Proof.
  intros Hstep. grab_step_cases Hstep; auto; right.
  - exists GrabCaptions.AwaitFetch, GrabCaptions.AwaitSaveCaptions.
    repeat split; auto; discriminate.
  - exists GrabCaptions.AwaitFetch. eexists. split; [eauto |]. split; [reflexivity |].
    destruct (Nat.eqb _ 0); split; auto; discriminate.
  - exists GrabCaptions.AwaitSaveCaptions. eexists. split; [eauto |].
    split; [reflexivity |]. destruct (Nat.eqb _ 0); split; auto; discriminate.
  - exists GrabCaptions.AwaitSaveProgress, GrabCaptions.Finished.
    repeat split; auto; discriminate.
Qed.

Lemma grab_fetched_step (i j : nat) (now : string) (st st' : GrabCaptions.Run) :
  GrabCaptions.Step w pending i now st st' ->
  grab_fetched st' j ->
  grab_fetched st j \/ (j = i /\ GrabCaptions.phases st !! i = Some GrabCaptions.AwaitFetch).
Proof.
  intros Hstep. unfold grab_fetched.
  destruct (grab_step_phases _ _ _ _ Hstep) as [->|(ph & ph' & Hph & -> & Hne & Hor)];
    [auto |].
  destruct (decide (i = j)) as [<-|Hij].
  - rewrite (lookup_insert_same _ _ _ _ Hph), Hph.
    destruct ph; auto.
  - rewrite list_lookup_insert_ne by assumption. auto.
Qed.

Lemma grab_fetched_kept (i j : nat) (now : string) (st st' : GrabCaptions.Run) :
  GrabCaptions.Step w pending i now st st' ->
  grab_fetched st j -> grab_fetched st' j.
Proof.
  intros Hstep. unfold grab_fetched.
  destruct (grab_step_phases _ _ _ _ Hstep) as [->|(ph & ph' & Hph & -> & Hne & Hor)];
    [auto |].
  destruct (decide (i = j)) as [<-|Hij].
  - rewrite (lookup_insert_same _ _ _ _ Hph), Hph.
    destruct ph'; auto.
  - rewrite list_lookup_insert_ne by assumption. auto.
Qed.

Lemma grab_resume_failed_mono (st : GrabCaptions.Run) (ev : nat * string) (x : string) :
  In x (ids (failedVideos (GrabCaptions.progress st))) ->
  In x (ids (failedVideos (GrabCaptions.progress (GrabCaptions.resume w pending st ev)))).
Proof.
  intros Hin.
  grab_resume_cases w pending st ev; auto using markFailed_mono.
Qed.

Lemma resolve_of_fetch (v : VideoInfo) (evs : list Event)
    (found : option (list CaptionEntry)) :
  GrabCaptions.fetchCaptions w v = (evs, found) -> resolve w v = found.
Proof. intros H. unfold resolve. rewrite H. reflexivity. Qed.

Lemma resolve_not_empty (v : VideoInfo) (evs : list Event) :
  GrabCaptions.fetchCaptions w v <> (evs, Some []).
Proof.
  intros H. apply resolve_of_fetch in H. exact (resolve_nonempty w v H).
Qed.

(** A unit that got no captions has its id in [failedVideos]. *)
Lemma grab_resume_failed_in (st : GrabCaptions.Run) (ev : nat * string) :
  (forall i v, pending !! i = Some v -> resolve w v = None -> grab_fetched st i ->
               In (id v) (ids (failedVideos (GrabCaptions.progress st)))) ->
  forall i v, pending !! i = Some v -> resolve w v = None ->
              grab_fetched (GrabCaptions.resume w pending st ev) i ->
              In (id v) (ids (failedVideos
                (GrabCaptions.progress (GrabCaptions.resume w pending st ev)))).
Proof.
  intros IH j v Hj Hr Hf. destruct ev as [i now].
  pose proof (grab_resume_step w pending st i now) as Hstep.
  destruct (grab_fetched_step _ _ _ _ _ Hstep Hf) as [Hold|[-> Hph]].
  - apply grab_resume_failed_mono. exact (IH _ _ Hj Hr Hold).
  - revert Hf Hstep. generalize (GrabCaptions.resume w pending st (i, now)).
    intros st' Hf Hstep. grab_step_cases Hstep; try congruence.
    + unfold grab_fetched in Hf. rewrite Hph in Hf. contradiction.
    + unfold resolve in Hr. congruence.
    + same_item. apply markFailed_in.
Qed.

Lemma grab_resume_failed_shape (loaded : list FailedVideo)
    (st : GrabCaptions.Run) (ev : nat * string) :
  failed_shape loaded (failedVideos (GrabCaptions.progress st)) ->
  failed_shape loaded
    (failedVideos (GrabCaptions.progress (GrabCaptions.resume w pending st ev))).
Proof.
  intros H. grab_resume_cases w pending st ev; auto using markFailed_shape.
Qed.

Lemma grab_resume_processed_mono (st : GrabCaptions.Run) (ev : nat * string)
    (x : string) :
  In x (processedVideos (GrabCaptions.progress st)) ->
  In x (processedVideos (GrabCaptions.progress (GrabCaptions.resume w pending st ev))).
Proof.
  intros Hin. grab_resume_cases w pending st ev; auto.
  apply in_or_app. auto.
Qed.

Lemma grab_marked_step (i j : nat) (now : string) (st st' : GrabCaptions.Run) :
  GrabCaptions.Step w pending i now st st' ->
  grab_marked st' j ->
  grab_marked st j \/
  (j = i /\ (GrabCaptions.phases st !! i = Some GrabCaptions.AwaitFetch \/
             GrabCaptions.phases st !! i = Some GrabCaptions.AwaitSaveCaptions)).
Proof.
  intros Hstep. unfold grab_marked.
  destruct (grab_step_phases _ _ _ _ Hstep) as [->|(ph & ph' & Hph & -> & Hne & Hor)];
    [auto |].
  destruct (decide (i = j)) as [<-|Hij].
  - rewrite (lookup_insert_same _ _ _ _ Hph), Hph. destruct ph; auto.
  - rewrite list_lookup_insert_ne by assumption. auto.
Qed.

(** A unit that got captions and is past its update of the ledger has its
    id in [processedVideos]. *)
Lemma grab_resume_done_in (st : GrabCaptions.Run) (ev : nat * string) :
  (forall i v, pending !! i = Some v -> resolve w v <> None -> grab_marked st i ->
               In (id v) (processedVideos (GrabCaptions.progress st))) ->
  forall i v, pending !! i = Some v -> resolve w v <> None ->
              grab_marked (GrabCaptions.resume w pending st ev) i ->
              In (id v) (processedVideos
                (GrabCaptions.progress (GrabCaptions.resume w pending st ev))).
Proof.
  intros IH j v Hj Hr Hm. destruct ev as [i now].
  pose proof (grab_resume_step w pending st i now) as Hstep.
  destruct (grab_marked_step _ _ _ _ _ Hstep Hm) as [Hold|[-> Hph]].
  - apply grab_resume_processed_mono. exact (IH _ _ Hj Hr Hold).
  - revert Hm Hstep. generalize (GrabCaptions.resume w pending st (i, now)).
    intros st' Hm Hstep. grab_step_cases Hstep; try (destruct Hph; congruence).
    + unfold grab_marked in Hm. destruct Hph as [Hph|Hph]; rewrite Hph in Hm;
        contradiction.
    + unfold grab_marked in Hm; cbn [GrabCaptions.phases] in Hm.
      rewrite (lookup_insert_same _ _ _ _ Hph0) in Hm. contradiction.
    + same_item. unfold resolve in Hr. contradiction.
    + same_item. apply in_or_app. right. left. reflexivity.
Qed.

(** Only the ids of units that got captions are added to
    [processedVideos]. *)
Lemma grab_resume_done_only (loaded : list string) (st : GrabCaptions.Run)
    (ev : nat * string) :
  (forall x, In x (processedVideos (GrabCaptions.progress st)) ->
             In x loaded \/
             exists i v, pending !! i = Some v /\ id v = x /\ resolve w v <> None) ->
  (forall i v, pending !! i = Some v ->
               GrabCaptions.phases st !! i = Some GrabCaptions.AwaitSaveCaptions ->
               resolve w v <> None) ->
  (forall x, In x (processedVideos
               (GrabCaptions.progress (GrabCaptions.resume w pending st ev))) ->
             In x loaded \/
             exists i v, pending !! i = Some v /\ id v = x /\ resolve w v <> None).
Proof.
  intros IH Hsaving x. destruct ev as [i now].
  grab_resume_cases w pending st (i, now); auto.
  rewrite in_app_iff. simpl. intros [Hin|[<-|[]]]; [auto |].
  right. eexists _, _. split; [eassumption |]. split; [reflexivity |]. eauto.
Qed.

Lemma grab_resume_saving (st : GrabCaptions.Run) (ev : nat * string) :
  (forall i v, pending !! i = Some v ->
               GrabCaptions.phases st !! i = Some GrabCaptions.AwaitSaveCaptions ->
               resolve w v <> None) ->
  (forall i v, pending !! i = Some v ->
               GrabCaptions.phases (GrabCaptions.resume w pending st ev) !! i =
                 Some GrabCaptions.AwaitSaveCaptions ->
               resolve w v <> None).
Proof.
  intros IH j v Hj. destruct ev as [i now].
  destruct (decide (i = j)) as [->|Hne].
  - grab_resume_cases w pending st (j, now); eauto;
      try (rewrite (lookup_insert_same _ _ _ _ Hph); destruct (Nat.eqb _ 0); discriminate).
    + same_item. intros _. exact Hfetch.
    + rewrite (lookup_insert_same _ _ _ _ Hph). discriminate.
  - rewrite grab_resume_other by assumption. eauto.
Qed.

(** A record is written for a unit that got captions only, at the path of
    its id. *)
Lemma grab_resume_records (files : gmap string VideoCaption)
    (st : GrabCaptions.Run) (ev : nat * string) :
  (forall path,
     captionFiles (GrabCaptions.disk st) !! path = files !! path \/
     exists i v, pending !! i = Some v /\ path = caption_path (id v) /\
                 resolve w v <> None) ->
  (forall path,
     captionFiles (GrabCaptions.disk (GrabCaptions.resume w pending st ev)) !! path =
       files !! path \/
     exists i v, pending !! i = Some v /\ path = caption_path (id v) /\
                 resolve w v <> None).
Proof.
  intros IH path. grab_resume_cases w pending st ev; auto.
  destruct (decide (caption_path (id video0) = path)) as [<-|Hne].
  - right. eauto.
  - rewrite lookup_insert_ne by assumption. auto.
Qed.

Lemma grab_resume_written (st : GrabCaptions.Run) (ev : nat * string) :
  (forall path, In path (records (GrabCaptions.writes st)) ->
     exists i v, pending !! i = Some v /\ path = caption_path (id v) /\
                 resolve w v <> None) ->
  (forall path,
     In path (records (GrabCaptions.writes (GrabCaptions.resume w pending st ev))) ->
     exists i v, pending !! i = Some v /\ path = caption_path (id v) /\
                 resolve w v <> None).
Proof.
  intros IH path. unfold records in *.
  grab_resume_cases w pending st ev; auto;
    rewrite omap_app, in_app_iff; intros [Hin|Hin]; auto.
  - simpl in Hin. destruct Hin as [<-|[]]. eauto.
  - destruct (Nat.eqb _ 0); simpl in Hin; contradiction.
  - destruct (Nat.eqb _ 0); simpl in Hin; contradiction.
Qed.

(** Every unit that has its answer had the direct-caption adapter invoked
    for its id. *)
Lemma grab_resume_attempted (st : GrabCaptions.Run) (ev : nat * string) :
  (forall i v, pending !! i = Some v -> grab_fetched st i ->
               In (DirectCaption, id v) (invoked (GrabCaptions.events st))) ->
  (forall i v, pending !! i = Some v ->
               grab_fetched (GrabCaptions.resume w pending st ev) i ->
               In (DirectCaption, id v)
                  (invoked (GrabCaptions.events (GrabCaptions.resume w pending st ev)))).
Proof.
  intros IH j v Hj Hf. destruct ev as [i now].
  pose proof (grab_resume_step w pending st i now) as Hstep.
  assert (Hnew : forall v', In (DirectCaption, id v')
            (invoked (GrabCaptions.events st ++ fst (GrabCaptions.fetchCaptions w v')))).
  { intros v'. unfold invoked. rewrite omap_app, in_app_iff. right.
    destruct (fetchCaptions_invoked w v') as [E|E]; unfold invoked in E; rewrite E;
      simpl; auto. }
  assert (Hmono : forall c, In c (invoked (GrabCaptions.events st)) ->
            In c (invoked (GrabCaptions.events (GrabCaptions.resume w pending st (i, now))))).
  { intros c Hc. clear Hf.
    grab_resume_cases w pending st (i, now); auto;
      unfold invoked in *; rewrite omap_app, in_app_iff; auto. }
  destruct (grab_fetched_step _ _ _ _ _ Hstep Hf) as [Hold|[-> Hph]].
  - apply Hmono. exact (IH _ _ Hj Hold).
  - clear Hmono. revert Hf Hstep. generalize (GrabCaptions.resume w pending st (i, now)).
    intros st' Hf Hstep. grab_step_cases Hstep; try congruence.
    + unfold grab_fetched in Hf. rewrite Hph in Hf. contradiction.
    + same_item. apply Hnew.
    + same_item. apply Hnew.
Qed.

(** *** Every unit settles *)

Lemma finished_prefix_count (phases : list GrabCaptions.Phase) (a : nat) :
  (forall j, (j < a)%nat -> phases !! j = Some GrabCaptions.Finished) ->
  (a <= length (List.filter GrabCaptions.is_finished phases))%nat.
Proof.
  revert a. induction phases as [|ph rest IH]; intros a H.
  - destruct a; [simpl; lia |]. specialize (H 0%nat ltac:(lia)). discriminate.
  - destruct a; [lia |].
    pose proof (H 0%nat ltac:(lia)) as H0. injection H0 as ->. simpl.
    apply le_n_S. apply IH. intros j Hj. apply (H (S j)). lia.
Qed.

Lemma grab_started_after_prefix (st : GrabCaptions.Run) (a : nat) :
  (forall j, (j < a)%nat -> GrabCaptions.phases st !! j = Some GrabCaptions.Finished) ->
  GrabCaptions.started a st = true.
Proof.
  intros H. unfold GrabCaptions.started. apply Nat.ltb_lt.
  pose proof (finished_prefix_count _ _ H).
  unfold GrabCaptions.CONCURRENCY_LIMIT. lia.
Qed.

(** A resumption of a started unit brings it one step nearer to its end. *)
Lemma grab_resume_progress (st : GrabCaptions.Run) (a : nat) (now : string)
    (v : VideoInfo) (ph : GrabCaptions.Phase) :
  pending !! a = Some v ->
  GrabCaptions.phases st !! a = Some ph ->
  GrabCaptions.started a st = true ->
  exists ph',
    GrabCaptions.phases (GrabCaptions.resume w pending st (a, now)) !! a = Some ph' /\
    (grab_rank ph' <= pred (grab_rank ph))%nat.
Proof.
  intros Hv Hph Hs. rewrite grab_resume_unfold, Hph, Hv.
  destruct ph; simpl grab_rank.
  - rewrite Hs. destruct (snd (GrabCaptions.fetchCaptions w v)) eqn:Hf.
    + destruct (after_fetch_captions w now a v st) as (e & m & Hc & ->); [congruence |].
      cbn [GrabCaptions.phases]. rewrite (lookup_insert_same _ _ _ _ Hph).
      eexists; split; [reflexivity | simpl; lia].
    + rewrite after_fetch_no_captions by assumption. grab_fields.
      rewrite (lookup_insert_same _ _ _ _ Hph).
      eexists; split; [reflexivity |]. destruct (Nat.eqb _ 0); simpl; lia.
  - unfold GrabCaptions.after_save. grab_fields.
    rewrite (lookup_insert_same _ _ _ _ Hph).
    eexists; split; [reflexivity |]. destruct (Nat.eqb _ 0); simpl; lia.
  - grab_fields. rewrite (lookup_insert_same _ _ _ _ Hph).
    eexists; split; [reflexivity | simpl; lia].
  - exists GrabCaptions.Finished. split; [assumption | simpl; lia].
Qed.

Lemma grab_drain_prefix (now : string) (k a : nat) (st : GrabCaptions.Run) :
  length (GrabCaptions.phases st) = length pending ->
  (a + k <= length pending)%nat ->
  (forall j, (j < a)%nat -> GrabCaptions.phases st !! j = Some GrabCaptions.Finished) ->
  forall j, (j < a + k)%nat ->
    GrabCaptions.phases
      (fold_left
         (fun st i => GrabCaptions.resume w pending
                        (GrabCaptions.resume w pending
                           (GrabCaptions.resume w pending st (i, now)) (i, now)) (i, now))
         (seq a k) st) !! j = Some GrabCaptions.Finished.
Proof.
  revert a st. induction k as [|k IH]; intros a st Hlen Hle Hpre j Hj.
  - simpl. apply Hpre. lia.
  - cbn [seq fold_left].
    set (r := fun s => GrabCaptions.resume w pending s (a, now)).
    change (GrabCaptions.resume w pending
              (GrabCaptions.resume w pending
                 (GrabCaptions.resume w pending st (a, now)) (a, now)) (a, now))
      with (r (r (r st))).
    assert (Hkeep : forall s, (forall j, (j < a)%nat ->
                       GrabCaptions.phases s !! j = Some GrabCaptions.Finished) ->
                     forall j, (j < a)%nat ->
                       GrabCaptions.phases (r s) !! j = Some GrabCaptions.Finished).
    { intros s Hs j' Hj'. unfold r. rewrite grab_resume_other by lia. auto. }
    assert (Hlen' : forall s, length (GrabCaptions.phases (r s)) =
                              length (GrabCaptions.phases s)).
    { intros s. apply grab_resume_length. }
    destruct (lookup_lt_is_Some_2 pending a ltac:(lia)) as [v Hv].
    destruct (lookup_lt_is_Some_2 (GrabCaptions.phases st) a ltac:(lia)) as [ph0 Hph0].
    destruct (grab_resume_progress st a now v ph0 Hv Hph0
                (grab_started_after_prefix _ _ Hpre)) as (ph1 & Hph1 & Hr1).
    destruct (grab_resume_progress (r st) a now v ph1 Hv Hph1
                (grab_started_after_prefix _ _ (Hkeep _ Hpre))) as (ph2 & Hph2 & Hr2).
    destruct (grab_resume_progress (r (r st)) a now v ph2 Hv Hph2
                (grab_started_after_prefix _ _ (Hkeep _ (Hkeep _ Hpre))))
      as (ph3 & Hph3 & Hr3).
    assert (ph3 = GrabCaptions.Finished) as ->.
    { assert (H0 : (grab_rank ph0 <= 3)%nat) by (destruct ph0; simpl; lia).
      assert (H3 : grab_rank ph3 = 0%nat) by lia.
      destruct ph3; simpl in H3; try discriminate; reflexivity. }
    replace (a + S k)%nat with (S a + k)%nat in Hj by lia.
    apply IH; try lia.
    + rewrite !Hlen'. exact Hlen.
    + intros j' Hj'. destruct (decide (j' = a)) as [->|Hne].
      * exact Hph3.
      * apply (Hkeep _ (Hkeep _ (Hkeep _ Hpre))). lia.
Qed.

Lemma grab_drain_finished (now : string) (st : GrabCaptions.Run) :
  length (GrabCaptions.phases st) = length pending ->
  forall j, (j < length pending)%nat ->
    GrabCaptions.phases (GrabCaptions.drain w pending now st) !! j =
    Some GrabCaptions.Finished.
Proof.
  intros Hlen j Hj. unfold GrabCaptions.drain.
  apply (grab_drain_prefix now (length pending) 0 st Hlen); try lia.
Qed.

Lemma grab_schedule_length (schedule : list (nat * string)) (st : GrabCaptions.Run) :
  length (GrabCaptions.phases (GrabCaptions.run_schedule w pending schedule st)) =
  length (GrabCaptions.phases st).
Proof.
  revert st. unfold GrabCaptions.run_schedule.
  induction schedule as [|ev rest IH]; intros st; cbn [fold_left]; [reflexivity |].
  rewrite IH. apply grab_resume_length.
Qed.

(** When the pool has settled, every unit is finished. *)
Lemma grab_pool_finished (schedule : list (nat * string)) (now : string)
    (st : GrabCaptions.Run) :
  length (GrabCaptions.phases st) = length pending ->
  forall j, (j < length pending)%nat ->
    GrabCaptions.phases (GrabCaptions.pool w pending schedule now st) !! j =
    Some GrabCaptions.Finished.
Proof.
  intros Hlen j Hj. unfold GrabCaptions.pool. apply grab_drain_finished; [| exact Hj].
  rewrite grab_schedule_length. exact Hlen.
Qed.

End GrabPool.

(** ** The primary run as a whole *)

Lemma grab_main_idle (w : World) (d : Disk) (schedule : list (nat * string))
    (now : string) (p : Progress) :
  loadProgress d = Ok p -> grab_pending w p = [] ->
  GrabCaptions.main w d schedule now =
    {| settled := Ok (); final := d; written := [WroteKeep]; happened := [];
       stderr := snd (GrabCaptions.collect w GrabCaptions.PLAYLISTS) |}.
Proof.
  intros Hload Hp. unfold GrabCaptions.main, grab_pending, GrabCaptions.allVideos in *.
  rewrite Hload. destruct (GrabCaptions.collect w GrabCaptions.PLAYLISTS) as [videos errs].
  simpl in *. rewrite Hp. reflexivity.
Qed.

Lemma grab_main_run (w : World) (d : Disk) (schedule : list (nat * string))
    (now : string) (p : Progress) :
  loadProgress d = Ok p -> grab_pending w p <> [] ->
  let st := GrabCaptions.pool w (grab_pending w p) schedule now
              (GrabCaptions.start p d (grab_pending w p)) in
  GrabCaptions.main w d schedule now =
    {| settled := Ok ();
       final := {| progressFile := Some (Ledger (stamp now (GrabCaptions.progress st)));
                   captionFiles := captionFiles (GrabCaptions.disk st) |};
       written := GrabCaptions.writes st ++
                  [WroteProgress (stamp now (GrabCaptions.progress st))];
       happened := GrabCaptions.events st;
       stderr := snd (GrabCaptions.collect w GrabCaptions.PLAYLISTS) |}.
Proof.
  intros Hload Hp. unfold GrabCaptions.main, grab_pending, GrabCaptions.allVideos in *.
  rewrite Hload. destruct (GrabCaptions.collect w GrabCaptions.PLAYLISTS) as [videos errs].
  simpl in *. destruct (GrabCaptions.pendingVideos p videos); [contradiction |].
  reflexivity.
Qed.

Lemma grab_start_not_fetched (p : Progress) (d : Disk) (pending : list VideoInfo)
    (i : nat) :
  ~ grab_fetched (GrabCaptions.start p d pending) i.
Proof.
  unfold grab_fetched, GrabCaptions.start; simpl.
  destruct (replicate (length pending) GrabCaptions.AwaitFetch !! i) as [ph|] eqn:E;
    [| auto].
  apply lookup_replicate in E. destruct E as [-> _]. auto.
Qed.

Lemma grab_start_not_marked (p : Progress) (d : Disk) (pending : list VideoInfo)
    (i : nat) :
  ~ grab_marked (GrabCaptions.start p d pending) i.
Proof.
  unfold grab_marked, GrabCaptions.start; simpl.
  destruct (replicate (length pending) GrabCaptions.AwaitFetch !! i) as [ph|] eqn:E;
    [| auto].
  apply lookup_replicate in E. destruct E as [-> _]. auto.
Qed.

Lemma failed_shape_refl (l : list FailedVideo) : failed_shape l l.
Proof.
  exists l, []. rewrite app_nil_r. repeat split; auto.
  apply NoDup_nil_2.
Qed.

(** What holds of the shared state when the pool of a primary run has
    settled. *)
Lemma grab_pool_facts (w : World) (d : Disk) (schedule : list (nat * string))
    (now : string) (p : Progress) (pending : list VideoInfo) :
  let st := GrabCaptions.pool w pending schedule now (GrabCaptions.start p d pending) in
  (forall v, In v pending -> resolve w v = None ->
             In (id v) (ids (failedVideos (GrabCaptions.progress st))))
  /\ failed_shape (failedVideos p) (failedVideos (GrabCaptions.progress st))
  /\ (forall v, In v pending -> resolve w v <> None ->
                In (id v) (processedVideos (GrabCaptions.progress st)))
  /\ (forall x, In x (processedVideos (GrabCaptions.progress st)) ->
                In x (processedVideos p) \/
                exists v, In v pending /\ id v = x /\ resolve w v <> None)
  /\ (forall path,
        captionFiles (GrabCaptions.disk st) !! path = captionFiles d !! path \/
        exists v, In v pending /\ path = caption_path (id v) /\ resolve w v <> None)
  /\ (forall path, In path (records (GrabCaptions.writes st)) ->
        exists v, In v pending /\ path = caption_path (id v) /\ resolve w v <> None)
  /\ (forall v, In v pending ->
                In (DirectCaption, id v) (invoked (GrabCaptions.events st))).
Proof.
  intros st.
  assert (Hfin : forall i v, pending !! i = Some v ->
                   GrabCaptions.phases st !! i = Some GrabCaptions.Finished).
  { intros i v Hi. apply grab_pool_finished.
    - simpl. apply length_replicate.
    - eapply lookup_lt_Some; eauto. }
  assert (Hin : forall v, In v pending -> exists i, pending !! i = Some v).
  { intros v Hv. apply list_elem_of_In, list_elem_of_lookup in Hv. exact Hv. }
  assert (Hof : forall i v, pending !! i = Some v -> In v pending).
  { intros i v Hv. apply list_elem_of_In, list_elem_of_lookup. eauto. }
  repeat split.
  - intros v Hv Hr. destruct (Hin v Hv) as [i Hi].
    refine (grab_pool_ind
      (fun st => forall i v, pending !! i = Some v -> resolve w v = None ->
                 grab_fetched st i ->
                 In (id v) (ids (failedVideos (GrabCaptions.progress st))))
      w pending _ schedule now _ _ i v Hi Hr _).
    + intros s ev IH. apply grab_resume_failed_in. exact IH.
    + intros j u _ _ H. destruct (grab_start_not_fetched _ _ _ _ H).
    + unfold grab_fetched. fold st. rewrite (Hfin i v Hi). exact I.
  - apply (grab_pool_ind
      (fun st => failed_shape (failedVideos p) (failedVideos (GrabCaptions.progress st)))).
    + intros s ev. apply grab_resume_failed_shape.
    + apply failed_shape_refl.
  - intros v Hv Hr. destruct (Hin v Hv) as [i Hi].
    refine (grab_pool_ind
      (fun st => forall i v, pending !! i = Some v -> resolve w v <> None ->
                 grab_marked st i ->
                 In (id v) (processedVideos (GrabCaptions.progress st)))
      w pending _ schedule now _ _ i v Hi Hr _).
    + intros s ev IH. apply grab_resume_done_in. exact IH.
    + intros j u _ _ H. destruct (grab_start_not_marked _ _ _ _ H).
    + unfold grab_marked. fold st. rewrite (Hfin i v Hi). exact I.
  - intros x Hx.
    assert (H : (forall x, In x (processedVideos (GrabCaptions.progress st)) ->
                   In x (processedVideos p) \/
                   exists i v, pending !! i = Some v /\ id v = x /\ resolve w v <> None)
                /\ (forall i v, pending !! i = Some v ->
                      GrabCaptions.phases st !! i = Some GrabCaptions.AwaitSaveCaptions ->
                      resolve w v <> None)).
    { apply (grab_pool_ind
        (fun st =>
           (forall x, In x (processedVideos (GrabCaptions.progress st)) ->
              In x (processedVideos p) \/
              exists i v, pending !! i = Some v /\ id v = x /\ resolve w v <> None)
           /\ (forall i v, pending !! i = Some v ->
                 GrabCaptions.phases st !! i = Some GrabCaptions.AwaitSaveCaptions ->
                 resolve w v <> None))).
      - intros s ev [IH1 IH2]. split.
        + apply grab_resume_done_only; assumption.
        + apply grab_resume_saving; assumption.
      - split; [simpl; auto |].
        intros i v _ H. simpl in H. apply lookup_replicate in H.
        destruct H as [H _]. discriminate. }
    destruct H as [H _]. destruct (H x Hx) as [Hl|(i & v & Hi & Hid & Hr)]; [auto |].
    right. exists v. eauto.
  - intros path.
    assert (H : captionFiles (GrabCaptions.disk st) !! path = captionFiles d !! path \/
                exists i v, pending !! i = Some v /\ path = caption_path (id v) /\
                            resolve w v <> None).
    { revert path.
      apply (grab_pool_ind
        (fun st => forall path,
           captionFiles (GrabCaptions.disk st) !! path = captionFiles d !! path \/
           exists i v, pending !! i = Some v /\ path = caption_path (id v) /\
                       resolve w v <> None)).
      - intros s ev IH. apply grab_resume_records. exact IH.
      - intros path. left. reflexivity. }
    destruct H as [H|(i & v & Hi & Hp & Hr)]; [auto |]. right. exists v. eauto.
  - intros path Hpath.
    assert (H : exists i v, pending !! i = Some v /\ path = caption_path (id v) /\
                            resolve w v <> None).
    { revert path Hpath.
      apply (grab_pool_ind
        (fun st => forall path, In path (records (GrabCaptions.writes st)) ->
           exists i v, pending !! i = Some v /\ path = caption_path (id v) /\
                       resolve w v <> None)).
      - intros s ev IH. apply grab_resume_written. exact IH.
      - intros path []. }
    destruct H as (i & v & Hi & Hp & Hr). exists v. eauto.
  - intros v Hv. destruct (Hin v Hv) as [i Hi].
    refine (grab_pool_ind
      (fun st => forall i v, pending !! i = Some v -> grab_fetched st i ->
                 In (DirectCaption, id v) (invoked (GrabCaptions.events st)))
      w pending _ schedule now _ _ i v Hi _).
    + intros s ev IH. apply grab_resume_attempted. exact IH.
    + intros j u _ H. destruct (grab_start_not_fetched _ _ _ _ H).
    + unfold grab_fetched. fold st. rewrite (Hfin i v Hi). exact I.
Qed.

Lemma array_includes_In (x : string) (l : list string) :
  Js.array_includes x l = true <-> In x l.
Proof.
  unfold Js.array_includes. rewrite existsb_exists. split.
  - intros (y & Hy & E). apply String.eqb_eq in E. subst. exact Hy.
  - intros H. exists x. split; [exact H | apply String.eqb_refl].
Qed.

Lemma pending_iff (p : Progress) (videos : list VideoInfo) (v : VideoInfo) :
  In v (GrabCaptions.pendingVideos p videos) <->
  In v videos /\ ~ In (id v) (processedVideos p).
Proof.
  unfold GrabCaptions.pendingVideos. rewrite filter_In, negb_true_iff.
  rewrite <- array_includes_In. destruct (Js.array_includes _ _); intuition congruence.
Qed.

Lemma resolve_by_id (w : World) (v v' : VideoInfo) :
  id v = id v' -> resolve w v = resolve w v'.
Proof. intros E. unfold resolve. rewrite (fetchCaptions_by_id w v v' E). reflexivity. Qed.

Lemma records_snapshot (ws : list Write) (p : Progress) :
  records (ws ++ [WroteProgress p]) = records ws.
Proof. unfold records. rewrite omap_app. simpl. apply app_nil_r. Qed.

(** One new entry of an id in a failed list of the shape of a primary run. *)
Lemma failed_shape_one (loaded current : list FailedVideo) (x : string) :
  failed_shape loaded current ->
  In x (ids current) -> ~ In x (ids loaded) ->
  exists before at_ after,
    current = before ++ no_captions x at_ :: after /\
    ~ In x (ids before) /\ ~ In x (ids after).
Proof.
  intros (old & new & -> & Hold & Hnd & Hfresh & Hgen) Hin Hout.
  unfold ids in Hin. rewrite map_app, in_app_iff in Hin.
  destruct Hin as [Hin|Hin]; [unfold ids in Hold; rewrite Hold in Hin; contradiction |].
  apply in_map_iff in Hin. destruct Hin as (f & Hf & Hin).
  apply in_split in Hin. destruct Hin as (n1 & n2 & ->).
  rewrite Forall_app, Forall_cons in Hgen. destruct Hgen as (_ & Hg & _).
  unfold ids in Hnd. rewrite map_app in Hnd. simpl in Hnd. rewrite Hf in Hnd.
  apply NoDup_app in Hnd. destruct Hnd as (_ & Hdisj & Hnd2).
  apply NoDup_cons in Hnd2. destruct Hnd2 as [Hn2 _].
  exists (old ++ n1), (lastAttempt f), n2. rewrite <- app_assoc. repeat split.
  - f_equal. f_equal. destruct f as [i e t]; simpl in *. subst. reflexivity.
  - unfold ids. rewrite map_app, in_app_iff. intros [H|H].
    + unfold ids in Hold. rewrite Hold in H. contradiction.
    + apply list_elem_of_In in H. apply (Hdisj _ H). left.
  - intros H. apply Hn2. apply list_elem_of_In. exact H.
Qed.

(** ** The entries of one id in the failed list *)

Lemma grab_pool_ind_at (P : GrabCaptions.Run -> Prop) (w : World)
    (pending : list VideoInfo) (schedule : list (nat * string)) (now : string) :
  (forall st i t, In t (now :: map snd schedule) -> P st ->
                  P (GrabCaptions.resume w pending st (i, t))) ->
  forall st, P st -> P (GrabCaptions.pool w pending schedule now st).
Proof.
  intros Hstep st H0.
  unfold GrabCaptions.pool, GrabCaptions.drain, GrabCaptions.run_schedule.
  assert (Haux : forall sched st0,
            (forall ev, In ev sched -> In (snd ev) (now :: map snd schedule)) ->
            P st0 -> P (fold_left (GrabCaptions.resume w pending) sched st0)).
  { induction sched as [|[i t] rest IH]; intros st0 Hin Hst0; cbn [fold_left];
      [exact Hst0 |].
    apply IH.
    - intros ev Hev. apply Hin. right. exact Hev.
    - apply Hstep; [| exact Hst0]. apply (Hin (i, t)). left. reflexivity. }
  assert (H1 : P (fold_left (GrabCaptions.resume w pending) schedule st)).
  { apply Haux; [| exact H0]. intros ev Hev. right. apply in_map. exact Hev. }
  clear Haux.
  revert H1. generalize (fold_left (GrabCaptions.resume w pending) schedule st).
  generalize (seq 0 (length pending)).
  intros l. induction l as [|i rest IH]; intros st' H1; cbn [fold_left]; [exact H1 |].
  apply IH. do 3 (apply Hstep; [left; reflexivity |]). exact H1.
Qed.

Lemma find_filter_has_id (x : string) (l : list FailedVideo) :
  List.find (has_id x) l = None <-> List.filter (has_id x) l = [].
Proof.
  induction l as [|f fs IH]; simpl; [tauto |].
  destruct (has_id x f); [split; discriminate | exact IH].
Qed.

Lemma filter_touch_first (x t : string) (l : list FailedVideo) :
  List.filter (has_id x) (touch_first x t l) =
  match List.filter (has_id x) l with
  | [] => []
  | f :: more => {| fid := fid f; error := error f; lastAttempt := t |} :: more
  end.
Proof.
  induction l as [|f fs IH]; simpl; [reflexivity |].
  destruct (has_id x f) eqn:E; simpl.
  - unfold has_id in *. simpl. rewrite E. reflexivity.
  - rewrite E. exact IH.
Qed.

Lemma filter_touch_first_other (x y t : string) (l : list FailedVideo) :
  y <> x ->
  List.filter (has_id x) (touch_first y t l) = List.filter (has_id x) l.
Proof.
  intros Hne. induction l as [|f fs IH]; simpl; [reflexivity |].
  destruct (has_id y f) eqn:E; simpl.
  - apply has_id_true in E.
    assert (Hx : has_id x f = false) by (apply has_id_false; congruence).
    rewrite Hx. unfold has_id in *. simpl. rewrite Hx. reflexivity.
  - rewrite IH. reflexivity.
Qed.

(** What the [else] branch of a unit does to the entries of its id, and
    to those of another id. *)
Lemma markFailed_entries (x t : string) (p : Progress) :
  List.filter (has_id x) (failedVideos (markFailed x t p)) =
  match List.filter (has_id x) (failedVideos p) with
  | [] => [{| fid := x; error := "No captions available"; lastAttempt := t |}]
  | f :: more => {| fid := fid f; error := error f; lastAttempt := t |} :: more
  end.
Proof.
  unfold markFailed. cbn [failedVideos].
  destruct (List.find (has_id x) (failedVideos p)) as [f|] eqn:E.
  - rewrite filter_touch_first.
    destruct (List.filter (has_id x) (failedVideos p)) eqn:F; [| reflexivity].
    apply find_filter_has_id in F. congruence.
  - apply find_filter_has_id in E. rewrite List.filter_app, E. simpl.
    unfold has_id. simpl. rewrite String.eqb_refl. reflexivity.
Qed.

Lemma markFailed_entries_other (x y t : string) (p : Progress) :
  y <> x ->
  List.filter (has_id x) (failedVideos (markFailed y t p)) =
  List.filter (has_id x) (failedVideos p).
Proof.
  intros Hne. unfold markFailed. cbn [failedVideos].
  destruct (List.find (has_id y) (failedVideos p)).
  - apply filter_touch_first_other. exact Hne.
  - rewrite List.filter_app. simpl.
    assert (Hx : has_id x {| fid := y; error := "No captions available";
                            lastAttempt := t |} = false)
      by (apply has_id_false; exact Hne).
    rewrite Hx. apply app_nil_r.
Qed.

(** What a step does to the failed list. *)
Lemma grab_step_failed (w : World) (pending : list VideoInfo) (i : nat) (t : string)
    (st st' : GrabCaptions.Run) :
  GrabCaptions.Step w pending i t st st' ->
  (failedVideos (GrabCaptions.progress st') = failedVideos (GrabCaptions.progress st)
   /\ forall v, pending !! i = Some v -> resolve w v = None ->
                GrabCaptions.phases st !! i = Some GrabCaptions.AwaitFetch ->
                st' = st)
  \/ exists v, pending !! i = Some v /\ resolve w v = None /\
               failedVideos (GrabCaptions.progress st') =
               failedVideos (markFailed (id v) t (GrabCaptions.progress st)).
Proof.
  intros Hstep. grab_step_cases Hstep.
  - left. auto.
  - left. split; [reflexivity |]. intros v Hv' Hr _. same_item.
    unfold resolve in Hr. congruence.
  - right. eexists. split; [eassumption |]. split; [assumption | reflexivity].
  - left. split; [reflexivity |]. intros v _ _ Hph'. congruence.
  - left. split; [reflexivity |]. intros v _ _ Hph'. congruence.
Qed.

(** The entries of the id of an item without captions, when the pool of a
    primary run has settled: one new entry when the loaded list had none,
    else the loaded ones, the first with the time of an attempt. *)
Lemma grab_pool_entries (w : World) (d : Disk) (schedule : list (nat * string))
    (now : string) (p : Progress) (pending : list VideoInfo) (v : VideoInfo) :
  In v pending -> resolve w v = None ->
  exists at_,
    In at_ (now :: map snd schedule) /\
    List.filter (has_id (id v))
      (failedVideos (GrabCaptions.progress
         (GrabCaptions.pool w pending schedule now (GrabCaptions.start p d pending)))) =
    match List.filter (has_id (id v)) (failedVideos p) with
    | [] => [{| fid := id v; error := "No captions available"; lastAttempt := at_ |}]
    | f :: more => {| fid := fid f; error := error f; lastAttempt := at_ |} :: more
    end.
Proof.
  intros Hv Hr.
  set (L := List.filter (has_id (id v)) (failedVideos p)).
  set (E := fun at_ : string =>
              match L with
              | [] => [{| fid := id v; error := "No captions available";
                          lastAttempt := at_ |}]
              | f :: more => {| fid := fid f; error := error f; lastAttempt := at_ |} :: more
              end).
  set (F := fun st : GrabCaptions.Run =>
              List.filter (has_id (id v)) (failedVideos (GrabCaptions.progress st))).
  set (times := now :: map snd schedule).
  change (exists at_, In at_ times /\
            F (GrabCaptions.pool w pending schedule now (GrabCaptions.start p d pending))
            = E at_).
  assert (Hagain : forall at_ t,
            match E at_ with
            | [] => [{| fid := id v; error := "No captions available"; lastAttempt := t |}]
            | f :: more => {| fid := fid f; error := error f; lastAttempt := t |} :: more
            end = E t).
  { intros at_ t. unfold E. destruct L; reflexivity. }
  apply list_elem_of_In, list_elem_of_lookup in Hv. destruct Hv as [i0 Hi0].
  assert (Hall :
    (fun st => (F st = L \/ exists at_, In at_ times /\ F st = E at_)
               /\ (forall j u, pending !! j = Some u -> id u = id v -> grab_fetched st j ->
                               exists at_, In at_ times /\ F st = E at_))
      (GrabCaptions.pool w pending schedule now (GrabCaptions.start p d pending))).
  { apply grab_pool_ind_at.
    - intros st i t Ht [IH1 IH2].
      pose proof (grab_resume_step w pending st i t) as Hstep.
      revert Hstep. generalize (GrabCaptions.resume w pending st (i, t)). intros st' Hstep.
      destruct (grab_step_failed _ _ _ _ _ _ Hstep) as [[Hsame Hidle]|(u & Hu & Hru & Hnew)].
      + unfold F. rewrite Hsame. split; [exact IH1 |].
        intros j u' Hj Hid Hf.
        destruct (grab_fetched_step _ _ _ _ _ _ _ Hstep Hf) as [Hold|[-> Hph]];
          [exact (IH2 _ _ Hj Hid Hold) |].
        assert (Hru' : resolve w u' = None) by (rewrite (resolve_by_id w u' v Hid); exact Hr).
        rewrite (Hidle u' Hj Hru' Hph) in Hf. unfold grab_fetched in Hf.
        rewrite Hph in Hf. contradiction.
      + destruct (string_dec (id u) (id v)) as [Hid|Hid].
        * assert (Hnow : exists at_, In at_ times /\ F st' = E at_).
          { exists t. split; [exact Ht |]. unfold F. rewrite Hnew, Hid, markFailed_entries.
            fold (F st). destruct IH1 as [->|(at_ & _ & ->)]; [reflexivity | apply Hagain]. }
          split; [right; exact Hnow | intros; exact Hnow].
        * assert (Hkeep : F st' = F st).
          { unfold F. rewrite Hnew. apply markFailed_entries_other. exact Hid. }
          rewrite Hkeep. split; [exact IH1 |].
          intros j u' Hj Hid' Hf.
          destruct (grab_fetched_step _ _ _ _ _ _ _ Hstep Hf) as [Hold|[-> Hph]];
            [exact (IH2 _ _ Hj Hid' Hold) |].
          same_item. contradiction.
    - split; [left; reflexivity |].
      intros j u _ _ H. destruct (grab_start_not_fetched _ _ _ _ H). }
  destruct Hall as [_ Hall]. apply (Hall i0 v Hi0 eq_refl).
  unfold grab_fetched. rewrite (grab_pool_finished w pending schedule now); [exact I | |].
  - simpl. apply length_replicate.
  - eapply lookup_lt_Some; eauto.
Qed.

(** C5 as stated fails for an item that failed in an earlier run and
    fails again: the failed list gains no entry for its id; the entry it
    has gets the time of the new attempt. *)
Lemma C5_failed_before_gains_no_entry :
  let w := Sample.silent ["dQw4w9WgXcQ"] in
  let v := Sample.video "dQw4w9WgXcQ" in
  let o := GrabCaptions.main w (Sample.disk_of Sample.stale) []
             "2025-02-02T00:00:00.000Z" in
  In v (grab_pending w Sample.stale)
  /\ resolve w v = None
  /\ failedVideos Sample.stale =
       [{| fid := "dQw4w9WgXcQ"; error := "No captions available";
           lastAttempt := "2025-01-01T00:00:00.000Z" |}]
  /\ ledger_of (final o) =
       Some {| processedVideos := [];
               failedVideos :=
                 [{| fid := "dQw4w9WgXcQ"; error := "No captions available";
                     lastAttempt := "2025-02-02T00:00:00.000Z" |}];
               lastRun := "2025-02-02T00:00:00.000Z" |}.
Proof. cbv zeta. split; [vm_compute; auto |]. repeat split. Qed.

(** C5, amended. In a primary run that loads its ledger, an item for
    which the resolver returns absent ends on the failed list of the
    ledger snapshotted at the end.  The entries of its id there are:
    exactly one, with the reason "No captions available" and the time of
    an attempt of the run as [lastAttempt], when the loaded list had none
    of the id; otherwise the loaded entries of the id, the first of them
    with the time of an attempt as [lastAttempt], and no further one.  The
    id is not marked done, the record file of the id is what it was and is
    not written; every pending item is attempted, and [main] is fulfilled.
    The update itself does this to the entries of the id, leaves the
    entries of every other id and [processedVideos] alone, and appends the
    one entry to a failed list without the id. *)
Theorem C5_exhausted_item_failed (w : World) (d : Disk)
    (schedule : list (nat * string)) (now : string) (p : Progress) (v : VideoInfo) :
  loadProgress d = Ok p ->
  In v (grab_pending w p) ->
  resolve w v = None ->
  let o := GrabCaptions.main w d schedule now in
  settled o = Ok ()
  /\ (exists pf at_,
        ledger_of (final o) = Some pf
        /\ In (id v) (ids (failedVideos pf))
        /\ In at_ (now :: map snd schedule)
        /\ List.filter (fun f => String.eqb (fid f) (id v)) (failedVideos pf) =
           match List.filter (fun f => String.eqb (fid f) (id v)) (failedVideos p) with
           | [] => [{| fid := id v; error := "No captions available";
                       lastAttempt := at_ |}]
           | f :: more =>
               {| fid := fid f; error := error f; lastAttempt := at_ |} :: more
           end
        /\ ~ In (id v) (processedVideos pf))
  /\ captionFiles (final o) !! caption_path (id v) = captionFiles d !! caption_path (id v)
  /\ ~ In (caption_path (id v)) (records (written o))
  /\ (forall v', In v' (grab_pending w p) ->
                 In (DirectCaption, id v') (invoked (happened o)))
  /\ (forall p' t,
        processedVideos (markFailed (id v) t p') = processedVideos p'
        /\ List.filter (fun f => String.eqb (fid f) (id v))
             (failedVideos (markFailed (id v) t p')) =
           match List.filter (fun f => String.eqb (fid f) (id v)) (failedVideos p') with
           | [] => [{| fid := id v; error := "No captions available"; lastAttempt := t |}]
           | f :: more => {| fid := fid f; error := error f; lastAttempt := t |} :: more
           end
        /\ (forall y, y <> id v ->
              List.filter (fun f => String.eqb (fid f) y)
                (failedVideos (markFailed (id v) t p')) =
              List.filter (fun f => String.eqb (fid f) y) (failedVideos p'))
        /\ (~ In (id v) (ids (failedVideos p')) ->
            failedVideos (markFailed (id v) t p') =
            failedVideos p' ++
            [{| fid := id v; error := "No captions available"; lastAttempt := t |}])).
Proof.
  intros Hload Hv Hr o.
  assert (Hne : grab_pending w p <> []) by (intros E; rewrite E in Hv; contradiction).
  pose proof (grab_main_run w d schedule now p Hload Hne) as Hmain.
  cbv zeta in Hmain. fold o in Hmain.
  destruct (grab_pool_facts w d schedule now p (grab_pending w p))
    as (Hfailed & Hshape & _ & Honly & Hfiles & Hwritten & Htried).
  destruct (grab_pool_entries w d schedule now p (grab_pending w p) v Hv Hr)
    as (at_ & Hat & Hentries).
  set (st := GrabCaptions.pool w (grab_pending w p) schedule now
               (GrabCaptions.start p d (grab_pending w p))) in *.
  assert (Hnot : forall u, In u (grab_pending w p) -> id u = id v -> resolve w u = None).
  { intros u _ E. rewrite (resolve_by_id w u v E). exact Hr. }
  rewrite Hmain. cbn [settled final written happened ledger_of progressFile captionFiles].
  split; [reflexivity |]. split; [| split; [| split; [| split]]].
  - exists (stamp now (GrabCaptions.progress st)), at_.
    cbn [stamp failedVideos processedVideos].
    split; [reflexivity |]. split; [auto |]. split; [exact Hat |]. split.
    + exact Hentries.
    + intros Hin. destruct (Honly _ Hin) as [Hold|(u & Hu & E & Hsome)].
      * apply pending_iff in Hv. tauto.
      * apply Hsome. auto.
  - destruct (Hfiles (caption_path (id v))) as [E|(u & Hu & E & Hsome)]; [exact E |].
    apply caption_path_inj in E. exfalso. apply Hsome. auto.
  - rewrite records_snapshot. intros Hin.
    destruct (Hwritten _ Hin) as (u & Hu & E & Hsome).
    apply caption_path_inj in E. apply Hsome. auto.
  - exact Htried.
  - intros p' t. split; [reflexivity |]. split; [apply markFailed_entries |].
    split; [| apply markFailed_new].
    intros y Hy. apply (markFailed_entries_other y (id v) t p'). congruence.
Qed.

Lemma C5_exhausted_item_failed_witness :
  let w := Sample.silent ["dQw4w9WgXcQ"; "9bZkp7q19f0"] in
  let v := Sample.video "dQw4w9WgXcQ" in
  let o := GrabCaptions.main w Sample.empty_disk [(1%nat, "2025-03-01T10:00:00.000Z")]
             "2025-03-01T10:00:05.000Z" in
  (loadProgress Sample.empty_disk = Ok fresh /\ In v (grab_pending w fresh) /\
   resolve w v = None)
  /\ exists pf, ledger_of (final o) = Some pf /\ In (id v) (ids (failedVideos pf)).
Proof.
  cbv zeta.
  assert (H1 : loadProgress Sample.empty_disk = Ok fresh) by reflexivity.
  assert (H2 : In (Sample.video "dQw4w9WgXcQ")
                  (grab_pending (Sample.silent ["dQw4w9WgXcQ"; "9bZkp7q19f0"]) fresh))
    by (vm_compute; auto).
  assert (H3 : resolve (Sample.silent ["dQw4w9WgXcQ"; "9bZkp7q19f0"])
                       (Sample.video "dQw4w9WgXcQ") = None) by reflexivity.
  split; [auto |].
  destruct (C5_exhausted_item_failed _ _ [(1%nat, "2025-03-01T10:00:00.000Z")]
              "2025-03-01T10:00:05.000Z" _ _ H1 H2 H3)
    as (_ & (pf & at_ & Hpf & Hin & _) & _).
  exists pf. split; assumption.
Defined.

(** ** A failure that fails again *)

Lemma failed_shape_count (loaded current : list FailedVideo) (x : string) :
  failed_shape loaded current -> In x (ids loaded) ->
  count_occ string_dec (ids current) x = count_occ string_dec (ids loaded) x.
Proof.
  intros (old & new & -> & Hold & _ & Hfresh & _) Hin.
  unfold ids at 1. rewrite map_app, count_occ_app. fold (ids old). rewrite Hold.
  assert (H0 : count_occ string_dec (map fid new) x = 0%nat).
  { apply count_occ_not_In. intros H. exact (Hfresh x H Hin). }
  rewrite H0. lia.
Qed.

Lemma grab_resume_no_captions (w : World) (pending : list VideoInfo)
    (st : GrabCaptions.Run) (i : nat) (now : string) (v : VideoInfo) :
  pending !! i = Some v ->
  GrabCaptions.phases st !! i = Some GrabCaptions.AwaitFetch ->
  GrabCaptions.started i st = true ->
  resolve w v = None ->
  failedVideos (GrabCaptions.progress (GrabCaptions.resume w pending st (i, now))) =
    failedVideos (markFailed (id v) now (GrabCaptions.progress st))
  /\ processedVideos (GrabCaptions.progress (GrabCaptions.resume w pending st (i, now))) =
     processedVideos (GrabCaptions.progress st)
  /\ captionFiles (GrabCaptions.disk (GrabCaptions.resume w pending st (i, now))) =
     captionFiles (GrabCaptions.disk st).
Proof.
  intros Hv Hph Hs Hr. rewrite grab_resume_unfold, Hph, Hv, Hs.
  rewrite after_fetch_no_captions by exact Hr. grab_fields. auto.
Qed.

(** C6 as stated fails for the enrichment run: an id of the failed list
    that is retried and fails again keeps its entry as it was, the old
    [lastAttempt] included. *)
Lemma C6_enrichment_keeps_lastAttempt :
  let w := Sample.silent [] in
  let o := TranscribeFallback.main w (Sample.disk_of Sample.stale) [] []
             "2025-02-02T00:00:00.000Z" in
  retried (happened o) = ["dQw4w9WgXcQ"]
  /\ ledger_of (final o) =
     Some {| processedVideos := [];
             failedVideos := [Sample.failure "dQw4w9WgXcQ" "2025-01-01T00:00:00.000Z"];
             lastRun := "2025-02-02T00:00:00.000Z" |}
  /\ TranscribeFallback.processVideo w "2025-02-02T00:00:00.000Z" "dQw4w9WgXcQ"
       Sample.stale (Sample.disk_of Sample.stale)
     = (false, Sample.stale, Sample.disk_of Sample.stale, [Retry "dQw4w9WgXcQ"]).
Proof. repeat split. Qed.

(** C6, amended. For an id already in the failed list: in the primary run
    a unit that gets no captions for it gives the first entry of the id the
    time of the attempt as [lastAttempt], keeps its id and its reason, and
    changes nothing else of the list, so the list holds the same ids as
    often as before, and so does the ledger a whole primary run leaves;
    when the run attempts an item of the id and the resolver returns
    absent, the entries of the id in the ledger it leaves are the loaded
    ones, the first with the time of an attempt of the run as
    [lastAttempt].  In the enrichment run a call of [processVideo] that
    returns [false] leaves the ledger, [lastAttempt] included, as it was.
    In neither is a second entry made. *)
Theorem C6_failed_again (w : World) (x now : string) (p : Progress) :
  In x (ids (failedVideos p)) ->
  ids (failedVideos (markFailed x now p)) = ids (failedVideos p)
  /\ (exists before f after,
        failedVideos p = before ++ f :: after /\ fid f = x /\ ~ In x (ids before) /\
        failedVideos (markFailed x now p) =
          before ++ {| fid := x; error := error f; lastAttempt := now |} :: after)
  /\ (forall pending st i v,
        pending !! i = Some v -> id v = x ->
        GrabCaptions.phases st !! i = Some GrabCaptions.AwaitFetch ->
        GrabCaptions.started i st = true ->
        resolve w v = None ->
        GrabCaptions.progress st = p ->
        failedVideos (GrabCaptions.progress (GrabCaptions.resume w pending st (i, now))) =
        failedVideos (markFailed x now p))
  /\ (forall d schedule,
        loadProgress d = Ok p ->
        exists pf,
          ledger_of (final (GrabCaptions.main w d schedule now)) = Some pf /\
          count_occ string_dec (ids (failedVideos pf)) x =
          count_occ string_dec (ids (failedVideos p)) x)
  /\ (forall d schedule v,
        loadProgress d = Ok p -> In v (grab_pending w p) -> id v = x ->
        resolve w v = None ->
        exists pf at_ f more,
          ledger_of (final (GrabCaptions.main w d schedule now)) = Some pf
          /\ In at_ (now :: map snd schedule)
          /\ List.filter (fun g => String.eqb (fid g) x) (failedVideos p) = f :: more
          /\ List.filter (fun g => String.eqb (fid g) x) (failedVideos pf) =
             {| fid := x; error := error f; lastAttempt := at_ |} :: more)
  /\ (forall d,
        let '(ok, p', _, _) := TranscribeFallback.processVideo w now x p d in
        ok = false -> p' = p).
Proof.
  intros Hin. split; [| split; [| split; [| split; [| split]]]].
  - rewrite (markFailed_known _ _ _ Hin). apply touch_first_ids.
  - rewrite (markFailed_known _ _ _ Hin).
    destruct (touch_first_split x now _ Hin) as (before & f & after & E & Hf & Hb & Ht).
    exists before, f, after. rewrite Ht. unfold touch. rewrite Hf. auto.
  - intros pending st i v Hv <- Hph Hs Hr <-.
    apply (grab_resume_no_captions w pending st i now v Hv Hph Hs Hr).
  - intros d schedule Hload.
    assert (Hcase : grab_pending w p = [] \/ grab_pending w p <> [])
      by (destruct (grab_pending w p); [left; reflexivity | right; discriminate]).
    destruct Hcase as [Hnil|Hne].
    + rewrite (grab_main_idle w d schedule now p Hload Hnil). cbn [final].
      exists p. split; [| reflexivity].
      unfold loadProgress in Hload. unfold ledger_of.
      destruct (progressFile d) as [[q|c]|]; try discriminate.
      * congruence.
      * injection Hload as <-. simpl in Hin. contradiction.
    + rewrite (grab_main_run w d schedule now p Hload Hne). cbn [final ledger_of progressFile].
      eexists. split; [reflexivity |]. cbn [stamp failedVideos].
      apply failed_shape_count; [| exact Hin].
      apply (grab_pool_facts w d schedule now p (grab_pending w p)).
  - intros d schedule v Hload Hv <- Hr.
    assert (Hne : grab_pending w p <> []) by (intros E; rewrite E in Hv; contradiction).
    destruct (grab_pool_entries w d schedule now p (grab_pending w p) v Hv Hr)
      as (at_ & Hat & Hentries).
    rewrite (grab_main_run w d schedule now p Hload Hne). cbn [final ledger_of progressFile].
    destruct (List.filter (has_id (id v)) (failedVideos p)) as [|f more] eqn:EL.
    + apply find_filter_has_id, find_has_id_none in EL. contradiction.
    + assert (Hf : fid f = id v).
      { apply has_id_true.
        apply (proj2 (proj1 (filter_In (has_id (id v)) f (failedVideos p))
                        ltac:(rewrite EL; left; reflexivity))). }
      exists (stamp now (GrabCaptions.progress
                (GrabCaptions.pool w (grab_pending w p) schedule now
                   (GrabCaptions.start p d (grab_pending w p))))), at_, f, more.
      cbn [stamp failedVideos].
      split; [reflexivity |]. split; [exact Hat |]. split; [exact EL |].
      rewrite Hf in Hentries. exact Hentries.
  - intros d.
    destruct (snd (TranscribeFallback.attempt w now x)) as [c|] eqn:E.
    + destruct (processVideo_success w now x p d c E) as [evs ->]. discriminate.
    + destruct (processVideo_failure w now x p d E) as [evs ->]. reflexivity.
Qed.

Lemma C6_failed_again_witness :
  In "dQw4w9WgXcQ" (ids (failedVideos Sample.stale))
  /\ ids (failedVideos (markFailed "dQw4w9WgXcQ" "2025-02-02T00:00:00.000Z" Sample.stale))
     = ids (failedVideos Sample.stale).
Proof.
  assert (H : In "dQw4w9WgXcQ" (ids (failedVideos Sample.stale))) by (simpl; auto).
  split; [exact H |].
  exact (proj1 (C6_failed_again (Sample.silent []) "dQw4w9WgXcQ"
                  "2025-02-02T00:00:00.000Z" Sample.stale H)).
Defined.

(** ** A second primary run *)

Lemma grab_pool_processed_mono (w : World) (pending : list VideoInfo)
    (schedule : list (nat * string)) (now : string) (st : GrabCaptions.Run) (x : string) :
  In x (processedVideos (GrabCaptions.progress st)) ->
  In x (processedVideos
          (GrabCaptions.progress (GrabCaptions.pool w pending schedule now st))).
Proof.
  intros Hin.
  apply (grab_pool_ind
    (fun s => In x (processedVideos (GrabCaptions.progress s)))); [| exact Hin].
  intros s ev. apply grab_resume_processed_mono.
Qed.

Lemma grab_pending_stamp (w : World) (now : string) (p : Progress) :
  grab_pending w (stamp now p) = grab_pending w p.
Proof. reflexivity. Qed.

(** The ledger a primary run leaves on disk, and what is pending under
    it: the pending items the run got no captions for. *)
Lemma grab_main_leaves (w : World) (d : Disk) (schedule : list (nat * string))
    (now : string) (p : Progress) :
  loadProgress d = Ok p ->
  exists p1,
    loadProgress (final (GrabCaptions.main w d schedule now)) = Ok p1 /\
    forall v, In v (grab_pending w p1) <->
              In v (grab_pending w p) /\ resolve w v = None.
Proof.
  intros Hload.
  assert (Hcase : grab_pending w p = [] \/ grab_pending w p <> [])
    by (destruct (grab_pending w p); [left; reflexivity | right; discriminate]).
  destruct Hcase as [Hnil|Hne].
  - rewrite (grab_main_idle w d schedule now p Hload Hnil). cbn [final].
    exists p. split; [exact Hload |]. intros v. rewrite Hnil. simpl. tauto.
  - rewrite (grab_main_run w d schedule now p Hload Hne). cbn [final].
    eexists. split; [reflexivity |].
    destruct (grab_pool_facts w d schedule now p (grab_pending w p))
      as (_ & _ & Hdone & Honly & _).
    set (st := GrabCaptions.pool w (grab_pending w p) schedule now
                 (GrabCaptions.start p d (grab_pending w p))) in *.
    intros v. rewrite grab_pending_stamp. unfold grab_pending.
    rewrite !pending_iff. split.
    + intros [Hall Hnot].
      assert (Hp : ~ In (id v) (processedVideos p)).
      { intros H. apply Hnot. subst st. apply grab_pool_processed_mono. exact H. }
      split; [auto |].
      destruct (resolve w v) eqn:Hr; [| reflexivity].
      exfalso. apply Hnot. apply Hdone.
      * apply pending_iff. auto.
      * congruence.
    + intros [[Hall Hp] Hr]. split; [exact Hall |].
      intros Hin. destruct (Honly _ Hin) as [H|(u & Hu & E & Hsome)]; [auto |].
      apply Hsome. rewrite (resolve_by_id w u v E). exact Hr.
Qed.

(** C7 as stated fails: an item that got no captions in the first run is
    not marked done, so it is pending in the second run, which attempts it
    again and updates the ledger. *)
Lemma C7_failed_item_pending_again :
  let w := Sample.silent ["dQw4w9WgXcQ"] in
  let o1 := GrabCaptions.main w Sample.empty_disk [] "2025-03-01T10:00:00.000Z" in
  let o2 := GrabCaptions.main w (final o1) [] "2025-03-02T10:00:00.000Z" in
  ledger_of (final o1) =
    Some {| processedVideos := [];
            failedVideos := [no_captions "dQw4w9WgXcQ" "2025-03-01T10:00:00.000Z"];
            lastRun := "2025-03-01T10:00:00.000Z" |}
  /\ grab_pending w
       {| processedVideos := [];
          failedVideos := [no_captions "dQw4w9WgXcQ" "2025-03-01T10:00:00.000Z"];
          lastRun := "2025-03-01T10:00:00.000Z" |}
     = [Sample.video "dQw4w9WgXcQ"]
  /\ invoked (happened o2) =
       [(DirectCaption, "dQw4w9WgXcQ"); (SubtitleFile, "dQw4w9WgXcQ")]
  /\ ledger_of (final o2) =
       Some {| processedVideos := [];
               failedVideos := [no_captions "dQw4w9WgXcQ" "2025-03-02T10:00:00.000Z"];
               lastRun := "2025-03-02T10:00:00.000Z" |}.
Proof.
  cbv zeta. repeat split.
Qed.

(** C7, amended. After a primary run that loaded its ledger, the items
    pending under the ledger it leaves are exactly the pending items it got
    no captions for; so when the first run got captions for every pending
    item, a second run over the same list has nothing pending, and a second
    run with nothing pending is fulfilled having left the disk as it was,
    written no record and no snapshot, and invoked no adapter. *)
Theorem C7_second_run (w : World) (d : Disk) (schedule1 schedule2 : list (nat * string))
    (now1 now2 : string) (p : Progress) :
  loadProgress d = Ok p ->
  let o1 := GrabCaptions.main w d schedule1 now1 in
  let o2 := GrabCaptions.main w (final o1) schedule2 now2 in
  exists p1,
    loadProgress (final o1) = Ok p1
    /\ (forall v, In v (grab_pending w p1) <->
                  In v (GrabCaptions.allVideos w) /\ ~ In (id v) (processedVideos p1))
    /\ (forall v, In v (grab_pending w p1) <->
                  In v (grab_pending w p) /\ resolve w v = None)
    /\ ((forall v, In v (grab_pending w p) -> resolve w v <> None) ->
        grab_pending w p1 = [])
    /\ (grab_pending w p1 = [] ->
        settled o2 = Ok () /\ final o2 = final o1 /\
        written o2 = [WroteKeep] /\ records (written o2) = [] /\
        snapshots (written o2) = [] /\ happened o2 = []).
Proof.
  intros Hload o1 o2.
  destruct (grab_main_leaves w d schedule1 now1 p Hload) as (p1 & Hload1 & Hpending).
  fold o1 in Hload1. exists p1. split; [exact Hload1 |]. split; [| split; [| split]].
  - intros v. apply pending_iff.
  - exact Hpending.
  - intros Hall. destruct (grab_pending w p1) as [|v rest] eqn:E; [reflexivity |].
    exfalso. destruct (proj1 (Hpending v) ltac:(left; reflexivity)) as [Hv Hr].
    exact (Hall v Hv Hr).
  - intros Hnil. subst o2.
    rewrite (grab_main_idle w (final o1) schedule2 now2 p1 Hload1 Hnil).
    repeat split.
Qed.

Lemma C7_second_run_witness :
  let w := Sample.captioned ["dQw4w9WgXcQ"; "9bZkp7q19f0"] in
  let o1 := GrabCaptions.main w Sample.empty_disk [(1%nat, "2025-03-01T10:00:00.000Z")]
              "2025-03-01T10:00:05.000Z" in
  loadProgress Sample.empty_disk = Ok fresh
  /\ exists p1, loadProgress (final o1) = Ok p1 /\
                (forall v, In v (grab_pending w p1) <->
                           In v (grab_pending w fresh) /\ resolve w v = None).
Proof.
  cbv zeta.
  assert (H : loadProgress Sample.empty_disk = Ok fresh) by reflexivity.
  split; [exact H |].
  destruct (C7_second_run (Sample.captioned ["dQw4w9WgXcQ"; "9bZkp7q19f0"])
              Sample.empty_disk [(1%nat, "2025-03-01T10:00:00.000Z")] []
              "2025-03-01T10:00:05.000Z" "2025-03-02T10:00:00.000Z" fresh H)
    as (p1 & H1 & _ & H2 & _).
  exists p1. split; assumption.
Defined.

(** ** The pool of the enrichment run *)

Lemma transcribe_pool_ind (P : TranscribeFallback.Run -> Prop) (w : World)
    (entries : list FailedVideo) :
  (forall st ev, P st -> P (TranscribeFallback.resume w entries st ev)) ->
  forall schedule now st, P st -> P (TranscribeFallback.pool w entries schedule now st).
Proof.
  intros Hstep schedule now st H0.
  unfold TranscribeFallback.pool, TranscribeFallback.drain, TranscribeFallback.run_schedule.
  assert (H1 : P (fold_left (TranscribeFallback.resume w entries) schedule st)).
  { revert st H0.
    induction schedule as [|ev rest IH]; intros st H0; cbn [fold_left]; auto. }
  revert H1. generalize (fold_left (TranscribeFallback.resume w entries) schedule st).
  generalize (seq 0 (length entries)).
  intros l. induction l as [|i rest IH]; intros st' H1; cbn [fold_left]; [exact H1 |].
  apply IH. do 4 apply Hstep. exact H1.
Qed.

Lemma transcribe_resume_unfold (w : World) (entries : list FailedVideo)
    (st : TranscribeFallback.Run) (i : nat) (now : string) :
  TranscribeFallback.resume w entries st (i, now) =
  match TranscribeFallback.phases st !! i, entries !! i with
  | Some TranscribeFallback.AwaitTranscript, Some entry =>
      if TranscribeFallback.started i st then
        match TranscribeFallback.attempt w now (fid entry) with
        | (evs, es, None) =>
            TranscribeFallback.count_and_save now i false
              {| TranscribeFallback.progress := TranscribeFallback.progress st;
                 TranscribeFallback.completed := TranscribeFallback.completed st;
                 TranscribeFallback.successCount := TranscribeFallback.successCount st;
                 TranscribeFallback.failCount := TranscribeFallback.failCount st;
                 TranscribeFallback.disk := TranscribeFallback.disk st;
                 TranscribeFallback.writes := TranscribeFallback.writes st;
                 TranscribeFallback.events := TranscribeFallback.events st ++ evs;
                 TranscribeFallback.errs := TranscribeFallback.errs st ++ es;
                 TranscribeFallback.phases := TranscribeFallback.phases st |}
        | (evs, es, Some captionData) =>
            {| TranscribeFallback.progress := TranscribeFallback.progress st;
               TranscribeFallback.completed := TranscribeFallback.completed st;
               TranscribeFallback.successCount := TranscribeFallback.successCount st;
               TranscribeFallback.failCount := TranscribeFallback.failCount st;
               TranscribeFallback.disk := saveCaptions captionData (TranscribeFallback.disk st);
               TranscribeFallback.writes :=
                 TranscribeFallback.writes st ++
                 [WroteCaption (caption_path (id (video captionData))) captionData];
               TranscribeFallback.events := TranscribeFallback.events st ++ evs;
               TranscribeFallback.errs := TranscribeFallback.errs st ++ es;
               TranscribeFallback.phases :=
                 <[i := TranscribeFallback.AwaitSaveCaptions]> (TranscribeFallback.phases st) |}
        end
      else st
  | Some TranscribeFallback.AwaitSaveCaptions, Some entry =>
      {| TranscribeFallback.progress :=
           markTranscribed (fid entry) (TranscribeFallback.progress st);
         TranscribeFallback.completed := TranscribeFallback.completed st;
         TranscribeFallback.successCount := TranscribeFallback.successCount st;
         TranscribeFallback.failCount := TranscribeFallback.failCount st;
         TranscribeFallback.disk := TranscribeFallback.disk st;
         TranscribeFallback.writes := TranscribeFallback.writes st;
         TranscribeFallback.events :=
           TranscribeFallback.events st ++ [SweepAudio (fid entry)];
         TranscribeFallback.errs := TranscribeFallback.errs st;
         TranscribeFallback.phases :=
           <[i := TranscribeFallback.AwaitCleanup]> (TranscribeFallback.phases st) |}
  | Some TranscribeFallback.AwaitCleanup, Some _ =>
      TranscribeFallback.count_and_save now i true st
  | Some TranscribeFallback.AwaitSaveProgress, Some _ =>
      TranscribeFallback.set_phase i TranscribeFallback.Finished st
  | _, _ => st
  end.
Proof. reflexivity. Qed.

Lemma count_and_save_completed (now : string) (i : nat) (ok : bool)
    (st : TranscribeFallback.Run) :
  TranscribeFallback.completed (TranscribeFallback.count_and_save now i ok st) =
  S (TranscribeFallback.completed st).
Proof. unfold TranscribeFallback.count_and_save. destruct (Nat.eqb _ 0); reflexivity. Qed.

Lemma count_and_save_events (now : string) (i : nat) (ok : bool)
    (st : TranscribeFallback.Run) :
  TranscribeFallback.events (TranscribeFallback.count_and_save now i ok st) =
  TranscribeFallback.events st.
Proof. unfold TranscribeFallback.count_and_save. destruct (Nat.eqb _ 0); reflexivity. Qed.

Lemma count_and_save_writes (now : string) (i : nat) (ok : bool)
    (st : TranscribeFallback.Run) :
  TranscribeFallback.writes (TranscribeFallback.count_and_save now i ok st) =
  TranscribeFallback.writes st ++
  (if (S (TranscribeFallback.completed st) mod 5 =? 0)%nat
   then [WroteProgress (stamp now (TranscribeFallback.progress st))] else []).
Proof.
  unfold TranscribeFallback.count_and_save.
  destruct (Nat.eqb _ 0); cbn [TranscribeFallback.writes saveProgress];
    [reflexivity | symmetry; apply app_nil_r].
Qed.

Lemma count_and_save_phases (now : string) (i : nat) (ok : bool)
    (st : TranscribeFallback.Run) :
  TranscribeFallback.phases (TranscribeFallback.count_and_save now i ok st) =
  <[i := if (S (TranscribeFallback.completed st) mod 5 =? 0)%nat
         then TranscribeFallback.AwaitSaveProgress else TranscribeFallback.Finished]>
    (TranscribeFallback.phases st).
Proof. unfold TranscribeFallback.count_and_save. destruct (Nat.eqb _ 0); reflexivity. Qed.

Lemma count_and_save_failed (now : string) (i : nat) (ok : bool)
    (st : TranscribeFallback.Run) :
  failedVideos (TranscribeFallback.progress (TranscribeFallback.count_and_save now i ok st)) =
  failedVideos (TranscribeFallback.progress st).
Proof. unfold TranscribeFallback.count_and_save. destruct (Nat.eqb _ 0); reflexivity. Qed.

Lemma count_and_save_processed (now : string) (i : nat) (ok : bool)
    (st : TranscribeFallback.Run) :
  processedVideos (TranscribeFallback.progress (TranscribeFallback.count_and_save now i ok st)) =
  processedVideos (TranscribeFallback.progress st).
Proof. unfold TranscribeFallback.count_and_save. destruct (Nat.eqb _ 0); reflexivity. Qed.

Create Rewrite HintDb transcribe.
#[local] Hint Rewrite count_and_save_completed count_and_save_events
  count_and_save_writes count_and_save_phases count_and_save_failed
  count_and_save_processed : transcribe.

Ltac transcribe_fields :=
  autorewrite with transcribe in *;
  cbn [TranscribeFallback.progress TranscribeFallback.completed
       TranscribeFallback.successCount TranscribeFallback.failCount
       TranscribeFallback.disk TranscribeFallback.writes
       TranscribeFallback.events TranscribeFallback.errs
       TranscribeFallback.phases TranscribeFallback.set_phase
       processedVideos failedVideos lastRun
       captionFiles progressFile saveCaptions fst snd] in *.

(** The cases of a resumption of the enrichment pool: nothing happens;
    [processVideo] returns [false]; the record is written; the ledger is
    updated; the outcome is counted; the snapshot is on disk. *)
Ltac transcribe_resume_cases w entries st i now :=
  let ph := fresh "ph" in
  let item := fresh "item" in
  let evs := fresh "evs" in
  let es := fresh "es" in
  let c := fresh "captionData" in
  let Hph := fresh "Hph" in
  let Hv := fresh "Hv" in
  let Hst := fresh "Hstarted" in
  let Ha := fresh "Hattempt" in
  rewrite (transcribe_resume_unfold w entries st i now) in *;
  destruct (TranscribeFallback.phases st !! i) as [ph|] eqn:Hph; [destruct ph |];
  destruct (entries !! i) as [item|] eqn:Hv;
  try match goal with
      | |- context [TranscribeFallback.started i st] =>
          destruct (TranscribeFallback.started i st) eqn:Hst
      | _ : context [TranscribeFallback.started i st] |- _ =>
          destruct (TranscribeFallback.started i st) eqn:Hst
      end;
  try match goal with
      | |- context [TranscribeFallback.attempt w now (fid item)] =>
          destruct (TranscribeFallback.attempt w now (fid item))
            as [[evs es] [c|]] eqn:Ha
      | _ : context [TranscribeFallback.attempt w now (fid item)] |- _ =>
          destruct (TranscribeFallback.attempt w now (fid item))
            as [[evs es] [c|]] eqn:Ha
      end;
  transcribe_fields.

Lemma transcribe_resume_length (w : World) (entries : list FailedVideo)
    (st : TranscribeFallback.Run) (ev : nat * string) :
  length (TranscribeFallback.phases (TranscribeFallback.resume w entries st ev)) =
  length (TranscribeFallback.phases st).
Proof.
  destruct ev as [i now].
  transcribe_resume_cases w entries st i now; rewrite ?length_insert; reflexivity.
Qed.

Lemma transcribe_resume_other (w : World) (entries : list FailedVideo)
    (st : TranscribeFallback.Run) (i j : nat) (now : string) :
  i <> j ->
  TranscribeFallback.phases (TranscribeFallback.resume w entries st (i, now)) !! j =
  TranscribeFallback.phases st !! j.
Proof.
  intros Hne.
  transcribe_resume_cases w entries st i now;
    rewrite ?list_lookup_insert_ne by assumption; reflexivity.
Qed.

Lemma div_succ (k c : nat) :
  (0 < k)%nat ->
  (S c / k = c / k + (if (S c mod k =? 0)%nat then 1 else 0))%nat.
Proof.
  intros Hk.
  pose proof (Nat.div_mod_eq (S c) k) as H1.
  pose proof (Nat.div_mod_eq c k) as H2.
  pose proof (Nat.mod_upper_bound (S c) k ltac:(lia)) as H3.
  pose proof (Nat.mod_upper_bound c k ltac:(lia)) as H4.
  destruct (Nat.eqb_spec (S c mod k) 0) as [E|E]; nia.
Qed.

Lemma transcribe_counted_insert (phases : list TranscribeFallback.Phase) (i : nat)
    (ph ph' : TranscribeFallback.Phase) :
  phases !! i = Some ph ->
  (transcribe_counted (<[i := ph']> phases) + transcribe_counted [ph] =
   transcribe_counted phases + transcribe_counted [ph'])%nat.
Proof.
  revert i. induction phases as [|q rest IH]; intros [|i] H; try discriminate.
  - injection H as ->. change (<[0%nat := ph']> (ph :: rest)) with (ph' :: rest).
    destruct ph, ph'; simpl; lia.
  - simpl in H. specialize (IH i H).
    change (<[S i := ph']> (q :: rest)) with (q :: <[i := ph']> rest).
    destruct q; simpl in *; lia.
Qed.

Lemma transcribe_entered_enter (phases : list TranscribeFallback.Phase)
    (entries : list FailedVideo) (i : nat) (e : FailedVideo)
    (ph' : TranscribeFallback.Phase) :
  phases !! i = Some TranscribeFallback.AwaitTranscript ->
  entries !! i = Some e ->
  ph' <> TranscribeFallback.AwaitTranscript ->
  transcribe_entered (<[i := ph']> phases) entries ≡ₚ
  fid e :: transcribe_entered phases entries.
Proof.
  revert i entries. induction phases as [|q rest IH]; intros [|i] [|e0 es] Hp He Hne;
    try discriminate.
  - injection Hp as ->. injection He as ->.
    change (<[0%nat := ph']> (TranscribeFallback.AwaitTranscript :: rest))
      with (ph' :: rest).
    simpl. destruct ph'; try contradiction; reflexivity.
  - simpl in Hp, He. specialize (IH i es Hp He Hne).
    change (<[S i := ph']> (q :: rest)) with (q :: <[i := ph']> rest).
    destruct q; simpl; rewrite IH; [reflexivity | apply Permutation_swap ..].
Qed.

Lemma transcribe_entered_same (phases : list TranscribeFallback.Phase)
    (entries : list FailedVideo) (i : nat) (ph ph' : TranscribeFallback.Phase) :
  phases !! i = Some ph ->
  ph <> TranscribeFallback.AwaitTranscript ->
  ph' <> TranscribeFallback.AwaitTranscript ->
  transcribe_entered (<[i := ph']> phases) entries = transcribe_entered phases entries.
Proof.
  revert i entries. induction phases as [|q rest IH]; intros [|i] entries Hp Hne Hne';
    try discriminate.
  - injection Hp as ->. change (<[0%nat := ph']> (ph :: rest)) with (ph' :: rest).
    destruct entries as [|e es]; [destruct ph'; reflexivity |].
    simpl. destruct ph, ph'; try contradiction; reflexivity.
  - simpl in Hp.
    change (<[S i := ph']> (q :: rest)) with (q :: <[i := ph']> rest).
    destruct entries as [|e es]; [reflexivity |]. simpl.
    rewrite (IH i es Hp Hne Hne'). reflexivity.
Qed.

Lemma attempt_retried (w : World) (now x : string) :
  retried (fst (fst (TranscribeFallback.attempt w now x))) = [x].
Proof.
  unfold TranscribeFallback.attempt.
  destruct (TranscribeFallback.getVideoInfo w x) as [errs [info|]]; [| reflexivity].
  destruct (TranscribeFallback.downloadAudio w x) as [errs' [audio|]]; [| reflexivity].
  destruct (TranscribeFallback.transcribeWithGroq w audio (title info)) as [[|e m]|e];
    reflexivity.
Qed.

Section TranscribePool.

Variable w : World.
Variable entries : list FailedVideo.

Lemma snapshots_app (a b : list Write) : snapshots (a ++ b) = snapshots a ++ snapshots b.
Proof. unfold snapshots. apply omap_app. Qed.

Lemma retried_app (a b : list Event) : retried (a ++ b) = retried a ++ retried b.
Proof. unfold retried. apply omap_app. Qed.

(** A snapshot is taken at every fifth completion, and at no other. *)
Lemma transcribe_resume_snapshots (st : TranscribeFallback.Run) (ev : nat * string) :
  length (snapshots (TranscribeFallback.writes st)) =
    (TranscribeFallback.completed st / 5)%nat ->
  length (snapshots (TranscribeFallback.writes (TranscribeFallback.resume w entries st ev))) =
    (TranscribeFallback.completed (TranscribeFallback.resume w entries st ev) / 5)%nat.
Proof.
  intros IH. destruct ev as [i now].
  transcribe_resume_cases w entries st i now; auto;
    rewrite snapshots_app, length_app, ?IH, ?(div_succ 5) by lia;
    try (destruct (Nat.eqb _ 0); simpl; lia).
  simpl. lia.
Qed.

(** Every unit counts its outcome once. *)
Lemma transcribe_resume_counted (st : TranscribeFallback.Run) (ev : nat * string) :
  TranscribeFallback.completed st = transcribe_counted (TranscribeFallback.phases st) ->
  TranscribeFallback.completed (TranscribeFallback.resume w entries st ev) =
  transcribe_counted (TranscribeFallback.phases (TranscribeFallback.resume w entries st ev)).
Proof.
  intros IH. destruct ev as [i now].
  transcribe_resume_cases w entries st i now; auto;
    match goal with
    | |- context [<[i := ?ph']> (TranscribeFallback.phases st)] =>
        pose proof (transcribe_counted_insert _ _ _ ph' Hph) as Hc
    end;
    try (destruct (Nat.eqb _ 0)); simpl in Hc; lia.
Qed.

(** The ids [processVideo] was entered with are those of the units that
    have left the queue. *)
Lemma transcribe_resume_entered (st : TranscribeFallback.Run) (ev : nat * string) :
  retried (TranscribeFallback.events st) ≡ₚ
    transcribe_entered (TranscribeFallback.phases st) entries ->
  retried (TranscribeFallback.events (TranscribeFallback.resume w entries st ev)) ≡ₚ
    transcribe_entered (TranscribeFallback.phases (TranscribeFallback.resume w entries st ev))
      entries.
Proof.
  intros IH. destruct ev as [i now].
  transcribe_resume_cases w entries st i now; auto.
  - pose proof (attempt_retried w now (fid item)) as Hr. rewrite Hattempt in Hr.
    simpl in Hr. rewrite retried_app, Hr.
    rewrite transcribe_entered_enter by (eauto; discriminate).
    rewrite <- IH. symmetry. apply Permutation_cons_append.
  - pose proof (attempt_retried w now (fid item)) as Hr. rewrite Hattempt in Hr.
    simpl in Hr. rewrite retried_app, Hr.
    rewrite transcribe_entered_enter
      by (eauto; destruct (Nat.eqb _ 0); discriminate).
    rewrite <- IH. symmetry. apply Permutation_cons_append.
  - rewrite retried_app. simpl. rewrite app_nil_r.
    rewrite (transcribe_entered_same _ _ _ _ _ Hph) by discriminate. exact IH.
  - rewrite (transcribe_entered_same _ _ _ _ _ Hph)
      by (try destruct (Nat.eqb _ 0); discriminate).
    exact IH.
  - rewrite (transcribe_entered_same _ _ _ _ _ Hph) by discriminate. exact IH.
Qed.

(** *** Every unit settles *)

Lemma transcribe_prefix_count (phases : list TranscribeFallback.Phase) (a : nat) :
  (forall j, (j < a)%nat -> phases !! j = Some TranscribeFallback.Finished) ->
  (a <= length (List.filter TranscribeFallback.is_finished phases))%nat.
Proof.
  revert a. induction phases as [|ph rest IH]; intros a H.
  - destruct a; [simpl; lia |]. specialize (H 0%nat ltac:(lia)). discriminate.
  - destruct a; [lia |].
    pose proof (H 0%nat ltac:(lia)) as H0. injection H0 as ->. simpl.
    apply le_n_S. apply IH. intros j Hj. apply (H (S j)). lia.
Qed.

Lemma transcribe_started_after_prefix (st : TranscribeFallback.Run) (a : nat) :
  (forall j, (j < a)%nat ->
     TranscribeFallback.phases st !! j = Some TranscribeFallback.Finished) ->
  TranscribeFallback.started a st = true.
Proof.
  intros H. unfold TranscribeFallback.started. apply Nat.ltb_lt.
  pose proof (transcribe_prefix_count _ _ H).
  unfold TranscribeFallback.CONCURRENCY_LIMIT. lia.
Qed.

Lemma transcribe_resume_progress (st : TranscribeFallback.Run) (a : nat) (now : string)
    (e : FailedVideo) (ph : TranscribeFallback.Phase) :
  entries !! a = Some e ->
  TranscribeFallback.phases st !! a = Some ph ->
  TranscribeFallback.started a st = true ->
  exists ph',
    TranscribeFallback.phases (TranscribeFallback.resume w entries st (a, now)) !! a =
      Some ph' /\
    (transcribe_rank ph' <= pred (transcribe_rank ph))%nat.
Proof.
  intros Hv Hph Hs. rewrite transcribe_resume_unfold, Hph, Hv.
  destruct ph; simpl transcribe_rank.
  - rewrite Hs.
    destruct (TranscribeFallback.attempt w now (fid e)) as [[evs es] [c|]];
      transcribe_fields; rewrite (lookup_insert_same _ _ _ _ Hph);
      eexists; (split; [reflexivity |]); try destruct (Nat.eqb _ 0); simpl; lia.
  - transcribe_fields. rewrite (lookup_insert_same _ _ _ _ Hph).
    eexists; split; [reflexivity | simpl; lia].
  - transcribe_fields. rewrite (lookup_insert_same _ _ _ _ Hph).
    eexists; split; [reflexivity |]. destruct (Nat.eqb _ 0); simpl; lia.
  - transcribe_fields. rewrite (lookup_insert_same _ _ _ _ Hph).
    eexists; split; [reflexivity | simpl; lia].
  - exists TranscribeFallback.Finished. split; [assumption | simpl; lia].
Qed.

Lemma transcribe_drain_prefix (now : string) (k a : nat) (st : TranscribeFallback.Run) :
  length (TranscribeFallback.phases st) = length entries ->
  (a + k <= length entries)%nat ->
  (forall j, (j < a)%nat ->
     TranscribeFallback.phases st !! j = Some TranscribeFallback.Finished) ->
  forall j, (j < a + k)%nat ->
    TranscribeFallback.phases
      (fold_left
         (fun st i =>
            let r st := TranscribeFallback.resume w entries st (i, now) in
            r (r (r (r st))))
         (seq a k) st) !! j = Some TranscribeFallback.Finished.
Proof.
  revert a st. induction k as [|k IH]; intros a st Hlen Hle Hpre j Hj.
  - simpl. apply Hpre. lia.
  - cbn [seq fold_left]. cbv zeta.
    set (r := fun s => TranscribeFallback.resume w entries s (a, now)).
    change (TranscribeFallback.resume w entries
              (TranscribeFallback.resume w entries
                 (TranscribeFallback.resume w entries
                    (TranscribeFallback.resume w entries st (a, now)) (a, now))
                 (a, now)) (a, now))
      with (r (r (r (r st)))).
    assert (Hkeep : forall s, (forall j, (j < a)%nat ->
                       TranscribeFallback.phases s !! j = Some TranscribeFallback.Finished) ->
                     forall j, (j < a)%nat ->
                       TranscribeFallback.phases (r s) !! j =
                       Some TranscribeFallback.Finished).
    { intros s Hs j' Hj'. unfold r. rewrite transcribe_resume_other by lia. auto. }
    assert (Hlen' : forall s, length (TranscribeFallback.phases (r s)) =
                              length (TranscribeFallback.phases s)).
    { intros s. apply transcribe_resume_length. }
    destruct (lookup_lt_is_Some_2 entries a ltac:(lia)) as [e He].
    destruct (lookup_lt_is_Some_2 (TranscribeFallback.phases st) a ltac:(lia))
      as [ph0 Hph0].
    pose proof (Hkeep _ Hpre) as Hpre1.
    pose proof (Hkeep _ Hpre1) as Hpre2.
    pose proof (Hkeep _ Hpre2) as Hpre3.
    destruct (transcribe_resume_progress st a now e ph0 He Hph0
                (transcribe_started_after_prefix _ _ Hpre)) as (ph1 & Hph1 & Hr1).
    destruct (transcribe_resume_progress (r st) a now e ph1 He Hph1
                (transcribe_started_after_prefix _ _ Hpre1)) as (ph2 & Hph2 & Hr2).
    destruct (transcribe_resume_progress (r (r st)) a now e ph2 He Hph2
                (transcribe_started_after_prefix _ _ Hpre2)) as (ph3 & Hph3 & Hr3).
    destruct (transcribe_resume_progress (r (r (r st))) a now e ph3 He Hph3
                (transcribe_started_after_prefix _ _ Hpre3)) as (ph4 & Hph4 & Hr4).
    assert (ph4 = TranscribeFallback.Finished) as ->.
    { assert (H0 : (transcribe_rank ph0 <= 4)%nat) by (destruct ph0; simpl; lia).
      assert (H4 : transcribe_rank ph4 = 0%nat) by lia.
      destruct ph4; simpl in H4; try discriminate; reflexivity. }
    replace (a + S k)%nat with (S a + k)%nat in Hj by lia.
    apply IH; try lia.
    + rewrite !Hlen'. exact Hlen.
    + intros j' Hj'. destruct (decide (j' = a)) as [->|Hne].
      * exact Hph4.
      * apply (Hkeep _ Hpre3). lia.
Qed.

Lemma transcribe_schedule_length (schedule : list (nat * string))
    (st : TranscribeFallback.Run) :
  length (TranscribeFallback.phases (TranscribeFallback.run_schedule w entries schedule st)) =
  length (TranscribeFallback.phases st).
Proof.
  revert st. unfold TranscribeFallback.run_schedule.
  induction schedule as [|ev rest IH]; intros st; cbn [fold_left]; [reflexivity |].
  rewrite IH. apply transcribe_resume_length.
Qed.

(** When the pool has settled, every unit is finished. *)
Lemma transcribe_pool_finished (schedule : list (nat * string)) (now : string)
    (st : TranscribeFallback.Run) :
  length (TranscribeFallback.phases st) = length entries ->
  forall j, (j < length entries)%nat ->
    TranscribeFallback.phases (TranscribeFallback.pool w entries schedule now st) !! j =
    Some TranscribeFallback.Finished.
Proof.
  intros Hlen j Hj. unfold TranscribeFallback.pool, TranscribeFallback.drain.
  apply (transcribe_drain_prefix now (length entries) 0); try lia.
  rewrite transcribe_schedule_length. exact Hlen.
Qed.

End TranscribePool.

(** ** The enrichment run as a whole *)

Lemma transcribe_main_idle (w : World) (d : Disk) (args : list string)
    (schedule : list (nat * string)) (now : string) (p : Progress) :
  loadProgress d = Ok p -> failedVideos p = [] ->
  TranscribeFallback.main w d args schedule now =
    {| settled := Ok (); final := d; written := []; happened := []; stderr := [] |}.
Proof.
  intros Hload Hp. unfold TranscribeFallback.main. rewrite Hload, Hp. reflexivity.
Qed.

Lemma transcribe_main_run (w : World) (d : Disk) (args : list string)
    (schedule : list (nat * string)) (now : string) (p : Progress) :
  loadProgress d = Ok p -> failedVideos p <> [] ->
  let entries := TranscribeFallback.toProcess args p in
  let st := TranscribeFallback.pool w entries schedule now
              (TranscribeFallback.start p d entries) in
  TranscribeFallback.main w d args schedule now =
    {| settled := Ok ();
       final := {| progressFile := Some (Ledger (stamp now (TranscribeFallback.progress st)));
                   captionFiles := captionFiles (TranscribeFallback.disk st) |};
       written := TranscribeFallback.writes st ++
                  [WroteProgress (stamp now (TranscribeFallback.progress st))];
       happened := TranscribeFallback.events st;
       stderr := TranscribeFallback.errs st |}.
Proof.
  intros Hload Hp. unfold TranscribeFallback.main. rewrite Hload.
  destruct (failedVideos p); [contradiction | reflexivity].
Qed.

Lemma transcribe_entered_all (phases : list TranscribeFallback.Phase)
    (entries : list FailedVideo) :
  length phases = length entries ->
  (forall j, (j < length entries)%nat -> phases !! j = Some TranscribeFallback.Finished) ->
  transcribe_entered phases entries = ids entries.
Proof.
  revert entries. induction phases as [|ph rest IH]; intros [|e es] Hlen Hfin;
    try discriminate; [reflexivity |].
  pose proof (Hfin 0%nat ltac:(simpl; lia)) as H0. injection H0 as ->. simpl.
  f_equal. apply IH; [simpl in Hlen; lia |].
  intros j Hj. apply (Hfin (S j)). simpl. lia.
Qed.

Lemma transcribe_counted_all (phases : list TranscribeFallback.Phase) :
  (forall j, (j < length phases)%nat -> phases !! j = Some TranscribeFallback.Finished) ->
  transcribe_counted phases = length phases.
Proof.
  induction phases as [|ph rest IH]; intros Hfin; [reflexivity |].
  pose proof (Hfin 0%nat ltac:(simpl; lia)) as H0. injection H0 as ->. simpl.
  f_equal. apply IH. intros j Hj. apply (Hfin (S j)). simpl. lia.
Qed.

Lemma transcribe_start_counted (p : Progress) (d : Disk) (entries : list FailedVideo) :
  transcribe_counted (TranscribeFallback.phases (TranscribeFallback.start p d entries)) = 0%nat.
Proof. simpl. induction (length entries); simpl; auto. Qed.

Lemma transcribe_start_entered (p : Progress) (d : Disk) (entries : list FailedVideo) :
  transcribe_entered (TranscribeFallback.phases (TranscribeFallback.start p d entries))
    entries = [].
Proof. simpl. induction entries; simpl; auto. Qed.

(** What holds of the shared state when the pool of an enrichment run has
    settled. *)
Lemma transcribe_pool_facts (w : World) (d : Disk) (schedule : list (nat * string))
    (now : string) (p : Progress) (entries : list FailedVideo) :
  let st := TranscribeFallback.pool w entries schedule now
              (TranscribeFallback.start p d entries) in
  retried (TranscribeFallback.events st) ≡ₚ ids entries
  /\ TranscribeFallback.completed st = length entries
  /\ length (snapshots (TranscribeFallback.writes st)) = (length entries / 5)%nat.
Proof.
  intros st.
  assert (Hlen : length (TranscribeFallback.phases st) = length entries).
  { apply (transcribe_pool_ind
             (fun s => length (TranscribeFallback.phases s) = length entries)).
    - intros s ev H. rewrite transcribe_resume_length. exact H.
    - simpl. apply length_replicate. }
  assert (Hfin : forall j, (j < length entries)%nat ->
                   TranscribeFallback.phases st !! j = Some TranscribeFallback.Finished).
  { intros j Hj. apply transcribe_pool_finished; [| exact Hj].
    simpl. apply length_replicate. }
  assert (Hdone : TranscribeFallback.completed st = length entries).
  { rewrite <- Hlen. rewrite <- transcribe_counted_all by (rewrite Hlen; exact Hfin).
    apply (transcribe_pool_ind
             (fun s => TranscribeFallback.completed s =
                       transcribe_counted (TranscribeFallback.phases s))).
    - intros s ev. apply transcribe_resume_counted.
    - rewrite transcribe_start_counted. reflexivity. }
  split; [| split; [exact Hdone |]].
  - rewrite <- (transcribe_entered_all (TranscribeFallback.phases st) entries Hlen Hfin).
    apply (transcribe_pool_ind
             (fun s => retried (TranscribeFallback.events s) ≡ₚ
                       transcribe_entered (TranscribeFallback.phases s) entries)).
    + intros s ev. apply transcribe_resume_entered.
    + rewrite transcribe_start_entered. reflexivity.
  - rewrite <- Hdone.
    apply (transcribe_pool_ind
             (fun s => length (snapshots (TranscribeFallback.writes s)) =
                       (TranscribeFallback.completed s / 5)%nat)).
    + intros s ev. apply transcribe_resume_snapshots.
    + reflexivity.
Qed.

(** ** The limit of the enrichment run *)

Lemma slice_take {A} (l : list A) (n : Z) :
  0 <= n -> Js.slice l 0 n = take (Z.to_nat n) l.
Proof.
  intros Hn. unfold Js.slice, Js.clamp_index.
  change (0 <? 0) with false. cbv iota.
  destruct (Z.ltb_spec n 0) as [H|_]; [lia |].
  replace (Z.min 0 (Z.of_nat (length l))) with 0 by lia.
  change (Z.to_nat 0) with 0%nat. rewrite drop_0, Z.sub_0_r.
  destruct (Z.le_ge_cases n (Z.of_nat (length l))) as [H|H].
  - rewrite Z.min_l by lia. reflexivity.
  - rewrite Z.min_r by lia. rewrite Nat2Z.id.
    rewrite !take_ge by lia. reflexivity.
Qed.

Lemma indexOf_absent (x : string) (l : list string) :
  ~ In x l -> Js.indexOf x l = -1.
Proof.
  induction l as [|y ys IH]; simpl; [reflexivity |].
  intros H. destruct (String.eqb_spec x y) as [->|_]; [exfalso; auto |].
  rewrite IH by tauto. reflexivity.
Qed.

Lemma limitOf_default (args : list string) :
  ~ In "--limit" args -> TranscribeFallback.limitOf args = Js.Int 1.
Proof.
  intros H. unfold TranscribeFallback.limitOf. rewrite (indexOf_absent _ _ H).
  reflexivity.
Qed.

Lemma transcribe_main_retried (w : World) (d : Disk) (args : list string)
    (schedule : list (nat * string)) (now : string) (p : Progress) :
  loadProgress d = Ok p ->
  retried (happened (TranscribeFallback.main w d args schedule now)) ≡ₚ
  ids (TranscribeFallback.toProcess args p).
Proof.
  intros Hload.
  assert (Hcase : failedVideos p = [] \/ failedVideos p <> [])
    by (destruct (failedVideos p); [left; reflexivity | right; discriminate]).
  destruct Hcase as [Hnil|Hne].
  - rewrite (transcribe_main_idle w d args schedule now p Hload Hnil).
    unfold TranscribeFallback.toProcess, Js.slice. rewrite Hnil.
    rewrite drop_nil, take_nil. reflexivity.
  - rewrite (transcribe_main_run w d args schedule now p Hload Hne). cbn [happened].
    apply transcribe_pool_facts.
Qed.

(** C9. With the limit read from the arguments a number [n] of items,
    the ids [processVideo] is entered with in an enrichment run are those
    of the first [n] entries of the failed list of the ledger loaded (all
    of them when there are fewer), each once, so at most [n] items are
    retried; without [--limit] among the arguments the limit is 1. *)
Theorem C9_retry_limit (w : World) (d : Disk) (args : list string)
    (schedule : list (nat * string)) (now : string) (p : Progress) (n : Z) :
  loadProgress d = Ok p ->
  TranscribeFallback.limitOf args = Js.Int n ->
  0 <= n ->
  let o := TranscribeFallback.main w d args schedule now in
  TranscribeFallback.toProcess args p = take (Z.to_nat n) (failedVideos p)
  /\ retried (happened o) ≡ₚ ids (take (Z.to_nat n) (failedVideos p))
  /\ (length (retried (happened o)) <= Z.to_nat n)%nat
  /\ (forall args', ~ In "--limit" args' ->
        TranscribeFallback.limitOf args' = Js.Int 1 /\
        TranscribeFallback.toProcess args' p = take 1 (failedVideos p)).
Proof.
  intros Hload Hlimit Hn o.
  assert (Hto : TranscribeFallback.toProcess args p = take (Z.to_nat n) (failedVideos p)).
  { unfold TranscribeFallback.toProcess. rewrite Hlimit. apply slice_take. exact Hn. }
  pose proof (transcribe_main_retried w d args schedule now p Hload) as Hperm.
  fold o in Hperm. rewrite Hto in Hperm.
  split; [exact Hto |]. split; [exact Hperm |]. split.
  - rewrite Hperm. unfold ids. rewrite length_map, length_take. lia.
  - intros args' Habsent. split; [apply limitOf_default; exact Habsent |].
    unfold TranscribeFallback.toProcess. rewrite (limitOf_default _ Habsent).
    apply (slice_take (failedVideos p) 1). lia.
Qed.

Lemma C9_retry_limit_witness :
  let args := ["--limit"; "2"] in
  let o := TranscribeFallback.main (Sample.silent []) (Sample.disk_of Sample.backlog)
             args [(1%nat, "2025-02-02T00:00:00.000Z")] "2025-02-02T00:00:09.000Z" in
  (loadProgress (Sample.disk_of Sample.backlog) = Ok Sample.backlog /\
   TranscribeFallback.limitOf args = Js.Int 2 /\ 0 <= 2)
  /\ retried (happened o) ≡ₚ ids (take 2 (failedVideos Sample.backlog)).
Proof.
  cbv zeta.
  assert (H1 : loadProgress (Sample.disk_of Sample.backlog) = Ok Sample.backlog)
    by reflexivity.
  assert (H2 : TranscribeFallback.limitOf ["--limit"; "2"] = Js.Int 2) by reflexivity.
  assert (H3 : 0 <= 2) by lia.
  split; [auto |].
  exact (proj1 (proj2 (C9_retry_limit (Sample.silent []) _ _
                         [(1%nat, "2025-02-02T00:00:00.000Z")]
                         "2025-02-02T00:00:09.000Z" _ 2 H1 H2 H3))).
Defined.

(** ** The snapshots of the primary run *)

Section GrabSequential.

Variable w : World.
Variable pending : list VideoInfo.

Lemma grab_resume_finished (st : GrabCaptions.Run) (a : nat) (now : string) :
  GrabCaptions.phases st !! a = Some GrabCaptions.Finished ->
  GrabCaptions.resume w pending st (a, now) = st.
Proof.
  intros H. rewrite grab_resume_unfold, H. destruct (pending !! a); reflexivity.
Qed.

(** One unit run from its start to its end with nothing in between: it is
    counted once, and it snapshots the ledger exactly when it makes the
    count a multiple of 50. *)
Lemma grab_unit_alone (st : GrabCaptions.Run) (a : nat) (now : string) (v : VideoInfo) :
  pending !! a = Some v ->
  GrabCaptions.phases st !! a = Some GrabCaptions.AwaitFetch ->
  GrabCaptions.started a st = true ->
  let r s := GrabCaptions.resume w pending s (a, now) in
  GrabCaptions.completed (r (r (r st))) = S (GrabCaptions.completed st)
  /\ length (snapshots (GrabCaptions.writes (r (r (r st))))) =
     (length (snapshots (GrabCaptions.writes st)) +
      (if (S (GrabCaptions.completed st) mod 50 =? 0)%nat then 1 else 0))%nat
  /\ GrabCaptions.phases (r (r (r st))) =
     <[a := GrabCaptions.Finished]> (GrabCaptions.phases st).
Proof.
  intros Hv Hph Hs r.
  assert (Hflush : forall s,
    GrabCaptions.phases s !! a = Some GrabCaptions.AwaitSaveProgress ->
    r s = GrabCaptions.set_phase a GrabCaptions.Finished s).
  { intros s H. unfold r. rewrite grab_resume_unfold, H, Hv. reflexivity. }
  assert (Hidle : forall s,
    GrabCaptions.phases s !! a = Some GrabCaptions.Finished -> r s = s).
  { intros s H. apply grab_resume_finished. exact H. }
  assert (Hend : forall s ph0,
    GrabCaptions.phases s !! a = Some ph0 ->
    let s' := r (GrabCaptions.periodic now a s) in
    r s' = s' /\
    GrabCaptions.completed s' = GrabCaptions.completed s /\
    length (snapshots (GrabCaptions.writes s')) =
      (length (snapshots (GrabCaptions.writes s)) +
       (if (GrabCaptions.completed s mod 50 =? 0)%nat then 1 else 0))%nat /\
    GrabCaptions.phases s' = <[a := GrabCaptions.Finished]> (GrabCaptions.phases s)).
  { intros s ph0 Hp s'. subst s'. unfold GrabCaptions.periodic.
    destruct (Nat.eqb _ 0).
    - cbn [saveProgress].
      match goal with
      | |- context [r (r ?X)] => set (x := X)
      end.
      assert (Hx : GrabCaptions.phases x !! a = Some GrabCaptions.AwaitSaveProgress).
      { subst x. cbn [GrabCaptions.phases]. apply (lookup_insert_same _ _ _ _ Hp). }
      rewrite (Hflush x Hx).
      assert (Hy : GrabCaptions.phases (GrabCaptions.set_phase a GrabCaptions.Finished x)
                   !! a = Some GrabCaptions.Finished).
      { cbn [GrabCaptions.set_phase GrabCaptions.phases].
        apply (lookup_insert_same _ _ _ _ Hx). }
      rewrite (Hidle _ Hy). subst x.
      cbn [GrabCaptions.set_phase GrabCaptions.phases GrabCaptions.completed
           GrabCaptions.writes].
      rewrite list_insert_insert_eq, snapshots_app, length_app.
      repeat split; auto.
    - assert (Hf : GrabCaptions.phases (GrabCaptions.set_phase a GrabCaptions.Finished s)
                   !! a = Some GrabCaptions.Finished).
      { cbn [GrabCaptions.set_phase GrabCaptions.phases].
        apply (lookup_insert_same _ _ _ _ Hp). }
      rewrite !(Hidle _ Hf).
      cbn [GrabCaptions.set_phase GrabCaptions.phases GrabCaptions.completed
           GrabCaptions.writes].
      repeat split; auto. }
  destruct (snd (GrabCaptions.fetchCaptions w v)) eqn:Hf.
  - assert (H1 : r st = GrabCaptions.after_fetch w now a v st).
    { unfold r. rewrite grab_resume_unfold, Hph, Hv, Hs. reflexivity. }
    destruct (after_fetch_captions w now a v st) as (e & m & _ & E); [congruence |].
    rewrite E in H1. clear E.
    assert (Hph1 : GrabCaptions.phases (r st) !! a = Some GrabCaptions.AwaitSaveCaptions).
    { rewrite H1. cbn [GrabCaptions.phases]. apply (lookup_insert_same _ _ _ _ Hph). }
    assert (H2 : r (r st) = GrabCaptions.after_save now a v (r st)).
    { unfold r at 1. rewrite grab_resume_unfold, Hv, Hph1. reflexivity. }
    rewrite H2. unfold GrabCaptions.after_save.
    match goal with
    | |- context [GrabCaptions.periodic now a ?s] =>
        destruct (Hend s GrabCaptions.AwaitSaveCaptions Hph1) as (_ & Hc & Hw & Hp)
    end.
    rewrite Hc, Hw, Hp. cbn [GrabCaptions.completed GrabCaptions.writes GrabCaptions.phases].
    rewrite H1. cbn [GrabCaptions.completed GrabCaptions.writes GrabCaptions.phases].
    rewrite snapshots_app, length_app, list_insert_insert_eq. simpl. repeat split; lia.
  - assert (H1 : r st = GrabCaptions.after_fetch w now a v st).
    { unfold r. rewrite grab_resume_unfold, Hph, Hv, Hs. reflexivity. }
    rewrite after_fetch_no_captions in H1 by exact Hf.
    rewrite H1.
    match goal with
    | |- context [GrabCaptions.periodic now a ?s] =>
        destruct (Hend s GrabCaptions.AwaitFetch Hph) as (Hfix & Hc & Hw & Hp)
    end.
    rewrite Hfix, Hc, Hw, Hp.
    cbn [GrabCaptions.completed GrabCaptions.writes GrabCaptions.phases].
    repeat split.
Qed.

Lemma grab_drain_count (now : string) (k a : nat) (st : GrabCaptions.Run) :
  length (GrabCaptions.phases st) = length pending ->
  (a + k <= length pending)%nat ->
  (forall j, (j < a)%nat -> GrabCaptions.phases st !! j = Some GrabCaptions.Finished) ->
  (forall j, (a <= j)%nat -> (j < length pending)%nat ->
     GrabCaptions.phases st !! j = Some GrabCaptions.AwaitFetch) ->
  let st' :=
    fold_left
      (fun st i => GrabCaptions.resume w pending
                     (GrabCaptions.resume w pending
                        (GrabCaptions.resume w pending st (i, now)) (i, now)) (i, now))
      (seq a k) st in
  GrabCaptions.completed st' = (GrabCaptions.completed st + k)%nat
  /\ (length (snapshots (GrabCaptions.writes st')) + GrabCaptions.completed st / 50 =
      length (snapshots (GrabCaptions.writes st)) +
      (GrabCaptions.completed st + k) / 50)%nat.
Proof.
  revert a st. induction k as [|k IH]; intros a st Hlen Hle Hpre Hsuf.
  - simpl. rewrite Nat.add_0_r. split; reflexivity.
  - cbn [seq fold_left]. cbv zeta.
    destruct (lookup_lt_is_Some_2 pending a ltac:(lia)) as [v Hv].
    assert (Hph : GrabCaptions.phases st !! a = Some GrabCaptions.AwaitFetch)
      by (apply Hsuf; lia).
    destruct (grab_unit_alone st a now v Hv Hph (grab_started_after_prefix _ _ Hpre))
      as (Hc & Hw & Hp).
    cbv zeta in Hc, Hw, Hp.
    match goal with
    | |- context [fold_left _ (seq (S a) k) ?s] => set (st3 := s) in *
    end.
    destruct (IH (S a) st3) as (Hc' & Hw').
    + rewrite Hp, length_insert. exact Hlen.
    + lia.
    + intros j Hj. rewrite Hp. destruct (decide (j = a)) as [->|Hne].
      * apply (lookup_insert_same _ _ _ _ Hph).
      * rewrite list_lookup_insert_ne by auto. apply Hpre. lia.
    + intros j Hj Hj'. rewrite Hp. rewrite list_lookup_insert_ne by lia.
      apply Hsuf; lia.
    + cbv zeta in Hc', Hw'. rewrite Hc', Hc. split; [lia |].
      rewrite Hc, Hw in Hw'. rewrite (div_succ 50) in Hw' by lia.
      replace (GrabCaptions.completed st + S k)%nat
        with (S (GrabCaptions.completed st) + k)%nat by lia.
      lia.
Qed.

(** Units that complete one after the other: a snapshot at every fiftieth
    completion. *)
Lemma grab_pool_alone (now : string) (p : Progress) (d : Disk) :
  length (snapshots (GrabCaptions.writes
            (GrabCaptions.pool w pending [] now (GrabCaptions.start p d pending)))) =
  (length pending / 50)%nat.
Proof.
  unfold GrabCaptions.pool, GrabCaptions.run_schedule, GrabCaptions.drain.
  cbn [fold_left].
  destruct (grab_drain_count now (length pending) 0 (GrabCaptions.start p d pending))
    as (_ & H).
  - simpl. apply length_replicate.
  - lia.
  - intros j Hj. lia.
  - intros j _ Hj. simpl. apply lookup_replicate. auto.
  - cbv zeta in H. simpl in H. rewrite Nat.add_0_r in H. exact H.
Qed.

End GrabSequential.

(** C3 as stated fails: with nothing pending the primary run returns
    before any snapshot, and so does the enrichment run with an empty
    failed list; the disk is left without a ledger. *)
Lemma C3_no_snapshot_when_nothing_to_do :
  let primary := GrabCaptions.main (Sample.silent []) Sample.empty_disk []
                   "2025-03-01T10:00:00.000Z" in
  let enrichment := TranscribeFallback.main (Sample.silent []) Sample.empty_disk []
                      [] "2025-03-01T10:00:00.000Z" in
  settled primary = Ok ()
  /\ written primary = [WroteKeep]
  /\ snapshots (written primary) = []
  /\ progressFile (final primary) = None
  /\ settled enrichment = Ok ()
  /\ written enrichment = []
  /\ progressFile (final enrichment) = None.
Proof. cbv zeta. repeat split. Qed.

(** C3, amended. With nothing pending (primary run), or with an empty
    failed list (enrichment run), the run returns without a snapshot and
    leaves the disk as it was.  Otherwise the last write of the run is one
    snapshot of the ledger as the settled units left it, stamped with the
    time of the write: in the primary run it holds the id of every pending
    item, as done or as failed.  Before it, the enrichment run takes a
    snapshot at every fifth completion, [n / 5] of them for [n] retried
    entries under every schedule; the primary run takes one at every
    fiftieth completion, [n / 50] of them for [n] pending items, when the
    units complete one after the other. *)
Theorem C3_snapshots (w : World) (d : Disk) (args : list string)
    (schedule : list (nat * string)) (now : string) (p : Progress) :
  loadProgress d = Ok p ->
  let primary := GrabCaptions.main w d schedule now in
  let alone := GrabCaptions.main w d [] now in
  let enrichment := TranscribeFallback.main w d args schedule now in
  (grab_pending w p = [] ->
     snapshots (written primary) = [] /\ final primary = d)
  /\ (grab_pending w p <> [] ->
      exists earlier pf,
        written primary = earlier ++ [WroteProgress pf]
        /\ ledger_of (final primary) = Some pf
        /\ lastRun pf = now
        /\ (forall v, In v (grab_pending w p) ->
              In (id v) (processedVideos pf) \/ In (id v) (ids (failedVideos pf))))
  /\ (grab_pending w p <> [] ->
      length (snapshots (written alone)) = (length (grab_pending w p) / 50 + 1)%nat)
  /\ (failedVideos p = [] ->
      written enrichment = [] /\ final enrichment = d)
  /\ (failedVideos p <> [] ->
      exists earlier pf,
        written enrichment = earlier ++ [WroteProgress pf]
        /\ ledger_of (final enrichment) = Some pf
        /\ lastRun pf = now
        /\ length (snapshots earlier) = (length (TranscribeFallback.toProcess args p) / 5)%nat
        /\ length (snapshots (written enrichment)) =
           (length (TranscribeFallback.toProcess args p) / 5 + 1)%nat).
Proof.
  intros Hload primary alone enrichment. split; [| split; [| split; [| split]]].
  - intros Hnil. subst primary.
    rewrite (grab_main_idle w d schedule now p Hload Hnil). split; reflexivity.
  - intros Hne. subst primary.
    rewrite (grab_main_run w d schedule now p Hload Hne).
    cbn [written final ledger_of progressFile].
    eexists _, _. split; [reflexivity |]. split; [reflexivity |].
    split; [reflexivity |].
    destruct (grab_pool_facts w d schedule now p (grab_pending w p))
      as (Hfailed & _ & Hdone & _).
    intros v Hv. cbn [stamp processedVideos failedVideos].
    destruct (resolve w v) eqn:Hr.
    + left. apply Hdone; [exact Hv | congruence].
    + right. apply Hfailed; assumption.
  - intros Hne. subst alone.
    rewrite (grab_main_run w d [] now p Hload Hne). cbn [written].
    rewrite snapshots_app, length_app, grab_pool_alone. reflexivity.
  - intros Hnil. subst enrichment.
    rewrite (transcribe_main_idle w d args schedule now p Hload Hnil).
    split; reflexivity.
  - intros Hne. subst enrichment.
    rewrite (transcribe_main_run w d args schedule now p Hload Hne).
    cbn [written final ledger_of progressFile].
    destruct (transcribe_pool_facts w d schedule now p (TranscribeFallback.toProcess args p))
      as (_ & _ & Hsnap).
    eexists _, _. split; [reflexivity |]. split; [reflexivity |].
    split; [reflexivity |]. split; [exact Hsnap |].
    rewrite snapshots_app, length_app, Hsnap. reflexivity.
Qed.

Lemma C3_snapshots_witness :
  let w := Sample.silent ["dQw4w9WgXcQ"; "9bZkp7q19f0"] in
  let primary := GrabCaptions.main w Sample.empty_disk [(1%nat, "2025-03-01T10:00:00.000Z")]
                   "2025-03-01T10:00:05.000Z" in
  (loadProgress Sample.empty_disk = Ok fresh /\ grab_pending w fresh <> [])
  /\ exists earlier pf,
       written primary = earlier ++ [WroteProgress pf]
       /\ ledger_of (final primary) = Some pf
       /\ lastRun pf = "2025-03-01T10:00:05.000Z"
       /\ (forall v, In v (grab_pending w fresh) ->
             In (id v) (processedVideos pf) \/ In (id v) (ids (failedVideos pf))).
Proof.
  cbv zeta.
  assert (H : loadProgress Sample.empty_disk = Ok fresh) by reflexivity.
  assert (H' : grab_pending (Sample.silent ["dQw4w9WgXcQ"; "9bZkp7q19f0"]) fresh <> [])
    by (vm_compute; discriminate).
  split; [auto |].
  exact (proj1 (proj2 (C3_snapshots (Sample.silent ["dQw4w9WgXcQ"; "9bZkp7q19f0"])
                         Sample.empty_disk [] [(1%nat, "2025-03-01T10:00:00.000Z")]
                         "2025-03-01T10:00:05.000Z" fresh H)) H').
Defined.

(** ** The subtitle-file format against its contract *)

Lemma digit_cases (k : nat) (P : nat -> Prop) :
  (k < 10)%nat ->
  P 0%nat -> P 1%nat -> P 2%nat -> P 3%nat -> P 4%nat ->
  P 5%nat -> P 6%nat -> P 7%nat -> P 8%nat -> P 9%nat -> P k.
Proof.
  intros Hk. do 10 (destruct k as [|k]; [intros; assumption |]). lia.
Qed.

Lemma digit_is_digit (k : nat) : (k < 10)%nat -> Js.is_digit (VttSpec.digit k) = true.
Proof. intros Hk. apply (digit_cases k (fun k => Js.is_digit (VttSpec.digit k) = true) Hk); reflexivity. Qed.

Lemma digit_not_space (k : nat) : (k < 10)%nat -> Js.is_space (VttSpec.digit k) = false.
Proof. intros Hk. apply (digit_cases k (fun k => Js.is_space (VttSpec.digit k) = false) Hk); reflexivity. Qed.

Lemma digit_value_digit (k : nat) :
  (k < 10)%nat -> Js.digit_value (VttSpec.digit k) = Z.of_nat k.
Proof. intros Hk. apply (digit_cases k (fun k => Js.digit_value (VttSpec.digit k) = Z.of_nat k) Hk); reflexivity. Qed.

Lemma parseInt_digit (k : nat) (t : string) :
  (k < 10)%nat ->
  Js.parseInt (String (VttSpec.digit k) t) =
  Js.Int (Js.digits_value (Z.of_nat k) t).
Proof.
  intros Hk.
  apply (digit_cases k (fun k => Js.parseInt (String (VttSpec.digit k) t) =
                                 Js.Int (Js.digits_value (Z.of_nat k) t)) Hk);
    reflexivity.
Qed.

Lemma digits_value_digit (acc : Z) (k : nat) (t : string) :
  (k < 10)%nat ->
  Js.digits_value acc (String (VttSpec.digit k) t) =
  Js.digits_value (10 * acc + Z.of_nat k) t.
Proof.
  intros Hk. cbn [Js.digits_value].
  rewrite (digit_is_digit k Hk), (digit_value_digit k Hk). reflexivity.
Qed.

Lemma tens_units (n : nat) : (n < 100)%nat -> (n / 10 < 10 /\ n mod 10 < 10)%nat.
Proof.
  intros Hn. split.
  - apply Nat.Div0.div_lt_upper_bound. lia.
  - apply Nat.mod_upper_bound. lia.
Qed.

Lemma parseInt_two (n : nat) :
  (n < 100)%nat -> Js.parseInt (VttSpec.two n EmptyString) = Js.Int (Z.of_nat n).
Proof.
  intros Hn. destruct (tens_units n Hn) as [Ht Hu]. unfold VttSpec.two.
  rewrite (parseInt_digit _ _ Ht), (digits_value_digit _ _ _ Hu). cbn [Js.digits_value].
  f_equal. pose proof (Nat.div_mod_eq n 10). lia.
Qed.

Lemma parseInt_three (n : nat) :
  (n < 1000)%nat -> Js.parseInt (VttSpec.three n EmptyString) = Js.Int (Z.of_nat n).
Proof.
  intros Hn.
  assert (Hh : (n / 100 < 10)%nat) by (apply Nat.Div0.div_lt_upper_bound; lia).
  assert (Hr : (n mod 100 < 100)%nat) by (apply Nat.mod_upper_bound; lia).
  destruct (tens_units _ Hr) as [Ht Hu]. unfold VttSpec.three, VttSpec.two.
  rewrite (parseInt_digit _ _ Hh), (digits_value_digit _ _ _ Ht),
    (digits_value_digit _ _ _ Hu).
  cbn [Js.digits_value]. f_equal.
  pose proof (Nat.div_mod_eq n 100). pose proof (Nat.div_mod_eq (n mod 100) 10). lia.
Qed.

Lemma digits_two (n : nat) (rest : string) :
  (n < 100)%nat ->
  Vtt.digits 2 (VttSpec.two n rest) = Some (VttSpec.two n EmptyString, rest).
Proof.
  intros Hn. destruct (tens_units n Hn) as [Ht Hu]. unfold VttSpec.two.
  cbn [Vtt.digits]. rewrite (digit_is_digit _ Ht), (digit_is_digit _ Hu). reflexivity.
Qed.

Lemma digits_three (n : nat) (rest : string) :
  (n < 1000)%nat ->
  Vtt.digits 3 (VttSpec.three n rest) = Some (VttSpec.three n EmptyString, rest).
Proof.
  intros Hn.
  assert (Hh : (n / 100 < 10)%nat) by (apply Nat.Div0.div_lt_upper_bound; lia).
  assert (Hr : (n mod 100 < 100)%nat) by (apply Nat.mod_upper_bound; lia).
  unfold VttSpec.three. cbn [Vtt.digits]. rewrite (digit_is_digit _ Hh).
  change (Vtt.digits 2 (VttSpec.two (n mod 100) rest))
    with (Vtt.digits 2 (VttSpec.two (n mod 100) rest)).
  pose proof (digits_two (n mod 100) rest Hr) as H. cbn [Vtt.digits] in H.
  unfold VttSpec.two in *. 
  destruct (tens_units _ Hr) as [Ht Hu].
  rewrite (digit_is_digit _ Ht), (digit_is_digit _ Hu). reflexivity.
Qed.

Lemma clock_clock_then (c : VttSpec.Clock) (rest : string) :
  VttSpec.in_range c ->
  Vtt.clock (VttSpec.clock_then c rest) =
  Some (VttSpec.two (VttSpec.hours c) EmptyString,
        VttSpec.two (VttSpec.minutes c) EmptyString,
        VttSpec.two (VttSpec.seconds c) EmptyString,
        VttSpec.three (VttSpec.millis c) EmptyString, rest).
Proof.
  intros (Hh & Hm & Hs & Hms). unfold Vtt.clock, VttSpec.clock_then.
  rewrite (digits_two _ _ Hh). cbn [mbind option_bind Vtt.lit Js.is_char Ascii.eqb Bool.eqb].
  rewrite (digits_two _ _ Hm). cbn [mbind option_bind Vtt.lit Js.is_char Ascii.eqb Bool.eqb].
  rewrite (digits_two _ _ Hs). cbn [mbind option_bind Vtt.lit Js.is_char Ascii.eqb Bool.eqb].
  rewrite (digits_three _ _ Hms). reflexivity.
Qed.

Lemma clock_then_first (c : VttSpec.Clock) (rest : string) :
  VttSpec.in_range c ->
  exists k t, (k < 10)%nat /\ VttSpec.clock_then c rest = String (VttSpec.digit k) t.
Proof.
  intros (Hh & _). destruct (tens_units _ Hh) as [Ht _].
  eexists _, _. split; [exact Ht | reflexivity].
Qed.

Lemma trimStart_clock_then (c : VttSpec.Clock) (rest : string) :
  VttSpec.in_range c ->
  Js.trimStart (VttSpec.clock_then c rest) = VttSpec.clock_then c rest.
Proof.
  intros Hc. destruct (clock_then_first c rest Hc) as (k & t & Hk & ->).
  cbn [Js.trimStart]. rewrite (digit_not_space k Hk). reflexivity.
Qed.

Lemma match_line_timing (c1 c2 : VttSpec.Clock) :
  VttSpec.in_range c1 -> VttSpec.in_range c2 ->
  Vtt.match_line (VttSpec.timing_line c1 c2) = Some (groups_of c1 c2).
Proof.
  intros H1 H2.
  assert (Hhere : Vtt.match_here (VttSpec.timing_line c1 c2) = Some (groups_of c1 c2)).
  { unfold Vtt.match_here, VttSpec.timing_line.
    rewrite (clock_clock_then c1 _ H1). cbn [mbind option_bind].
    change (Js.trimStart (" --> " +:+ VttSpec.clock_then c2 EmptyString))
      with (String "-" (String "-" (String ">" (String " " (VttSpec.clock_then c2 EmptyString))))).
    change (Vtt.lit "-->" (String "-" (String "-" (String ">"
              (String " " (VttSpec.clock_then c2 EmptyString))))))
      with (Some (String " " (VttSpec.clock_then c2 EmptyString))).
    cbn [mbind option_bind].
    change (Js.trimStart (String " " (VttSpec.clock_then c2 EmptyString)))
      with (Js.trimStart (VttSpec.clock_then c2 EmptyString)).
    rewrite (trimStart_clock_then c2 _ H2), (clock_clock_then c2 _ H2). reflexivity. }
  revert Hhere. generalize (VttSpec.timing_line c1 c2). intros s Hs.
  destruct s; cbn [Vtt.match_line]; rewrite Hs; reflexivity.
Qed.

Lemma millis_clock (c : VttSpec.Clock) :
  VttSpec.in_range c ->
  Vtt.millis (VttSpec.two (VttSpec.hours c) EmptyString)
             (VttSpec.two (VttSpec.minutes c) EmptyString)
             (VttSpec.two (VttSpec.seconds c) EmptyString)
             (VttSpec.three (VttSpec.millis c) EmptyString)
  = Js.Int (VttSpec.milliseconds c).
Proof.
  intros (Hh & Hm & Hs & Hms). unfold Vtt.millis.
  rewrite (parseInt_two _ Hh), (parseInt_two _ Hm), (parseInt_two _ Hs),
    (parseInt_three _ Hms).
  reflexivity.
Qed.

Lemma includes_later (sub : string) (c : ascii) (t : string) :
  Js.includes sub t = true -> Js.includes sub (String c t) = true.
Proof. intros H. cbn [Js.includes]. rewrite H. apply orb_true_r. Qed.

Lemma includes_arrow_timing (c1 c2 : VttSpec.Clock) :
  Js.includes "-->" (VttSpec.timing_line c1 c2) = true.
Proof.
  unfold VttSpec.timing_line, VttSpec.clock_then, VttSpec.three, VttSpec.two.
  do 13 apply includes_later. reflexivity.
Qed.

(** *** Lines *)

Lemma no_feed_cons (c : ascii) (t : string) :
  Js.includes Vtt.nl (String c t) = false ->
  Js.is_char Js.LF c = false /\ Js.includes Vtt.nl t = false.
Proof.
  cbn [Js.includes Js.startsWith Vtt.nl]. rewrite andb_true_r.
  intros H. apply orb_false_elim in H. exact H.
Qed.

Lemma split_line (line rest : string) :
  Js.includes Vtt.nl line = false ->
  Js.split Js.LF (line +:+ String Js.LF rest) = line :: Js.split Js.LF rest.
Proof.
  induction line as [|c t IH]; intros H.
  - reflexivity.
  - apply no_feed_cons in H. destruct H as [Hc Ht].
    change (String c t +:+ String Js.LF rest) with (String c (t +:+ String Js.LF rest)).
    cbn [Js.split]. rewrite Hc, (IH Ht). reflexivity.
Qed.

Lemma split_plain (line : string) :
  Js.includes Vtt.nl line = false -> Js.split Js.LF line = [line].
Proof.
  induction line as [|c t IH]; intros H; [reflexivity |].
  apply no_feed_cons in H. destruct H as [Hc Ht].
  cbn [Js.split]. rewrite Hc, (IH Ht). reflexivity.
Qed.

Lemma join_cons (sep x y : string) (rest : list string) :
  Js.join sep (x :: y :: rest) = x +:+ sep +:+ Js.join sep (y :: rest).
Proof. reflexivity. Qed.

(** Lines without line feeds, joined by line feeds and split again. *)
Lemma split_join (lines : list string) :
  lines <> [] ->
  Forall (fun line => Js.includes Vtt.nl line = false) lines ->
  Js.split Js.LF (Js.join Vtt.nl lines) = lines.
Proof.
  intros Hne Hall. induction Hall as [|x rest Hx Hrest IH]; [contradiction |].
  destruct rest as [|y rest'].
  - apply split_plain. exact Hx.
  - rewrite join_cons.
    change (x +:+ Vtt.nl +:+ Js.join Vtt.nl (y :: rest'))
      with (x +:+ String Js.LF (Js.join Vtt.nl (y :: rest'))).
    rewrite (split_line _ _ Hx), IH by discriminate. reflexivity.
Qed.

Lemma find_timing (pre body : list string) (t : string) :
  Forall (fun line => Js.includes "-->" line = false) pre ->
  Js.includes "-->" t = true ->
  List.find (Js.includes "-->") (pre ++ t :: body) = Some t.
Proof.
  intros Hpre Ht. induction Hpre as [|x rest Hx _ IH]; simpl.
  - rewrite Ht. reflexivity.
  - rewrite Hx. exact IH.
Qed.


Lemma indexOf_timing (pre body : list string) (t : string) :
  Forall (fun line => Js.includes "-->" line = false) pre ->
  Js.includes "-->" t = true ->
  Js.indexOf t (pre ++ t :: body) = Z.of_nat (length pre).
Proof.
  intros Hpre Ht. induction Hpre as [|x rest Hx _ IH].
  - simpl. rewrite String.eqb_refl. reflexivity.
  - cbn [app Js.indexOf length]. destruct (String.eqb_spec t x) as [->|_]; [congruence |].
    rewrite IH. destruct (Z.ltb_spec (Z.of_nat (length rest)) 0); lia.
Qed.

Lemma slice_from_after {A} (pre body : list A) (t : A) :
  Js.slice_from (pre ++ t :: body) (Z.of_nat (length pre) + 1) = body.
Proof.
  unfold Js.slice_from, Js.slice, Js.clamp_index.
  rewrite length_app. cbn [length].
  destruct (Z.ltb_spec (Z.of_nat (length pre) + 1) 0) as [H|_]; [lia |].
  destruct (Z.ltb_spec (Z.of_nat (length pre + S (length body))) 0) as [H|_]; [lia |].
  rewrite (Z.min_l (Z.of_nat (length pre) + 1)) by lia. rewrite Z.min_id.
  replace (Z.to_nat (Z.of_nat (length pre) + 1)) with (length pre + 1)%nat by lia.
  replace (Z.to_nat (Z.of_nat (length pre + S (length body)) -
                     (Z.of_nat (length pre) + 1))) with (length body) by lia.
  rewrite <- drop_drop, drop_app_length. cbn [drop]. apply firstn_all.
Qed.

(** *** Blocks *)



(** *** Tags and white space *)

Lemma includes_char (a c : ascii) (t : string) :
  Js.includes (String a EmptyString) (String c t) =
  Js.is_char a c || Js.includes (String a EmptyString) t.
Proof. cbn [Js.includes Js.startsWith]. rewrite andb_true_r. reflexivity. Qed.





(** An opening bracket with no closing bracket after it is kept. *)
Lemma strip_tags_unclosed (a b : string) :
  Js.includes "<" a = false ->
  Js.includes ">" b = false ->
  Js.strip_tags (a +:+ String "<" b) = a +:+ String "<" (Js.strip_tags b).
Proof.
  unfold Js.strip_tags. intros Ha Hb. induction a as [|c t IH].
  - change (EmptyString +:+ String "<" b) with (String "<" b).
    cbn [Js.strip_tags_from]. change (Js.is_char "<" "<") with true.
    assert (Hopen : Js.opens_tag b = false).
    { destruct b as [|x b']; [reflexivity |]. cbn [Js.opens_tag].
      rewrite includes_char in Hb. apply orb_false_elim in Hb. destruct Hb as [_ Hb].
      rewrite Hb. apply andb_false_r. }
    rewrite Hopen. reflexivity.
  - rewrite includes_char in Ha. apply orb_false_elim in Ha. destruct Ha as [Hc Ht].
    change (String c t +:+ String "<" b) with (String c (t +:+ String "<" b)).
    cbn [Js.strip_tags_from]. rewrite Hc. cbn [andb]. rewrite (IH Ht). reflexivity.
Qed.

(** ** More on the limit of the enrichment run *)

Lemma indexOf_first (x : string) (pre post : list string) :
  ~ In x pre -> Js.indexOf x (pre ++ x :: post) = Z.of_nat (length pre).
Proof.
  induction pre as [|y ys IH]; intros H.
  - simpl. rewrite String.eqb_refl. reflexivity.
  - cbn [app Js.indexOf length].
    destruct (String.eqb_spec x y) as [->|_]; [exfalso; apply H; left; reflexivity |].
    rewrite IH by (intros Hin; apply H; right; exact Hin).
    destruct (Z.ltb_spec (Z.of_nat (length ys)) 0); lia.
Qed.

(** How [--limit] is read: the first occurrence of the flag counts; the
    argument after it is read by [parseInt]; when the flag is the last
    argument, or the argument after it is empty, the limit stays 1. *)
Theorem limitOf_flag (pre post : list string) (value : string) :
  ~ In "--limit" pre ->
  TranscribeFallback.limitOf (pre ++ "--limit" :: value :: post) =
    (if Js.nonempty value then Js.parseInt value else Js.Int 1)
  /\ TranscribeFallback.limitOf (pre ++ ["--limit"]) = Js.Int 1.
Proof.
  intros Hpre. unfold TranscribeFallback.limitOf. split.
  - rewrite (indexOf_first _ pre (value :: post) Hpre).
    destruct (Z.eqb_spec (Z.of_nat (length pre)) (-1)) as [E|_]; [lia |].
    cbn [negb].
    replace (Z.to_nat (Z.of_nat (length pre) + 1)) with (length pre + 1)%nat by lia.
    rewrite lookup_app_r by lia.
    replace (length pre + 1 - length pre)%nat with 1%nat by lia.
    destruct value; reflexivity.
  - rewrite (indexOf_first _ pre [] Hpre).
    destruct (Z.eqb_spec (Z.of_nat (length pre)) (-1)) as [E|_]; [lia |].
    cbn [negb].
    replace (Z.to_nat (Z.of_nat (length pre) + 1)) with (length pre + 1)%nat by lia.
    rewrite lookup_app_r by lia.
    replace (length pre + 1 - length pre)%nat with 1%nat by lia.
    reflexivity.
Qed.

Lemma limitOf_flag_witness :
  TranscribeFallback.limitOf (["--verbose"] ++ "--limit" :: "12 videos" :: ["--limit"; "3"]) =
  Js.Int 12.
Proof.
  refine (proj1 (limitOf_flag ["--verbose"] ["--limit"; "3"] "12 videos" _)).
  intros [H|[]]. discriminate H.
Defined.

Lemma transcribe_pool_nil (w : World) (schedule : list (nat * string)) (now : string)
    (st : TranscribeFallback.Run) :
  TranscribeFallback.pool w [] schedule now st = st.
Proof.
  unfold TranscribeFallback.pool, TranscribeFallback.drain. cbn [length seq fold_left].
  unfold TranscribeFallback.run_schedule. revert st.
  induction schedule as [|[i t] rest IH]; intros st; [reflexivity |].
  cbn [fold_left]. rewrite <- (IH st) at 2. f_equal.
  unfold TranscribeFallback.resume. rewrite lookup_nil.
  destruct (TranscribeFallback.phases st !! i) as [[]|]; reflexivity.
Qed.

(** A limit that reads as zero or as no number ([--limit 0],
    [--limit abc]): [slice(0, limit)] is empty, nothing is retried and no
    record is written, yet the run goes on to its final save, so the
    ledger is written back with a new [lastRun] and nothing else changed. *)
Theorem transcribe_limit_zero (w : World) (d : Disk) (args : list string)
    (schedule : list (nat * string)) (now : string) (p : Progress) :
  loadProgress d = Ok p ->
  failedVideos p <> [] ->
  Js.to_integer (TranscribeFallback.limitOf args) = 0 ->
  TranscribeFallback.main w d args schedule now =
    {| settled := Ok ();
       final := {| progressFile := Some (Ledger (stamp now p));
                   captionFiles := captionFiles d |};
       written := [WroteProgress (stamp now p)];
       happened := [];
       stderr := [] |}.
Proof.
  intros Hload Hne Hzero.
  rewrite (transcribe_main_run w d args schedule now p Hload Hne).
  assert (Hto : TranscribeFallback.toProcess args p = []).
  { unfold TranscribeFallback.toProcess. rewrite Hzero.
    rewrite slice_take by lia. reflexivity. }
  cbv zeta. rewrite Hto, transcribe_pool_nil. reflexivity.
Qed.

Lemma transcribe_limit_zero_witness :
  let o := TranscribeFallback.main Sample.offline (Sample.disk_of Sample.backlog)
             ["--limit"; "all"] [(0%nat, "2025-02-02T00:00:00.000Z")]
             "2025-02-02T00:00:09.000Z" in
  TranscribeFallback.limitOf ["--limit"; "all"] = Js.NaN
  /\ ledger_of (final o) = Some (stamp "2025-02-02T00:00:09.000Z" Sample.backlog)
  /\ happened o = [].
Proof.
  cbv zeta. split; [reflexivity |].
  rewrite (transcribe_limit_zero Sample.offline (Sample.disk_of Sample.backlog)
             ["--limit"; "all"] [(0%nat, "2025-02-02T00:00:00.000Z")]
             "2025-02-02T00:00:09.000Z" Sample.backlog);
    [split; reflexivity | reflexivity | discriminate | reflexivity].
Defined.

(** ** More on [processVideo] *)

Lemma downloadAudio_some (w : World) (x : string) :
  (audio_at_hand w x /\
   snd (TranscribeFallback.downloadAudio w x) =
     Some (TranscribeFallback.TEMP_DIR +:+ "/" +:+ x +:+ ".wav"))
  \/ (~ audio_at_hand w x /\ snd (TranscribeFallback.downloadAudio w x) = None).
Proof.
  unfold audio_at_hand, TranscribeFallback.downloadAudio.
  destruct (mkdirAudio w) as [[]|e].
  - destruct (audioExists w x) eqn:Hex.
    + left. auto.
    + destruct (ytdlpAudio w x) as [[]|e'].
      * left. auto.
      * right. split; [| reflexivity]. intros [_ [H|H]]; discriminate.
  - right. split; [| reflexivity]. intros [H _]. discriminate.
Qed.

(** [processVideo] returns [true] exactly when the description of the
    video could be read, its audio is at hand (found on disk, or
    downloaded) and the service returns at least one segment for it under
    the prompt made of the title; the record it then leaves under the
    path of the id retried carries that id, whatever the description
    says, and one entry for each segment. *)
Theorem processVideo_true_iff (w : World) (now x : string) (p : Progress) (d : Disk) :
  let '(ok, _, d', _) := TranscribeFallback.processVideo w now x p d in
  let heard data segments :=
    ytdlpVideoInfo w x = Ok data /\ audio_at_hand w x /\
    groqTranscribe w (TranscribeFallback.TEMP_DIR +:+ "/" +:+ x +:+ ".wav")
      ("Video game review: " +:+ Js.or_string (d_title data) "Unknown" +:+
       ". British accent, fast-paced commentary.") = Ok (Some segments) /\
    segments <> [] in
  (ok = true <-> exists data segments, heard data segments)
  /\ (forall data segments, heard data segments ->
        exists c, captionFiles d' !! caption_path x = Some c
                  /\ id (video c) = x
                  /\ captions c = map TranscribeFallback.entryOfSegment segments
                  /\ fetchedAt c = now).
Proof.
  unfold TranscribeFallback.processVideo, TranscribeFallback.attempt,
    TranscribeFallback.getVideoInfo, TranscribeFallback.transcribeWithGroq.
  destruct (ytdlpVideoInfo w x) as [data|e] eqn:Hinfo.
  2:{ split.
      - split; [discriminate |]. intros (data & segs & H & _). discriminate.
      - intros data segs (H & _). discriminate. }
  cbn [title].
  destruct (downloadAudio_some w x) as [[Haudio Hpath]|[Haudio Hpath]];
    destruct (TranscribeFallback.downloadAudio w x) as [errs' path];
    cbn [snd] in Hpath; subst path.
  2:{ split.
      - split; [discriminate |]. intros (data' & segs & _ & H & _). contradiction.
      - intros data' segs (_ & H & _). contradiction. }
  destruct (groqTranscribe w _ _) as [[[|seg segs]|]|e] eqn:Hgroq; cbn [map].
  - split.
    + split; [discriminate |]. intros (data' & segs & E & _ & H & Hne).
      injection E as <-. rewrite Hgroq in H. injection H as <-. contradiction.
    + intros data' segs (E & _ & H & Hne).
      injection E as <-. rewrite Hgroq in H. injection H as <-. contradiction.
  - split.
    + split; [intros _ | reflexivity]. exists data, (seg :: segs).
      split; [reflexivity | split; [exact Haudio | split; [exact Hgroq | discriminate]]].
    + intros data' segs' (E & _ & H & _).
      injection E as <-. rewrite Hgroq in H. injection H as <-.
      eexists. split; [| split; [| split]].
      { unfold saveCaptions. cbn [captionFiles video id]. apply lookup_insert_eq. }
      all: reflexivity.
  - split.
    + split; [discriminate |]. intros (data' & segs & E & _ & H & Hne).
      injection E as <-. rewrite Hgroq in H. discriminate.
    + intros data' segs (E & _ & H & _).
      injection E as <-. rewrite Hgroq in H. discriminate.
  - split.
    + split; [discriminate |]. intros (data' & segs & E & _ & H & Hne).
      injection E as <-. rewrite Hgroq in H. discriminate.
    + intros data' segs (E & _ & H & _).
      injection E as <-. rewrite Hgroq in H. discriminate.
Qed.

(** What [processVideo] does to the outside.  With the description read
    and the audio at hand the service is called once, and the audio files
    of the id are swept afterwards whatever the service answers (segments,
    none, or an error); with either missing the service is not called and
    nothing is swept. *)
Theorem processVideo_events (w : World) (now x : string) (p : Progress) (d : Disk) :
  let evs := snd (TranscribeFallback.processVideo w now x p d) in
  let ready := (exists data, ytdlpVideoInfo w x = Ok data) /\ audio_at_hand w x in
  (ready /\ evs = [Retry x; Invoke SpeechToText x; SweepAudio x])
  \/ (~ ready /\ evs = [Retry x]).
Proof.
  unfold TranscribeFallback.processVideo, TranscribeFallback.attempt,
    TranscribeFallback.getVideoInfo, TranscribeFallback.transcribeWithGroq.
  destruct (ytdlpVideoInfo w x) as [data|e] eqn:Hinfo.
  2:{ right. split; [| reflexivity]. intros [[data H] _]. discriminate. }
  cbn [title].
  destruct (downloadAudio_some w x) as [[Haudio Hpath]|[Haudio Hpath]];
    destruct (TranscribeFallback.downloadAudio w x) as [errs' path];
    cbn [snd] in Hpath; subst path.
  2:{ right. split; [| reflexivity]. intros [_ H]. contradiction. }
  left. split; [split; [exists data; reflexivity | exact Haudio] |].
  destruct (groqTranscribe w _ _) as [[[|seg segs]|]|e]; reflexivity.
Qed.

(** ** More on the subtitle-file adapter *)

Lemma first_parsed_iff (files : gmap string string) (paths : list string)
    (entries : list CaptionEntry) :
  GrabCaptions.first_parsed files paths = Some entries <->
  exists pre path post,
    paths = pre ++ path :: post
    /\ (forall q, In q pre -> Vtt.parseVttFile files q = [])
    /\ Vtt.parseVttFile files path = entries
    /\ entries <> [].
Proof.
  induction paths as [|q rest IH]; cbn [GrabCaptions.first_parsed].
  - split; [discriminate |]. intros (pre & path & post & E & _).
    destruct pre; discriminate.
  - destruct (Vtt.parseVttFile files q) as [|e es] eqn:Hq.
    + rewrite IH. split.
      * intros (pre & path & post & -> & Hpre & Hpath & Hne).
        exists (q :: pre), path, post. repeat split; auto.
        intros q' [<-|Hin]; auto.
      * intros (pre & path & post & E & Hpre & Hpath & Hne).
        destruct pre as [|q' pre'].
        -- injection E as <- <-. rewrite Hq in Hpath. subst entries. contradiction.
        -- injection E as <- ->. exists pre', path, post. repeat split; auto.
           intros q' Hin. apply Hpre. right. exact Hin.
    + split.
      * intros E. injection E as <-. exists [], q, rest.
        split; [reflexivity | split; [intros q' [] | split; [exact Hq | discriminate]]].
      * intros (pre & path & post & E & Hpre & Hpath & Hne).
        destruct pre as [|q' pre'].
        -- injection E as <- <-. rewrite Hq in Hpath. subst entries. reflexivity.
        -- injection E as <- ->. rewrite (Hpre q) in Hq by (left; reflexivity).
           discriminate.
Qed.

(** The subtitle-file adapter returns entries exactly when the temporary
    directory could be made, the download went through, and one of the
    candidate files [./data/temp/<id>.en.vtt],
    [./data/temp/<id>.en-orig.vtt], [./data/temp/<id>.en-US.vtt] parses to
    at least one entry; the entries are those of the first such file in
    that order, a candidate that is missing or parses to nothing being
    passed over.  It never returns an empty list; in every other case the
    result is [null]. *)
Theorem fetchCaptionsWithYtDlp_first_candidate (w : World) (v : VideoInfo)
    (entries : list CaptionEntry) :
  subtitles w v = Some entries <->
  mkdirTemp w = Ok ()
  /\ entries <> []
  /\ exists files,
       ytdlpSubtitles w (id v) = Ok files
       /\ let parsed extension :=
            Vtt.parseVttFile files ("./data/temp/" +:+ id v +:+ extension) in
          parsed ".en.vtt" = entries
          \/ (parsed ".en.vtt" = [] /\ parsed ".en-orig.vtt" = entries)
          \/ (parsed ".en.vtt" = [] /\ parsed ".en-orig.vtt" = [] /\
              parsed ".en-US.vtt" = entries).
Proof.
  unfold subtitles, GrabCaptions.fetchCaptionsWithYtDlp. cbn [snd].
  destruct (mkdirTemp w) as [[]|e].
  2:{ split; [discriminate | intros [H _]; discriminate]. }
  destruct (ytdlpSubtitles w (id v)) as [files|e].
  2:{ split; [discriminate |]. intros (_ & _ & files & H & _). discriminate. }
  change (GrabCaptions.vttFiles (id v))
    with ["./data/temp/" +:+ id v +:+ ".en.vtt";
          "./data/temp/" +:+ id v +:+ ".en-orig.vtt";
          "./data/temp/" +:+ id v +:+ ".en-US.vtt"].
  cbn [GrabCaptions.first_parsed]. cbv zeta.
  destruct (Vtt.parseVttFile files ("./data/temp/" +:+ id v +:+ ".en.vtt"))
    as [|e1 es1] eqn:H1.
  2:{ split.
      - intros [= <-]. split; [reflexivity |]. split; [discriminate |].
        exists files. split; [reflexivity |]. left. exact H1.
      - intros (_ & Hne & files' & [= <-] & [H|[[H _]|[H _]]]).
        + rewrite H1 in H. subst entries. reflexivity.
        + rewrite H1 in H. discriminate.
        + rewrite H1 in H. discriminate. }
  destruct (Vtt.parseVttFile files ("./data/temp/" +:+ id v +:+ ".en-orig.vtt"))
    as [|e2 es2] eqn:H2.
  2:{ split.
      - intros [= <-]. split; [reflexivity |]. split; [discriminate |].
        exists files. split; [reflexivity |]. right. left.
        rewrite H1, H2. split; reflexivity.
      - intros (_ & Hne & files' & [= <-] & [H|[[_ H]|(_ & H & _)]]).
        + rewrite H1 in H. subst entries. contradiction.
        + rewrite H2 in H. subst entries. reflexivity.
        + rewrite H2 in H. discriminate. }
  destruct (Vtt.parseVttFile files ("./data/temp/" +:+ id v +:+ ".en-US.vtt"))
    as [|e3 es3] eqn:H3.
  - split; [discriminate |].
    intros (_ & Hne & files' & [= <-] & [H|[[_ H]|(_ & _ & H)]]); exfalso; apply Hne.
    + rewrite H1 in H. auto.
    + rewrite H2 in H. auto.
    + rewrite H3 in H. auto.
  - split.
    + intros [= <-]. split; [reflexivity |]. split; [discriminate |].
      exists files. split; [reflexivity |]. right. right.
      rewrite H1, H2, H3. repeat split.
    + intros (_ & Hne & files' & [= <-] & [H|[[_ H]|(_ & _ & H)]]).
      * rewrite H1 in H. subst entries. contradiction.
      * rewrite H2 in H. subst entries. contradiction.
      * rewrite H3 in H. subst entries. reflexivity.
Qed.

Lemma fetchCaptionsWithYtDlp_first_candidate_witness :
  subtitles (Sample.subtitled ["dQw4w9WgXcQ"]) (Sample.video "dQw4w9WgXcQ") =
  Some [{| text := "Hello world"; offset := Js.Int 1000; cduration := Js.Int 1500 |};
        {| text := "Second line"; offset := Js.Int 3000; cduration := Js.Int 1000 |}].
Proof.
  apply (proj2 (fetchCaptionsWithYtDlp_first_candidate
                  (Sample.subtitled ["dQw4w9WgXcQ"]) (Sample.video "dQw4w9WgXcQ") _)).
  split; [reflexivity |]. split; [discriminate |].
  exists {[ "./data/temp/dQw4w9WgXcQ.en-orig.vtt" := Vtt.sample ]}.
  split; [reflexivity |]. right. left. split; vm_compute; reflexivity.
Defined.

(** ** The playlists *)

Lemma collect_In (w : World) (playlists : list (string * string))
    (playlistId name : string) (videos : list VideoInfo) (v : VideoInfo) :
  In (playlistId, name) playlists ->
  GrabCaptions.fetchPlaylistVideos w playlistId name = Ok videos ->
  In v videos ->
  In v (fst (GrabCaptions.collect w playlists)).
Proof.
  intros Hin Hfetch Hv. induction playlists as [|[pid' name'] rest IH]; [destruct Hin |].
  cbn [GrabCaptions.collect].
  destruct (GrabCaptions.collect w rest) as [more errs] eqn:Hrest. cbn [fst] in IH.
  destruct Hin as [E|Hin].
  - injection E as -> ->. rewrite Hfetch. cbn [fst]. apply in_or_app. left. exact Hv.
  - specialize (IH Hin).
    destruct (GrabCaptions.fetchPlaylistVideos w pid' name'); cbn [fst]; [| exact IH].
    apply in_or_app. right. exact IH.
Qed.

Lemma collect_errors (w : World) (playlists : list (string * string)) :
  snd (GrabCaptions.collect w playlists) =
  omap (fun playlist : string * string =>
          match ytdlpPlaylist w (fst playlist) with
          | Err e => Some ("  Failed to fetch playlist " +:+ snd playlist +:+ ": " +:+ e)
          | Ok _ => None
          end) playlists.
Proof.
  induction playlists as [|[pid name] rest IH]; [reflexivity |].
  cbn [GrabCaptions.collect omap list_omap fst snd].
  destruct (GrabCaptions.collect w rest) as [more errs]. cbn [snd] in IH.
  unfold GrabCaptions.fetchPlaylistVideos.
  destruct (ytdlpPlaylist w pid); cbn [snd]; rewrite IH; reflexivity.
Qed.

(** A playlist whose listing fails is reported on standard error, one
    line for each, and keeps nothing else from being done: every video an
    other playlist lists that is not done yet is attempted, and is in the
    ledger the run leaves, as done or as failed. *)
Theorem grab_main_playlist_failure (w : World) (d : Disk)
    (schedule : list (nat * string)) (now : string) (p : Progress)
    (playlistId name : string) (lines : list (option YtDlpEntry)) (entry : YtDlpEntry) :
  loadProgress d = Ok p ->
  In (playlistId, name) GrabCaptions.PLAYLISTS ->
  ytdlpPlaylist w playlistId = Ok lines ->
  In (Some entry) lines ->
  ~ In (e_id entry) (processedVideos p) ->
  let o := GrabCaptions.main w d schedule now in
  stderr o =
    omap (fun playlist : string * string =>
            match ytdlpPlaylist w (fst playlist) with
            | Err e => Some ("  Failed to fetch playlist " +:+ snd playlist +:+ ": " +:+ e)
            | Ok _ => None
            end) GrabCaptions.PLAYLISTS
  /\ In (DirectCaption, e_id entry) (invoked (happened o))
  /\ exists p', ledger_of (final o) = Some p'
                /\ (In (e_id entry) (processedVideos p') \/
                    In (e_id entry) (ids (failedVideos p'))).
Proof.
  intros Hload Hpl Hlines Hentry Hnew o.
  set (v := GrabCaptions.videoOfEntry playlistId name entry).
  assert (Hv : In v (grab_pending w p)).
  { apply pending_iff. split; [| exact Hnew].
    apply (collect_In w _ playlistId name
             (omap (fmap (GrabCaptions.videoOfEntry playlistId name)) lines)); auto.
    - unfold GrabCaptions.fetchPlaylistVideos. rewrite Hlines. reflexivity.
    - apply list_elem_of_In, list_elem_of_omap. exists (Some entry).
      split; [apply list_elem_of_In; exact Hentry | reflexivity]. }
  assert (Hne : grab_pending w p <> []) by (intros E; rewrite E in Hv; destruct Hv).
  subst o. rewrite (grab_main_run w d schedule now p Hload Hne).
  cbn [stderr happened final]. split; [apply collect_errors |].
  destruct (grab_pool_facts w d schedule now p (grab_pending w p))
    as (Hfail & _ & Hdone & _ & _ & _ & Hinv).
  split; [exact (Hinv v Hv) |].
  eexists. split; [reflexivity |]. cbn [stamp processedVideos failedVideos].
  destruct (resolve w v) eqn:Hr.
  - left. apply (Hdone v Hv). congruence.
  - right. apply (Hfail v Hv Hr).
Qed.

Lemma grab_main_playlist_failure_witness :
  let o := GrabCaptions.main (Sample.second_only ["dQw4w9WgXcQ"]) Sample.empty_disk
             [(0%nat, "2025-01-01T00:00:00.000Z")] "2025-01-01T00:00:09.000Z" in
  stderr o = ["  Failed to fetch playlist Zero Punctuation: HTTP Error 429"]
  /\ In (DirectCaption, "dQw4w9WgXcQ") (invoked (happened o)).
Proof.
  cbv zeta.
  destruct (grab_main_playlist_failure (Sample.second_only ["dQw4w9WgXcQ"])
              Sample.empty_disk [(0%nat, "2025-01-01T00:00:00.000Z")]
              "2025-01-01T00:00:09.000Z" fresh
              "PLUBKwq0XD0ueR3CXGUhGpsD1puLcYJPUp" "Second Wind"
              (map Sample.entry ["dQw4w9WgXcQ"])
              {| e_id := "dQw4w9WgXcQ"; e_title := Some "A review";
                 e_duration := Some (Js.Int 300) |})
    as (Herr & Hinv & _).
  - reflexivity.
  - right. left. reflexivity.
  - reflexivity.
  - left. reflexivity.
  - intros [].
  - split; [exact Herr | exact Hinv].
Defined.

Lemma or_string_nonempty (x : option string) (fallback : string) :
  fallback <> EmptyString -> Js.or_string x fallback <> EmptyString.
Proof. intros H. destruct x as [[|c t]|]; simpl; auto. Qed.

(** What a listing gives: one video for each line that reads as an
    entry, in the order of the lines, the other lines being skipped; each
    video carries the id and the name of the playlist asked for, the
    address made of its id, and a title that is never empty. *)
Theorem fetchPlaylistVideos_listing (w : World) (playlistId' name : string)
    (lines : list (option YtDlpEntry)) :
  ytdlpPlaylist w playlistId' = Ok lines ->
  exists videos,
    GrabCaptions.fetchPlaylistVideos w playlistId' name = Ok videos
    /\ map id videos = omap (fmap e_id) lines
    /\ Forall (fun v => playlistId v = playlistId' /\ playlistTitle v = name
                        /\ url v = "https://youtu.be/" +:+ id v
                        /\ title v <> EmptyString) videos.
Proof.
  intros Hlines. unfold GrabCaptions.fetchPlaylistVideos. rewrite Hlines.
  eexists. split; [reflexivity |]. clear Hlines.
  induction lines as [|[entry|] rest [IH1 IH2]]; cbn [omap list_omap fmap option_fmap option_map].
  - split; [reflexivity | constructor].
  - split; [cbn [map]; rewrite IH1; reflexivity |].
    constructor; [| exact IH2]. cbn [GrabCaptions.videoOfEntry playlistId playlistTitle url id title].
    split; [reflexivity | split; [reflexivity | split; [reflexivity |]]].
    apply or_string_nonempty. discriminate.
  - split; assumption.
Qed.

Lemma fetchPlaylistVideos_listing_witness :
  exists videos,
    GrabCaptions.fetchPlaylistVideos (Sample.silent ["dQw4w9WgXcQ"; "9bZkp7q19f0"])
      "PLAbMhAYRuCUhawCEV2oXZGrienoKTN16X" "Zero Punctuation" = Ok videos
    /\ map id videos = ["dQw4w9WgXcQ"; "9bZkp7q19f0"].
Proof.
  destruct (fetchPlaylistVideos_listing (Sample.silent ["dQw4w9WgXcQ"; "9bZkp7q19f0"])
              "PLAbMhAYRuCUhawCEV2oXZGrienoKTN16X" "Zero Punctuation"
              (map Sample.entry ["dQw4w9WgXcQ"; "9bZkp7q19f0"]) eq_refl)
    as (videos & H1 & H2 & _).
  exists videos. split; [exact H1 | exact H2].
Defined.

(** ** What [parseVttFile] returns on any file *)

Lemma trimEnd_idem (s : string) : Js.trimEnd (Js.trimEnd s) = Js.trimEnd s.
Proof.
  induction s as [|c t IH]; [reflexivity |].
  cbn [Js.trimEnd].
  destruct (Js.is_space c && negb (Js.nonempty (Js.trimEnd t))) eqn:E; [reflexivity |].
  cbn [Js.trimEnd]. rewrite IH, E. reflexivity.
Qed.

Lemma trimStart_head (s : string) :
  Js.trimStart s = EmptyString \/
  exists c t, Js.trimStart s = String c t /\ Js.is_space c = false.
Proof.
  induction s as [|c t IH]; [left; reflexivity |].
  cbn [Js.trimStart]. destruct (Js.is_space c) eqn:E; [exact IH |].
  right. exists c, t. auto.
Qed.

Lemma trim_idem (s : string) : Js.trim (Js.trim s) = Js.trim s.
Proof.
  unfold Js.trim. destruct (trimStart_head s) as [->|(c & t & -> & Hc)]; [reflexivity |].
  cbn [Js.trimEnd]. rewrite Hc. cbn [andb Js.trimStart]. rewrite Hc.
  change (String c (Js.trimEnd t)) with (String c (Js.trimEnd t)).
  cbn [Js.trimEnd]. rewrite Hc, trimEnd_idem. reflexivity.
Qed.

Lemma is_digit_digit (c : ascii) :
  Js.is_digit c = true -> exists k, (k < 10)%nat /\ c = VttSpec.digit k.
Proof.
  unfold Js.is_digit, Js.code. intros H. apply andb_true_iff in H.
  destruct H as [H1 H2]. apply Nat.leb_le in H1, H2.
  exists (nat_of_ascii c - 48)%nat. split; [lia |].
  unfold VttSpec.digit. replace (48 + (nat_of_ascii c - 48))%nat with (nat_of_ascii c) by lia.
  symmetry. apply ascii_nat_embedding.
Qed.

Lemma digits_shape (n : nat) (s d r : string) :
  Vtt.digits n s = Some (d, r) ->
  exists ks, length ks = n /\ Forall (fun k => (k < 10)%nat) ks
             /\ d = fold_right (fun k t => String (VttSpec.digit k) t) EmptyString ks.
Proof.
  revert s d r. induction n as [|n IH]; intros s d r H.
  - injection H as <- <-. exists []. repeat split. constructor.
  - cbn [Vtt.digits] in H. destruct s as [|c t]; [discriminate |].
    destruct (Js.is_digit c) eqn:Hc; [| discriminate].
    destruct (Vtt.digits n t) as [[d' r']|] eqn:Ht; [| discriminate].
    injection H as <- <-. destruct (IH _ _ _ Ht) as (ks & Hlen & Hks & ->).
    destruct (is_digit_digit c Hc) as (k & Hk & ->).
    exists (k :: ks). split; [simpl; lia |]. split; [constructor; assumption |].
    reflexivity.
Qed.

Lemma parseInt_digits2 (s d r : string) :
  Vtt.digits 2 s = Some (d, r) -> exists v, Js.parseInt d = Js.Int v /\ 0 <= v <= 99.
Proof.
  intros H. destruct (digits_shape _ _ _ _ H) as (ks & Hlen & Hks & ->).
  destruct ks as [|a [|b [|? ?]]]; try discriminate.
  apply Forall_cons in Hks. destruct Hks as [Ha Hks].
  apply Forall_cons in Hks. destruct Hks as [Hb _].
  cbn [fold_right]. rewrite (parseInt_digit _ _ Ha), (digits_value_digit _ _ _ Hb).
  cbn [Js.digits_value]. eexists. split; [reflexivity | lia].
Qed.

Lemma parseInt_digits3 (s d r : string) :
  Vtt.digits 3 s = Some (d, r) -> exists v, Js.parseInt d = Js.Int v /\ 0 <= v <= 999.
Proof.
  intros H. destruct (digits_shape _ _ _ _ H) as (ks & Hlen & Hks & ->).
  destruct ks as [|a [|b [|c [|? ?]]]]; try discriminate.
  apply Forall_cons in Hks. destruct Hks as [Ha Hks].
  apply Forall_cons in Hks. destruct Hks as [Hb Hks].
  apply Forall_cons in Hks. destruct Hks as [Hc _].
  cbn [fold_right].
  rewrite (parseInt_digit _ _ Ha), (digits_value_digit _ _ _ Hb),
    (digits_value_digit _ _ _ Hc).
  cbn [Js.digits_value]. eexists. split; [reflexivity | lia].
Qed.

Lemma clock_millis (s h m sec ms r : string) :
  Vtt.clock s = Some (h, m, sec, ms, r) ->
  exists v, Vtt.millis h m sec ms = Js.Int v /\ 0 <= v <= 362439999.
Proof.
  unfold Vtt.clock. intros H.
  destruct (Vtt.digits 2 s) as [[h' r1]|] eqn:H1; [| discriminate].
  cbn [mbind option_bind] in H.
  destruct (Vtt.lit ":" r1) as [r2|]; [| discriminate]. cbn [mbind option_bind] in H.
  destruct (Vtt.digits 2 r2) as [[m' r3]|] eqn:H2; [| discriminate].
  cbn [mbind option_bind] in H.
  destruct (Vtt.lit ":" r3) as [r4|]; [| discriminate]. cbn [mbind option_bind] in H.
  destruct (Vtt.digits 2 r4) as [[s' r5]|] eqn:H3; [| discriminate].
  cbn [mbind option_bind] in H.
  destruct (Vtt.lit "." r5) as [r6|]; [| discriminate]. cbn [mbind option_bind] in H.
  destruct (Vtt.digits 3 r6) as [[ms' r7]|] eqn:H4; [| discriminate].
  cbn [mbind option_bind] in H. injection H as E1 E2 E3 E4 E5. subst h m sec ms r.
  unfold Vtt.millis.
  destruct (parseInt_digits2 _ _ _ H1) as (a & -> & Ha).
  destruct (parseInt_digits2 _ _ _ H2) as (b & -> & Hb).
  destruct (parseInt_digits2 _ _ _ H3) as (c & -> & Hc).
  destruct (parseInt_digits3 _ _ _ H4) as (e & -> & He).
  cbn [Js.mul Js.add]. eexists. split; [reflexivity | lia].
Qed.

Lemma match_here_millis (s : string) (g : Vtt.Groups) :
  Vtt.match_here s = Some g ->
  exists a b,
    Vtt.millis (Vtt.g1 g) (Vtt.g2 g) (Vtt.g3 g) (Vtt.g4 g) = Js.Int a /\
    Vtt.millis (Vtt.g5 g) (Vtt.g6 g) (Vtt.g7 g) (Vtt.g8 g) = Js.Int b /\
    0 <= a <= 362439999 /\ 0 <= b <= 362439999.
Proof.
  unfold Vtt.match_here. intros H.
  destruct (Vtt.clock s) as [[[[[h1 m1] s1] ms1] r]|] eqn:H1; [| discriminate].
  cbn [mbind option_bind] in H.
  destruct (Vtt.lit "-->" (Js.trimStart r)) as [r'|]; [| discriminate].
  cbn [mbind option_bind] in H.
  destruct (Vtt.clock (Js.trimStart r')) as [[[[[h2 m2] s2] ms2] r'']|] eqn:H2;
    [| discriminate].
  cbn [mbind option_bind] in H. injection H as <-. cbn.
  destruct (clock_millis _ _ _ _ _ _ H1) as (a & Ea & Ha).
  destruct (clock_millis _ _ _ _ _ _ H2) as (b & Eb & Hb).
  exists a, b. auto.
Qed.

Lemma match_line_millis (s : string) (g : Vtt.Groups) :
  Vtt.match_line s = Some g ->
  exists a b,
    Vtt.millis (Vtt.g1 g) (Vtt.g2 g) (Vtt.g3 g) (Vtt.g4 g) = Js.Int a /\
    Vtt.millis (Vtt.g5 g) (Vtt.g6 g) (Vtt.g7 g) (Vtt.g8 g) = Js.Int b /\
    0 <= a <= 362439999 /\ 0 <= b <= 362439999.
Proof.
  induction s as [|c t IH]; cbn [Vtt.match_line].
  - destruct (Vtt.match_here EmptyString) as [g'|] eqn:H; [| discriminate].
    intros E. injection E as <-. exact (match_here_millis _ _ H).
  - destruct (Vtt.match_here (String c t)) as [g'|] eqn:H; [| exact IH].
    intros E. injection E as <-. exact (match_here_millis _ _ H).
Qed.

(** Whatever the file holds, every entry [parseVttFile] returns has a
    text that is not empty and has no white space around it, a start that
    is a whole number of milliseconds from 0 to 99:99:99.999, and a
    duration that is the whole number of milliseconds from that start to an
    end in the same range; the end is not compared with the start, so the
    duration may be negative. *)
Theorem parseVtt_entries (content : string) :
  Forall (fun entry =>
            text entry <> EmptyString
            /\ Js.trim (text entry) = text entry
            /\ exists start stop,
                 offset entry = Js.Int start
                 /\ cduration entry = Js.Int (stop - start)
                 /\ 0 <= start <= 362439999 /\ 0 <= stop <= 362439999)
         (Vtt.parseVtt content).
Proof.
  unfold Vtt.parseVtt. induction (Js.split_blank content) as [|block rest IH];
    cbn [omap list_omap]; [constructor |].
  destruct (Vtt.parseBlock block) as [entry|] eqn:Hblock; [| exact IH].
  constructor; [| exact IH]. clear IH. unfold Vtt.parseBlock in Hblock.
  destruct (find _ _) as [line|]; [| discriminate].
  destruct (Vtt.match_line line) as [g|] eqn:Hg; [| discriminate].
  destruct (Js.nonempty _) eqn:Hne; [| discriminate].
  injection Hblock as <-. cbn [text offset cduration].
  destruct (match_line_millis _ _ Hg) as (a & b & -> & -> & Ha & Hb).
  split; [| split].
  - intros E. rewrite E in Hne. discriminate.
  - apply trim_idem.
  - exists a, b. cbn [Js.sub]. auto.
Qed.

(** ** The timing line of a block *)

(** A block read line by line: the first line with an arrow is the one
    the pattern is tried on. *)
Lemma parseBlock_lines (pre body : list string) (t : string) :
  Forall (fun line => Js.includes Vtt.nl line = false) (pre ++ t :: body) ->
  Forall (fun line => Js.includes "-->" line = false) pre ->
  Js.includes "-->" t = true ->
  Js.trim (Js.join Vtt.nl (pre ++ t :: body)) = Js.join Vtt.nl (pre ++ t :: body) ->
  Vtt.parseBlock (Js.join Vtt.nl (pre ++ t :: body)) =
  match Vtt.match_line t with
  | None => None
  | Some g =>
      let text := Js.trim (Js.strip_tags (Js.join " " body)) in
      if Js.nonempty text
      then Some {| text := text;
                   offset := Vtt.millis (Vtt.g1 g) (Vtt.g2 g) (Vtt.g3 g) (Vtt.g4 g);
                   cduration :=
                     Js.sub (Vtt.millis (Vtt.g5 g) (Vtt.g6 g) (Vtt.g7 g) (Vtt.g8 g))
                            (Vtt.millis (Vtt.g1 g) (Vtt.g2 g) (Vtt.g3 g) (Vtt.g4 g)) |}
      else None
  end.
Proof.
  intros Hplain Hpre Ht Htrim. unfold Vtt.parseBlock. rewrite Htrim.
  rewrite split_join; [| destruct pre; discriminate | exact Hplain].
  rewrite (find_timing _ _ _ Hpre Ht).
  destruct (Vtt.match_line t) as [g|]; [| reflexivity].
  rewrite (indexOf_timing _ _ _ Hpre Ht), slice_from_after. reflexivity.
Qed.

(** The line the pattern is tried on is the first line of the block that
    holds an arrow.  When the pattern does not match on that line the
    block gives no entry, whatever follows: a timing line further down in
    the same block is not looked for. *)
Theorem parseBlock_first_arrow_line (pre body : list string) (t : string) :
  Forall (fun line => Js.includes Vtt.nl line = false) (pre ++ t :: body) ->
  Forall (fun line => Js.includes "-->" line = false) pre ->
  Js.includes "-->" t = true ->
  Js.trim (Js.join Vtt.nl (pre ++ t :: body)) = Js.join Vtt.nl (pre ++ t :: body) ->
  Vtt.match_line t = None ->
  Vtt.parseBlock (Js.join Vtt.nl (pre ++ t :: body)) = None.
Proof.
  intros Hplain Hpre Ht Htrim Hno.
  rewrite (parseBlock_lines pre body t Hplain Hpre Ht Htrim), Hno. reflexivity.
Qed.

Lemma parseBlock_first_arrow_line_witness :
  Vtt.parseBlock
    (Js.join Vtt.nl
       (["NOTE"] ++ "see 1 --> 2" :: ["00:00:01.000 --> 00:00:02.500"; "Hello"])) = None
  /\ Vtt.match_line "00:00:01.000 --> 00:00:02.500" <> None.
Proof.
  split; [| discriminate].
  apply parseBlock_first_arrow_line.
  - repeat constructor.
  - repeat constructor.
  - reflexivity.
  - reflexivity.
  - reflexivity.
Defined.

Lemma trimStart_blank (ws s : string) :
  Js.trimStart ws = EmptyString -> Js.trimStart (ws +:+ s) = Js.trimStart s.
Proof.
  induction ws as [|c t IH]; intros H; [reflexivity |].
  change (String c t +:+ s) with (String c (t +:+ s)).
  cbn [Js.trimStart] in *. destruct (Js.is_space c); [exact (IH H) | discriminate].
Qed.

Lemma includes_app_r (sub a b : string) :
  Js.includes sub b = true -> Js.includes sub (a +:+ b) = true.
Proof.
  intros H. induction a as [|c t IH]; [exact H |].
  change (String c t +:+ b) with (String c (t +:+ b)). apply includes_later. exact IH.
Qed.

(** The timing line as the pattern reads it: the white space on either
    side of the arrow is optional and of any length, and what follows the
    end time on the line (the cue settings) is ignored.  A block with such
    a line gives the entry of the block with the plain timing line. *)
Theorem parseBlock_cue_settings (pre body : list string) (c1 c2 : VttSpec.Clock)
    (ws1 ws2 settings : string) :
  let t := VttSpec.clock_then c1
             (ws1 +:+ "-->" +:+ ws2 +:+ VttSpec.clock_then c2 settings) in
  VttSpec.in_range c1 -> VttSpec.in_range c2 ->
  Js.trimStart ws1 = EmptyString -> Js.trimStart ws2 = EmptyString ->
  Forall (fun line => Js.includes Vtt.nl line = false) (pre ++ t :: body) ->
  Forall (fun line => Js.includes "-->" line = false) pre ->
  Js.trim (Js.join Vtt.nl (pre ++ t :: body)) = Js.join Vtt.nl (pre ++ t :: body) ->
  Vtt.parseBlock (Js.join Vtt.nl (pre ++ t :: body)) =
  VttSpec.entry_of {| VttSpec.before := pre; VttSpec.cue := Some (c1, c2, body) |}.
Proof.
  intros t H1 H2 Hws1 Hws2 Hplain Hpre Htrim.
  assert (Harrow : Js.includes "-->" t = true).
  { unfold t, VttSpec.clock_then, VttSpec.three, VttSpec.two.
    do 12 apply includes_later. apply includes_app_r. reflexivity. }
  assert (Hhere : Vtt.match_here t = Some (groups_of c1 c2)).
  { unfold Vtt.match_here, t.
    rewrite (clock_clock_then c1 _ H1). cbn [mbind option_bind].
    rewrite (trimStart_blank ws1 _ Hws1).
    change ("-->" +:+ ws2 +:+ VttSpec.clock_then c2 settings)
      with (String "-" (String "-" (String ">" (ws2 +:+ VttSpec.clock_then c2 settings)))).
    change (Js.trimStart (String "-" (String "-" (String ">"
              (ws2 +:+ VttSpec.clock_then c2 settings)))))
      with (String "-" (String "-" (String ">" (ws2 +:+ VttSpec.clock_then c2 settings)))).
    change (Vtt.lit "-->" (String "-" (String "-" (String ">"
              (ws2 +:+ VttSpec.clock_then c2 settings)))))
      with (Some (ws2 +:+ VttSpec.clock_then c2 settings)).
    cbn [mbind option_bind].
    rewrite (trimStart_blank ws2 _ Hws2).
    rewrite (trimStart_clock_then c2 _ H2), (clock_clock_then c2 _ H2). reflexivity. }
  assert (Hline : Vtt.match_line t = Some (groups_of c1 c2)).
  { revert Hhere. generalize t. intros s Hs.
    destruct s; cbn [Vtt.match_line]; rewrite Hs; reflexivity. }
  rewrite (parseBlock_lines pre body t Hplain Hpre Harrow Htrim), Hline.
  cbn [Vtt.g1 Vtt.g2 Vtt.g3 Vtt.g4 Vtt.g5 Vtt.g6 Vtt.g7 Vtt.g8 groups_of].
  rewrite (millis_clock c1 H1), (millis_clock c2 H2). reflexivity.
Qed.

Lemma parseBlock_cue_settings_witness :
  Vtt.parseBlock
    (Js.join Vtt.nl
       ([] ++ "00:00:00.160-->   00:00:02.389 align:start position:0%" :: ["so <c>this</c> week"]))
  = Some {| text := "so this week"; offset := Js.Int 160; cduration := Js.Int 2229 |}.
Proof.
  apply (parseBlock_cue_settings [] ["so <c>this</c> week"]
           {| VttSpec.hours := 0; VttSpec.minutes := 0; VttSpec.seconds := 0;
              VttSpec.millis := 160 |}
           {| VttSpec.hours := 0; VttSpec.minutes := 0; VttSpec.seconds := 2;
              VttSpec.millis := 389 |}
           EmptyString "   " " align:start position:0%").
  - cbv; lia.
  - cbv; lia.
  - reflexivity.
  - reflexivity.
  - repeat constructor.
  - constructor.
  - reflexivity.
Defined.

(** ** A file without an arrow *)

Lemma startsWith_app (sub a b : string) :
  Js.startsWith sub a = true -> Js.startsWith sub (a +:+ b) = true.
Proof.
  revert a. induction sub as [|x sub' IH]; intros a H; [reflexivity |].
  destruct a as [|c t]; [discriminate |].
  change (String c t +:+ b) with (String c (t +:+ b)).
  cbn [Js.startsWith] in *. apply andb_true_iff in H. destruct H as [Hc Ht].
  rewrite Hc, (IH t Ht). reflexivity.
Qed.

Lemma includes_app_l (sub a b : string) :
  Js.includes sub a = true -> Js.includes sub (a +:+ b) = true.
Proof.
  induction a as [|c t IH]; intros H.
  - cbn [Js.includes] in H. rewrite orb_false_r in H.
    destruct sub; [| discriminate]. destruct b; reflexivity.
  - change (String c t +:+ b) with (String c (t +:+ b)).
    cbn [Js.includes] in *. apply orb_true_iff in H. destruct H as [H|H].
    + pose proof (startsWith_app _ (String c t) b H) as H'.
      change (String c t +:+ b) with (String c (t +:+ b)) in H'. rewrite H'. reflexivity.
    + rewrite (IH H). apply orb_true_r.
Qed.

Lemma trimStart_suffix (s : string) : exists pre, s = pre +:+ Js.trimStart s.
Proof.
  induction s as [|c t [pre IH]]; [exists EmptyString; reflexivity |].
  cbn [Js.trimStart]. destruct (Js.is_space c).
  - exists (String c pre). change (String c pre +:+ Js.trimStart t)
      with (String c (pre +:+ Js.trimStart t)). rewrite <- IH. reflexivity.
  - exists EmptyString. reflexivity.
Qed.

Lemma trimEnd_prefix (s : string) : exists post, s = Js.trimEnd s +:+ post.
Proof.
  induction s as [|c t [post IH]]; [exists EmptyString; reflexivity |].
  cbn [Js.trimEnd]. destruct (Js.is_space c && negb (Js.nonempty (Js.trimEnd t))).
  - exists (String c t). reflexivity.
  - exists post. change (String c (Js.trimEnd t) +:+ post)
      with (String c (Js.trimEnd t +:+ post)). rewrite <- IH. reflexivity.
Qed.

Lemma includes_trim (sub s : string) :
  Js.includes sub (Js.trim s) = true -> Js.includes sub s = true.
Proof.
  unfold Js.trim. intros H.
  destruct (trimStart_suffix s) as [pre Hs]. rewrite Hs. apply includes_app_r.
  destruct (trimEnd_prefix (Js.trimStart s)) as [post Hu]. rewrite Hu.
  apply includes_app_l. exact H.
Qed.

Lemma split_prefix (sep : ascii) (t : string) :
  exists x xs rest, Js.split sep t = x :: xs /\ t = x +:+ rest.
Proof.
  induction t as [|c t' (x & xs & rest & Hsplit & Ht)].
  - exists EmptyString, [], EmptyString. split; reflexivity.
  - cbn [Js.split]. destruct (Js.is_char sep c).
    + exists EmptyString, (Js.split sep t'), (String c t'). split; reflexivity.
    + rewrite Hsplit. exists (String c x), xs, rest. split; [reflexivity |].
      change (String c x +:+ rest) with (String c (x +:+ rest)). rewrite <- Ht. reflexivity.
Qed.

Lemma split_includes (sub : string) (sep : ascii) (t piece : string) :
  Js.includes sub EmptyString = false ->
  In piece (Js.split sep t) -> Js.includes sub piece = true -> Js.includes sub t = true.
Proof.
  intros Hsub. revert piece. induction t as [|c t' IH]; intros piece Hin Hpiece.
  - destruct Hin as [<-|[]]. congruence.
  - cbn [Js.split] in Hin. destruct (Js.is_char sep c).
    + destruct Hin as [<-|Hin]; [congruence |].
      apply includes_later. exact (IH piece Hin Hpiece).
    + destruct (split_prefix sep t') as (x & xs & rest & Hsplit & Ht).
      rewrite Hsplit in Hin, IH. cbn [Js.cons_head] in Hin. destruct Hin as [<-|Hin].
      * rewrite Ht. change (String c (x +:+ rest)) with (String c x +:+ rest).
        apply includes_app_l. exact Hpiece.
      * apply includes_later. apply (IH piece); [right; exact Hin | exact Hpiece].
Qed.

Lemma split_blank_prefix (t : string) :
  exists x xs rest, Js.split_blank_from false t = x :: xs /\ t = x +:+ rest.
Proof.
  induction t as [|c t' (x & xs & rest & Hsplit & Ht)].
  - exists EmptyString, [], EmptyString. split; reflexivity.
  - cbn [Js.split_blank_from].
    assert (Hcons : exists x0 xs0 rest0,
              Js.cons_head c (Js.split_blank_from false t') = x0 :: xs0 /\
              String c t' = x0 +:+ rest0).
    { rewrite Hsplit. exists (String c x), xs, rest. split; [reflexivity |].
      change (String c x +:+ rest) with (String c (x +:+ rest)). rewrite <- Ht.
      reflexivity. }
    destruct (Js.is_char Js.LF c); [| exact Hcons].
    destruct (Js.starts_with_LF t'); [| exact Hcons].
    exists EmptyString, (Js.split_blank_from true t'), (String c t'). split; reflexivity.
Qed.

Lemma split_blank_includes (sub : string) (t : string) (insep : bool) (piece : string) :
  Js.includes sub EmptyString = false ->
  In piece (Js.split_blank_from insep t) -> Js.includes sub piece = true ->
  Js.includes sub t = true.
Proof.
  intros Hsub. revert insep piece.
  induction t as [|c t' IH]; intros insep piece Hin Hpiece.
  - destruct Hin as [<-|[]]. congruence.
  - cbn [Js.split_blank_from] in Hin.
    assert (Hcons : In piece (Js.cons_head c (Js.split_blank_from false t')) ->
                    Js.includes sub (String c t') = true).
    { intros Hin'. destruct (split_blank_prefix t') as (x & xs & rest & Hsplit & Ht).
      pose proof (IH false) as IHf. rewrite Hsplit in Hin', IHf.
      cbn [Js.cons_head] in Hin'. destruct Hin' as [<-|Hin'].
      - rewrite Ht. change (String c (x +:+ rest)) with (String c x +:+ rest).
        apply includes_app_l. exact Hpiece.
      - apply includes_later. apply (IHf piece); [right; exact Hin' | exact Hpiece]. }
    destruct (Js.is_char Js.LF c); [| exact (Hcons Hin)].
    destruct insep.
    + apply includes_later. exact (IH true piece Hin Hpiece).
    + destruct (Js.starts_with_LF t'); [| exact (Hcons Hin)].
      destruct Hin as [<-|Hin]; [congruence |].
      apply includes_later. exact (IH true piece Hin Hpiece).
Qed.

Lemma find_none_forall {A} (f : A -> bool) (l : list A) :
  (forall x, In x l -> f x = false) -> List.find f l = None.
Proof.
  induction l as [|x rest IH]; intros H; [reflexivity |].
  cbn [find]. rewrite (H x) by (left; reflexivity).
  apply IH. intros y Hy. apply H. right. exact Hy.
Qed.

(** A file that holds no arrow gives no entry: a header alone, or text
    without timing lines, parses to the empty list, which the subtitle
    adapter takes for a missing file. *)
Theorem parseVtt_no_arrow (content : string) :
  Js.includes "-->" content = false -> Vtt.parseVtt content = [].
Proof.
  intros Hno. unfold Vtt.parseVtt, Js.split_blank.
  assert (Hblocks : forall block, In block (Js.split_blank_from false content) ->
                      Vtt.parseBlock block = None).
  { intros block Hin. unfold Vtt.parseBlock.
    rewrite find_none_forall; [reflexivity |].
    intros line Hline. destruct (Js.includes "-->" line) eqn:E; [| reflexivity].
    exfalso. assert (Hyes : Js.includes "-->" content = true); [| congruence].
    apply (split_blank_includes "-->" content false block eq_refl Hin).
    apply includes_trim.
    exact (split_includes "-->" Js.LF _ line eq_refl Hline E). }
  induction (Js.split_blank_from false content) as [|block rest IH]; [reflexivity |].
  cbn [omap list_omap]. rewrite (Hblocks block) by (left; reflexivity).
  apply IH. intros b Hb. apply Hblocks. right. exact Hb.
Qed.

Lemma parseVtt_no_arrow_witness :
  Vtt.parseVtt ("WEBVTT" +:+ Vtt.nl +:+ "Kind: captions" +:+ Vtt.nl +:+ Vtt.nl +:+
                "Language: en") = [].
Proof. apply parseVtt_no_arrow. reflexivity. Defined.

(** ** The records of the primary run *)

Section GrabRecords.

Variable w : World.
Variable pending : list VideoInfo.

(** Every record written is that of a pending video the resolver has
    captions for. *)
Lemma grab_resume_record_written (st : GrabCaptions.Run) (ev : nat * string) :
  (forall path c, In (WroteCaption path c) (GrabCaptions.writes st) ->
     path = caption_path (id (video c)) /\ In (video c) pending /\
     captions c <> [] /\ resolve w (video c) = Some (captions c)) ->
  (forall path c,
     In (WroteCaption path c) (GrabCaptions.writes (GrabCaptions.resume w pending st ev)) ->
     path = caption_path (id (video c)) /\ In (video c) pending /\
     captions c <> [] /\ resolve w (video c) = Some (captions c)).
Proof.
  intros IH path c.
  grab_resume_cases w pending st ev; auto;
    try (rewrite in_app_iff; intros [Hin|Hin]; auto).
  - destruct Hin as [E|[]]. injection E as <- <-. cbn [video captions].
    split; [reflexivity |]. split.
    + apply list_elem_of_In, list_elem_of_lookup. eauto.
    + split; [discriminate | exact Hcaptions].
  - destruct (Nat.eqb _ 0); [destruct Hin as [E|[]]; discriminate | destruct Hin].
  - destruct (Nat.eqb _ 0); [destruct Hin as [E|[]]; discriminate | destruct Hin].
Qed.

(** A unit that has captions from the resolver has its record on disk
    from then on, under the path of its id. *)
Lemma grab_resume_record_kept (st : GrabCaptions.Run) (ev : nat * string) :
  (forall j v, pending !! j = Some v -> resolve w v <> None -> grab_fetched st j ->
     exists c, captionFiles (GrabCaptions.disk st) !! caption_path (id v) = Some c /\
               id (video c) = id v /\ resolve w v = Some (captions c)) ->
  (forall j v, pending !! j = Some v -> resolve w v <> None ->
     grab_fetched (GrabCaptions.resume w pending st ev) j ->
     exists c,
       captionFiles (GrabCaptions.disk (GrabCaptions.resume w pending st ev)) !!
         caption_path (id v) = Some c /\
       id (video c) = id v /\ resolve w v = Some (captions c)).
Proof.
  intros IH j v Hj Hr Hf. destruct ev as [i now].
  pose proof (grab_resume_step w pending st i now) as Hstep.
  assert (Hold : grab_fetched st j ->
            exists c,
              captionFiles (GrabCaptions.disk (GrabCaptions.resume w pending st (i, now))) !!
                caption_path (id v) = Some c /\
              id (video c) = id v /\ resolve w v = Some (captions c)).
  { intros Hfj. destruct (IH j v Hj Hr Hfj) as (c & Hc & Hid & Hres). clear Hf Hstep.
    grab_resume_cases w pending st (i, now); eauto.
    destruct (decide (caption_path (id video0) = caption_path (id v))) as [E|Hne].
    - cbn [video]. rewrite E, lookup_insert_eq. eexists. split; [reflexivity |].
      cbn [video captions]. apply caption_path_inj in E. split; [exact E |].
      rewrite <- (resolve_by_id w video0 v E). exact Hcaptions.
    - rewrite lookup_insert_ne by assumption. eauto. }
  destruct (grab_fetched_step _ _ _ _ _ _ _ Hstep Hf) as [Hfj|[-> Hph]]; [auto |].
  clear Hold. revert Hf Hstep. generalize (GrabCaptions.resume w pending st (i, now)).
  intros st' Hf Hstep. grab_step_cases Hstep; try congruence.
  - unfold grab_fetched in Hf. rewrite Hph in Hf. contradiction.
  - same_item. rewrite lookup_insert_eq. eexists. split; [reflexivity |].
    cbn [video captions]. split; [reflexivity | exact Hcaptions].
  - same_item. contradiction.
Qed.

End GrabRecords.

(** Every record a primary run writes is the record of a listed video
    the resolver has captions for: it is written under the path of the id
    of that video, and it holds what the resolver returns for it, which is
    never empty.  This holds under every schedule. *)
Theorem grab_main_records (w : World) (d : Disk) (schedule : list (nat * string))
    (now : string) :
  Forall (fun written =>
            match written with
            | WroteCaption path c =>
                path = caption_path (id (video c))
                /\ In (video c) (GrabCaptions.allVideos w)
                /\ captions c <> []
                /\ resolve w (video c) = Some (captions c)
            | _ => True
            end)
         (written (GrabCaptions.main w d schedule now)).
Proof.
  apply Forall_forall. intros wr Hin. apply list_elem_of_In in Hin.
  destruct wr as [|path c|]; try exact I.
  destruct (loadProgress d) as [p|e] eqn:Hload.
  2:{ rewrite (grab_main_load_error w d schedule now e Hload) in Hin.
      cbn [written] in Hin. destruct Hin as [E|[]]. discriminate. }
  assert (Hcase : grab_pending w p = [] \/ grab_pending w p <> [])
    by (destruct (grab_pending w p); [left; reflexivity | right; discriminate]).
  destruct Hcase as [Hnil|Hne].
  { rewrite (grab_main_idle w d schedule now p Hload Hnil) in Hin.
    cbn [written] in Hin. destruct Hin as [E|[]]. discriminate. }
  rewrite (grab_main_run w d schedule now p Hload Hne) in Hin. cbn [written] in Hin.
  apply in_app_iff in Hin. destruct Hin as [Hin|[E|[]]]; [| discriminate].
  assert (H : path = caption_path (id (video c)) /\ In (video c) (grab_pending w p) /\
              captions c <> [] /\ resolve w (video c) = Some (captions c)).
  { revert path c Hin.
    apply (grab_pool_ind
      (fun st => forall path c, In (WroteCaption path c) (GrabCaptions.writes st) ->
         path = caption_path (id (video c)) /\ In (video c) (grab_pending w p) /\
         captions c <> [] /\ resolve w (video c) = Some (captions c))).
    - intros s ev IH. apply grab_resume_record_written. exact IH.
    - intros path c [E|[]]. discriminate. }
  destruct H as (H1 & H2 & H3 & H4). repeat split; auto.
  apply pending_iff in H2. apply H2.
Qed.

(** When a primary run ends, every id it has added to the done list has
    its record on disk, under the path of that id and with the captions
    the resolver returned; and every record the run has written is that of
    an id on the done list.  This holds under every schedule. *)
Theorem grab_main_done_recorded (w : World) (d : Disk) (schedule : list (nat * string))
    (now : string) (p p' : Progress) :
  loadProgress d = Ok p ->
  let o := GrabCaptions.main w d schedule now in
  ledger_of (final o) = Some p' ->
  (forall x, In x (processedVideos p') -> ~ In x (processedVideos p) ->
     exists c, captionFiles (final o) !! caption_path x = Some c
               /\ id (video c) = x
               /\ captions c <> []
               /\ resolve w (video c) = Some (captions c))
  /\ (forall path c, In (WroteCaption path c) (written o) ->
        In (id (video c)) (processedVideos p')).
Proof.
  intros Hload o Hfinal. subst o.
  assert (Hcase : grab_pending w p = [] \/ grab_pending w p <> [])
    by (destruct (grab_pending w p); [left; reflexivity | right; discriminate]).
  destruct Hcase as [Hnil|Hne].
  { rewrite (grab_main_idle w d schedule now p Hload Hnil) in *.
    cbn [final written] in *.
    assert (p' = p).
    { unfold ledger_of, loadProgress in *. destruct (progressFile d) as [[q|]|];
        congruence. }
    subst p'. split; [intros x Hx Hnx; contradiction |].
    intros path c [E|[]]. discriminate. }
  rewrite (grab_main_run w d schedule now p Hload Hne) in *.
  cbn [final written ledger_of progressFile captionFiles] in *.
  injection Hfinal as <-. cbn [stamp processedVideos].
  destruct (grab_pool_facts w d schedule now p (grab_pending w p))
    as (_ & _ & Hdone & Honly & _).
  set (st := GrabCaptions.pool w (grab_pending w p) schedule now
               (GrabCaptions.start p d (grab_pending w p))) in *.
  split.
  - intros x Hx Hnx. destruct (Honly x Hx) as [Hold|(v & Hv & <- & Hr)]; [contradiction |].
    apply list_elem_of_In, list_elem_of_lookup in Hv. destruct Hv as [j Hj].
    assert (Hfin : GrabCaptions.phases st !! j = Some GrabCaptions.Finished).
    { apply grab_pool_finished; [simpl; apply length_replicate |].
      eapply lookup_lt_Some; eauto. }
    assert (H : exists c, captionFiles (GrabCaptions.disk st) !! caption_path (id v) = Some c /\
                          id (video c) = id v /\ resolve w v = Some (captions c)).
    { refine (grab_pool_ind
        (fun st => forall j v, grab_pending w p !! j = Some v -> resolve w v <> None ->
                   grab_fetched st j ->
                   exists c, captionFiles (GrabCaptions.disk st) !! caption_path (id v) = Some c /\
                             id (video c) = id v /\ resolve w v = Some (captions c))
        w (grab_pending w p) _ schedule now _ _ j v Hj Hr _).
      - intros s ev IH. apply grab_resume_record_kept. exact IH.
      - intros k u _ _ H. destruct (grab_start_not_fetched _ _ _ _ H).
      - unfold grab_fetched. fold st. rewrite Hfin. exact I. }
    destruct H as (c & Hc & Hid & Hres). exists c. split; [exact Hc |].
    split; [exact Hid |]. split.
    + intros E. rewrite E in Hres. exact (resolve_nonempty w v Hres).
    + rewrite (resolve_by_id w (video c) v Hid). exact Hres.
  - intros path c Hin. apply in_app_iff in Hin. destruct Hin as [Hin|[E|[]]]; [| discriminate].
    assert (H : path = caption_path (id (video c)) /\ In (video c) (grab_pending w p) /\
                captions c <> [] /\ resolve w (video c) = Some (captions c)).
    { revert path c Hin.
      apply (grab_pool_ind
        (fun st => forall path c, In (WroteCaption path c) (GrabCaptions.writes st) ->
           path = caption_path (id (video c)) /\ In (video c) (grab_pending w p) /\
           captions c <> [] /\ resolve w (video c) = Some (captions c))).
      - intros s ev IH. apply grab_resume_record_written. exact IH.
      - intros path c [E|[]]. discriminate. }
    destruct H as (_ & H2 & H3 & H4). apply (Hdone (video c) H2). congruence.
Qed.

Lemma grab_main_done_recorded_witness :
  let o := GrabCaptions.main (Sample.captioned ["dQw4w9WgXcQ"]) Sample.empty_disk
             [(0%nat, "2025-01-01T00:00:00.000Z")] "2025-01-01T00:00:09.000Z" in
  exists c, captionFiles (final o) !! caption_path "dQw4w9WgXcQ" = Some c
            /\ id (video c) = "dQw4w9WgXcQ"
            /\ captions c <> [].
Proof.
  cbv zeta.
  destruct (grab_main_done_recorded (Sample.captioned ["dQw4w9WgXcQ"]) Sample.empty_disk
              [(0%nat, "2025-01-01T00:00:00.000Z")] "2025-01-01T00:00:09.000Z"
              fresh
              {| processedVideos := ["dQw4w9WgXcQ"]; failedVideos := [];
                 lastRun := "2025-01-01T00:00:09.000Z" |})
    as [Hrec _].
  - reflexivity.
  - vm_compute. reflexivity.
  - destruct (Hrec "dQw4w9WgXcQ") as (c & H1 & H2 & H3 & _).
    + left. reflexivity.
    + intros [].
    + exists c. auto.
Defined.

(** ** The failed list under the primary run *)

(** The primary run takes nothing off the failed list: the entries it
    loaded keep their places, new ones come after them.  So a video that
    failed in an earlier run and gets captions now is marked done and
    still listed as failed when the run ends. *)
Theorem grab_main_keeps_failed (w : World) (d : Disk) (schedule : list (nat * string))
    (now : string) (p p' : Progress) :
  loadProgress d = Ok p ->
  let o := GrabCaptions.main w d schedule now in
  ledger_of (final o) = Some p' ->
  (exists new, ids (failedVideos p') = ids (failedVideos p) ++ new)
  /\ (forall v, In v (grab_pending w p) -> resolve w v <> None ->
        In (id v) (ids (failedVideos p)) ->
        In (id v) (processedVideos p') /\ In (id v) (ids (failedVideos p'))).
Proof.
  intros Hload o Hfinal. subst o.
  assert (Hcase : grab_pending w p = [] \/ grab_pending w p <> [])
    by (destruct (grab_pending w p); [left; reflexivity | right; discriminate]).
  destruct Hcase as [Hnil|Hne].
  { rewrite (grab_main_idle w d schedule now p Hload Hnil) in *.
    cbn [final] in *.
    assert (p' = p).
    { unfold ledger_of, loadProgress in *. destruct (progressFile d) as [[q|]|];
        congruence. }
    subst p'. split; [exists []; rewrite app_nil_r; reflexivity |].
    intros v Hv. rewrite Hnil in Hv. destruct Hv. }
  rewrite (grab_main_run w d schedule now p Hload Hne) in *.
  cbn [final ledger_of progressFile] in *.
  injection Hfinal as <-. cbn [stamp processedVideos failedVideos].
  destruct (grab_pool_facts w d schedule now p (grab_pending w p))
    as (_ & (old & new & Hcur & Hold & _) & Hdone & _).
  assert (Hids : ids (failedVideos (GrabCaptions.progress
                   (GrabCaptions.pool w (grab_pending w p) schedule now
                      (GrabCaptions.start p d (grab_pending w p))))) =
                 ids (failedVideos p) ++ ids new).
  { rewrite Hcur. unfold ids. rewrite map_app. fold (ids old). rewrite Hold. reflexivity. }
  split; [exists (ids new); exact Hids |].
  intros v Hv Hr Hfailed. split; [exact (Hdone v Hv Hr) |].
  rewrite Hids. apply in_or_app. left. exact Hfailed.
Qed.

Lemma grab_main_keeps_failed_witness :
  let o := GrabCaptions.main (Sample.captioned ["dQw4w9WgXcQ"])
             (Sample.disk_of Sample.stale)
             [(0%nat, "2025-01-02T00:00:00.000Z")] "2025-01-02T00:00:09.000Z" in
  exists p', ledger_of (final o) = Some p'
             /\ In "dQw4w9WgXcQ" (processedVideos p')
             /\ In "dQw4w9WgXcQ" (ids (failedVideos p')).
Proof.
  cbv zeta.
  destruct (grab_main_keeps_failed (Sample.captioned ["dQw4w9WgXcQ"])
              (Sample.disk_of Sample.stale)
              [(0%nat, "2025-01-02T00:00:00.000Z")] "2025-01-02T00:00:09.000Z"
              Sample.stale
              {| processedVideos := ["dQw4w9WgXcQ"];
                 failedVideos := failedVideos Sample.stale;
                 lastRun := "2025-01-02T00:00:09.000Z" |})
    as [_ Hboth].
  - reflexivity.
  - vm_compute. reflexivity.
  - eexists. split; [vm_compute; reflexivity |].
    apply (Hboth (Sample.video "dQw4w9WgXcQ")).
    + left. reflexivity.
    + discriminate.
    + left. reflexivity.
Defined.

(** ** The done list under the primary run *)

Lemma grab_done_cons (w : World) (ph : GrabCaptions.Phase) (v : VideoInfo)
    (phases : list GrabCaptions.Phase) (pending : list VideoInfo) :
  grab_done w (ph :: phases) (v :: pending) =
  grab_done w [ph] [v] ++ grab_done w phases pending.
Proof. cbn [grab_done]. destruct ph; try reflexivity; destruct (resolvable w v); reflexivity. Qed.

Lemma grab_done_insert (w : World) (phases : list GrabCaptions.Phase)
    (pending : list VideoInfo) (i : nat) (ph ph' : GrabCaptions.Phase) (v : VideoInfo) :
  phases !! i = Some ph -> pending !! i = Some v ->
  grab_done w (<[i := ph']> phases) pending ++ grab_done w [ph] [v] ≡ₚ
  grab_done w phases pending ++ grab_done w [ph'] [v].
Proof.
  revert i pending. induction phases as [|q rest IH]; intros [|i] [|u us] Hp Hv;
    try discriminate.
  - injection Hp as ->. injection Hv as ->.
    change (<[0%nat := ph']> (ph :: rest)) with (ph' :: rest).
    rewrite (grab_done_cons w ph' v rest us), (grab_done_cons w ph v rest us).
    etransitivity; [apply Permutation_app_comm |].
    rewrite <- app_assoc. apply Permutation_app_head. apply Permutation_app_comm.
  - cbn [lookup list_lookup] in Hp, Hv. specialize (IH i us Hp Hv).
    change (<[S i := ph']> (q :: rest)) with (q :: <[i := ph']> rest).
    rewrite (grab_done_cons w q u (<[i := ph']> rest)), (grab_done_cons w q u rest).
    rewrite <- !app_assoc. apply Permutation_app_head. exact IH.
Qed.

Lemma grab_done_beyond (w : World) (phases : list GrabCaptions.Phase)
    (pending : list VideoInfo) (i : nat) (ph : GrabCaptions.Phase) :
  (length pending <= i)%nat ->
  grab_done w (<[i := ph]> phases) pending = grab_done w phases pending.
Proof.
  revert i pending. induction phases as [|q rest IH]; intros i pending Hlen;
    [reflexivity |].
  destruct pending as [|v vs]; [destruct i; reflexivity |].
  destruct i as [|i]; [simpl in Hlen; lia |].
  change (<[S i := ph]> (q :: rest)) with (q :: <[i := ph]> rest).
  rewrite (grab_done_cons w q v (<[i := ph]> rest) vs), (grab_done_cons w q v rest vs).
  rewrite (IH i vs) by (simpl in Hlen; lia). reflexivity.
Qed.

Lemma grab_done_all (w : World) (phases : list GrabCaptions.Phase)
    (pending : list VideoInfo) :
  length phases = length pending ->
  (forall j, (j < length pending)%nat -> phases !! j = Some GrabCaptions.Finished) ->
  grab_done w phases pending = map id (List.filter (resolvable w) pending).
Proof.
  revert pending. induction phases as [|ph rest IH]; intros [|v vs] Hlen Hfin;
    try discriminate; [reflexivity |].
  pose proof (Hfin 0%nat ltac:(simpl; lia)) as H0. injection H0 as ->.
  cbn [grab_done List.filter].
  rewrite (IH vs) by (simpl in Hlen; try lia; intros j Hj; apply (Hfin (S j)); simpl; lia).
  destruct (resolvable w v); reflexivity.
Qed.

Lemma grab_done_start (w : World) (pending : list VideoInfo) :
  grab_done w (replicate (length pending) GrabCaptions.AwaitFetch) pending = [].
Proof. induction pending as [|v vs IH]; [reflexivity | exact IH]. Qed.

Lemma grab_resume_done_perm (w : World) (pending : list VideoInfo)
    (loaded : list string) (st : GrabCaptions.Run) (ev : nat * string) :
  (forall i v, pending !! i = Some v ->
               GrabCaptions.phases st !! i = Some GrabCaptions.AwaitSaveCaptions ->
               resolve w v <> None) ->
  processedVideos (GrabCaptions.progress st) ≡ₚ
    loaded ++ grab_done w (GrabCaptions.phases st) pending ->
  processedVideos (GrabCaptions.progress (GrabCaptions.resume w pending st ev)) ≡ₚ
    loaded ++ grab_done w (GrabCaptions.phases (GrabCaptions.resume w pending st ev)) pending.
Proof.
  intros Hsaving IH. destruct ev as [i now].
  pose proof (grab_resume_step w pending st i now) as Hstep.
  revert Hstep. generalize (GrabCaptions.resume w pending st (i, now)).
  intros st' Hstep.
  destruct Hstep as [|u Hu Hph Hst Hf|u Hu Hph Hst Hf|u Hu Hph|Hph].
  - exact IH.
  - destruct (after_fetch_captions w now i u st Hf) as (entry & more & _ & ->).
    cbn [GrabCaptions.progress GrabCaptions.phases].
    pose proof (grab_done_insert w _ pending i _ GrabCaptions.AwaitSaveCaptions u Hph Hu) as H.
    cbn [grab_done] in H. rewrite !app_nil_r in H. rewrite H. exact IH.
  - autorewrite with grab. cbn [GrabCaptions.progress GrabCaptions.phases GrabCaptions.completed].
    assert (Hr : resolvable w u = false) by (unfold resolvable, resolve; rewrite Hf; reflexivity).
    match goal with |- context [<[i := ?ph']> _] =>
      pose proof (grab_done_insert w _ pending i _ ph' u Hph Hu) as H end.
    cbn [grab_done] in H. rewrite Hr in H.
    destruct (Nat.eqb _ 0); cbn [grab_done] in H; rewrite ?Hr, !app_nil_r in H;
      rewrite H; exact IH.
  - unfold GrabCaptions.after_save. autorewrite with grab.
    cbn [GrabCaptions.progress GrabCaptions.phases GrabCaptions.completed markDone
         processedVideos].
    assert (Hr : resolvable w u = true).
    { unfold resolvable. destruct (resolve w u) eqn:E; [reflexivity |].
      exfalso. exact (Hsaving i u Hu Hph E). }
    match goal with |- context [<[i := ?ph']> _] =>
      pose proof (grab_done_insert w _ pending i _ ph' u Hph Hu) as H end.
    cbn [grab_done] in H. rewrite app_nil_r in H.
    destruct (Nat.eqb _ 0); cbn [grab_done] in H; rewrite Hr in H;
      rewrite H, IH, app_assoc; reflexivity.
  - cbn [GrabCaptions.set_phase GrabCaptions.progress GrabCaptions.phases].
    destruct (pending !! i) as [u|] eqn:Hu.
    + pose proof (grab_done_insert w _ pending i _ GrabCaptions.Finished u Hph Hu) as H.
      cbn [grab_done] in H. apply Permutation_app_inv_r in H. rewrite H. exact IH.
    + rewrite grab_done_beyond by (apply lookup_ge_None; exact Hu). exact IH.
Qed.

(** When no id is pending twice, the done list a primary run leaves is
    the one it loaded with the id of each pending video the resolver has
    captions for added once: no id is lost, and none is added for a video
    without captions.  The ids are added as the units get to it, so the
    order is that of the schedule. *)
Theorem grab_main_done_list (w : World) (d : Disk) (schedule : list (nat * string))
    (now : string) (p p' : Progress) :
  loadProgress d = Ok p ->
  NoDup (map id (grab_pending w p)) ->
  ledger_of (final (GrabCaptions.main w d schedule now)) = Some p' ->
  processedVideos p' ≡ₚ
    processedVideos p ++ map id (List.filter (resolvable w) (grab_pending w p)).
Proof.
  intros Hload _ Hfinal.
  assert (Hcase : grab_pending w p = [] \/ grab_pending w p <> [])
    by (destruct (grab_pending w p); [left; reflexivity | right; discriminate]).
  destruct Hcase as [Hnil|Hne].
  { rewrite (grab_main_idle w d schedule now p Hload Hnil) in Hfinal.
    cbn [final] in Hfinal.
    assert (p' = p).
    { unfold ledger_of, loadProgress in *. destruct (progressFile d) as [[q|]|];
        congruence. }
    subst p'. rewrite Hnil. cbn [List.filter map]. rewrite app_nil_r. reflexivity. }
  rewrite (grab_main_run w d schedule now p Hload Hne) in Hfinal.
  cbn [final ledger_of progressFile] in Hfinal.
  injection Hfinal as <-. cbn [stamp processedVideos].
  set (pending := grab_pending w p) in *.
  set (st := GrabCaptions.pool w pending schedule now (GrabCaptions.start p d pending)).
  assert (Hlen : length (GrabCaptions.phases st) = length pending).
  { apply (grab_pool_ind (fun s => length (GrabCaptions.phases s) = length pending)).
    - intros s ev H. rewrite grab_resume_length. exact H.
    - simpl. apply length_replicate. }
  assert (Hfin : forall j, (j < length pending)%nat ->
                   GrabCaptions.phases st !! j = Some GrabCaptions.Finished).
  { intros j Hj. apply grab_pool_finished; [simpl; apply length_replicate | exact Hj]. }
  rewrite <- (grab_done_all w (GrabCaptions.phases st) pending Hlen Hfin).
  assert (H : (forall i v, pending !! i = Some v ->
                 GrabCaptions.phases st !! i = Some GrabCaptions.AwaitSaveCaptions ->
                 resolve w v <> None)
              /\ processedVideos (GrabCaptions.progress st) ≡ₚ
                   processedVideos p ++ grab_done w (GrabCaptions.phases st) pending).
  { apply (grab_pool_ind
      (fun s => (forall i v, pending !! i = Some v ->
                   GrabCaptions.phases s !! i = Some GrabCaptions.AwaitSaveCaptions ->
                   resolve w v <> None)
                /\ processedVideos (GrabCaptions.progress s) ≡ₚ
                     processedVideos p ++ grab_done w (GrabCaptions.phases s) pending)).
    - intros s ev [IH1 IH2]. split.
      + apply grab_resume_saving. exact IH1.
      + apply grab_resume_done_perm; assumption.
    - split.
      + intros i v _ H. simpl in H. apply lookup_replicate in H.
        destruct H as [H _]. discriminate.
      + cbn [GrabCaptions.start GrabCaptions.progress GrabCaptions.phases].
        rewrite grab_done_start, app_nil_r. reflexivity. }
  exact (proj2 H).
Qed.

Lemma grab_main_done_list_witness :
  let o := GrabCaptions.main (Sample.captioned ["dQw4w9WgXcQ"; "9bZkp7q19f0"])
             Sample.empty_disk
             [(1%nat, "2025-01-01T00:00:00.000Z"); (1%nat, "2025-01-01T00:00:01.000Z")]
             "2025-01-01T00:00:09.000Z" in
  NoDup (map id (grab_pending (Sample.captioned ["dQw4w9WgXcQ"; "9bZkp7q19f0"]) fresh))
  /\ exists p', ledger_of (final o) = Some p'
                /\ processedVideos p' ≡ₚ ["dQw4w9WgXcQ"; "9bZkp7q19f0"].
Proof.
  cbv zeta.
  assert (Hnodup : NoDup (map id (grab_pending
                            (Sample.captioned ["dQw4w9WgXcQ"; "9bZkp7q19f0"]) fresh))).
  { apply (bool_decide_unpack _). vm_compute. exact I. }
  split; [exact Hnodup |].
  eexists. split; [vm_compute; reflexivity |].
  exact (grab_main_done_list (Sample.captioned ["dQw4w9WgXcQ"; "9bZkp7q19f0"])
           Sample.empty_disk
           [(1%nat, "2025-01-01T00:00:00.000Z"); (1%nat, "2025-01-01T00:00:01.000Z")]
           "2025-01-01T00:00:09.000Z" fresh _ eq_refl Hnodup eq_refl).
Defined.

(** ** The ledger under the enrichment run *)

Lemma attempt_outcome (w : World) (now x : string) :
  match TranscribeFallback.attempt w now x with
  | (_, _, Some c) => transcribable w x = true /\ id (video c) = x /\ captions c <> []
  | (_, _, None) => transcribable w x = false
  end.
Proof.
  unfold transcribable, TranscribeFallback.attempt, TranscribeFallback.getVideoInfo.
  destruct (ytdlpVideoInfo w x) as [data|e]; [| reflexivity].
  destruct (TranscribeFallback.downloadAudio w x) as [errs' [audio|]]; [| reflexivity].
  cbn [title].
  destruct (TranscribeFallback.transcribeWithGroq w audio _) as [[|entry more]|e];
    try reflexivity.
  split; [reflexivity |]. split; [reflexivity | discriminate].
Qed.

Lemma transcribe_moved_cons (w : World) (ph : TranscribeFallback.Phase) (e : FailedVideo)
    (phases : list TranscribeFallback.Phase) (entries : list FailedVideo) :
  transcribe_moved w (ph :: phases) (e :: entries) =
  transcribe_moved w [ph] [e] ++ transcribe_moved w phases entries.
Proof.
  cbn [transcribe_moved].
  destruct ph; try reflexivity; destruct (transcribable w (fid e)); reflexivity.
Qed.

Lemma transcribe_moved_insert (w : World) (phases : list TranscribeFallback.Phase)
    (entries : list FailedVideo) (i : nat) (ph ph' : TranscribeFallback.Phase)
    (e : FailedVideo) :
  phases !! i = Some ph -> entries !! i = Some e ->
  transcribe_moved w (<[i := ph']> phases) entries ++ transcribe_moved w [ph] [e] ≡ₚ
  transcribe_moved w phases entries ++ transcribe_moved w [ph'] [e].
Proof.
  revert i entries. induction phases as [|q rest IH]; intros [|i] [|u us] Hp Hv;
    try discriminate.
  - injection Hp as ->. injection Hv as ->.
    change (<[0%nat := ph']> (ph :: rest)) with (ph' :: rest).
    rewrite (transcribe_moved_cons w ph' e rest us), (transcribe_moved_cons w ph e rest us).
    etransitivity; [apply Permutation_app_comm |].
    rewrite <- app_assoc. apply Permutation_app_head. apply Permutation_app_comm.
  - cbn [lookup list_lookup] in Hp, Hv. specialize (IH i us Hp Hv).
    change (<[S i := ph']> (q :: rest)) with (q :: <[i := ph']> rest).
    rewrite (transcribe_moved_cons w q u (<[i := ph']> rest)),
      (transcribe_moved_cons w q u rest).
    rewrite <- !app_assoc. apply Permutation_app_head. exact IH.
Qed.

Lemma transcribe_moved_beyond (w : World) (phases : list TranscribeFallback.Phase)
    (entries : list FailedVideo) (i : nat) (ph : TranscribeFallback.Phase) :
  (length entries <= i)%nat ->
  transcribe_moved w (<[i := ph]> phases) entries = transcribe_moved w phases entries.
Proof.
  revert i entries. induction phases as [|q rest IH]; intros i entries Hlen;
    [reflexivity |].
  destruct entries as [|v vs]; [destruct i; reflexivity |].
  destruct i as [|i]; [simpl in Hlen; lia |].
  change (<[S i := ph]> (q :: rest)) with (q :: <[i := ph]> rest).
  rewrite (transcribe_moved_cons w q v (<[i := ph]> rest) vs),
    (transcribe_moved_cons w q v rest vs).
  rewrite (IH i vs) by (simpl in Hlen; lia). reflexivity.
Qed.

Lemma transcribe_moved_all (w : World) (phases : list TranscribeFallback.Phase)
    (entries : list FailedVideo) :
  length phases = length entries ->
  (forall j, (j < length entries)%nat -> phases !! j = Some TranscribeFallback.Finished) ->
  transcribe_moved w phases entries = List.filter (transcribable w) (ids entries).
Proof.
  revert entries. induction phases as [|ph rest IH]; intros [|v vs] Hlen Hfin;
    try discriminate; [reflexivity |].
  pose proof (Hfin 0%nat ltac:(simpl; lia)) as H0. injection H0 as ->.
  cbn [transcribe_moved ids map List.filter].
  rewrite (IH vs) by (simpl in Hlen; try lia; intros j Hj; apply (Hfin (S j)); simpl; lia).
  destruct (transcribable w (fid v)); reflexivity.
Qed.

Lemma transcribe_moved_start (w : World) (entries : list FailedVideo) :
  transcribe_moved w (replicate (length entries) TranscribeFallback.AwaitTranscript)
    entries = [].
Proof. induction entries as [|v vs IH]; [reflexivity | exact IH]. Qed.

Lemma existsb_perm {A} (f : A -> bool) (l l' : list A) :
  l ≡ₚ l' -> existsb f l = existsb f l'.
Proof.
  induction 1 as [|x l l' _ IH|x y l|l l' l'' _ IH1 _ IH2]; simpl.
  - reflexivity.
  - rewrite IH. reflexivity.
  - destruct (f x), (f y); reflexivity.
  - congruence.
Qed.

(** The failed list without the entries of the ids in [moved]. *)
Lemma filter_moved_perm (moved moved' : list string) (l : list FailedVideo) :
  moved ≡ₚ moved' ->
  List.filter (fun f => negb (existsb (String.eqb (fid f)) moved)) l =
  List.filter (fun f => negb (existsb (String.eqb (fid f)) moved')) l.
Proof.
  intros H. apply filter_ext. intros f. rewrite (existsb_perm _ _ _ H). reflexivity.
Qed.

Lemma filter_moved_more (x : string) (moved : list string) (l : list FailedVideo) :
  List.filter (fun f => negb (has_id x f))
    (List.filter (fun f => negb (existsb (String.eqb (fid f)) moved)) l) =
  List.filter (fun f => negb (existsb (String.eqb (fid f)) (moved ++ [x]))) l.
Proof.
  induction l as [|f rest IH]; [reflexivity |].
  cbn [List.filter]. rewrite existsb_app. cbn [existsb]. rewrite orb_false_r.
  destruct (existsb (String.eqb (fid f)) moved); cbn [negb orb List.filter].
  - exact IH.
  - unfold has_id at 1. destruct (String.eqb (fid f) x); cbn [negb]; rewrite IH; reflexivity.
Qed.

Lemma transcribe_moved_step (w : World) (phases : list TranscribeFallback.Phase)
    (entries : list FailedVideo) (i : nat) (ph ph' : TranscribeFallback.Phase)
    (e : FailedVideo) :
  phases !! i = Some ph -> entries !! i = Some e ->
  transcribe_moved w [ph] [e] = transcribe_moved w [ph'] [e] ->
  transcribe_moved w (<[i := ph']> phases) entries ≡ₚ transcribe_moved w phases entries.
Proof.
  intros Hph He Hsame. pose proof (transcribe_moved_insert w _ _ i _ ph' _ Hph He) as H.
  rewrite Hsame in H. apply Permutation_app_inv_r in H. exact H.
Qed.

Lemma transcribe_moved_gain (w : World) (phases : list TranscribeFallback.Phase)
    (entries : list FailedVideo) (i : nat) (ph ph' : TranscribeFallback.Phase)
    (e : FailedVideo) :
  phases !! i = Some ph -> entries !! i = Some e ->
  transcribe_moved w [ph] [e] = [] ->
  transcribe_moved w [ph'] [e] = [fid e] ->
  transcribe_moved w (<[i := ph']> phases) entries ≡ₚ
  transcribe_moved w phases entries ++ [fid e].
Proof.
  intros Hph He Hnone Hone. pose proof (transcribe_moved_insert w _ _ i _ ph' _ Hph He) as H.
  rewrite Hnone, Hone, app_nil_r in H. exact H.
Qed.

Lemma transcribe_resume_ledger (w : World) (entries : list FailedVideo)
    (done : list string) (failures : list FailedVideo)
    (st : TranscribeFallback.Run) (ev : nat * string) :
  let inv s :=
    (forall i e, entries !! i = Some e ->
       TranscribeFallback.phases s !! i = Some TranscribeFallback.AwaitSaveCaptions ->
       transcribable w (fid e) = true)
    /\ processedVideos (TranscribeFallback.progress s) ≡ₚ
         done ++ transcribe_moved w (TranscribeFallback.phases s) entries
    /\ failedVideos (TranscribeFallback.progress s) =
         List.filter
           (fun f => negb (existsb (String.eqb (fid f))
                             (transcribe_moved w (TranscribeFallback.phases s) entries)))
           failures in
  inv st -> inv (TranscribeFallback.resume w entries st ev).
Proof.
  intros inv (Hsaving & Hdone & Hfailed). subst inv. cbv beta. destruct ev as [i now].
  assert (Hother : forall (ph' : TranscribeFallback.Phase) j e,
            ph' <> TranscribeFallback.AwaitSaveCaptions ->
            entries !! j = Some e ->
            <[i := ph']> (TranscribeFallback.phases st) !! j =
              Some TranscribeFallback.AwaitSaveCaptions ->
            transcribable w (fid e) = true).
  { intros ph' j e Hne He Hj. destruct (decide (i = j)) as [->|Hij].
    - destruct (TranscribeFallback.phases st !! j) eqn:E.
      + rewrite (lookup_insert_same _ _ _ _ E) in Hj. congruence.
      + apply lookup_ge_None in E.
        rewrite lookup_ge_None_2 in Hj by (rewrite length_insert; exact E). discriminate.
    - rewrite list_lookup_insert_ne in Hj by assumption. eauto. }
  assert (Hkeep : forall ph ph' e,
            TranscribeFallback.phases st !! i = Some ph -> entries !! i = Some e ->
            transcribe_moved w [ph] [e] = transcribe_moved w [ph'] [e] ->
            processedVideos (TranscribeFallback.progress st) ≡ₚ
              done ++ transcribe_moved w (<[i := ph']> (TranscribeFallback.phases st)) entries
            /\ failedVideos (TranscribeFallback.progress st) =
               List.filter
                 (fun f => negb (existsb (String.eqb (fid f))
                    (transcribe_moved w (<[i := ph']> (TranscribeFallback.phases st)) entries)))
                 failures).
  { intros ph ph' e Hp He Hsame.
    pose proof (transcribe_moved_step w _ _ i ph ph' e Hp He Hsame) as Hperm. split.
    - rewrite Hperm. exact Hdone.
    - rewrite Hfailed. apply filter_moved_perm. symmetry. exact Hperm. }
  transcribe_resume_cases w entries st i now; auto.
  - pose proof (attempt_outcome w now (fid item)) as Hout. rewrite Hattempt in Hout.
    destruct Hout as (Hyes & _). split.
    + intros j e He Hj. destruct (decide (i = j)) as [->|Hij].
      * rewrite Hv in He. injection He as <-. exact Hyes.
      * rewrite list_lookup_insert_ne in Hj by assumption. eauto.
    + apply (Hkeep _ _ item eq_refl eq_refl). reflexivity.
  - pose proof (attempt_outcome w now (fid item)) as Hout. rewrite Hattempt in Hout.
    split.
    + intros j e. apply Hother. destruct (Nat.eqb _ 0); discriminate.
    + apply (Hkeep _ _ item eq_refl eq_refl). cbn [transcribe_moved].
      destruct (Nat.eqb _ 0); rewrite Hout; reflexivity.
  - pose proof (Hsaving i item Hv Hph) as Hyes.
    assert (Hperm : transcribe_moved w
                      (<[i := TranscribeFallback.AwaitCleanup]> (TranscribeFallback.phases st))
                      entries ≡ₚ
                    transcribe_moved w (TranscribeFallback.phases st) entries ++ [fid item]).
    { apply (transcribe_moved_gain w _ _ i _ _ item Hph Hv); cbn [transcribe_moved];
        [reflexivity | rewrite Hyes; reflexivity]. }
    split; [intros j e; apply Hother; discriminate |].
    cbn [markTranscribed processedVideos failedVideos]. split.
    + rewrite Hperm, Hdone, app_assoc. reflexivity.
    + rewrite Hfailed, filter_moved_more. apply filter_moved_perm. symmetry. exact Hperm.
  - split.
    + intros j e. apply Hother. destruct (Nat.eqb _ 0); discriminate.
    + apply (Hkeep _ _ item eq_refl eq_refl). cbn [transcribe_moved].
      destruct (Nat.eqb _ 0); reflexivity.
  - split; [intros j e; apply Hother; discriminate |].
    apply (Hkeep _ _ item eq_refl eq_refl). reflexivity.
Qed.

Lemma transcribe_pool_ledger (w : World) (d : Disk) (schedule : list (nat * string))
    (now : string) (p : Progress) (entries : list FailedVideo) :
  let st := TranscribeFallback.pool w entries schedule now
              (TranscribeFallback.start p d entries) in
  processedVideos (TranscribeFallback.progress st) ≡ₚ
    processedVideos p ++ List.filter (transcribable w) (ids entries)
  /\ failedVideos (TranscribeFallback.progress st) =
       List.filter
         (fun f => negb (existsb (String.eqb (fid f))
                           (List.filter (transcribable w) (ids entries))))
         (failedVideos p).
Proof.
  intros st.
  assert (Hlen : length (TranscribeFallback.phases st) = length entries).
  { apply (transcribe_pool_ind
             (fun s => length (TranscribeFallback.phases s) = length entries)).
    - intros s ev H. rewrite transcribe_resume_length. exact H.
    - simpl. apply length_replicate. }
  assert (Hfin : forall j, (j < length entries)%nat ->
                   TranscribeFallback.phases st !! j = Some TranscribeFallback.Finished).
  { intros j Hj. apply transcribe_pool_finished; [| exact Hj].
    simpl. apply length_replicate. }
  rewrite <- (transcribe_moved_all w (TranscribeFallback.phases st) entries Hlen Hfin).
  apply (transcribe_pool_ind
    (fun s =>
       (forall i e, entries !! i = Some e ->
          TranscribeFallback.phases s !! i = Some TranscribeFallback.AwaitSaveCaptions ->
          transcribable w (fid e) = true)
       /\ processedVideos (TranscribeFallback.progress s) ≡ₚ
            processedVideos p ++ transcribe_moved w (TranscribeFallback.phases s) entries
       /\ failedVideos (TranscribeFallback.progress s) =
            List.filter
              (fun f => negb (existsb (String.eqb (fid f))
                                (transcribe_moved w (TranscribeFallback.phases s) entries)))
              (failedVideos p))).
  - intros s ev. apply transcribe_resume_ledger.
  - cbn [TranscribeFallback.start TranscribeFallback.progress TranscribeFallback.phases].
    rewrite transcribe_moved_start. split; [| split].
    + intros i e _ H. apply lookup_replicate in H. destruct H as [H _]. discriminate.
    + rewrite app_nil_r. reflexivity.
    + cbn [existsb negb]. induction (failedVideos p) as [|f rest IH]; [reflexivity |].
      cbn [List.filter]. rewrite <- IH. reflexivity.
Qed.

(** The failed list an enrichment run leaves is the one it loaded
    without the entries of the ids it has transcribed: the entries of an
    id that [processVideo] succeeds on go, all of them and wherever they
    stand in the list, when that id is among the entries retried; every
    other entry stays as it was, in its place.  No entry is added and
    none is changed, under every schedule. *)
Theorem transcribe_main_failed_list (w : World) (d : Disk) (args : list string)
    (schedule : list (nat * string)) (now : string) (p p' : Progress) :
  loadProgress d = Ok p ->
  ledger_of (final (TranscribeFallback.main w d args schedule now)) = Some p' ->
  failedVideos p' =
    List.filter
      (fun f => negb (existsb (String.eqb (fid f))
                        (List.filter (transcribable w)
                           (ids (TranscribeFallback.toProcess args p)))))
      (failedVideos p).
Proof.
  intros Hload Hfinal.
  assert (Hcase : failedVideos p = [] \/ failedVideos p <> [])
    by (destruct (failedVideos p); [left; reflexivity | right; discriminate]).
  destruct Hcase as [Hnil|Hne].
  { rewrite (transcribe_main_idle w d args schedule now p Hload Hnil) in Hfinal.
    cbn [final] in Hfinal.
    assert (p' = p).
    { unfold ledger_of, loadProgress in *. destruct (progressFile d) as [[q|]|];
        congruence. }
    subst p'. rewrite Hnil. reflexivity. }
  rewrite (transcribe_main_run w d args schedule now p Hload Hne) in Hfinal.
  cbn [final ledger_of progressFile] in Hfinal. injection Hfinal as <-.
  cbn [stamp failedVideos].
  apply (transcribe_pool_ledger w d schedule now p (TranscribeFallback.toProcess args p)).
Qed.

(** When no id is retried twice, the done list an enrichment run leaves
    is the one it loaded with the id of each retried entry that
    [processVideo] succeeds on added once, in the order the units get to
    it. *)
Theorem transcribe_main_done_list (w : World) (d : Disk) (args : list string)
    (schedule : list (nat * string)) (now : string) (p p' : Progress) :
  loadProgress d = Ok p ->
  NoDup (ids (TranscribeFallback.toProcess args p)) ->
  ledger_of (final (TranscribeFallback.main w d args schedule now)) = Some p' ->
  processedVideos p' ≡ₚ
    processedVideos p ++
    List.filter (transcribable w) (ids (TranscribeFallback.toProcess args p)).
Proof.
  intros Hload _ Hfinal.
  assert (Hcase : failedVideos p = [] \/ failedVideos p <> [])
    by (destruct (failedVideos p); [left; reflexivity | right; discriminate]).
  destruct Hcase as [Hnil|Hne].
  { rewrite (transcribe_main_idle w d args schedule now p Hload Hnil) in Hfinal.
    cbn [final] in Hfinal.
    assert (p' = p).
    { unfold ledger_of, loadProgress in *. destruct (progressFile d) as [[q|]|];
        congruence. }
    subst p'. unfold TranscribeFallback.toProcess, Js.slice. rewrite Hnil.
    rewrite drop_nil, take_nil. cbn [ids map List.filter]. rewrite app_nil_r. reflexivity. }
  rewrite (transcribe_main_run w d args schedule now p Hload Hne) in Hfinal.
  cbn [final ledger_of progressFile] in Hfinal. injection Hfinal as <-.
  cbn [stamp processedVideos].
  apply (transcribe_pool_ledger w d schedule now p (TranscribeFallback.toProcess args p)).
Qed.

Lemma transcribe_main_failed_list_witness :
  let o := TranscribeFallback.main (Sample.heard ["9bZkp7q19f0"])
             (Sample.disk_of Sample.backlog) ["--limit"; "2"]
             [(1%nat, "2025-02-02T00:00:00.000Z")] "2025-02-02T00:00:09.000Z" in
  let p' := {| processedVideos := ["9bZkp7q19f0"];
               failedVideos := [Sample.failure "dQw4w9WgXcQ" "2025-01-01T00:00:00.000Z";
                                Sample.failure "kJQP7kiw5Fk" "2025-01-01T00:00:02.000Z"];
               lastRun := "2025-02-02T00:00:09.000Z" |} in
  ledger_of (final o) = Some p'
  /\ failedVideos p' =
     List.filter
       (fun f => negb (existsb (String.eqb (fid f))
                         (List.filter (transcribable (Sample.heard ["9bZkp7q19f0"]))
                            (ids (TranscribeFallback.toProcess ["--limit"; "2"]
                                    Sample.backlog)))))
       (failedVideos Sample.backlog).
Proof.
  cbv zeta.
  assert (Hfinal : ledger_of (final (TranscribeFallback.main (Sample.heard ["9bZkp7q19f0"])
             (Sample.disk_of Sample.backlog) ["--limit"; "2"]
             [(1%nat, "2025-02-02T00:00:00.000Z")] "2025-02-02T00:00:09.000Z")) =
           Some {| processedVideos := ["9bZkp7q19f0"];
               failedVideos := [Sample.failure "dQw4w9WgXcQ" "2025-01-01T00:00:00.000Z";
                                Sample.failure "kJQP7kiw5Fk" "2025-01-01T00:00:02.000Z"];
               lastRun := "2025-02-02T00:00:09.000Z" |})
    by (vm_compute; reflexivity).
  split; [exact Hfinal |].
  exact (transcribe_main_failed_list (Sample.heard ["9bZkp7q19f0"])
           (Sample.disk_of Sample.backlog) ["--limit"; "2"]
           [(1%nat, "2025-02-02T00:00:00.000Z")] "2025-02-02T00:00:09.000Z"
           Sample.backlog _ eq_refl Hfinal).
Defined.

Lemma transcribe_main_done_list_witness :
  let o := TranscribeFallback.main (Sample.heard ["9bZkp7q19f0"])
             (Sample.disk_of Sample.backlog) ["--limit"; "2"]
             [(0%nat, "2025-02-02T00:00:00.000Z")] "2025-02-02T00:00:09.000Z" in
  let p' := {| processedVideos := ["9bZkp7q19f0"];
               failedVideos := [Sample.failure "dQw4w9WgXcQ" "2025-01-01T00:00:00.000Z";
                                Sample.failure "kJQP7kiw5Fk" "2025-01-01T00:00:02.000Z"];
               lastRun := "2025-02-02T00:00:09.000Z" |} in
  NoDup (ids (TranscribeFallback.toProcess ["--limit"; "2"] Sample.backlog))
  /\ ledger_of (final o) = Some p'
  /\ processedVideos p' ≡ₚ
     processedVideos Sample.backlog ++
     List.filter (transcribable (Sample.heard ["9bZkp7q19f0"]))
       (ids (TranscribeFallback.toProcess ["--limit"; "2"] Sample.backlog)).
Proof.
  cbv zeta.
  assert (Hnodup : NoDup (ids (TranscribeFallback.toProcess ["--limit"; "2"]
                                 Sample.backlog))).
  { apply (bool_decide_unpack _). vm_compute. exact I. }
  split; [exact Hnodup |].
  assert (Hfinal : ledger_of (final (TranscribeFallback.main (Sample.heard ["9bZkp7q19f0"])
             (Sample.disk_of Sample.backlog) ["--limit"; "2"]
             [(0%nat, "2025-02-02T00:00:00.000Z")] "2025-02-02T00:00:09.000Z")) =
           Some {| processedVideos := ["9bZkp7q19f0"];
               failedVideos := [Sample.failure "dQw4w9WgXcQ" "2025-01-01T00:00:00.000Z";
                                Sample.failure "kJQP7kiw5Fk" "2025-01-01T00:00:02.000Z"];
               lastRun := "2025-02-02T00:00:09.000Z" |})
    by (vm_compute; reflexivity).
  split; [exact Hfinal |].
  exact (transcribe_main_done_list (Sample.heard ["9bZkp7q19f0"])
           (Sample.disk_of Sample.backlog) ["--limit"; "2"]
           [(0%nat, "2025-02-02T00:00:00.000Z")] "2025-02-02T00:00:09.000Z"
           Sample.backlog _ eq_refl Hnodup Hfinal).
Defined.

(** ** The records of the enrichment run *)

Lemma count_and_save_records (now : string) (i : nat) (ok : bool)
    (st : TranscribeFallback.Run) :
  captionFiles (TranscribeFallback.disk (TranscribeFallback.count_and_save now i ok st)) =
  captionFiles (TranscribeFallback.disk st).
Proof. unfold TranscribeFallback.count_and_save. destruct (Nat.eqb _ 0); reflexivity. Qed.

Lemma attempt_events (w : World) (now x : string) (a : Adapter) (y : string) :
  In (Invoke a y) (fst (fst (TranscribeFallback.attempt w now x))) ->
  a = SpeechToText /\ y = x.
Proof.
  unfold TranscribeFallback.attempt.
  destruct (TranscribeFallback.getVideoInfo w x) as [errs [info|]].
  2:{ intros [E|[]]. discriminate. }
  destruct (TranscribeFallback.downloadAudio w x) as [errs' [audio|]].
  2:{ intros [E|[]]. discriminate. }
  destruct (TranscribeFallback.transcribeWithGroq w audio (title info)) as [[|e m]|e];
    cbn [fst]; intros [E|[E|H]]; try discriminate;
    try (injection E as <- <-; auto);
    try (destruct H as [E|[]]; discriminate); try destruct H.
Qed.

Lemma transcribe_resume_recorded (w : World) (entries : list FailedVideo)
    (st : TranscribeFallback.Run) (ev : nat * string) :
  let inv s :=
    (forall j e, entries !! j = Some e -> transcribable w (fid e) = true ->
       transcribe_entered_at s j ->
       exists c, captionFiles (TranscribeFallback.disk s) !! caption_path (fid e) = Some c
                 /\ id (video c) = fid e /\ captions c <> [])
    /\ (forall path c, In (WroteCaption path c) (TranscribeFallback.writes s) ->
          path = caption_path (id (video c)) /\ captions c <> []
          /\ transcribable w (id (video c)) = true
          /\ In (id (video c)) (ids entries))
    /\ (forall a x, In (Invoke a x) (TranscribeFallback.events s) ->
          a = SpeechToText /\ In x (ids entries)) in
  inv st -> inv (TranscribeFallback.resume w entries st ev).
Proof.
  intros inv (Hrec & Hwr & Hev). subst inv. cbv beta. destruct ev as [i now].
  assert (Hids : forall e, entries !! i = Some e -> In (fid e) (ids entries)).
  { intros e He. unfold ids. apply in_map. apply list_elem_of_In, list_elem_of_lookup. eauto. }
  assert (Hentered : forall (ph ph' : TranscribeFallback.Phase) j,
            TranscribeFallback.phases st !! i = Some ph ->
            (exists q, <[i := ph']> (TranscribeFallback.phases st) !! j = Some q
                       /\ q <> TranscribeFallback.AwaitTranscript) ->
            transcribe_entered_at st j \/ (j = i /\ ph = TranscribeFallback.AwaitTranscript)).
  { unfold transcribe_entered_at.
    intros ph ph' j Hp (q & Hq & Hne). destruct (decide (i = j)) as [->|Hij].
    - destruct ph; [right; auto | left; eexists; split; [exact Hp | discriminate] ..].
    - rewrite list_lookup_insert_ne in Hq by assumption. left. exists q. auto. }
  unfold transcribe_entered_at in *.
  transcribe_resume_cases w entries st i now; auto.
  all: rewrite ?count_and_save_records.
  - pose proof (attempt_outcome w now (fid item)) as Hout. rewrite Hattempt in Hout.
    destruct Hout as (Hyes & Hid & Hne).
    pose proof (attempt_events w now (fid item)) as Hinv. rewrite Hattempt in Hinv.
    cbn [fst] in Hinv. split; [| split].
    + intros j e He Ht Hj. rewrite Hid.
      destruct (decide (caption_path (fid item) = caption_path (fid e))) as [E|Hd].
      * rewrite E, lookup_insert_eq. exists captionData.
        apply caption_path_inj in E. rewrite <- E. auto.
      * rewrite lookup_insert_ne by assumption.
        destruct (Hentered _ _ j eq_refl Hj) as [Hold|[-> _]]; [eauto |].
        rewrite Hv in He. injection He as <-. contradiction.
    + intros path c Hin. apply in_app_iff in Hin. destruct Hin as [Hin|[E|[]]]; [auto |].
      injection E as <- <-. rewrite Hid. auto.
    + intros a x Hin. apply in_app_iff in Hin. destruct Hin as [Hin|Hin]; [auto |].
      destruct (Hinv a x Hin) as [-> ->]. auto.
  - pose proof (attempt_outcome w now (fid item)) as Hout. rewrite Hattempt in Hout.
    pose proof (attempt_events w now (fid item)) as Hinv. rewrite Hattempt in Hinv.
    cbn [fst] in Hinv. split; [| split].
    + intros j e He Ht Hj.
      destruct (Hentered _ _ j eq_refl Hj) as [Hold|[-> _]]; [eauto |].
      rewrite Hv in He. injection He as <-. congruence.
    + intros path c Hin. apply in_app_iff in Hin. destruct Hin as [Hin|Hin]; [auto |].
      destruct (Nat.eqb _ 0); [destruct Hin as [E|[]]; discriminate | destruct Hin].
    + intros a x Hin. apply in_app_iff in Hin. destruct Hin as [Hin|Hin]; [auto |].
      destruct (Hinv a x Hin) as [-> ->]. auto.
  - split; [| split; [exact Hwr |]].
    + intros j e He Ht Hj.
      destruct (Hentered _ _ j eq_refl Hj) as [Hold|[_ E]]; [eauto | discriminate].
    + intros a x Hin. apply in_app_iff in Hin. destruct Hin as [Hin|[E|[]]]; [auto |].
      discriminate.
  - split; [| split; [| exact Hev]].
    + intros j e He Ht Hj.
      destruct (Hentered _ _ j eq_refl Hj) as [Hold|[_ E]]; [eauto | discriminate].
    + intros path c Hin. apply in_app_iff in Hin. destruct Hin as [Hin|Hin]; [auto |].
      destruct (Nat.eqb _ 0); [destruct Hin as [E|[]]; discriminate | destruct Hin].
  - split; [| split; [exact Hwr | exact Hev]].
    intros j e He Ht Hj.
    destruct (Hentered _ _ j eq_refl Hj) as [Hold|[_ E]]; [eauto | discriminate].
Qed.

Lemma transcribe_pool_recorded (w : World) (d : Disk) (schedule : list (nat * string))
    (now : string) (p : Progress) (entries : list FailedVideo) :
  let st := TranscribeFallback.pool w entries schedule now
              (TranscribeFallback.start p d entries) in
  (forall j e, entries !! j = Some e -> transcribable w (fid e) = true ->
     exists c, captionFiles (TranscribeFallback.disk st) !! caption_path (fid e) = Some c
               /\ id (video c) = fid e /\ captions c <> [])
  /\ (forall path c, In (WroteCaption path c) (TranscribeFallback.writes st) ->
        path = caption_path (id (video c)) /\ captions c <> []
        /\ transcribable w (id (video c)) = true
        /\ In (id (video c)) (ids entries))
  /\ (forall a x, In (Invoke a x) (TranscribeFallback.events st) ->
        a = SpeechToText /\ In x (ids entries)).
Proof.
  intros st.
  assert (Hfin : forall j, (j < length entries)%nat ->
                   TranscribeFallback.phases st !! j = Some TranscribeFallback.Finished).
  { intros j Hj. apply transcribe_pool_finished; [| exact Hj].
    simpl. apply length_replicate. }
  assert (H :
    (forall j e, entries !! j = Some e -> transcribable w (fid e) = true ->
       transcribe_entered_at st j ->
       exists c, captionFiles (TranscribeFallback.disk st) !! caption_path (fid e) = Some c
                 /\ id (video c) = fid e /\ captions c <> [])
    /\ (forall path c, In (WroteCaption path c) (TranscribeFallback.writes st) ->
          path = caption_path (id (video c)) /\ captions c <> []
          /\ transcribable w (id (video c)) = true
          /\ In (id (video c)) (ids entries))
    /\ (forall a x, In (Invoke a x) (TranscribeFallback.events st) ->
          a = SpeechToText /\ In x (ids entries))).
  { apply (transcribe_pool_ind
      (fun s =>
         (forall j e, entries !! j = Some e -> transcribable w (fid e) = true ->
            transcribe_entered_at s j ->
            exists c, captionFiles (TranscribeFallback.disk s) !! caption_path (fid e) = Some c
                      /\ id (video c) = fid e /\ captions c <> [])
         /\ (forall path c, In (WroteCaption path c) (TranscribeFallback.writes s) ->
               path = caption_path (id (video c)) /\ captions c <> []
               /\ transcribable w (id (video c)) = true
               /\ In (id (video c)) (ids entries))
         /\ (forall a x, In (Invoke a x) (TranscribeFallback.events s) ->
               a = SpeechToText /\ In x (ids entries)))).
    - intros s ev. apply transcribe_resume_recorded.
    - split; [| split].
      + intros j e _ _ (ph & Hph & Hne). simpl in Hph. apply lookup_replicate in Hph.
        destruct Hph as [E _]. destruct (Hne E).
      + intros path c [].
      + intros a x []. }
  destruct H as (H1 & H2 & H3). split; [| split; assumption].
  intros j e He Ht. apply (H1 j e He Ht).
  exists TranscribeFallback.Finished. split; [| discriminate].
  apply Hfin. eapply lookup_lt_Some; eauto.
Qed.

(** When an enrichment run ends, every record it has written is stored
    under the path of its own id, has at least one entry, and is that of
    an id that is now on the done list and no longer on the failed list;
    and every id the run has added to the done list has its record on
    disk.  This holds under every schedule. *)
Theorem transcribe_main_done_recorded (w : World) (d : Disk) (args : list string)
    (schedule : list (nat * string)) (now : string) (p p' : Progress) :
  loadProgress d = Ok p ->
  let o := TranscribeFallback.main w d args schedule now in
  ledger_of (final o) = Some p' ->
  (forall path c, In (WroteCaption path c) (written o) ->
     path = caption_path (id (video c)) /\ captions c <> []
     /\ In (id (video c)) (processedVideos p')
     /\ ~ In (id (video c)) (ids (failedVideos p')))
  /\ (forall x, In x (processedVideos p') -> ~ In x (processedVideos p) ->
        exists c, captionFiles (final o) !! caption_path x = Some c
                  /\ id (video c) = x /\ captions c <> []).
Proof.
  intros Hload o Hfinal. subst o.
  assert (Hcase : failedVideos p = [] \/ failedVideos p <> [])
    by (destruct (failedVideos p); [left; reflexivity | right; discriminate]).
  destruct Hcase as [Hnil|Hne].
  { rewrite (transcribe_main_idle w d args schedule now p Hload Hnil) in *.
    cbn [final written] in *.
    assert (p' = p).
    { unfold ledger_of, loadProgress in *. destruct (progressFile d) as [[q|]|];
        congruence. }
    subst p'. split; [intros path c [] | intros x Hx Hnx; contradiction]. }
  rewrite (transcribe_main_run w d args schedule now p Hload Hne) in *.
  cbn [final written captionFiles ledger_of progressFile] in *.
  injection Hfinal as <-. cbn [stamp processedVideos failedVideos].
  destruct (transcribe_pool_ledger w d schedule now p (TranscribeFallback.toProcess args p))
    as [Hdone Hfailed].
  set (entries := TranscribeFallback.toProcess args p) in *.
  destruct (transcribe_pool_recorded w d schedule now p entries) as (Hrec & Hwr & _).
  set (st := TranscribeFallback.pool w entries schedule now
               (TranscribeFallback.start p d entries)) in *.
  split.
  - intros path c Hin. apply in_app_iff in Hin. destruct Hin as [Hin|[E|[]]]; [| discriminate].
    destruct (Hwr path c Hin) as (Hpath & Hcap & Ht & Hid).
    assert (Hmoved : In (id (video c)) (List.filter (transcribable w) (ids entries)))
      by (apply filter_In; auto).
    split; [exact Hpath |]. split; [exact Hcap |]. split.
    + apply list_elem_of_In. rewrite Hdone. apply list_elem_of_In.
      apply in_or_app. right. exact Hmoved.
    + rewrite Hfailed. unfold ids. rewrite in_map_iff. intros (f & Hf & Hin').
      apply filter_In in Hin'. destruct Hin' as [_ Hneg].
      apply negb_true_iff in Hneg.
      assert (Hyes : existsb (String.eqb (fid f))
                       (List.filter (transcribable w) (map fid entries)) = true).
      { apply existsb_exists. exists (id (video c)). split; [exact Hmoved |].
        rewrite Hf. apply String.eqb_refl. }
      unfold ids in Hneg. congruence.
  - intros x Hx Hnx. apply list_elem_of_In in Hx. rewrite Hdone in Hx.
    apply list_elem_of_In, in_app_iff in Hx. destruct Hx as [Hx|Hx]; [contradiction |].
    apply filter_In in Hx. destruct Hx as [Hx Ht].
    unfold ids in Hx. apply in_map_iff in Hx. destruct Hx as (e & <- & He).
    apply list_elem_of_In, list_elem_of_lookup in He. destruct He as [j Hj].
    exact (Hrec j e Hj Ht).
Qed.

(** An enrichment run calls no captions adapter: every adapter it
    invokes is the speech-to-text one, on the id of an entry of the failed
    list it loaded that is within the limit. *)
Theorem transcribe_main_only_speech (w : World) (d : Disk) (args : list string)
    (schedule : list (nat * string)) (now : string) :
  Forall (fun event =>
            match event with
            | Invoke a x =>
                a = SpeechToText
                /\ exists p, loadProgress d = Ok p
                             /\ In x (ids (TranscribeFallback.toProcess args p))
            | _ => True
            end)
         (happened (TranscribeFallback.main w d args schedule now)).
Proof.
  apply Forall_forall. intros event Hin. apply list_elem_of_In in Hin.
  destruct event as [a x| | |]; try exact I.
  destruct (loadProgress d) as [p|e] eqn:Hload.
  2:{ rewrite (transcribe_main_load_error w d args schedule now e Hload) in Hin.
      destruct Hin. }
  assert (Hcase : failedVideos p = [] \/ failedVideos p <> [])
    by (destruct (failedVideos p); [left; reflexivity | right; discriminate]).
  destruct Hcase as [Hnil|Hne].
  { rewrite (transcribe_main_idle w d args schedule now p Hload Hnil) in Hin.
    destruct Hin. }
  rewrite (transcribe_main_run w d args schedule now p Hload Hne) in Hin.
  cbn [happened] in Hin.
  destruct (transcribe_pool_recorded w d schedule now p (TranscribeFallback.toProcess args p))
    as (_ & _ & Hev).
  destruct (Hev a x Hin) as [-> Hx]. split; [reflexivity |]. exists p. auto.
Qed.

Lemma transcribe_main_done_recorded_witness :
  let o := TranscribeFallback.main (Sample.heard ["9bZkp7q19f0"])
             (Sample.disk_of Sample.backlog) ["--limit"; "2"]
             [(1%nat, "2025-02-02T00:00:00.000Z")] "2025-02-02T00:00:09.000Z" in
  exists c, captionFiles (final o) !! caption_path "9bZkp7q19f0" = Some c
            /\ id (video c) = "9bZkp7q19f0" /\ captions c <> [].
Proof.
  cbv zeta.
  destruct (transcribe_main_done_recorded (Sample.heard ["9bZkp7q19f0"])
              (Sample.disk_of Sample.backlog) ["--limit"; "2"]
              [(1%nat, "2025-02-02T00:00:00.000Z")] "2025-02-02T00:00:09.000Z"
              Sample.backlog
              {| processedVideos := ["9bZkp7q19f0"];
                 failedVideos := [Sample.failure "dQw4w9WgXcQ" "2025-01-01T00:00:00.000Z";
                                  Sample.failure "kJQP7kiw5Fk" "2025-01-01T00:00:02.000Z"];
                 lastRun := "2025-02-02T00:00:09.000Z" |})
    as [_ Hrec].
  - reflexivity.
  - vm_compute. reflexivity.
  - apply (Hrec "9bZkp7q19f0").
    + left. reflexivity.
    + intros [].
Defined.

(** ** Records before the ledger *)

Lemma records_app (a b : list Write) : records (a ++ b) = records a ++ records b.
Proof. unfold records. apply omap_app. Qed.

Lemma record_first_snoc (loaded : list string) (ws : list Write) (wr : Write) :
  record_first loaded ws ->
  match wr with
  | WroteProgress p =>
      forall x, In x (processedVideos p) -> In x loaded \/ In (caption_path x) (records ws)
  | _ => True
  end ->
  record_first loaded (ws ++ [wr]).
Proof.
  intros Hws Hwr pre p post E x Hx.
  assert (Hpost : post = [] \/ exists post' last, post = post' ++ [last]).
  { destruct post as [|q post0]; [left; reflexivity | right].
    destruct (@exists_last _ (q :: post0)) as (post' & last & E'); [discriminate |].
    eauto. }
  destruct Hpost as [->|(post' & last & ->)].
  - apply app_inj_tail in E. destruct E as [-> ->]. exact (Hwr x Hx).
  - change (pre ++ WroteProgress p :: post' ++ [last])
      with (pre ++ (WroteProgress p :: post') ++ [last]) in E.
    rewrite app_assoc in E. apply app_inj_tail in E. destruct E as [-> _].
    exact (Hws pre p post' eq_refl x Hx).
Qed.

Lemma grab_resume_record_first (w : World) (pending : list VideoInfo)
    (loaded : list string) (st : GrabCaptions.Run) (ev : nat * string) :
  let inv s :=
    (forall x, In x (processedVideos (GrabCaptions.progress s)) ->
       In x loaded \/ In (caption_path x) (records (GrabCaptions.writes s)))
    /\ (forall i v, pending !! i = Some v ->
          GrabCaptions.phases s !! i = Some GrabCaptions.AwaitSaveCaptions ->
          In (caption_path (id v)) (records (GrabCaptions.writes s)))
    /\ record_first loaded (GrabCaptions.writes s) in
  inv st -> inv (GrabCaptions.resume w pending st ev).
Proof.
  intros inv (Hdone & Hsaving & Hfirst). subst inv. cbv beta. destruct ev as [i now].
  assert (Hother : forall (ph' : GrabCaptions.Phase) (more : list Write) j v,
            ph' <> GrabCaptions.AwaitSaveCaptions ->
            pending !! j = Some v ->
            <[i := ph']> (GrabCaptions.phases st) !! j = Some GrabCaptions.AwaitSaveCaptions ->
            In (caption_path (id v)) (records (GrabCaptions.writes st ++ more))).
  { intros ph' more j v Hne Hv Hj. rewrite records_app. apply in_or_app. left.
    destruct (decide (i = j)) as [->|Hij].
    - destruct (GrabCaptions.phases st !! j) eqn:E.
      + rewrite (lookup_insert_same _ _ _ _ E) in Hj. congruence.
      + apply lookup_ge_None in E.
        rewrite lookup_ge_None_2 in Hj by (rewrite length_insert; exact E). discriminate.
    - rewrite list_lookup_insert_ne in Hj by assumption. eauto. }
  pose proof (grab_resume_step w pending st i now) as Hstep.
  revert Hstep. generalize (GrabCaptions.resume w pending st (i, now)).
  intros st' Hstep.
  destruct Hstep as [|u Hu Hph Hst Hf|u Hu Hph Hst Hf|u Hu Hph|Hph].
  - auto.
  - destruct (after_fetch_captions w now i u st Hf) as (entry & more & _ & ->).
    cbn [GrabCaptions.progress GrabCaptions.phases GrabCaptions.writes].
    split; [| split].
    + intros x Hx. rewrite records_app.
      destruct (Hdone x Hx) as [H|H]; [left; exact H | right; apply in_or_app; left; exact H].
    + intros j v Hv Hj. rewrite records_app. apply in_or_app.
      destruct (decide (i = j)) as [->|Hij].
      * rewrite Hu in Hv. injection Hv as <-. right. left. reflexivity.
      * rewrite list_lookup_insert_ne in Hj by assumption. left. eauto.
    + apply record_first_snoc; [exact Hfirst | exact I].
  - autorewrite with grab.
    cbn [GrabCaptions.progress GrabCaptions.phases GrabCaptions.writes
         GrabCaptions.completed].
    split; [| split].
    + intros x Hx. rewrite records_app.
      destruct (Hdone x Hx) as [H|H]; [left; exact H | right; apply in_or_app; left; exact H].
    + intros j v. apply Hother. destruct (Nat.eqb _ 0); discriminate.
    + destruct (Nat.eqb _ 0); [| rewrite app_nil_r; exact Hfirst].
      apply record_first_snoc; [exact Hfirst |]. cbn [stamp processedVideos].
      rewrite markFailed_processed. exact Hdone.
  - unfold GrabCaptions.after_save. autorewrite with grab.
    cbn [GrabCaptions.progress GrabCaptions.phases GrabCaptions.writes
         GrabCaptions.completed markDone processedVideos].
    assert (Hdone' : forall x, In x (processedVideos (GrabCaptions.progress st) ++ [id u]) ->
              In x loaded \/ In (caption_path x) (records (GrabCaptions.writes st))).
    { intros x Hx. apply in_app_iff in Hx. destruct Hx as [Hx|[<-|[]]]; [auto |].
      right. exact (Hsaving i u Hu Hph). }
    split; [| split].
    + intros x Hx. rewrite records_app.
      destruct (Hdone' x Hx) as [H|H]; [left; exact H | right; apply in_or_app; left; exact H].
    + intros j v. apply Hother. destruct (Nat.eqb _ 0); discriminate.
    + destruct (Nat.eqb _ 0); [| rewrite app_nil_r; exact Hfirst].
      apply record_first_snoc; [exact Hfirst |]. exact Hdone'.
  - cbn [GrabCaptions.set_phase GrabCaptions.progress GrabCaptions.phases GrabCaptions.writes].
    split; [exact Hdone | split; [| exact Hfirst]].
    intros j v Hv Hj.
    pose proof (Hother GrabCaptions.Finished [] j v ltac:(discriminate) Hv Hj) as H.
    rewrite app_nil_r in H. exact H.
Qed.

(** The primary run writes the record before the ledger: every ledger
    snapshot it writes, the periodic ones and the final one, lists as done
    only ids that were done when the run started and ids whose record file
    the run had written before that snapshot.  So the progress file never
    marks done a video whose record is not on disk, at whatever point the
    run is cut, and under every schedule. *)
Theorem grab_main_record_first (w : World) (d : Disk) (schedule : list (nat * string))
    (now : string) (p : Progress) :
  loadProgress d = Ok p ->
  record_first (processedVideos p) (written (GrabCaptions.main w d schedule now)).
Proof.
  intros Hload.
  assert (Hcase : grab_pending w p = [] \/ grab_pending w p <> [])
    by (destruct (grab_pending w p); [left; reflexivity | right; discriminate]).
  destruct Hcase as [Hnil|Hne].
  { rewrite (grab_main_idle w d schedule now p Hload Hnil). cbn [written].
    intros pre q post E. destruct pre as [|a [|b pre']]; discriminate. }
  rewrite (grab_main_run w d schedule now p Hload Hne). cbn [written].
  set (pending := grab_pending w p).
  assert (H : let s := GrabCaptions.pool w pending schedule now
                         (GrabCaptions.start p d pending) in
    (forall x, In x (processedVideos (GrabCaptions.progress s)) ->
       In x (processedVideos p) \/ In (caption_path x) (records (GrabCaptions.writes s)))
    /\ (forall i v, pending !! i = Some v ->
          GrabCaptions.phases s !! i = Some GrabCaptions.AwaitSaveCaptions ->
          In (caption_path (id v)) (records (GrabCaptions.writes s)))
    /\ record_first (processedVideos p) (GrabCaptions.writes s)).
  { apply (grab_pool_ind
      (fun s =>
         (forall x, In x (processedVideos (GrabCaptions.progress s)) ->
            In x (processedVideos p) \/ In (caption_path x) (records (GrabCaptions.writes s)))
         /\ (forall i v, pending !! i = Some v ->
               GrabCaptions.phases s !! i = Some GrabCaptions.AwaitSaveCaptions ->
               In (caption_path (id v)) (records (GrabCaptions.writes s)))
         /\ record_first (processedVideos p) (GrabCaptions.writes s))).
    - intros s ev. apply grab_resume_record_first.
    - split; [| split].
      + intros x Hx. left. exact Hx.
      + intros i v _ H. simpl in H. apply lookup_replicate in H.
        destruct H as [H _]. discriminate.
      + intros pre q post E. simpl in E. destruct pre as [|a [|b pre']]; discriminate. }
  destruct H as (Hdone & _ & Hfirst).
  apply record_first_snoc; [exact Hfirst |]. exact Hdone.
Qed.

Lemma grab_main_record_first_witness :
  let o := GrabCaptions.main (Sample.captioned ["dQw4w9WgXcQ"]) Sample.empty_disk
             [(0%nat, "2025-01-01T00:00:00.000Z")] "2025-01-01T00:00:09.000Z" in
  exists pre p' post,
    written o = pre ++ WroteProgress p' :: post
    /\ processedVideos p' = ["dQw4w9WgXcQ"]
    /\ In (caption_path "dQw4w9WgXcQ") (records pre).
Proof.
  cbv zeta.
  pose proof (grab_main_record_first (Sample.captioned ["dQw4w9WgXcQ"]) Sample.empty_disk
                [(0%nat, "2025-01-01T00:00:00.000Z")] "2025-01-01T00:00:09.000Z"
                fresh eq_refl) as Hfirst.
  eexists [WroteKeep; WroteCaption _ _], _, []. split; [vm_compute; reflexivity |].
  split; [reflexivity |].
  destruct (Hfirst [WroteKeep;
                    WroteCaption (caption_path "dQw4w9WgXcQ")
                      {| video := Sample.video "dQw4w9WgXcQ";
                         captions := [GrabCaptions.entryOfItem Sample.hello];
                         fetchedAt := "2025-01-01T00:00:00.000Z" |}]
              {| processedVideos := ["dQw4w9WgXcQ"]; failedVideos := [];
                 lastRun := "2025-01-01T00:00:09.000Z" |} []
              ltac:(vm_compute; reflexivity) "dQw4w9WgXcQ" ltac:(left; reflexivity))
    as [[]|H].
  exact H.
Defined.

Lemma removed_after_record_snoc (loaded : list FailedVideo) (ws : list Write) (wr : Write) :
  removed_after_record loaded ws ->
  match wr with
  | WroteProgress p =>
      forall f, In f loaded ->
        In f (failedVideos p) \/ In (caption_path (fid f)) (records ws)
  | _ => True
  end ->
  removed_after_record loaded (ws ++ [wr]).
Proof.
  intros Hws Hwr pre p post E f Hf.
  assert (Hpost : post = [] \/ exists post' last, post = post' ++ [last]).
  { destruct post as [|q post0]; [left; reflexivity | right].
    destruct (@exists_last _ (q :: post0)) as (post' & last & E'); [discriminate |].
    eauto. }
  destruct Hpost as [->|(post' & last & ->)].
  - apply app_inj_tail in E. destruct E as [-> ->]. exact (Hwr f Hf).
  - change (pre ++ WroteProgress p :: post' ++ [last])
      with (pre ++ (WroteProgress p :: post') ++ [last]) in E.
    rewrite app_assoc in E. apply app_inj_tail in E. destruct E as [-> _].
    exact (Hws pre p post' eq_refl f Hf).
Qed.

Lemma transcribe_resume_record_first (w : World) (entries : list FailedVideo)
    (done : list string) (failures : list FailedVideo)
    (st : TranscribeFallback.Run) (ev : nat * string) :
  let inv s :=
    (forall x, In x (processedVideos (TranscribeFallback.progress s)) ->
       In x done \/ In (caption_path x) (records (TranscribeFallback.writes s)))
    /\ (forall f, In f failures ->
          In f (failedVideos (TranscribeFallback.progress s)) \/
          In (caption_path (fid f)) (records (TranscribeFallback.writes s)))
    /\ (forall i e, entries !! i = Some e ->
          TranscribeFallback.phases s !! i = Some TranscribeFallback.AwaitSaveCaptions ->
          In (caption_path (fid e)) (records (TranscribeFallback.writes s)))
    /\ record_first done (TranscribeFallback.writes s)
    /\ removed_after_record failures (TranscribeFallback.writes s) in
  inv st -> inv (TranscribeFallback.resume w entries st ev).
Proof.
  intros inv (Hdone & Hfailed & Hsaving & Hfirst & Hafter). subst inv. cbv beta.
  destruct ev as [i now].
  assert (Hother : forall (ph' : TranscribeFallback.Phase) (more : list Write) j e,
            ph' <> TranscribeFallback.AwaitSaveCaptions ->
            entries !! j = Some e ->
            <[i := ph']> (TranscribeFallback.phases st) !! j =
              Some TranscribeFallback.AwaitSaveCaptions ->
            In (caption_path (fid e)) (records (TranscribeFallback.writes st ++ more))).
  { intros ph' more j e Hne He Hj. rewrite records_app. apply in_or_app. left.
    destruct (decide (i = j)) as [->|Hij].
    - destruct (TranscribeFallback.phases st !! j) eqn:E.
      + rewrite (lookup_insert_same _ _ _ _ E) in Hj. congruence.
      + apply lookup_ge_None in E.
        rewrite lookup_ge_None_2 in Hj by (rewrite length_insert; exact E). discriminate.
    - rewrite list_lookup_insert_ne in Hj by assumption. eauto. }
  assert (Hdone_more : forall more x,
            In x (processedVideos (TranscribeFallback.progress st)) ->
            In x done \/ In (caption_path x) (records (TranscribeFallback.writes st ++ more))).
  { intros more x Hx. rewrite records_app.
    destruct (Hdone x Hx) as [H|H]; [left; exact H | right; apply in_or_app; left; exact H]. }
  assert (Hfailed_more : forall more f, In f failures ->
            In f (failedVideos (TranscribeFallback.progress st)) \/
            In (caption_path (fid f)) (records (TranscribeFallback.writes st ++ more))).
  { intros more f Hf. rewrite records_app.
    destruct (Hfailed f Hf) as [H|H]; [left; exact H | right; apply in_or_app; left; exact H]. }
  assert (Hsnap : forall b : bool,
            record_first done
              (TranscribeFallback.writes st ++
               (if b then [WroteProgress (stamp now (TranscribeFallback.progress st))] else []))
            /\ removed_after_record failures
              (TranscribeFallback.writes st ++
               (if b then [WroteProgress (stamp now (TranscribeFallback.progress st))] else []))).
  { intros [|]; [| rewrite app_nil_r; auto]. split.
    - apply record_first_snoc; [exact Hfirst | exact Hdone].
    - apply removed_after_record_snoc; [exact Hafter | exact Hfailed]. }
  transcribe_resume_cases w entries st i now; auto.
  - pose proof (attempt_outcome w now (fid item)) as Hout. rewrite Hattempt in Hout.
    destruct Hout as (_ & Hid & _). rewrite Hid.
    split; [apply Hdone_more | split; [apply Hfailed_more | split; [| split]]].
    + intros j e He Hj. rewrite records_app. apply in_or_app.
      destruct (decide (i = j)) as [->|Hij].
      * rewrite Hv in He. injection He as <-. right. left. reflexivity.
      * rewrite list_lookup_insert_ne in Hj by assumption. left. eauto.
    + apply record_first_snoc; [exact Hfirst | exact I].
    + apply removed_after_record_snoc; [exact Hafter | exact I].
  - split; [apply Hdone_more | split; [apply Hfailed_more | split; [| apply Hsnap]]].
    intros j e. apply Hother. destruct (Nat.eqb _ 0); discriminate.
  - pose proof (Hsaving i item Hv Hph) as Hrec.
    cbn [markTranscribed processedVideos failedVideos].
    split; [| split; [| split; [| split; assumption]]].
    + intros x Hx. apply in_app_iff in Hx. destruct Hx as [Hx|[<-|[]]]; auto.
    + intros f Hf. destruct (Hfailed f Hf) as [H|H]; [| right; exact H].
      destruct (has_id (fid item) f) eqn:E.
      * right. apply has_id_true in E. rewrite E. exact Hrec.
      * left. apply filter_In. split; [exact H |]. rewrite E. reflexivity.
    + intros j e He Hj.
      pose proof (Hother TranscribeFallback.AwaitCleanup [] j e ltac:(discriminate) He Hj) as H.
      rewrite app_nil_r in H. exact H.
  - split; [apply Hdone_more | split; [apply Hfailed_more | split; [| apply Hsnap]]].
    intros j e. apply Hother. destruct (Nat.eqb _ 0); discriminate.
  - split; [exact Hdone | split; [exact Hfailed | split; [| split; assumption]]].
    intros j e He Hj.
    pose proof (Hother TranscribeFallback.Finished [] j e ltac:(discriminate) He Hj) as H.
    rewrite app_nil_r in H. exact H.
Qed.

(** The enrichment run writes the record before the ledger: every
    ledger snapshot it writes, the periodic ones and the final one, lists
    as done only ids that were done when the run started and ids whose
    record file the run had written before that snapshot; and it still
    holds every failed entry the run loaded, but those of an id whose
    record file the run had written before that snapshot.  So a failure is
    never taken off the progress file, and no id is marked done there,
    without the record on disk, at whatever point the run is cut and under
    every schedule. *)
Theorem transcribe_main_record_first (w : World) (d : Disk) (args : list string)
    (schedule : list (nat * string)) (now : string) (p : Progress) :
  loadProgress d = Ok p ->
  let o := TranscribeFallback.main w d args schedule now in
  record_first (processedVideos p) (written o)
  /\ removed_after_record (failedVideos p) (written o).
Proof.
  intros Hload o. subst o.
  assert (Hcase : failedVideos p = [] \/ failedVideos p <> [])
    by (destruct (failedVideos p); [left; reflexivity | right; discriminate]).
  destruct Hcase as [Hnil|Hne].
  { rewrite (transcribe_main_idle w d args schedule now p Hload Hnil). cbn [written].
    split; intros pre q post E; destruct pre; discriminate. }
  rewrite (transcribe_main_run w d args schedule now p Hload Hne). cbn [written].
  set (entries := TranscribeFallback.toProcess args p).
  assert (H : let s := TranscribeFallback.pool w entries schedule now
                         (TranscribeFallback.start p d entries) in
    (forall x, In x (processedVideos (TranscribeFallback.progress s)) ->
       In x (processedVideos p) \/
       In (caption_path x) (records (TranscribeFallback.writes s)))
    /\ (forall f, In f (failedVideos p) ->
          In f (failedVideos (TranscribeFallback.progress s)) \/
          In (caption_path (fid f)) (records (TranscribeFallback.writes s)))
    /\ (forall i e, entries !! i = Some e ->
          TranscribeFallback.phases s !! i = Some TranscribeFallback.AwaitSaveCaptions ->
          In (caption_path (fid e)) (records (TranscribeFallback.writes s)))
    /\ record_first (processedVideos p) (TranscribeFallback.writes s)
    /\ removed_after_record (failedVideos p) (TranscribeFallback.writes s)).
  { apply (transcribe_pool_ind
      (fun s =>
         (forall x, In x (processedVideos (TranscribeFallback.progress s)) ->
            In x (processedVideos p) \/
            In (caption_path x) (records (TranscribeFallback.writes s)))
         /\ (forall f, In f (failedVideos p) ->
               In f (failedVideos (TranscribeFallback.progress s)) \/
               In (caption_path (fid f)) (records (TranscribeFallback.writes s)))
         /\ (forall i e, entries !! i = Some e ->
               TranscribeFallback.phases s !! i = Some TranscribeFallback.AwaitSaveCaptions ->
               In (caption_path (fid e)) (records (TranscribeFallback.writes s)))
         /\ record_first (processedVideos p) (TranscribeFallback.writes s)
         /\ removed_after_record (failedVideos p) (TranscribeFallback.writes s))).
    - intros s ev. apply transcribe_resume_record_first.
    - split; [| split; [| split; [| split]]].
      + intros x Hx. left. exact Hx.
      + intros f Hf. left. exact Hf.
      + intros i e _ H. simpl in H. apply lookup_replicate in H.
        destruct H as [H _]. discriminate.
      + intros pre q post E. simpl in E. destruct pre; discriminate.
      + intros pre q post E. simpl in E. destruct pre; discriminate. }
  destruct H as (Hdone & Hfailed & _ & Hfirst & Hafter). split.
  - apply record_first_snoc; [exact Hfirst | exact Hdone].
  - apply removed_after_record_snoc; [exact Hafter | exact Hfailed].
Qed.

Lemma transcribe_main_record_first_witness :
  let o := TranscribeFallback.main (Sample.heard ["dQw4w9WgXcQ"])
             (Sample.disk_of Sample.stale) []
             [(0%nat, "2025-02-02T00:00:00.000Z")] "2025-02-02T00:00:09.000Z" in
  exists pre p' post,
    written o = pre ++ WroteProgress p' :: post
    /\ processedVideos p' = ["dQw4w9WgXcQ"]
    /\ failedVideos p' = []
    /\ In (caption_path "dQw4w9WgXcQ") (records pre).
Proof.
  cbv zeta.
  destruct (transcribe_main_record_first (Sample.heard ["dQw4w9WgXcQ"])
              (Sample.disk_of Sample.stale) []
              [(0%nat, "2025-02-02T00:00:00.000Z")] "2025-02-02T00:00:09.000Z"
              Sample.stale eq_refl) as [Hfirst _].
  set (c := {| video := {| id := "dQw4w9WgXcQ"; title := "A review";
                           url := "https://youtu.be/dQw4w9WgXcQ";
                           duration := Js.Int 300; playlistId := "unknown";
                           playlistTitle := "Zero Punctuation" |};
               captions := [{| text := "hello"; offset := Js.Int 0; cduration := Js.Int 2 |}];
               fetchedAt := "2025-02-02T00:00:00.000Z" |}).
  set (q := {| processedVideos := ["dQw4w9WgXcQ"]; failedVideos := [];
               lastRun := "2025-02-02T00:00:09.000Z" |}).
  assert (E : written (TranscribeFallback.main (Sample.heard ["dQw4w9WgXcQ"])
                (Sample.disk_of Sample.stale) []
                [(0%nat, "2025-02-02T00:00:00.000Z")] "2025-02-02T00:00:09.000Z") =
              [WroteCaption (caption_path "dQw4w9WgXcQ") c] ++ WroteProgress q :: [])
    by (vm_compute; reflexivity).
  exists [WroteCaption (caption_path "dQw4w9WgXcQ") c], q, [].
  split; [exact E |]. split; [reflexivity |]. split; [reflexivity |].
  destruct (Hfirst _ _ _ E "dQw4w9WgXcQ" ltac:(left; reflexivity)) as [[]|H].
  exact H.
Defined.

(** ** The deployment script *)

Lemma captions_exit (w : World) (d : Disk) (schedule : list (nat * string))
    (now : string) :
  status (exit (GrabCaptions.captions w d schedule now)) = 0
  /\ ran (GrabCaptions.captions w d schedule now) = Some (GrabCaptions.main w d schedule now).
Proof. unfold GrabCaptions.captions, script. cbn [exit ran]. split; [apply command_status | reflexivity]. Qed.

Lemma transcribe_exit (c : ascii) (key : string) (w : World) (d : Disk)
    (args : list string) (schedule : list (nat * string)) (now : string) :
  status (exit (TranscribeFallback.transcribe (Some (String c key)) w d args schedule now)) = 0
  /\ ran (TranscribeFallback.transcribe (Some (String c key)) w d args schedule now) =
     Some (TranscribeFallback.main w d args schedule now).
Proof.
  unfold TranscribeFallback.transcribe, TranscribeFallback.newGroq, script. cbn [exit ran].
  split; [apply command_status | reflexivity].
Qed.

(** The deployment when the key is not set, or empty: the transcription
    is skipped. *)
Lemma deploy_without_key (s : Deploy.Setting) (d : Disk) :
  Deploy.no_key s = true ->
  let o1 := GrabCaptions.main (Deploy.world s) d (Deploy.captions_schedule s)
              (Deploy.captions_end s) in
  Deploy.deploy s d =
    if negb (Deploy.build_status s (final o1) =? 0) then
      {| Deploy.exit_status := Deploy.build_status s (final o1);
         Deploy.stages := [Deploy.Captions; Deploy.Build]; Deploy.disk := final o1;
         Deploy.captions_run := Some o1; Deploy.transcribe_run := None |}
    else
      {| Deploy.exit_status := Deploy.publish_status s;
         Deploy.stages := [Deploy.Captions; Deploy.Build; Deploy.Publish];
         Deploy.disk := final o1;
         Deploy.captions_run := Some o1; Deploy.transcribe_run := None |}.
Proof.
  intros Hkey. cbv zeta. unfold Deploy.deploy.
  destruct (captions_exit (Deploy.world s) d (Deploy.captions_schedule s)
              (Deploy.captions_end s)) as [-> ->].
  cbn [Z.eqb negb]. rewrite Hkey. reflexivity.
Qed.

(** The deployment when the key is set and not empty. *)
Lemma deploy_with_key (s : Deploy.Setting) (d : Disk) :
  Deploy.no_key s = false ->
  let o1 := GrabCaptions.main (Deploy.world s) d (Deploy.captions_schedule s)
              (Deploy.captions_end s) in
  let o2 := TranscribeFallback.main (Deploy.world s) (final o1) Deploy.transcribe_args
              (Deploy.transcribe_schedule s) (Deploy.transcribe_end s) in
  Deploy.deploy s d =
    if negb (Deploy.build_status s (final o2) =? 0) then
      {| Deploy.exit_status := Deploy.build_status s (final o2);
         Deploy.stages := [Deploy.Captions; Deploy.Transcribe; Deploy.Build];
         Deploy.disk := final o2;
         Deploy.captions_run := Some o1; Deploy.transcribe_run := Some o2 |}
    else
      {| Deploy.exit_status := Deploy.publish_status s;
         Deploy.stages := [Deploy.Captions; Deploy.Transcribe; Deploy.Build; Deploy.Publish];
         Deploy.disk := final o2;
         Deploy.captions_run := Some o1; Deploy.transcribe_run := Some o2 |}.
Proof.
  intros Hkey. cbv zeta. unfold Deploy.deploy.
  destruct (captions_exit (Deploy.world s) d (Deploy.captions_schedule s)
              (Deploy.captions_end s)) as [-> ->].
  cbn [Z.eqb negb]. rewrite Hkey. unfold Deploy.no_key in Hkey.
  destruct (Deploy.GROQ_API_KEY s) as [[|c key]|]; try discriminate.
  destruct (transcribe_exit c key (Deploy.world s)
              (final (GrabCaptions.main (Deploy.world s) d (Deploy.captions_schedule s)
                        (Deploy.captions_end s)))
              Deploy.transcribe_args (Deploy.transcribe_schedule s)
              (Deploy.transcribe_end s)) as [-> ->].
  cbn [Z.eqb negb]. reflexivity.
Qed.

(** Neither acquisition step ends the deployment.  The caption grab ends
    with status 0 whatever happens in it (every adapter failing, a
    progress file that does not parse); the transcription is run exactly
    when [GROQ_API_KEY] is set and not empty, so its script finds the key,
    and it ends with status 0 as well.  The steps run are therefore the
    caption grab, the transcription under a key that is set and not empty,
    the build, and the publication when the build succeeded; the status of
    the deployment is that of the publication, or of the build that
    failed. *)
Theorem deploy_stages (s : Deploy.Setting) (d : Disk) :
  let r := Deploy.deploy s d in
  Deploy.stages r =
    [Deploy.Captions] ++
    match Deploy.GROQ_API_KEY s with
    | Some (String _ _) => [Deploy.Transcribe]
    | Some EmptyString => []
    | None => []
    end ++
    [Deploy.Build] ++
    (if Deploy.build_status s (Deploy.disk r) =? 0 then [Deploy.Publish] else [])
  /\ Deploy.exit_status r =
       (if Deploy.build_status s (Deploy.disk r) =? 0
        then Deploy.publish_status s else Deploy.build_status s (Deploy.disk r)).
Proof.
  cbv zeta. destruct (Deploy.no_key s) eqn:Hkey.
  - rewrite (deploy_without_key s d Hkey). unfold Deploy.no_key in Hkey.
    destruct (Deploy.build_status s _ =? 0) eqn:E;
      cbn [negb Deploy.stages Deploy.exit_status Deploy.disk]; rewrite E;
      destruct (Deploy.GROQ_API_KEY s) as [[|c key]|]; try discriminate;
      split; reflexivity.
  - rewrite (deploy_with_key s d Hkey). unfold Deploy.no_key in Hkey.
    destruct (Deploy.build_status s _ =? 0) eqn:E;
      cbn [negb Deploy.stages Deploy.exit_status Deploy.disk]; rewrite E;
      destruct (Deploy.GROQ_API_KEY s) as [[|c key]|]; try discriminate;
      split; reflexivity.
Qed.

Lemma deploy_stages_witness :
  let stages_under key :=
    Deploy.stages (Deploy.deploy (Sample.deployment (Sample.silent ["dQw4w9WgXcQ"]) key)
                     Sample.empty_disk) in
  stages_under None = [Deploy.Captions; Deploy.Build; Deploy.Publish]
  /\ stages_under (Some EmptyString) = [Deploy.Captions; Deploy.Build; Deploy.Publish]
  /\ stages_under (Some "gsk_key") =
     [Deploy.Captions; Deploy.Transcribe; Deploy.Build; Deploy.Publish].
Proof.
  cbv zeta. split; [| split].
  - exact (proj1 (deploy_stages (Sample.deployment (Sample.silent ["dQw4w9WgXcQ"]) None)
                    Sample.empty_disk)).
  - exact (proj1 (deploy_stages
                    (Sample.deployment (Sample.silent ["dQw4w9WgXcQ"]) (Some EmptyString))
                    Sample.empty_disk)).
  - exact (proj1 (deploy_stages
                    (Sample.deployment (Sample.silent ["dQw4w9WgXcQ"]) (Some "gsk_key"))
                    Sample.empty_disk)).
Defined.

Lemma take_all_le {A} (l : list A) (n : nat) : (length l <= n)%nat -> take n l = l.
Proof. intros H. apply take_ge. exact H. Qed.

(** A deployment with the key set retries by speech-to-text, in its
    second step, the videos its first step has just found without
    captions: when the failed list the caption grab leaves has at most 100
    entries, every pending video the resolver has nothing for is retried;
    and when [processVideo] succeeds on it, the deployment ends with its id
    on the done list, off the failed list, and its record on disk. *)
Theorem deploy_transcribes_failures (s : Deploy.Setting) (d : Disk)
    (p p1 : Progress) (v : VideoInfo) :
  loadProgress d = Ok p ->
  Deploy.no_key s = false ->
  In v (grab_pending (Deploy.world s) p) ->
  resolve (Deploy.world s) v = None ->
  ledger_of (final (GrabCaptions.main (Deploy.world s) d (Deploy.captions_schedule s)
                      (Deploy.captions_end s))) = Some p1 ->
  (length (failedVideos p1) <= 100)%nat ->
  let r := Deploy.deploy s d in
  exists o2,
    Deploy.transcribe_run r = Some o2
    /\ In (id v) (retried (happened o2))
    /\ (transcribable (Deploy.world s) (id v) = true ->
        exists p2 c,
          ledger_of (Deploy.disk r) = Some p2
          /\ In (id v) (processedVideos p2)
          /\ ~ In (id v) (ids (failedVideos p2))
          /\ captionFiles (Deploy.disk r) !! caption_path (id v) = Some c
          /\ id (video c) = id v).
Proof.
  intros Hload Hkey Hv Hr Hp1 Hlen r. subst r.
  set (w := Deploy.world s) in *.
  assert (Hne : grab_pending w p <> []) by (intros E; rewrite E in Hv; destruct Hv).
  pose proof (grab_main_run w d (Deploy.captions_schedule s) (Deploy.captions_end s)
                p Hload Hne) as Hrun1.
  cbv zeta in Hrun1.
  destruct (grab_pool_facts w d (Deploy.captions_schedule s) (Deploy.captions_end s)
              p (grab_pending w p)) as (Hfail & _).
  specialize (Hfail v Hv Hr).
  set (st1 := GrabCaptions.pool w (grab_pending w p) (Deploy.captions_schedule s)
                (Deploy.captions_end s) (GrabCaptions.start p d (grab_pending w p))) in *.
  rewrite (deploy_with_key s d Hkey). cbv zeta.
  fold w. rewrite Hrun1 in Hp1 |- *. cbn [final ledger_of progressFile] in Hp1 |- *.
  injection Hp1 as <-.
  set (p1 := stamp (Deploy.captions_end s) (GrabCaptions.progress st1)) in *.
  set (d1 := {| progressFile := Some (Ledger p1);
                captionFiles := captionFiles (GrabCaptions.disk st1) |}).
  assert (Hload1 : loadProgress d1 = Ok p1) by reflexivity.
  assert (Hin1 : In (id v) (ids (failedVideos p1))) by exact Hfail.
  assert (Hne1 : failedVideos p1 <> []).
  { intros E. rewrite E in Hin1. destruct Hin1. }
  assert (Hto : TranscribeFallback.toProcess Deploy.transcribe_args p1 = failedVideos p1).
  { unfold TranscribeFallback.toProcess.
    change (Js.to_integer (TranscribeFallback.limitOf Deploy.transcribe_args)) with 100.
    rewrite slice_take by lia. apply take_all_le. exact Hlen. }
  pose proof (transcribe_main_retried w d1 Deploy.transcribe_args
                (Deploy.transcribe_schedule s) (Deploy.transcribe_end s) p1 Hload1) as Hret.
  rewrite Hto in Hret.
  pose proof (transcribe_main_run w d1 Deploy.transcribe_args
                (Deploy.transcribe_schedule s) (Deploy.transcribe_end s) p1 Hload1 Hne1)
    as Hrun2.
  cbv zeta in Hrun2. rewrite Hto in Hrun2.
  destruct (transcribe_pool_ledger w d1 (Deploy.transcribe_schedule s)
              (Deploy.transcribe_end s) p1 (failedVideos p1)) as [Hdone Hfailed].
  destruct (transcribe_pool_recorded w d1 (Deploy.transcribe_schedule s)
              (Deploy.transcribe_end s) p1 (failedVideos p1)) as (Hrec & _).
  set (st2 := TranscribeFallback.pool w (failedVideos p1) (Deploy.transcribe_schedule s)
                (Deploy.transcribe_end s)
                (TranscribeFallback.start p1 d1 (failedVideos p1))) in *.
  set (o2 := TranscribeFallback.main w d1 Deploy.transcribe_args
               (Deploy.transcribe_schedule s) (Deploy.transcribe_end s)) in *.
  assert (Hcore :
    In (id v) (retried (happened o2))
    /\ (transcribable w (id v) = true ->
        exists p2 c,
          ledger_of (final o2) = Some p2
          /\ In (id v) (processedVideos p2)
          /\ ~ In (id v) (ids (failedVideos p2))
          /\ captionFiles (final o2) !! caption_path (id v) = Some c
          /\ id (video c) = id v)).
  { split.
    - apply list_elem_of_In. rewrite Hret. apply list_elem_of_In. exact Hin1.
    - intros Ht. subst o2. rewrite Hrun2. cbn [final ledger_of progressFile captionFiles].
      assert (Hmoved : In (id v) (List.filter (transcribable w) (ids (failedVideos p1))))
        by (apply filter_In; auto).
      unfold ids in Hin1. apply in_map_iff in Hin1. destruct Hin1 as (e & He & Hin1).
      apply list_elem_of_In, list_elem_of_lookup in Hin1. destruct Hin1 as [j Hj].
      rewrite <- He in Ht.
      destruct (Hrec j e Hj Ht) as (c & Hc & Hid & _). rewrite He in Hc, Hid.
      eexists _, c. split; [reflexivity |]. cbn [stamp processedVideos failedVideos].
      split; [| split; [| split; [exact Hc | exact Hid]]].
      + apply list_elem_of_In. rewrite Hdone. apply list_elem_of_In.
        apply in_or_app. right. exact Hmoved.
      + rewrite Hfailed. unfold ids at 1. rewrite in_map_iff. intros (f & Hf & Hin').
        apply filter_In in Hin'. destruct Hin' as [_ Hneg].
        apply negb_true_iff in Hneg.
        assert (Hyes : existsb (String.eqb (fid f))
                         (List.filter (transcribable w) (ids (failedVideos p1))) = true).
        { apply existsb_exists. exists (id v). split; [exact Hmoved |].
          rewrite Hf. apply String.eqb_refl. }
        congruence. }
  exists o2.
  destruct (negb (Deploy.build_status s (final o2) =? 0));
    cbn [Deploy.transcribe_run Deploy.disk]; (split; [reflexivity | exact Hcore]).
Qed.

Lemma deploy_transcribes_failures_witness :
  let r := Deploy.deploy (Sample.deployment (Sample.spoken ["dQw4w9WgXcQ"]) (Some "gsk_key"))
             Sample.empty_disk in
  exists o2,
    Deploy.transcribe_run r = Some o2
    /\ In "dQw4w9WgXcQ" (retried (happened o2))
    /\ exists p2, ledger_of (Deploy.disk r) = Some p2
                  /\ In "dQw4w9WgXcQ" (processedVideos p2)
                  /\ ~ In "dQw4w9WgXcQ" (ids (failedVideos p2)).
Proof.
  cbv zeta.
  destruct (deploy_transcribes_failures
              (Sample.deployment (Sample.spoken ["dQw4w9WgXcQ"]) (Some "gsk_key"))
              Sample.empty_disk fresh
              {| processedVideos := [];
                 failedVideos := [no_captions "dQw4w9WgXcQ" "2025-03-03T00:00:00.000Z"];
                 lastRun := "2025-03-03T00:00:00.000Z" |}
              (Sample.video "dQw4w9WgXcQ"))
    as (o2 & Hrun & Hretried & Hdone).
  - reflexivity.
  - reflexivity.
  - left. reflexivity.
  - reflexivity.
  - vm_compute. reflexivity.
  - simpl. lia.
  - exists o2. split; [exact Hrun |]. split; [exact Hretried |].
    destruct (Hdone eq_refl) as (p2 & c & H1 & H2 & H3 & _).
    exists p2. auto.
Defined.

(** ** A file without a blank line *)

Lemma split_blank_single (s : string) :
  Js.includes (Vtt.nl +:+ Vtt.nl) s = false -> Js.split_blank_from false s = [s].
Proof.
  induction s as [|c t IH]; intros H; [reflexivity |].
  cbn [Js.includes] in H. apply orb_false_elim in H. destruct H as [Hhere Ht].
  cbn [Js.split_blank_from]. rewrite (IH Ht). cbn [Js.cons_head].
  destruct (Js.is_char Js.LF c) eqn:Hc; [| reflexivity].
  destruct (Js.starts_with_LF t) eqn:Hlf; [| reflexivity].
  exfalso. destruct t as [|c' t']; [discriminate |].
  cbn [Js.starts_with_LF] in Hlf.
  change (Vtt.nl +:+ Vtt.nl) with (String Js.LF (String Js.LF EmptyString)) in Hhere.
  cbn [Js.startsWith] in Hhere. rewrite Hc, Hlf in Hhere. discriminate.
Qed.

(** Blocks are cut at two or more line feeds in a row and nowhere else.
    A file in which no two line feeds are adjacent, such as one whose
    lines end in carriage return and line feed, is a single block: what
    is returned is the entry of the whole content read as one block, if it
    gives one, so one entry at most whatever the number of its cues. *)
Theorem parseVtt_single_block (content : string) :
  Js.includes (Vtt.nl +:+ Vtt.nl) content = false ->
  Vtt.parseVtt content =
    match Vtt.parseBlock content with Some entry => [entry] | None => [] end.
Proof.
  intros H. unfold Vtt.parseVtt, Js.split_blank. rewrite (split_blank_single _ H).
  cbn [omap list_omap]. destruct (Vtt.parseBlock content); reflexivity.
Qed.

Lemma parseVtt_single_block_witness :
  let cr := String "013"%char EmptyString in
  let content :=
    "00:00:01.000 --> 00:00:02.500" +:+ cr +:+ Vtt.nl +:+ "Hello" +:+ cr +:+ Vtt.nl +:+
    cr +:+ Vtt.nl +:+
    "00:00:03.000 --> 00:00:04.000" +:+ cr +:+ Vtt.nl +:+ "Second line" in
  length (Vtt.parseVtt content) = 1%nat
  /\ map offset (Vtt.parseVtt content) = [Js.Int 1000].
Proof.
  cbv zeta.
  rewrite parseVtt_single_block by reflexivity.
  split; vm_compute; reflexivity.
Defined.

(** ** The text of an entry *)

Lemma includes_single_app (c : ascii) (a b : string) :
  Js.includes (String c EmptyString) (a +:+ b) =
  Js.includes (String c EmptyString) a || Js.includes (String c EmptyString) b.
Proof.
  induction a as [|x t IH].
  - change (EmptyString +:+ b) with b. reflexivity.
  - change (String x t +:+ b) with (String x (t +:+ b)).
    rewrite !includes_char, IH. apply orb_assoc.
Qed.

(** What the replacement keeps is taken from the text in order, so a
    character the text does not hold is not in the result. *)
Lemma strip_keeps_absent (c : ascii) (intag : bool) (s : string) :
  Js.includes (String c EmptyString) s = false ->
  Js.includes (String c EmptyString) (Js.strip_tags_from intag s) = false.
Proof.
  revert intag. induction s as [|x t IH]; intros intag H; [destruct intag; reflexivity |].
  rewrite includes_char in H. apply orb_false_elim in H. destruct H as [Hx Ht].
  cbn [Js.strip_tags_from]. destruct intag; [apply IH; exact Ht |].
  destruct (Js.is_char "<" x && Js.opens_tag t); [apply IH; exact Ht |].
  rewrite includes_char, Hx, (IH false Ht). reflexivity.
Qed.

Lemma opens_tag_stripped (t : string) :
  Js.opens_tag t = false -> Js.opens_tag (Js.strip_tags_from false t) = false.
Proof.
  destruct t as [|x t']; [reflexivity |]. cbn [Js.opens_tag Js.strip_tags_from].
  intros H. destruct (Js.is_char ">" x) eqn:Hx.
  - assert (Hlt : Js.is_char "<" x = false).
    { unfold Js.is_char in *. apply Ascii.eqb_eq in Hx. subst x. reflexivity. }
    rewrite Hlt. cbn [andb Js.opens_tag]. rewrite Hx. reflexivity.
  - cbn [negb andb] in H.
    assert (Hopen : Js.opens_tag t' = false).
    { destruct t' as [|y t'']; [reflexivity |]. cbn [Js.opens_tag].
      rewrite includes_char in H. apply orb_false_elim in H. destruct H as [_ H].
      rewrite H. apply andb_false_r. }
    rewrite Hopen, andb_false_r. cbn [Js.opens_tag]. rewrite Hx. cbn [negb andb].
    apply strip_keeps_absent. exact H.
Qed.

(** The replacement leaves nothing for the pattern to match. *)
Lemma strip_tags_from_idem (intag : bool) (s : string) :
  Js.strip_tags_from false (Js.strip_tags_from intag s) = Js.strip_tags_from intag s.
Proof.
  revert intag. induction s as [|c t IH]; intros intag; [destruct intag; reflexivity |].
  cbn [Js.strip_tags_from]. destruct intag; [apply IH |].
  destruct (Js.is_char "<" c && Js.opens_tag t) eqn:E; [apply IH |].
  cbn [Js.strip_tags_from]. rewrite (IH false).
  apply andb_false_iff in E. destruct E as [E|E].
  - rewrite E. reflexivity.
  - rewrite (opens_tag_stripped t E), andb_false_r. reflexivity.
Qed.

Lemma strip_tags_from_length (intag : bool) (s : string) :
  (String.length (Js.strip_tags_from intag s) <= String.length s)%nat.
Proof.
  revert intag. induction s as [|c t IH]; intros intag; [destruct intag; simpl; lia |].
  cbn [Js.strip_tags_from String.length]. destruct intag.
  - specialize (IH (negb (Js.is_char ">" c))). lia.
  - destruct (Js.is_char "<" c && Js.opens_tag t).
    + specialize (IH true). lia.
    + cbn [String.length]. specialize (IH false). lia.
Qed.

(** A text the replacement leaves alone: none of its tails either. *)
Lemma strip_fixed_tail (c : ascii) (t : string) :
  Js.strip_tags (String c t) = String c t ->
  Js.is_char "<" c && Js.opens_tag t = false /\ Js.strip_tags t = t.
Proof.
  unfold Js.strip_tags. cbn [Js.strip_tags_from].
  destruct (Js.is_char "<" c && Js.opens_tag t).
  - intros H. pose proof (strip_tags_from_length true t) as Hlen. rewrite H in Hlen.
    cbn [String.length] in Hlen. lia.
  - intros H. injection H as H. auto.
Qed.

Lemma strip_fixed_suffix (pre s : string) :
  Js.strip_tags (pre +:+ s) = pre +:+ s -> Js.strip_tags s = s.
Proof.
  induction pre as [|c t IH]; intros H; [exact H |].
  change (String c t +:+ s) with (String c (t +:+ s)) in H.
  apply strip_fixed_tail in H. apply IH. apply H.
Qed.

Lemma opens_tag_app (a b : string) :
  Js.opens_tag a = true -> Js.opens_tag (a +:+ b) = true.
Proof.
  destruct a as [|x t]; [discriminate |].
  change (String x t +:+ b) with (String x (t +:+ b)). cbn [Js.opens_tag].
  intros H. apply andb_true_iff in H. destruct H as [Hx Ht].
  rewrite Hx, (includes_app_l _ _ b Ht). reflexivity.
Qed.

Lemma strip_fixed_prefix (s post : string) :
  Js.strip_tags (s +:+ post) = s +:+ post -> Js.strip_tags s = s.
Proof.
  induction s as [|c t IH]; intros H; [reflexivity |].
  change (String c t +:+ post) with (String c (t +:+ post)) in H.
  apply strip_fixed_tail in H. destruct H as [Hno Hrest].
  unfold Js.strip_tags in *. cbn [Js.strip_tags_from].
  assert (Hno' : Js.is_char "<" c && Js.opens_tag t = false).
  { apply andb_false_iff in Hno. apply andb_false_iff. destruct Hno as [E|E]; [auto |].
    right. destruct (Js.opens_tag t) eqn:Ht; [| reflexivity].
    rewrite (opens_tag_app t post Ht) in E. discriminate. }
  rewrite Hno', (IH Hrest). reflexivity.
Qed.

Lemma strip_fixed_trim (s : string) :
  Js.strip_tags s = s -> Js.strip_tags (Js.trim s) = Js.trim s.
Proof.
  intros H. unfold Js.trim.
  destruct (trimStart_suffix s) as [pre Hs].
  destruct (trimEnd_prefix (Js.trimStart s)) as [post Hu].
  apply (strip_fixed_prefix _ post). rewrite <- Hu.
  apply (strip_fixed_suffix pre). rewrite <- Hs. exact H.
Qed.

Lemma split_no_feed (t piece : string) :
  In piece (Js.split Js.LF t) -> Js.includes Vtt.nl piece = false.
Proof.
  revert piece. induction t as [|c t' IH]; intros piece Hin.
  - destruct Hin as [<-|[]]. reflexivity.
  - cbn [Js.split] in Hin. destruct (Js.is_char Js.LF c) eqn:Hc.
    + destruct Hin as [<-|Hin]; [reflexivity | auto].
    + destruct (Js.split Js.LF t') as [|x xs] eqn:Hsplit.
      * destruct Hin as [<-|[]]. unfold Vtt.nl. rewrite includes_char, Hc. reflexivity.
      * cbn [Js.cons_head] in Hin. destruct Hin as [<-|Hin].
        -- unfold Vtt.nl. rewrite includes_char, Hc. cbn [orb].
           apply (IH x). left. reflexivity.
        -- apply IH. right. exact Hin.
Qed.

Lemma join_no_feed (lines : list string) :
  Forall (fun line => Js.includes Vtt.nl line = false) lines ->
  Js.includes Vtt.nl (Js.join " " lines) = false.
Proof.
  induction 1 as [|x rest Hx Hrest IH]; [reflexivity |].
  destruct rest as [|y rest']; [exact Hx |].
  rewrite join_cons. unfold Vtt.nl in *. rewrite !includes_single_app, Hx, IH. reflexivity.
Qed.

Lemma slice_subset {A} (l : list A) (start stop : Z) (x : A) :
  In x (Js.slice l start stop) -> In x l.
Proof.
  unfold Js.slice. intros H. apply list_elem_of_In in H.
  apply list_elem_of_In. apply (subseteq_drop (Z.to_nat (Js.clamp_index (Z.of_nat (length l)) start))).
  eapply subseteq_take. exact H.
Qed.

(** Whatever the file holds, the text of every entry [parseVttFile]
    returns is on one line, and holds nothing the tag pattern matches any
    more: stripping its tags again would leave it as it is. *)
Theorem parseVtt_text_clean (content : string) :
  Forall (fun entry =>
            Js.strip_tags (text entry) = text entry
            /\ Js.includes Vtt.nl (text entry) = false)
         (Vtt.parseVtt content).
Proof.
  unfold Vtt.parseVtt. induction (Js.split_blank content) as [|block rest IH];
    cbn [omap list_omap]; [constructor |].
  destruct (Vtt.parseBlock block) as [entry|] eqn:Hblock; [| exact IH].
  constructor; [| exact IH]. clear IH. unfold Vtt.parseBlock in Hblock.
  destruct (find _ _) as [line|]; [| discriminate].
  destruct (Vtt.match_line line) as [g|]; [| discriminate].
  destruct (Js.nonempty _); [| discriminate].
  injection Hblock as <-. cbn [text]. split.
  - apply strip_fixed_trim. apply strip_tags_from_idem.
  - destruct (Js.includes Vtt.nl (Js.trim _)) eqn:E; [| reflexivity].
    apply includes_trim in E.
    assert (Hno : Js.includes Vtt.nl
              (Js.strip_tags
                 (Js.join " " (Js.slice_from (Js.split Js.LF (Js.trim block))
                    (Js.indexOf line (Js.split Js.LF (Js.trim block)) + 1)))) = false).
    { apply strip_keeps_absent. apply join_no_feed. apply Forall_forall.
      intros piece Hin. apply list_elem_of_In in Hin.
      apply (split_no_feed (Js.trim block)).
      unfold Js.slice_from in Hin. eapply slice_subset. exact Hin. }
    congruence.
Qed.

(** ** [parseVttFile] against the parsing contract *)

(** *** The pattern *)


Lemma after_lit (p s : string) : VttSpec.after p s = Vtt.lit p s.
Proof.
  revert s. induction p as [|a p IH]; intros s; [reflexivity |].
  destruct s as [|b s]; [reflexivity |]. cbn [VttSpec.after Vtt.lit].
  unfold Js.is_char. destruct (Ascii.eqb a b); [apply IH | reflexivity].
Qed.






(** *** The timing line of a block *)







(** *** White space around a block *)









































(** *** Where the two readings agree *)









(** *** The pattern on a timing line *)






(** *** The claim *)



